(** * Ingestion job pipeline of the webhook server: a shallow embedding

    The definitions below follow [src/webhookHandler.ts],
    [src/convertMdxContentToMd.ts] and [src/initialRepoSync.ts]: the
    priority job queue ([JobQueue]), the batch processor
    ([BatchProcessor]), the change-set extractor and the webhook entry
    point ([OpenAIVectorStoreUpdater]), the MDX preprocessor
    ([preprocessMdx]) and the script of the initial synchronisation.  Line
    numbers are those of [src/webhookHandler.ts] unless said otherwise.

    Conventions.
    - JavaScript strings are modelled as [string], a sequence of bytes;
      every pattern and literal that the code compares against is ASCII.
      White space ([\s], [trim]) and line terminators ([.], [^], [$]) are
      the ASCII ones.  JavaScript counts characters outside ASCII among
      them (U+00A0, U+2028, U+2029, U+FEFF and others): where a statement
      depends on white space or on line terminators it is made for ASCII
      text, or for any text when these characters do not change it.
    - JavaScript numbers that only ever hold integers (lengths, counters,
      priorities, millisecond timestamps) are modelled in [Z]; the
      configured limits are integers ([parseInt] of a numeral).
    - Objects that are mutated through several references (queue jobs) live
      in an explicit store indexed by allocation order.
    - A callback of the event loop runs to completion; the queue moves in
      steps, one per callback.  Where an [async] function is suspended at
      an [await], its two halves are two definitions.
    - Calls to external services and libraries (the index store, the
      repository host, the crypto library, [path], [JSON], the markdown
      renderer) are parameters or oracles. *)

From Stdlib Require Import ZArith Lia Bool Ascii.
From Stdlib Require String.
From stdpp Require Import base option list gmap strings pretty.

Local Open Scope Z_scope.

(** ** JavaScript string primitives used by the code *)

Module Js.

(** [s.startsWith(p)] *)
Definition startsWith (s p : string) : bool := String.prefix p s.

(** [s.endsWith(p)]: the last [p.length] characters of [s] are [p]. *)
Definition endsWith (s p : string) : bool :=
  let n := String.length s in
  let k := String.length p in
  (k <=? n)%nat && String.eqb (String.substring (n - k) k s) p.

(** [s.includes(p)] *)
Fixpoint includes (s p : string) : bool :=
  String.prefix p s ||
  match s with
  | EmptyString => false
  | String _ s' => includes s' p
  end.

(** Truthiness of a string value: only the empty string is falsy. *)
Definition truthy (s : string) : bool :=
  match s with EmptyString => false | _ => true end.

(** Truthiness of an optional string ([undefined] is falsy). *)
Definition truthy_opt (o : option string) : bool :=
  match o with Some s => truthy s | None => false end.

(** ASCII lower-casing, enough for [toLowerCase] on extensions and for
    the [i] flag on ASCII patterns. *)
Definition lower_ascii (c : ascii) : ascii :=
  let n := nat_of_ascii c in
  if ((65 <=? n) && (n <=? 90))%nat then ascii_of_nat (n + 32) else c.

Definition upper_ascii (c : ascii) : ascii :=
  let n := nat_of_ascii c in
  if ((97 <=? n) && (n <=? 122))%nat then ascii_of_nat (n - 32) else c.

Fixpoint toLowerCase (s : string) : string :=
  match s with
  | EmptyString => EmptyString
  | String c s' => String (lower_ascii c) (toLowerCase s')
  end.

End Js.

(** ** Regular expressions, as far as the patterns of the code need them

    A backtracking matcher in the style of the ECMAScript semantics:
    alternatives are tried left to right, [*] prefers one more iteration
    and [*?] prefers none, an iteration of a star that consumes nothing is
    not taken, and the first overall success wins. *)

Module Re.

(** Members of a character class. *)
Inductive item :=
| One (c : ascii)
| Range (lo hi : ascii)
| SpaceItem.                 (* \s *)

Inductive t :=
| Eps
| Chr (c : ascii)
| Cls (negated : bool) (items : list item)
| Dot                        (* .  : any character but a line terminator *)
| Seq (r1 r2 : t)
| Alt (r1 r2 : t)
| Star (greedy : bool) (r : t)
| Opt (r : t)
| Grp (n : nat) (r : t)      (* the n-th capturing group *)
| Ref (n : nat)              (* \n *)
| Bol                        (* ^ *)
| Eol.                       (* $ *)

Record flags := mkFlags { global : bool; ignoreCase : bool; multiline : bool }.

(** A position in the input: the characters before it (latest first), the
    characters from it on, and the captures made so far. *)
Record state := mkState {
  before : list ascii;
  rest : list ascii;
  caps : list (nat * list ascii)
}.

(** The white space of [\s] within ASCII: tab, line feed, vertical tab,
    form feed, carriage return and space.  The white space of JavaScript
    outside ASCII (U+00A0, U+1680, U+2000 to U+200A, U+2028, U+2029,
    U+202F, U+205F, U+3000, U+FEFF) is not covered. *)
Definition is_space (c : ascii) : bool :=
  let n := nat_of_ascii c in
  ((9 <=? n) && (n <=? 13) || (n =? 32))%nat.

(** The line terminators within ASCII: line feed and carriage return.
    Those outside ASCII (U+2028, U+2029) are not covered. *)
Definition is_newline (c : ascii) : bool :=
  let n := nat_of_ascii c in ((n =? 10) || (n =? 13))%nat.

Definition item_has (c : ascii) (i : item) : bool :=
  match i with
  | One d => Ascii.eqb c d
  | Range lo hi => ((nat_of_ascii lo <=? nat_of_ascii c)
                    && (nat_of_ascii c <=? nat_of_ascii hi))%nat
  | SpaceItem => is_space c
  end.

Definition class_has (f : flags) (items : list item) (c : ascii) : bool :=
  existsb (item_has c) items
  || (ignoreCase f
      && (existsb (item_has (Js.lower_ascii c)) items
          || existsb (item_has (Js.upper_ascii c)) items)).

Definition chr_eq (f : flags) (c d : ascii) : bool :=
  if ignoreCase f then Ascii.eqb (Js.lower_ascii c) (Js.lower_ascii d)
  else Ascii.eqb c d.

Fixpoint lookup_cap (n : nat) (cs : list (nat * list ascii)) : list ascii :=
  match cs with
  | [] => []
  | (m, s) :: cs' => if (n =? m)%nat then s else lookup_cap n cs'
  end.

(** Consume the literal [w] at the current position. *)
Fixpoint eat (f : flags) (w : list ascii) (st : state) : option state :=
  match w with
  | [] => Some st
  | c :: w' =>
      match rest st with
      | d :: tl =>
          if chr_eq f c d
          then eat f w' (mkState (d :: before st) tl (caps st))
          else None
      | [] => None
      end
  end.

Definition cont := state → option state.

(** [r*] and [r*?]: every iteration has to consume input, so the number of
    iterations is bounded by the length of what is left. *)
Fixpoint star (m : state → cont → option state) (greedy : bool) (n : nat)
  (st : state) (k : cont) : option state :=
  match n with
  | O => k st
  | S n' =>
      let again :=
        m st (fun st' =>
                if (length (rest st') <? length (rest st))%nat
                then star m greedy n' st' k else None) in
      if greedy then
        match again with Some x => Some x | None => k st end
      else
        match k st with Some x => Some x | None => again end
  end.

(** Backtracking matcher in continuation-passing style. *)
Fixpoint run (f : flags) (r : t) (st : state) (k : cont) : option state :=
  match r with
  | Eps => k st
  | Chr c =>
      match rest st with
      | d :: tl =>
          if chr_eq f c d then k (mkState (d :: before st) tl (caps st))
          else None
      | [] => None
      end
  | Cls neg items =>
      match rest st with
      | d :: tl =>
          if xorb neg (class_has f items d)
          then k (mkState (d :: before st) tl (caps st)) else None
      | [] => None
      end
  | Dot =>
      match rest st with
      | d :: tl =>
          if is_newline d then None
          else k (mkState (d :: before st) tl (caps st))
      | [] => None
      end
  | Seq r1 r2 => run f r1 st (fun st' => run f r2 st' k)
  | Alt r1 r2 =>
      match run f r1 st k with
      | Some x => Some x
      | None => run f r2 st k
      end
  | Star greedy r1 => star (run f r1) greedy (length (rest st)) st k
  | Opt r1 =>
      match run f r1 st k with
      | Some x => Some x
      | None => k st
      end
  | Grp n r1 =>
      run f r1 st
          (fun st' =>
             let len := (length (rest st) - length (rest st'))%nat in
             k (mkState (before st') (rest st')
                        ((n, take len (rest st)) :: caps st')))
  | Ref n =>
      match eat f (lookup_cap n (caps st)) st with
      | Some st' => k st'
      | None => None
      end
  | Bol =>
      match before st with
      | [] => k st
      | c :: _ => if multiline f && is_newline c then k st else None
      end
  | Eol =>
      match rest st with
      | [] => k st
      | c :: _ => if multiline f && is_newline c then k st else None
      end
  end.

(** The leftmost match at or after the current position. *)
Definition match_here (f : flags) (r : t) (st : state) : option state :=
  run f r (mkState (before st) (rest st) []) Some.

(** A replacement template: literal text and [$n] references. *)
Inductive piece := Lit (s : string) | Grp_ (n : nat).

Definition expand (tpl : list piece) (cs : list (nat * list ascii))
  : list ascii :=
  flat_map (fun p => match p with
                     | Lit s => String.list_ascii_of_string s
                     | Grp_ n => lookup_cap n cs
                     end) tpl.

(** [String.prototype.replace] scanning from the current position;
    [n] bounds the number of positions tried. *)
Fixpoint replace_from (f : flags) (r : t) (tpl : list piece) (n : nat)
  (st : state) : list ascii :=
  match n with
  | O => rest st
  | S n' =>
      match match_here f r st with
      | Some st' =>
          let out := expand tpl (caps st') in
          if global f then
            if (length (rest st') <? length (rest st))%nat then
              out ++ replace_from f r tpl n' st'
            else
              (* an empty match: copy one character and go on *)
              match rest st with
              | [] => out
              | c :: tl =>
                  out ++ c :: replace_from f r tpl n'
                                (mkState (c :: before st) tl [])
              end
          else out ++ rest st'
      | None =>
          match rest st with
          | [] => []
          | c :: tl =>
              c :: replace_from f r tpl n' (mkState (c :: before st) tl [])
          end
      end
  end.

Definition replace (f : flags) (r : t) (tpl : list piece) (s : string)
  : string :=
  let l := String.list_ascii_of_string s in
  String.string_of_list_ascii
    (replace_from f r tpl (S (length l)) (mkState [] l [])).

(** [s.match(r)] for a pattern without the [g] flag: the matched text. *)
Fixpoint search_from (f : flags) (r : t) (n : nat) (st : state)
  : option (list ascii) :=
  match n with
  | O => None
  | S n' =>
      match match_here f r st with
      | Some st' =>
          Some (take (length (rest st) - length (rest st'))%nat (rest st))
      | None =>
          match rest st with
          | [] => None
          | c :: tl => search_from f r n' (mkState (c :: before st) tl [])
          end
      end
  end.

Definition match_ (f : flags) (r : t) (s : string) : option string :=
  let l := String.list_ascii_of_string s in
  String.string_of_list_ascii <$> search_from f r (S (length l)) (mkState [] l []).

(** The literal [w] as a pattern. *)
Fixpoint lit (w : list ascii) : t :=
  match w with
  | [] => Eps
  | [c] => Chr c
  | c :: w' => Seq (Chr c) (lit w')
  end.

Definition str (s : string) : t := lit (String.list_ascii_of_string s).

Fixpoint seqs (rs : list t) : t :=
  match rs with
  | [] => Eps
  | [r] => r
  | r :: rs' => Seq r (seqs rs')
  end.

Fixpoint alts (rs : list t) : t :=
  match rs with
  | [] => Eps
  | [r] => r
  | r :: rs' => Alt r (alts rs')
  end.

End Re.

(** ** Content normalizer ([convertMdxContentToMd.ts]) *)

Definition nl : string := String "010"%char EmptyString.

Definition gi : Re.flags := Re.mkFlags true true false.
Definition gm : Re.flags := Re.mkFlags true false true.
Definition g_ : Re.flags := Re.mkFlags true false false.
Definition noflags : Re.flags := Re.mkFlags false false false.

(** [[\s\S]] *)
Definition any : Re.t := Re.Cls true [].
(** [[^>]] *)
Definition not_gt : Re.t := Re.Cls true [Re.One ">"%char].
(** The double quote, code 34. *)
Definition dquote : ascii := "034"%char.
(** The class [Q] of the single and the double quote, and its complement. *)
Definition quote : Re.t := Re.Cls false [Re.One "'"%char; Re.One dquote].
Definition not_quote : Re.t := Re.Cls true [Re.One "'"%char; Re.One dquote].
(** [\s] *)
Definition space : Re.t := Re.Cls false [Re.SpaceItem].
Definition lazy (r : Re.t) : Re.t := Re.Star false r.
Definition many (r : Re.t) : Re.t := Re.Star true r.
Definition many1 (r : Re.t) : Re.t := Re.Seq r (Re.Star true r).

(** [/<(names)([^>]*?)>([\s\S]*?)<\/\1>/] *)
Definition element (names : list string) : Re.t :=
  Re.seqs [Re.Chr "<"; Re.Grp 1 (Re.alts (Re.str <$> names));
           Re.Grp 2 (lazy not_gt); Re.Chr ">";
           Re.Grp 3 (lazy any); Re.str "</"; Re.Ref 1; Re.Chr ">"].

(** [/<Name\s+attr=Q([^Q]*?)Q([^>]*?)>([\s\S]*?)<\/Name>/] *)
Definition element_with (name attr : string) : Re.t :=
  Re.seqs [Re.str ("<" +:+ name); many1 space; Re.str (attr +:+ "=");
           quote; Re.Grp 1 (lazy not_quote); quote;
           Re.Grp 2 (lazy not_gt); Re.Chr ">";
           Re.Grp 3 (lazy any); Re.str ("</" +:+ name +:+ ">")].

(** [/<name([^>]*?)>([\s\S]*?)<\/name>/] *)
Definition element_plain (name : string) : Re.t :=
  Re.seqs [Re.str ("<" +:+ name); Re.Grp 1 (lazy not_gt); Re.Chr ">";
           Re.Grp 2 (lazy any); Re.str ("</" +:+ name +:+ ">")].

(** [/<(a|A)\s*\/?>/] *)
Definition void_tag (a b : string) : Re.t :=
  Re.seqs [Re.Chr "<"; Re.Grp 1 (Re.Alt (Re.str a) (Re.str b));
           many space; Re.Opt (Re.Chr "/"); Re.Chr ">"].

Definition upper : Re.t := Re.Cls false [Re.Range "A" "Z"].
Definition alnum : Re.t :=
  Re.Cls false [Re.Range "a" "z"; Re.Range "A" "Z"; Re.Range "0" "9"].

Definition conversions : list (Re.flags * Re.t * list Re.piece) :=
  [ (gi, element ["Callout"; "Note"; "Info"], [Re.Lit "> **Note:** "; Re.Grp_ 3]);
    (gi, element ["Warning"; "Alert"], [Re.Lit "> **⚠️ Warning:** "; Re.Grp_ 3]);
    (gi, element ["Tip"], [Re.Lit "> **💡 Tip:** "; Re.Grp_ 3]);
    (gi, element_with "CodeBlock" "language",
       [Re.Lit "```"; Re.Grp_ 1; Re.Lit nl; Re.Grp_ 3; Re.Lit nl; Re.Lit "```"]);
    (gi, element_plain "pre", [Re.Lit "```"; Re.Lit nl; Re.Grp_ 2; Re.Lit nl; Re.Lit "```"]);
    (gi, element_plain "code", [Re.Lit "`"; Re.Grp_ 2; Re.Lit "`"]);
    (gi, element_with "Tab" "title",
       [Re.Lit "#### "; Re.Grp_ 1; Re.Lit nl; Re.Lit nl; Re.Grp_ 3; Re.Lit nl]);
    (gi, element_plain "Tabs", [Re.Grp_ 2]);
    (gi, element_with "Details" "summary",
       [Re.Lit "<details>"; Re.Lit nl; Re.Lit "<summary>"; Re.Grp_ 1;
        Re.Lit "</summary>"; Re.Lit nl; Re.Lit nl; Re.Grp_ 3; Re.Lit nl; Re.Lit nl;
        Re.Lit "</details>"]);
    (gi, void_tag "br" "BR", [Re.Lit nl; Re.Lit nl]);
    (gi, void_tag "hr" "HR", [Re.Lit nl; Re.Lit "---"; Re.Lit nl]);
    (g_, Re.seqs [Re.Chr "<"; Re.Grp 1 (Re.Seq upper (lazy alnum));
                  Re.Grp 2 (lazy not_gt); Re.Chr ">"; Re.Grp 3 (lazy any);
                  Re.str "</"; Re.Ref 1; Re.Chr ">"], [Re.Grp_ 3]);
    (g_, Re.seqs [Re.Chr "<"; upper; lazy alnum; lazy not_gt; many space;
                  Re.str "/>"], []) ].

(** [/^---\n([\s\S]*?)\n---\n/] *)
Definition frontmatter_re : Re.t :=
  Re.seqs [Re.Bol; Re.str ("---" +:+ nl); Re.Grp 1 (lazy any);
           Re.str (nl +:+ "---" +:+ nl)].

(** [/^word\s+.*$/] *)
Definition statement_re (word : string) : Re.t :=
  Re.seqs [Re.Bol; Re.str word; many1 space; many Re.Dot; Re.Eol].

(** [/\{(B)(.*?)\1\}/], [B] a single quote, a double quote or a backtick *)
Definition jsx_string_re : Re.t :=
  Re.seqs [Re.Chr "{";
           Re.Grp 1 (Re.Cls false [Re.One "'"%char; Re.One dquote; Re.One "`"%char]);
           Re.Grp 2 (lazy Re.Dot); Re.Ref 1; Re.Chr "}"].

(** [/\{([^}]+)\}/] *)
Definition jsx_expr_re : Re.t :=
  Re.seqs [Re.Chr "{"; Re.Grp 1 (many1 (Re.Cls true [Re.One "}"%char])); Re.Chr "}"].

(** [/\n\s*\n\s*\n/] *)
Definition blank_lines_re : Re.t :=
  Re.seqs [Re.str nl; many space; Re.str nl; many space; Re.str nl].

Fixpoint drop_spaces (l : list ascii) : list ascii :=
  match l with
  | c :: l' => if Re.is_space c then drop_spaces l' else l
  | [] => []
  end.

(** [s.trim()], for the white space of [Re.is_space]. *)
Definition trim (s : string) : string :=
  String.string_of_list_ascii
    (rev (drop_spaces (rev (drop_spaces (String.list_ascii_of_string s))))).

Definition preprocessMdx (content : string) : string :=
  let result := content in
  let frontmatterMatch := Re.match_ noflags frontmatter_re result in
  let frontmatter := default "" frontmatterMatch in
  let result :=
    if match frontmatter with EmptyString => false | _ => true end
    then Re.replace noflags frontmatter_re [] result else result in
  let result := Re.replace gm (statement_re "import") [] result in
  let result := Re.replace gm (statement_re "export") [] result in
  let result :=
    fold_left (fun acc c => Re.replace (c.1.1) (c.1.2) (c.2) acc)
              conversions result in
  let result := Re.replace g_ jsx_string_re [Re.Grp_ 2] result in
  let result := Re.replace g_ jsx_expr_re [Re.Lit "`"; Re.Grp_ 1; Re.Lit "`"] result in
  let result := trim (Re.replace g_ blank_lines_re [Re.Lit nl; Re.Lit nl] result) in
  frontmatter +:+ result.

Section Normalizer.

(** [markdownit({ html: true, breaks: false, linkify: true }).render], from
    the [markdown-it] package. *)
Variable md_render : string → string.

Definition convertMdxToMd (mdxContent : string) : string :=
  let preprocessed := preprocessMdx mdxContent in
  let rendered := md_render preprocessed in
  rendered.

End Normalizer.

(** ** Data model ([FileChange], lines 76-81) *)

Module FileChange.
Inductive Status := added | modified | removed.

Record t := mk {
  filename : string;
  status : Status;
  content : option string;
  size : option Z
}.

Definition set_content (c : option string) (f : t) : t :=
  mk (filename f) (status f) c (size f).
End FileChange.

Global Instance FileChange_Status_eq_dec : EqDecision FileChange.Status.
Proof. solve_decision. Defined.

Definition is_removed (f : FileChange.t) : bool :=
  bool_decide (FileChange.status f = FileChange.removed).

(** ** [OpenAIVectorStoreUpdater.calculatePriority] (lines 740-761) *)

Definition criticalExtensions : list string :=
  [".md"; ".txt"; ".json"; ".xml"; ".csv"; ".pdf"; ".docx"].

Definition calculatePriority (files : list FileChange.t) : Z :=
  let priority := Z.max 1 (10 - Z.of_nat (length files) / 5) in
  let hasCriticalFiles :=
    existsb (fun f => existsb (fun ext => Js.endsWith (FileChange.filename f) ext)
                              criticalExtensions) files in
  let priority := if hasCriticalFiles then priority + 2 else priority in
  Z.min 10 priority.

(** The wording of the specification: some file's name ends with one of the
    critical extensions. *)
Definition has_critical_file (files : list FileChange.t) : Prop :=
  ∃ f ext, f ∈ files ∧ ext ∈ criticalExtensions ∧
           Js.endsWith (FileChange.filename f) ext = true.

(** ** Thrown values and results of fallible calls *)

(** A thrown JavaScript value: an [Error] object with its message, or
    anything else ([error instanceof Error] is false). *)
Inductive Thrown := ErrorObj (message : string) | NonError.

(** [error instanceof Error ? error.message : "Unknown error"] *)
Definition error_message (e : Thrown) : string :=
  match e with ErrorObj m => m | NonError => "Unknown error" end.

Inductive Res (A : Type) := Ok (a : A) | Throw (e : Thrown).
Arguments Ok {A} a.
Arguments Throw {A} e.

(** ** [BatchJob] (lines 94-108) *)

Module FileResult.
Inductive Status := success | failed.
Record t := mk {
  filename : string;
  status : Status;
  error : option string
}.
End FileResult.

Module BatchJob.
Inductive Status := pending | processing | completed | failed.
Record t := mk {
  id : string;
  repository : string;
  files : list FileChange.t;
  vectorStoreId : string;
  status : Status;
  startedAt : option Z;
  completedAt : option Z;
  error : option string;
  results : list FileResult.t
}.
End BatchJob.

(** ** [QueueJob] (lines 83-92) *)

Module Job.
Inductive Status := pending | processing | completed | failed | retrying.

Record t := mk {
  id : string;
  repository : string;
  files : list FileChange.t;
  priority : Z;
  createdAt : Z;
  attempts : Z;
  status : Status;
  error : option string
}.

Definition set_status (s : Status) (j : t) : t :=
  mk (id j) (repository j) (files j) (priority j) (createdAt j)
     (attempts j) s (error j).

Definition incr_attempts (j : t) : t :=
  mk (id j) (repository j) (files j) (priority j) (createdAt j)
     (attempts j + 1) (status j) (error j).

Definition set_error (e : option string) (j : t) : t :=
  mk (id j) (repository j) (files j) (priority j) (createdAt j)
     (attempts j) (status j) e.

(** The argument of [addJob]:
    [Omit<QueueJob, "id" | "createdAt" | "attempts" | "status">]. *)
Record input := mkInput {
  in_repository : string;
  in_files : list FileChange.t;
  in_priority : Z;
  in_error : option string
}.
End Job.

Global Instance Job_status_eq_dec : EqDecision Job.Status.
Proof. solve_decision. Defined.

(** ** [JobQueue] (lines 110-263)

    A [QueueJob] object is shared between [this.queue], the closures of the
    timers set by [processJob] and the suspended activations of
    [processJob]; it is therefore kept in [heap], and everything else holds
    its reference (its index in [heap], which is also its admission rank). *)

Module JQ.

(** The [setTimeout] callbacks of [processJob]. *)
Inductive timer_action :=
| RetryTimer (r : nat)      (* [job.status = "pending"], lines 198-200 *)
| EvictTimer (r : nat).     (* removal from [this.queue], lines 217-225 *)

Record timer := mkTimer { due : Z; action : timer_action }.

(** What [this.emit] sends. *)
Inductive emitted_event :=
| jobAdded (r : nat)
| jobStarted (r : nat)
| jobCompleted (r : nat)
| jobRetrying (r : nat)
| jobFailed (r : nat).

(** A value of [this.completed]. *)
Record completed_entry := mkCompleted {
  c_status : string;
  c_result : option BatchJob.t;
  c_error : option string
}.

Record t := mk {
  (* the fields of the class *)
  queue : list nat;
  processing : gset string;
  completed : gmap string completed_entry;
  maxConcurrent : Z;
  maxSize : Z;
  (* the objects and the runtime around it *)
  heap : list Job.t;
  now : Z;                     (* [Date.now()], in milliseconds *)
  timers : list timer;         (* pending [setTimeout] callbacks *)
  awaiting : list nat;         (* activations of [processJob] at their [await] *)
  invoked : list nat;          (* calls of [processFileBatch], latest first *)
  emitted : list emitted_event (* latest first *)
}.

Definition set_queue (x : list nat) (q : t) : t :=
  mk x (processing q) (completed q) (maxConcurrent q) (maxSize q) (heap q)
     (now q) (timers q) (awaiting q) (invoked q) (emitted q).
Definition set_processing (x : gset string) (q : t) : t :=
  mk (queue q) x (completed q) (maxConcurrent q) (maxSize q) (heap q)
     (now q) (timers q) (awaiting q) (invoked q) (emitted q).
Definition set_completed (x : gmap string completed_entry) (q : t) : t :=
  mk (queue q) (processing q) x (maxConcurrent q) (maxSize q) (heap q)
     (now q) (timers q) (awaiting q) (invoked q) (emitted q).
Definition set_heap (x : list Job.t) (q : t) : t :=
  mk (queue q) (processing q) (completed q) (maxConcurrent q) (maxSize q) x
     (now q) (timers q) (awaiting q) (invoked q) (emitted q).
Definition set_now (x : Z) (q : t) : t :=
  mk (queue q) (processing q) (completed q) (maxConcurrent q) (maxSize q)
     (heap q) x (timers q) (awaiting q) (invoked q) (emitted q).
Definition set_timers (x : list timer) (q : t) : t :=
  mk (queue q) (processing q) (completed q) (maxConcurrent q) (maxSize q)
     (heap q) (now q) x (awaiting q) (invoked q) (emitted q).
Definition set_awaiting (x : list nat) (q : t) : t :=
  mk (queue q) (processing q) (completed q) (maxConcurrent q) (maxSize q)
     (heap q) (now q) (timers q) x (invoked q) (emitted q).
Definition set_invoked (x : list nat) (q : t) : t :=
  mk (queue q) (processing q) (completed q) (maxConcurrent q) (maxSize q)
     (heap q) (now q) (timers q) (awaiting q) x (emitted q).
Definition emit (e : emitted_event) (q : t) : t :=
  mk (queue q) (processing q) (completed q) (maxConcurrent q) (maxSize q)
     (heap q) (now q) (timers q) (awaiting q) (invoked q) (e :: emitted q).

(** [setTimeout(callback, delay)] *)
Definition setTimeout (a : timer_action) (delay : Z) (q : t) : t :=
  set_timers (timers q ++ [mkTimer (now q + delay) a]) q.

(** A mutation of the job object behind reference [r]. *)
Definition update_job (r : nat) (f : Job.t → Job.t) (q : t) : t :=
  set_heap (alter f r (heap q)) q.

(** [new JobQueue(maxConcurrent, maxSize)] at time [t0]. *)
Definition create (maxConcurrent maxSize t0 : Z) : t :=
  mk [] ∅ ∅ maxConcurrent maxSize [] t0 [] [] [] [].

End JQ.

Global Instance JQ_timer_action_eq_dec : EqDecision JQ.timer_action.
Proof. solve_decision. Defined.

Global Instance JQ_timer_eq_dec : EqDecision JQ.timer.
Proof. solve_decision. Defined.

(** [array.findIndex(pred)] over the job objects of [this.queue];
    [None] stands for [-1]. *)
Fixpoint findIndex (heap : list Job.t) (pred : Job.t → bool) (l : list nat)
  : option nat :=
  match l with
  | [] => None
  | r :: l' =>
      if from_option pred false (heap !! r) then Some 0%nat
      else S <$> findIndex heap pred l'
  end.

(** [array.find(pred)] over the job objects of [this.queue]. *)
Fixpoint find_job (heap : list Job.t) (pred : Job.t → bool) (l : list nat)
  : option nat :=
  match l with
  | [] => None
  | r :: l' =>
      if from_option pred false (heap !! r) then Some r
      else find_job heap pred l'
  end.

(** [array.splice(i, 0, x)] *)
Definition splice_insert {A} (i : nat) (x : A) (l : list A) : list A :=
  take i l ++ x :: drop i l.

(** [array.splice(i, 1)] *)
Definition splice_remove {A} (i : nat) (l : list A) : list A :=
  take i l ++ drop (S i) l.

Definition capacity_error : Thrown := ErrorObj "Queue is at maximum capacity".

(** [JobQueue.addJob] (lines 126-154). [rnd] is the text that
    [Math.random().toString(36).substr(2, 9)] yields for this call. *)
Definition addJob (job : Job.input) (rnd : string) (q : JQ.t)
  : Res string * JQ.t :=
  if Z.of_nat (length (JQ.queue q)) >=? JQ.maxSize q then
    (Throw capacity_error, q)
  else
    let queueJob :=
      Job.mk ("job_" +:+ pretty (JQ.now q) +:+ "_" +:+ rnd)
             (Job.in_repository job) (Job.in_files job) (Job.in_priority job)
             (JQ.now q) 0 Job.pending (Job.in_error job) in
    let r := length (JQ.heap q) in
    let insertIndex :=
      findIndex (JQ.heap q)
                (fun j => Job.priority j <? Job.in_priority job) (JQ.queue q) in
    let queue' :=
      match insertIndex with
      | None => JQ.queue q ++ [r]
      | Some i => splice_insert i r (JQ.queue q)
      end in
    (Ok (Job.id queueJob),
     JQ.emit (JQ.jobAdded r)
       (JQ.set_queue queue' (JQ.set_heap (JQ.heap q ++ [queueJob]) q))).

(** [JobQueue.processJob] up to its [await] (lines 173-185): the job is
    marked, counted and handed to [processFileBatch]. *)
Definition processJob_start (r : nat) (q : JQ.t) : JQ.t :=
  match JQ.heap q !! r with
  | None => q
  | Some job =>
      let q := JQ.update_job r (fun j => Job.incr_attempts (Job.set_status Job.processing j)) q in
      let q := JQ.set_processing ({[ Job.id job ]} ∪ JQ.processing q) q in
      let q := JQ.emit (JQ.jobStarted r) q in
      let q := JQ.set_invoked (r :: JQ.invoked q) q in
      JQ.set_awaiting (r :: JQ.awaiting q) q
  end.

(** The timer callback of lines 217-225. *)
Definition evict (r : nat) (q : JQ.t) : JQ.t :=
  match JQ.heap q !! r with
  | None => q
  | Some job =>
      let index :=
        findIndex (JQ.heap q) (fun j => String.eqb (Job.id j) (Job.id job))
                  (JQ.queue q) in
      match index with
      | Some i =>
          if bool_decide (Job.status job = Job.completed)
             || bool_decide (Job.status job = Job.failed)
          then JQ.set_queue (splice_remove i (JQ.queue q)) q
          else q
      | None => q
      end
  end.

(** How the awaited [processFileBatch] promise settles. *)
Inductive outcome := Resolved (result : BatchJob.t) | Rejected (e : Thrown).

(** [JobQueue.processJob] from its [await] on (lines 187-226). *)
Definition processJob_settle (r : nat) (o : outcome) (q : JQ.t) : JQ.t :=
  match JQ.heap q !! r with
  | None => q
  | Some job =>
      let q :=
        match o with
        | Resolved result =>
            let q := JQ.update_job r (Job.set_status Job.completed) q in
            let q := JQ.set_completed
                       (<[ Job.id job := JQ.mkCompleted "completed" (Some result) None ]>
                          (JQ.completed q)) q in
            JQ.emit (JQ.jobCompleted r) q
        | Rejected e =>
            if Job.attempts job <? 3 then
              let q := JQ.update_job r (Job.set_status Job.retrying) q in
              let q := JQ.setTimeout (JQ.RetryTimer r)
                                     (2 ^ Job.attempts job * 1000) q in
              JQ.emit (JQ.jobRetrying r) q
            else
              let msg := error_message e in
              let q := JQ.update_job r
                         (fun j => Job.set_error (Some msg) (Job.set_status Job.failed j)) q in
              let q := JQ.set_completed
                         (<[ Job.id job := JQ.mkCompleted "failed" None (Some msg) ]>
                            (JQ.completed q)) q in
              JQ.emit (JQ.jobFailed r) q
        end in
      (* finally *)
      let q := JQ.set_processing (JQ.processing q ∖ {[ Job.id job ]}) q in
      JQ.setTimeout (JQ.EvictTimer r) (5 * 60 * 1000) q
  end.

(** The body of the [setInterval] callback of [processQueue]
    (lines 158-168); [fuel] bounds the iterations of the [while]. *)
Fixpoint processQueue_loop (fuel : nat) (q : JQ.t) : JQ.t :=
  match fuel with
  | O => q
  | S fuel' =>
      if (Z.of_nat (size (JQ.processing q)) <? JQ.maxConcurrent q)
         && (0 <? Z.of_nat (length (JQ.queue q)))
      then
        match find_job (JQ.heap q)
                       (fun j => bool_decide (Job.status j = Job.pending))
                       (JQ.queue q) with
        | Some r => processQueue_loop fuel' (processJob_start r q)
        | None => q
        end
      else q
  end.

(** Every iteration that does not leave the loop turns one pending job of
    the queue into a processing one, so [length queue] iterations suffice
    (lemma [processQueue_tick_fuel]). *)
Definition processQueue_tick (q : JQ.t) : JQ.t :=
  processQueue_loop (length (JQ.queue q)) q.

(** A timer callback runs. *)
Definition run_timer (a : JQ.timer_action) (q : JQ.t) : JQ.t :=
  match a with
  | JQ.RetryTimer r => JQ.update_job r (Job.set_status Job.pending) q
  | JQ.EvictTimer r => evict r q
  end.

(** The activation of [processJob] for [r] resumes and is no longer
    suspended. *)
Fixpoint remove_first (r : nat) (l : list nat) : list nat :=
  match l with
  | [] => []
  | x :: l' => if bool_decide (x = r) then l' else x :: remove_first r l'
  end.

(** What can happen to a queue, one event-loop turn at a time. *)
Inductive event :=
| EvAddJob (job : Job.input) (rnd : string)  (* a call of [addJob] *)
| EvTick                                     (* the [setInterval] callback *)
| EvSettle (r : nat) (o : outcome)           (* an awaited batch settles *)
| EvTimer (k : nat)                          (* the [k]-th pending timer fires *)
| EvAdvance (dt : Z).                        (* [dt] milliseconds pass *)

(** [exec e q] is the queue after [e], or [None] when [e] cannot happen in
    [q]: a batch settles only for an activation that awaits it, a timer
    fires only when it is due, time only moves forward.  A call of [addJob]
    that throws leaves the queue as it is. *)
Definition exec (e : event) (q : JQ.t) : option JQ.t :=
  match e with
  | EvAddJob job rnd => Some (snd (addJob job rnd q))
  | EvTick => Some (processQueue_tick q)
  | EvSettle r o =>
      if bool_decide (r ∈ JQ.awaiting q) then
        Some (processJob_settle r o
                (JQ.set_awaiting (remove_first r (JQ.awaiting q)) q))
      else None
  | EvTimer k =>
      match JQ.timers q !! k with
      | Some tm =>
          if JQ.due tm <=? JQ.now q then
            Some (run_timer (JQ.action tm)
                    (JQ.set_timers (delete k (JQ.timers q)) q))
          else None
      | None => None
      end
  | EvAdvance dt =>
      if 0 <=? dt then Some (JQ.set_now (JQ.now q + dt) q) else None
  end.

Fixpoint run (es : list event) (q : JQ.t) : option JQ.t :=
  match es with
  | [] => Some q
  | e :: es' => exec e q ≫= run es'
  end.

(** The queues a process can be in. *)
Definition reachable (q : JQ.t) : Prop :=
  ∃ mc ms t0 es, run es (JQ.create mc ms t0) = Some q.

(** ** The collaborators of the batch processor

    The index service and the file system answer each call with a value or
    with an exception; the answers are given by an oracle. *)

Module Api.
Inductive call :=
| VsList                                   (* [openai.vectorStores.list()] *)
| VsCreate (name : string)                 (* [openai.vectorStores.create] *)
| VsFilesList (vs : string)                (* [openai.vectorStores.files.list] *)
| FilesRetrieve (id : string)              (* [openai.files.retrieve] *)
| VsFilesDel (vs id : string)              (* [openai.vectorStores.files.del] *)
| FilesDel (id : string)                   (* [openai.files.del] *)
| FilesCreate (path : string)              (* [openai.files.create] *)
| VsFilesCreate (vs id : string).          (* [openai.vectorStores.files.create] *)

Record t := mk {
  vs_list : Res unit;
  vs_create : string → Res string;         (* the id of the new store *)
  vs_files_list : string → Res (list string);  (* the ids of the entries *)
  files_retrieve : string → Res string;    (* the stored file name *)
  vs_files_del : string → string → Res unit;
  files_del : string → Res unit;
  files_create : string → Res string;      (* the id of the uploaded file *)
  vs_files_create : string → string → Res unit
}.
End Api.

Module Fs.
Record t := mk {
  writeFile : string → string → Res unit;
  unlink : string → Res unit
}.
End Fs.

(** What a run of the batch processor does, in order.  The requests of the
    callbacks that run concurrently are listed for one arrival order of the
    answers: that of the requests. *)
Module Trace.
Inductive ev :=
| Request (who : option nat) (c : Api.call)
    (* [who] is the position of the file whose callback issues the call;
       [None] for the method itself *)
| WriteFile (path content : string)
| Unlink (path : string)
| AwaitAll (members : list nat)            (* [await Promise.all(batch)] returns *)
| Sleep (ms : Z).                          (* [await new Promise(setTimeout)] *)
End Trace.

(** [s.replace(/[\/\\]/g, "_")] *)
Fixpoint replace_separators (s : string) : string :=
  match s with
  | EmptyString => EmptyString
  | String c s' =>
      String (if Ascii.eqb c "/" || Ascii.eqb c "\" then "_"%char else c)
             (replace_separators s')
  end.

(** Lines 406-409 and 478-483: the name under which a file is stored. *)
Definition encodeFilename (filename : string) : string :=
  let encodedFilename := replace_separators filename in
  if Js.endsWith encodedFilename ".mdx" then
    (* [.replace(/\.mdx$/, ".md")] *)
    String.substring 0 (String.length encodedFilename - 4) encodedFilename
      +:+ ".md"
  else encodedFilename.

(** [s.replace("/", "-")]: the first occurrence only. *)
Fixpoint replace_first_slash (s : string) : string :=
  match s with
  | EmptyString => EmptyString
  | String c s' =>
      if Ascii.eqb c "/" then String "-" s'
      else String c (replace_first_slash s')
  end.

Definition file_success (name : string) : FileResult.t :=
  FileResult.mk name FileResult.success None.

Definition file_failed (name : string) (msg : string) : FileResult.t :=
  FileResult.mk name FileResult.failed (Some msg).

(** The loop that awaits the promises in groups (lines 430-439 and
    525-534).  [rest_of i] are the requests that the callback of item [i]
    still makes after its first one. *)
Fixpoint await_groups (fuel : nat) (batchSize : nat) (delay : Z)
  (rest_of : nat → list Trace.ev) (i n : nat) : list Trace.ev :=
  match fuel with
  | O => []
  | S fuel' =>
      if (i <? n)%nat then
        let batch := seq i (Nat.min batchSize (n - i)) in
        flat_map rest_of batch
          ++ Trace.AwaitAll batch
          :: (if (i + batchSize <? n)%nat then [Trace.Sleep delay] else [])
          ++ await_groups fuel' batchSize delay rest_of (i + batchSize) n
      else []
  end.

Section BatchProcessor.

(** [path.basename] and [path.join] of Node, [config.tempDir], the
    configured [VECTOR_STORE_ID] and the markdown renderer. *)
Variable path_basename : string → string.
Variable path_join : string → string → string.
Variable tempDir : string.
Variable VECTOR_STORE_ID : option string.
Variable md_render : string → string.

Variable api : Api.t.
Variable fs : Fs.t.

(** [BatchProcessor.getOrCreateVectorStore] (lines 312-342) *)
Definition getOrCreateVectorStore (repoFullName : string)
  : Res string * list Trace.ev :=
  match Api.vs_list api with
  | Throw e => (Throw e, [Trace.Request None Api.VsList])
  | Ok _ =>
      match VECTOR_STORE_ID with
      | Some vid =>
          if Js.truthy vid then (Ok vid, [Trace.Request None Api.VsList])
          else
            let name := "repo-" +:+ replace_first_slash repoFullName in
            (Api.vs_create api name,
             [Trace.Request None Api.VsList; Trace.Request None (Api.VsCreate name)])
      | None =>
          let name := "repo-" +:+ replace_first_slash repoFullName in
          (Api.vs_create api name,
           [Trace.Request None Api.VsList; Trace.Request None (Api.VsCreate name)])
      end
  end.

(** Lines 393-400: the map from stored file names to entry ids. *)
Fixpoint build_file_map (ids : list string) (m : gmap string string)
  : gmap string string :=
  match ids with
  | [] => m
  | id :: ids' =>
      match Api.files_retrieve api id with
      | Ok name => build_file_map ids' (<[ name := id ]> m)
      | Throw _ => build_file_map ids' m
      end
  end.

(** The callback of [files.map] in [batchRemoveFiles] (lines 403-427):
    the calls it makes and the result it pushes. *)
Definition remove_callback (vectorStoreId : string)
  (vectorStoreFileMap : gmap string string) (file : FileChange.t)
  : list Api.call * FileResult.t :=
  let encodedFilename := encodeFilename (FileChange.filename file) in
  match vectorStoreFileMap !! encodedFilename with
  | Some fileId =>
      if Js.truthy fileId then
        match Api.vs_files_del api vectorStoreId fileId with
        | Throw e =>
            ([Api.VsFilesDel vectorStoreId fileId],
             file_failed (FileChange.filename file) (error_message e))
        | Ok _ =>
            match Api.files_del api fileId with
            | Throw e =>
                ([Api.VsFilesDel vectorStoreId fileId; Api.FilesDel fileId],
                 file_failed (FileChange.filename file) (error_message e))
            | Ok _ =>
                ([Api.VsFilesDel vectorStoreId fileId; Api.FilesDel fileId],
                 file_success (FileChange.filename file))
            end
        end
      else ([], file_success (FileChange.filename file))
  | None => ([], file_success (FileChange.filename file))
  end.

(** Lines 443-451: the [catch] of [batchRemoveFiles]. *)
Fixpoint mark_all_failed (files : list FileChange.t)
  (results : list FileResult.t) : list FileResult.t :=
  match files with
  | [] => results
  | file :: files' =>
      mark_all_failed files'
        (if existsb (fun r => String.eqb (FileResult.filename r)
                                         (FileChange.filename file)) results
         then results
         else results ++ [file_failed (FileChange.filename file)
                                      "Batch remove operation failed"])
  end.

Definition requests_of (who : nat) (cs : list Api.call) : list Trace.ev :=
  Trace.Request (Some who) <$> cs.

(** The first request of every callback, issued while [map] runs. *)
Definition first_requests (outs : list (list Api.call * FileResult.t))
  : list Trace.ev :=
  flat_map (fun p => requests_of p.1 (take 1 p.2.1)) (imap pair outs).

Definition later_requests (outs : list (list Api.call * FileResult.t))
  (i : nat) : list Trace.ev :=
  match outs !! i with
  | Some o => requests_of i (drop 1 o.1)
  | None => []
  end.

(** [BatchProcessor.batchRemoveFiles] (lines 374-453): the [results] array
    after the call, and what was done.  A callback that finds no entry
    pushes its result while [map] runs, the others after their requests.
    The index store is taken to answer the requests in the order in which
    they were sent; it may answer in any other, and then the later results
    and requests come in that order: the statements about them are made
    up to their order. *)
Definition batchRemoveFiles (vectorStoreId : string)
  (files : list FileChange.t) (results : list FileResult.t)
  : list FileResult.t * list Trace.ev :=
  match Api.vs_files_list api vectorStoreId with
  | Throw _ =>
      (mark_all_failed files results,
       [Trace.Request None (Api.VsFilesList vectorStoreId)])
  | Ok ids =>
      let vectorStoreFileMap := build_file_map ids ∅ in
      let outs := remove_callback vectorStoreId vectorStoreFileMap <$> files in
      let pushed_in_map := filter (fun o => o.1 = []) outs in
      let pushed_later := filter (fun o => o.1 ≠ []) outs in
      (results ++ (snd <$> pushed_in_map) ++ (snd <$> pushed_later),
       Trace.Request None (Api.VsFilesList vectorStoreId)
         :: (Trace.Request None ∘ Api.FilesRetrieve <$> ids)
         ++ first_requests outs
         ++ await_groups (length outs) 5 1000 (later_requests outs)
                         0 (length outs))
  end.

(** [BatchProcessor.removeExistingFile] (lines 544-561): the calls made.
    Whatever fails is caught and logged. *)
Fixpoint removeExisting_loop (vectorStoreId encodedFilename : string)
  (ids : list string) : list Api.call :=
  match ids with
  | [] => []
  | id :: ids' =>
      Api.FilesRetrieve id ::
      match Api.files_retrieve api id with
      | Throw _ => []
      | Ok name =>
          if String.eqb name encodedFilename then
            Api.VsFilesDel vectorStoreId id ::
            match Api.vs_files_del api vectorStoreId id with
            | Throw _ => []
            | Ok _ => [Api.FilesDel id]
            end
          else removeExisting_loop vectorStoreId encodedFilename ids'
      end
  end.

Definition removeExistingFile (vectorStoreId encodedFilename : string)
  : list Api.call :=
  Api.VsFilesList vectorStoreId ::
  match Api.vs_files_list api vectorStoreId with
  | Throw _ => []
  | Ok ids => removeExisting_loop vectorStoreId encodedFilename ids
  end.

(** [BatchProcessor.createTemporaryFile] (lines 563-573) *)
Definition tempFilePath (filename : string) : string :=
  path_join tempDir (path_basename filename).

Definition createTemporaryFile (filename content : string) : Res string :=
  let path := tempFilePath filename in
  match Fs.writeFile fs path content with
  | Ok _ => Ok path
  | Throw e => Throw e
  end.

Record TempFile := mkTempFile {
  encodedFilename : string;
  tempPath : string;
  file : FileChange.t
}.

(** Lines 475-490.  The second component is [tempFiles] as it is when the
    loop ends or throws. *)
Fixpoint create_temp_files (files : list FileChange.t)
  (tempFiles : list TempFile) : option Thrown * list TempFile * list Trace.ev :=
  match files with
  | [] => (None, tempFiles, [])
  | f :: files' =>
      match FileChange.content f with
      | Some c =>
          if Js.truthy c then
            let encoded0 := replace_separators (FileChange.filename f) in
            let content :=
              if Js.endsWith encoded0 ".mdx" then convertMdxToMd md_render c
              else c in
            let encoded := encodeFilename (FileChange.filename f) in
            let ev := Trace.WriteFile (tempFilePath encoded) content in
            match createTemporaryFile encoded content with
            | Throw e => (Some e, tempFiles, [ev])
            | Ok path =>
                let '(r, tfs, evs) :=
                  create_temp_files files'
                    (tempFiles ++ [mkTempFile encoded path f]) in
                (r, tfs, ev :: evs)
            end
          else create_temp_files files' tempFiles
      | None => create_temp_files files' tempFiles
      end
  end.

(** The callback of [tempFiles.map] (lines 494-521). *)
Definition upload_callback (vectorStoreId : string) (tf : TempFile)
  : list Api.call * FileResult.t :=
  let before :=
    if bool_decide (FileChange.status (file tf) = FileChange.modified)
    then removeExistingFile vectorStoreId (encodedFilename tf) else [] in
  match Api.files_create api (tempPath tf) with
  | Throw e =>
      (before ++ [Api.FilesCreate (tempPath tf)],
       file_failed (encodedFilename tf) (error_message e))
  | Ok uploaded =>
      match Api.vs_files_create api vectorStoreId uploaded with
      | Throw e =>
          (before ++ [Api.FilesCreate (tempPath tf);
                      Api.VsFilesCreate vectorStoreId uploaded],
           file_failed (encodedFilename tf) (error_message e))
      | Ok _ =>
          (before ++ [Api.FilesCreate (tempPath tf);
                      Api.VsFilesCreate vectorStoreId uploaded],
           file_success (encodedFilename tf))
      end
  end.

(** Lines 492-534, once the temporary files exist: what is done, in order.
    [tempFiles.map] runs every callback up to its first [await]; the loop
    then awaits the promises three at a time.  The later requests of a
    callback are placed where the loop waits for it, which is one of the
    orders in which the index store may answer; only the first requests
    have their place fixed by the code. *)
Definition upload_schedule (vectorStoreId : string) (tempFiles : list TempFile)
  : list Trace.ev :=
  let outs := upload_callback vectorStoreId <$> tempFiles in
  first_requests outs
    ++ await_groups (length outs) 3 2000 (later_requests outs) 0 (length outs).

(** [BatchProcessor.batchAddOrUpdateFiles] (lines 455-542).  Every callback
    pushes its result when its last request is answered; the results are
    listed here for answers that come in the order of the files, and the
    statements about them are made up to their order. *)
Definition batchAddOrUpdateFiles (vectorStoreId : string)
  (files : list FileChange.t) (results : list FileResult.t)
  : Res (list FileResult.t) * list Trace.ev :=
  let '(thrown, tempFiles, writes) := create_temp_files files [] in
  let cleanup := Trace.Unlink ∘ tempPath <$> tempFiles in
  match thrown with
  | Some e => (Throw e, writes ++ cleanup)
  | None =>
      let outs := upload_callback vectorStoreId <$> tempFiles in
      (Ok (results ++ (snd <$> outs)),
       writes ++ upload_schedule vectorStoreId tempFiles ++ cleanup)
  end.

(** [BatchProcessor.processBatchFiles] (lines 344-372) *)
Definition processBatchFiles (vectorStoreId : string)
  (files : list FileChange.t) : Res (list FileResult.t) * list Trace.ev :=
  let results := [] in
  let toRemove := filter (fun f => FileChange.status f = FileChange.removed) files in
  let toAddOrUpdate :=
    filter (fun f => FileChange.status f ≠ FileChange.removed
                     ∧ Js.truthy_opt (FileChange.content f) = true) files in
  let '(results, tr1) :=
    match toRemove with
    | [] => (results, [])
    | _ => batchRemoveFiles vectorStoreId toRemove results
    end in
  match toAddOrUpdate with
  | [] => (Ok results, tr1)
  | _ =>
      let '(r, tr2) := batchAddOrUpdateFiles vectorStoreId toAddOrUpdate results in
      (r, tr1 ++ tr2)
  end.

(** [BatchProcessor.processFileBatch] (lines 266-310).  Every exception of
    the body is caught and recorded in the batch that is returned. *)
Definition processFileBatch (now later : Z) (rnd : string)
  (repository : string) (files : list FileChange.t)
  : BatchJob.t * list Trace.ev :=
  let batchId := "batch_" +:+ pretty now +:+ "_" +:+ rnd in
  match getOrCreateVectorStore repository with
  | (Throw e, tr) =>
      (BatchJob.mk batchId repository files "" BatchJob.failed (Some now)
                   (Some later) (Some (error_message e)) [], tr)
  | (Ok vectorStoreId, tr) =>
      match processBatchFiles vectorStoreId files with
      | (Throw e, tr') =>
          (BatchJob.mk batchId repository files vectorStoreId BatchJob.failed
                       (Some now) (Some later) (Some (error_message e)) [],
           tr ++ tr')
      | (Ok results, tr') =>
          (BatchJob.mk batchId repository files vectorStoreId
                       BatchJob.completed (Some now) (Some later) None results,
           tr ++ tr')
      end
  end.

End BatchProcessor.

(** ** The webhook payload, as [JSON.parse] hands it over

    The payload is cast to [WebhookPayload] without validation, so a field
    can be missing.  Optional here are the fields whose absence makes the
    code throw: [repository], [repository.owner] and the three file lists
    of a commit. *)

Module Payload.
Record owner := mkOwner { login : string }.

Record repository := mkRepository {
  name : string;
  owner_of : option owner;
  full_name : string
}.

Record commit := mkCommit {
  id : string;
  added : option (list string);
  removed : option (list string);
  modified : option (list string);
  message : string
}.

Record t := mk {
  repository_of : option repository;
  commits : option (list commit);
  ref : option string;
  before : option string;
  after : option string
}.
End Payload.

(** [TypeError: Cannot read properties of undefined] *)
Definition type_error (prop : string) : Thrown :=
  ErrorObj ("Cannot read properties of undefined (reading '" +:+ prop +:+ "')").

Definition SUPPORTED_EXTENSIONS : list string :=
  [".md"; ".txt"; ".json"; ".xml"; ".csv"; ".pdf"; ".docx"; ".ts"; ".js"; ".mdx"].

(** [/^Merge pull request/i] *)
Definition merge_commit_re : Re.t := Re.Seq Re.Bol (Re.str "Merge pull request").

Definition is_merge_commit (c : Payload.commit) : bool :=
  bool_decide (is_Some (Re.match_ (Re.mkFlags false true false) merge_commit_re
                                  (Payload.message c))).

Definition changes_of (st : FileChange.Status) (names : list string)
  : list FileChange.t :=
  (fun f => FileChange.mk f st None None) <$> names.

(** Lines 687-702: the loop over the commits.  [commit.added.map] and its
    two siblings throw when the list is missing. *)
Fixpoint collect_changes (commits : list Payload.commit)
  : Res (list FileChange.t) :=
  match commits with
  | [] => Ok []
  | c :: cs =>
      match Payload.added c with
      | None => Throw (type_error "map")
      | Some a =>
          match Payload.modified c with
          | None => Throw (type_error "map")
          | Some m =>
              match Payload.removed c with
              | None => Throw (type_error "map")
              | Some r =>
                  match collect_changes cs with
                  | Throw e => Throw e
                  | Ok more =>
                      Ok (changes_of FileChange.added a
                            ++ changes_of FileChange.modified m
                            ++ changes_of FileChange.removed r ++ more)
                  end
              end
          end
      end
  end.

(** The answer of [octokit.rest.repos.getContent]. *)
Module Content.
Inductive response :=
| Data (content : option string)   (* [response.data], with or without [content] *)
| Fails (e : Thrown).
End Content.

(** [s.split(sep)] for a one-character separator. *)
Fixpoint split_on (sep : ascii) (s : string) : list string :=
  match s with
  | EmptyString => [EmptyString]
  | String c s' =>
      if Ascii.eqb c sep then EmptyString :: split_on sep s'
      else match split_on sep s' with
           | w :: ws => String c w :: ws
           | [] => [String c EmptyString]
           end
  end.

(** A promise that has settled.  As a value it is an object. *)
Inductive promise (A : Type) := Fulfilled (a : A) | RejectedWith (e : Thrown).
Arguments Fulfilled {A} a.
Arguments RejectedWith {A} e.

(** [!value] looks at the value itself: an object is truthy, whichever way
    the promise settles. *)
Definition promise_truthy {A} (p : promise A) : bool := true.

Module Webhook.
Record request := mkRequest {
  signature_header : option string;   (* [req.headers["x-hub-signature-256"]] *)
  body_payload : string               (* [req.body.payload] *)
}.

(** What [handleWebhook] lets the outside see. *)
Inductive ev :=
| Responded (code : Z)
| WarnInvalidSignature
| Extracted (files : list FileChange.t)
| JobAdmitted (jobId : string)
| LoggedError (e : Thrown).
End Webhook.

Section Updater.

(** [path.extname], [Buffer.from(_, "base64").toString("utf-8")],
    [parseInt(_, 16)] ([None] for [NaN]), [crypto.subtle.verify] for
    HMAC-SHA-256 with the imported key, [JSON.parse] and [JSON.stringify],
    the configured secret, and the repository host. *)
Variable path_extname : string → string.
Variable base64_decode : string → string.
Variable parseInt16 : string → option Z.
Variable subtle_verify : string → list Z → string → Res bool.
Variable json_parse : string → Res Payload.t.
Variable json_stringify : string → string.
Variable githubWebhookSecret : string.
Variable getContent : nat → string → string → string → option string → Content.response.

(** [OpenAIVectorStoreUpdater.hexToBytes] (lines 615-628): one byte for
    every two characters, [NaN] stored as 0.  [new Uint8Array(len)] takes
    the integer part of [len], and a store beyond the end of a typed array
    does nothing: of a text of odd length the last character is left
    out. *)
Fixpoint hex_pairs (hex : string) : list Z :=
  match hex with
  | String a (String b hex') =>
      (default 0 (parseInt16 (String a (String b EmptyString))) `mod` 256)
        :: hex_pairs hex'
  | String a EmptyString =>
      [default 0 (parseInt16 (String a EmptyString)) `mod` 256]
  | EmptyString => []
  end.

Definition hexToBytes (hex : string) : Res (list Z) :=
  let len := (String.length hex / 2)%nat in
  Ok (take len (hex_pairs hex)).

(** [OpenAIVectorStoreUpdater.verifySignature] (lines 587-613), an [async]
    function: its result is a promise. *)
Definition verifySignature (secret : string) (header : option string)
  (payload : string) : promise bool :=
  match header with
  | None => RejectedWith (type_error "split")
  | Some header =>
      let parts := split_on "=" header in
      match parts !! 1%nat with
      | None => RejectedWith (type_error "length")
      | Some sigHex =>
          match hexToBytes sigHex with
          | Throw e => RejectedWith e
          | Ok sigBytes =>
              match subtle_verify secret sigBytes payload with
              | Ok equal => Fulfilled equal
              | Throw e => RejectedWith e
              end
          end
      end
  end.

(** [OpenAIVectorStoreUpdater.shouldProcessFile] (lines 630-645) *)
Definition shouldProcessFile (filename : string) : bool :=
  let ext := Js.toLowerCase (path_extname filename) in
  if Js.includes filename "node_modules"
     || Js.includes filename ".git"
     || Js.includes filename "dist"
     || Js.includes filename "build"
     || Js.startsWith filename "."
  then false
  else bool_decide (ext ∈ SUPPORTED_EXTENSIONS).

(** [OpenAIVectorStoreUpdater.getFileContent] (lines 647-669); [k] counts
    the requests.  [None] is [null]. *)
Definition getFileContent (k : nat) (owner repo path : string)
  (ref : option string) : option string :=
  match getContent k owner repo path ref with
  | Content.Data (Some c) =>
      if Js.truthy c then Some (base64_decode c) else None
  | Content.Data None => None
  | Content.Fails _ => None
  end.

(** Lines 711-729: every file that is not removed gets the content that
    was fetched for it ([undefined] when there is none). *)
Fixpoint fetch_contents (k : nat) (owner repo : string) (ref : option string)
  (files : list FileChange.t) : list FileChange.t :=
  match files with
  | [] => []
  | f :: files' =>
      if is_removed f then f :: fetch_contents k owner repo ref files'
      else
        FileChange.set_content
          (getFileContent k owner repo (FileChange.filename f) ref) f
          :: fetch_contents (S k) owner repo ref files'
  end.

(** [OpenAIVectorStoreUpdater.getChangedFiles] (lines 671-738).  The reads
    of [repository.owner.login] and [repository.name] come before [try]. *)
Definition getChangedFiles (payload : Payload.t) : Res (list FileChange.t) :=
  match Payload.repository_of payload with
  | None => Throw (type_error "owner")
  | Some repository =>
      match Payload.owner_of repository with
      | None => Throw (type_error "login")
      | Some o =>
          let owner := Payload.login o in
          let repo := Payload.name repository in
          (* try *)
          let collected :=
            match Payload.commits payload with
            | Some (c :: cs) =>
                collect_changes (filter (fun c => is_merge_commit c = false) (c :: cs))
            | _ => Ok []
            end in
          match collected with
          | Throw _ => Ok []       (* catch: [return []] *)
          | Ok changedFiles =>
              let supportedFiles :=
                filter (fun f => shouldProcessFile (FileChange.filename f) = true)
                       changedFiles in
              let supportedFiles :=
                fetch_contents 0 owner repo (Payload.after payload) supportedFiles in
              Ok (filter (fun f => is_removed f = true
                                   ∨ Js.truthy_opt (FileChange.content f) = true)
                         supportedFiles)
          end
      end
  end.

(** [OpenAIVectorStoreUpdater.handleWebhook] (lines 763-805) on the queue
    [q]: the queue afterwards and what was sent and logged. *)
Definition handleWebhook (req : Webhook.request) (rnd : string) (q : JQ.t)
  : JQ.t * list Webhook.ev :=
  let signature := Webhook.signature_header req in
  let payload := json_stringify (Webhook.body_payload req) in
  let sent := [Webhook.Responded 202] in
  if negb (promise_truthy (verifySignature githubWebhookSecret signature payload))
  then (q, sent ++ [Webhook.WarnInvalidSignature])
  else
    match json_parse (Webhook.body_payload req) with
    | Throw e => (q, sent ++ [Webhook.LoggedError e])
    | Ok webhookPayload =>
        if match Payload.ref webhookPayload with
           | Some ref => Js.truthy ref && negb (Js.endsWith ref "/main")
           | None => false
           end
        then (q, sent)
        else
          match Payload.repository_of webhookPayload with
          | None => (q, sent ++ [Webhook.LoggedError (type_error "full_name")])
          | Some repository =>
              match getChangedFiles webhookPayload with
              | Throw e => (q, sent ++ [Webhook.LoggedError e])
              | Ok changedFiles =>
                  if (length changedFiles =? 0)%nat
                  then (q, sent ++ [Webhook.Extracted changedFiles])
                  else
                    let priority := calculatePriority changedFiles in
                    match addJob (Job.mkInput (Payload.full_name repository)
                                              changedFiles priority None)
                                 rnd q with
                    | (Ok jobId, q') =>
                        (q', sent ++ [Webhook.Extracted changedFiles;
                                      Webhook.JobAdmitted jobId])
                    | (Throw e, q') =>
                        (q', sent ++ [Webhook.Extracted changedFiles;
                                      Webhook.LoggedError e])
                    end
              end
          end
    end.

End Updater.

(** ** What the status queries return (lines 229-262 and 807-822) *)

(** What [JobQueue.getJobStatus] returns: the view of a job of the active
    list, the entry of the completion map under the id asked for, or
    [null]. *)
Module JobView.
Inductive t :=
| Queued (id : string) (status : Job.Status) (attempts createdAt : Z)
         (error : option string)
| Finished (id : string) (entry : JQ.completed_entry)
| Null.
End JobView.

(** [JobQueue.getJobStatus] (lines 229-247) *)
Definition getJobStatus (jobId : string) (q : JQ.t) : JobView.t :=
  let queuedJob :=
    find_job (JQ.heap q) (fun j => String.eqb (Job.id j) jobId) (JQ.queue q)
      ≫= (JQ.heap q !!.) in
  match queuedJob with
  | Some j =>
      JobView.Queued (Job.id j) (Job.status j) (Job.attempts j)
                     (Job.createdAt j) (Job.error j)
  | None =>
      match JQ.completed q !! jobId with
      | Some completed => JobView.Finished jobId completed
      | None => JobView.Null
      end
  end.

(** The object that [JobQueue.getQueueStats] returns. *)
Module Stats.
Record t := mk {
  total : Z;
  pending : Z;
  processing : Z;
  retrying : Z;
  completed : Z;
  failed : Z
}.
End Stats.

(** [this.queue.filter((j) => j.status === s).length] *)
Definition count_queue (s : Job.Status) (q : JQ.t) : Z :=
  Z.of_nat (length (filter (fun r => Job.status <$> JQ.heap q !! r = Some s)
                           (JQ.queue q))).

(** [Array.from(this.completed.values()).filter((j) => j.status === s).length] *)
Definition count_completed (s : string) (q : JQ.t) : Z :=
  Z.of_nat (length (filter (fun e => JQ.c_status e.2 = s)
                           (map_to_list (JQ.completed q)))).

(** [JobQueue.getQueueStats] (lines 249-262) *)
Definition getQueueStats (q : JQ.t) : Stats.t :=
  Stats.mk (Z.of_nat (length (JQ.queue q)))
           (count_queue Job.pending q)
           (Z.of_nat (size (JQ.processing q)))
           (count_queue Job.retrying q)
           (count_completed "completed" q)
           (count_completed "failed" q).

(** The answer of the status route. *)
Module Reply.
Inductive t :=
| Json (code : Z) (status : JobView.t)
| Error (code : Z) (message : string).
End Reply.

(** [OpenAIVectorStoreUpdater.getJobStatus] (lines 807-822) *)
Definition getJobStatus_route (jobId : string) (q : JQ.t) : Reply.t :=
  match getJobStatus jobId q with
  | JobView.Null => Reply.Error 404 "Job not found"
  | status => Reply.Json 200 status
  end.

(** ** [parseInt(text, 16)]

    The value of a character as a digit of radix 16. *)
Definition hex_digit (c : ascii) : option Z :=
  let n := Z.of_nat (nat_of_ascii c) in
  if (48 <=? n) && (n <=? 57) then Some (n - 48)
  else if (97 <=? n) && (n <=? 102) then Some (n - 87)
  else if (65 <=? n) && (n <=? 70) then Some (n - 55)
  else None.

(** The number that the longest prefix of digits denotes. *)
Fixpoint hex_prefix (acc : Z) (s : string) : Z :=
  match s with
  | String c s' =>
      match hex_digit c with
      | Some d => hex_prefix (16 * acc + d) s'
      | None => acc
      end
  | EmptyString => acc
  end.

Fixpoint trim_start (s : string) : string :=
  match s with
  | String c s' => if Re.is_space c then trim_start s' else s
  | EmptyString => EmptyString
  end.

(** [parseInt(text, 16)]: leading white space is skipped, then a sign and
    the prefix [0x] are taken off, and the digits up to the first
    character that is none are read; [None] is [NaN], the result when
    there is no digit. *)
Definition parseInt_16 (text : string) : option Z :=
  let S := trim_start text in
  let sign := match S with String "-" _ => -1 | _ => 1 end in
  let S := match S with
           | String "-" S' | String "+" S' => S'
           | _ => S
           end in
  let S := match S with
           | String "0" (String "x" S') | String "0" (String "X" S') => S'
           | _ => S
           end in
  match S with
  | String c _ =>
      match hex_digit c with
      | Some _ => Some (sign * hex_prefix 0 S)
      | None => None
      end
  | EmptyString => None
  end.

(** ** The initial synchronisation ([initialRepoSync.ts]) *)

Module Sync.
(** [item.type] of an entry of a directory: a file, a directory or
    something else (a link, a submodule). *)
Inductive kind := file | dir | other.

Record item := mkItem { type : kind; path : string }.

(** [response.data] of [octokit.repos.getContent]: an array for a
    directory, and otherwise an object with or without [content]. *)
Inductive data :=
| Items (items : list item)
| Object (content : option string).

(** How the script ends: with the batch that the processor returned and
    what the processor did, or with the error that [main] rejected with;
    and the exit code. *)
Inductive outcome :=
| Synced (job : BatchJob.t) (trace : list Trace.ev) (code : Z)
| Failed (e : Thrown) (code : Z).

Definition code_of (out : outcome) : Z :=
  match out with Synced _ _ code | Failed _ code => code end.
End Sync.

Section InitialSync.

(** The batch processor is made with its default configuration. *)
Variable path_basename : string → string.
Variable path_join : string → string → string.
Variable tempDir : string.
Variable VECTOR_STORE_ID : option string.
Variable md_render : string → string.
Variable api : Api.t.
Variable fs : Fs.t.

(** [path.extname], [Buffer.from(_, "base64").toString("utf-8")] and
    [octokit.repos.getContent({ owner, repo, path, ref })]; the number
    counts the requests made before.  [repo] is [undefined] when the full
    name of the repository has no slash. *)
Variable path_extname : string → string.
Variable base64_decode : string → string.
Variable getContent :
  nat → string → option string → string → string → Res Sync.data.

(** Lines 40-47: the loop over the entries of a directory; [descend] is
    the recursive call. *)
Fixpoint list_items (descend : string → nat → option (Res (list string) * nat))
  (items : list Sync.item) (files : list string) (k : nat)
  : option (Res (list string) * nat) :=
  match items with
  | [] => Some (Ok files, k)
  | item :: items' =>
      match Sync.type item with
      | Sync.file => list_items descend items' (files ++ [Sync.path item]) k
      | Sync.dir =>
          match descend (Sync.path item) k with
          | None => None
          | Some (Throw e, k') => Some (Throw e, k')
          | Some (Ok subFiles, k') =>
              list_items descend items' (files ++ subFiles) k'
          end
      | Sync.other => list_items descend items' files k
      end
  end.

(** [listAllFiles] (lines 26-50).  The recursion follows the answers of
    the host, so the model bounds its depth by [fuel]; [None] stands for a
    run that has not returned within the bound.  The second component is
    the number of requests made so far. *)
Fixpoint listAllFiles (fuel : nat) (owner : string) (repo : option string)
  (ref dir : string) (k : nat) : option (Res (list string) * nat) :=
  match fuel with
  | O => None
  | S fuel' =>
      match getContent k owner repo dir ref with
      | Throw e => Some (Throw e, S k)
      | Ok (Sync.Object _) => Some (Ok [], S k)
      | Ok (Sync.Items items) =>
          list_items (listAllFiles fuel' owner repo ref) items [] (S k)
      end
  end.

(** [fetchFileContent] (lines 52-73); [None] is [null]. *)
Definition fetchFileContent (owner : string) (repo : option string)
  (filePath : string) (k : nat) : option string :=
  match getContent k owner repo filePath "main" with
  | Ok (Sync.Object (Some content)) =>
      if Js.truthy content then Some (base64_decode content) else None
  | Ok _ => None
  | Throw _ => None              (* catch: [return null] *)
  end.

(** Lines 85-91: the loop that fills [batch]. *)
Fixpoint fetch_batch (owner : string) (repo : option string)
  (supportedFiles : list string) (k : nat) : list FileChange.t :=
  match supportedFiles with
  | [] => []
  | file :: files' =>
      match fetchFileContent owner repo file k with
      | Some content =>
          if Js.truthy content
          then FileChange.mk file FileChange.added (Some content) None
                 :: fetch_batch owner repo files' (S k)
          else fetch_batch owner repo files' (S k)
      | None => fetch_batch owner repo files' (S k)
      end
  end.

(** [main] (lines 75-98) with the [catch] of lines 100-103.  [now], [later] and
    [rnd] are the clock and the random suffix that the batch processor
    reads. *)
Definition main (fuel : nat) (now later : Z) (rnd : string)
  (repoFullName : string) : option Sync.outcome :=
  let parts := split_on "/" repoFullName in
  let owner := default "" (parts !! 0%nat) in
  let repo := parts !! 1%nat in
  match listAllFiles fuel owner repo "main" "" 0 with
  | None => None
  | Some (Throw e, _) => Some (Sync.Failed e 1)
  | Some (Ok allFiles, k) =>
      let supportedFiles :=
        filter (fun file =>
                  Js.toLowerCase (path_extname file) ∈ SUPPORTED_EXTENSIONS)
               allFiles in
      let batch := fetch_batch owner repo supportedFiles k in
      let '(job, trace) :=
        processFileBatch path_basename path_join tempDir VECTOR_STORE_ID
          md_render api fs now later rnd repoFullName batch in
      Some (Sync.Synced job trace 1)
  end.

End InitialSync.

(** * Vocabulary of the statements, and inputs for the examples *)

(** ** Priority of a change set *)

Definition md_file (name : string) : FileChange.t :=
  FileChange.mk name FileChange.added (Some "text") None.

Definition five_md_files : list FileChange.t :=
  [md_file "README.md"; md_file "docs/a.md"; md_file "docs/b.md";
   md_file "docs/c.md"; md_file "CHANGELOG.md"].

(** ** Admission to the queue *)

Definition docs_job (p : Z) : Job.input :=
  Job.mkInput "acme/docs" [md_file "README.md"] p None.

(** A queue of capacity two with two jobs in it. *)
Definition full_queue : JQ.t :=
  (addJob (docs_job 5) "k3v9x2q1a"
     (addJob (docs_job 9) "p0o9i8u7y" (JQ.create 3 2 1700000000000)).2).2.

(** ** Order of the active list *)

(** The priority of the job behind a reference. *)
Definition prio (h : list Job.t) (r : nat) : Z :=
  from_option Job.priority 0 (h !! r).

(** [r1] may stand before [r2]: it has the higher priority, or the same
    priority and the earlier admission. *)
Definition goes_before (h : list Job.t) (r1 r2 : nat) : Prop :=
  prio h r2 < prio h r1 ∨ (prio h r1 = prio h r2 ∧ (r1 < r2)%nat).

Fixpoint ordered (h : list Job.t) (l : list nat) : Prop :=
  match l with
  | [] => True
  | r :: l' => Forall (goes_before h r) l' ∧ ordered h l'
  end.

Definition queue_ok (q : JQ.t) : Prop :=
  Forall (fun r => (r < length (JQ.heap q))%nat) (JQ.queue q)
  ∧ ordered (JQ.heap q) (JQ.queue q).

(** Where [addJob] puts the reference of the new job. *)
Definition insert_new (h : list Job.t) (p : Z) (l : list nat) : list nat :=
  match findIndex h (fun j => Job.priority j <? p) l with
  | None => l ++ [length h]
  | Some i => splice_insert i (length h) l
  end.

(** Three admissions with priorities 5, 10 and 5, then the first job is
    started and fails. *)
Definition sample_events : list event :=
  [EvAddJob (docs_job 5) "aaaaaaaaa"; EvAddJob (docs_job 10) "bbbbbbbbb";
   EvAddJob (docs_job 5) "ccccccccc"; EvTick;
   EvSettle 1 (Rejected (ErrorObj "rate limit"))].

Definition sample_queue : JQ.t :=
  default (JQ.create 3 100 1700000000000)
          (run sample_events (JQ.create 3 100 1700000000000)).

(** ** Attempts, retries and the terminal failure *)

Definition status_of (q : JQ.t) (r : nat) : option Job.Status :=
  Job.status <$> JQ.heap q !! r.

(** How often [processFileBatch] was called for the job behind [r]. *)
Definition invocations (q : JQ.t) (r : nat) : nat :=
  length (filter (fun x => x = r) (JQ.invoked q)).

Definition counted (q : JQ.t) : Prop :=
  Forall (fun r => (r < length (JQ.heap q))%nat) (JQ.invoked q)
  ∧ ∀ r j, JQ.heap q !! r = Some j →
           Job.attempts j = Z.of_nat (invocations q r).

(** The references of the jobs that wait for a retry timer. *)
Definition retry_ref (t : JQ.timer) : option nat :=
  match JQ.action t with
  | JQ.RetryTimer r => Some r
  | JQ.EvictTimer _ => None
  end.

Definition retry_refs (ts : list JQ.timer) : list nat := omap retry_ref ts.

(** How the status of a job, the suspended activations and the retry
    timers hang together. *)
Record disciplined (q : JQ.t) : Prop := mkDisciplined {
  d_bound : ∀ r j, JQ.heap q !! r = Some j →
    0 ≤ Job.attempts j ≤ 3
    ∧ (Job.status j = Job.pending ∨ Job.status j = Job.retrying →
       Job.attempts j < 3);
  d_await : ∀ r, r ∈ JQ.awaiting q → status_of q r = Some Job.processing;
  d_await_nodup : NoDup (JQ.awaiting q);
  d_retry : ∀ r, r ∈ retry_refs (JQ.timers q) →
    status_of q r = Some Job.retrying;
  d_retry_nodup : NoDup (retry_refs (JQ.timers q))
}.

Definition terminal (s : Job.Status) : Prop :=
  s = Job.completed ∨ s = Job.failed.

(** One job that is started and rejected three times, with the timers
    fired in between. *)
Definition failing_events : list event :=
  [EvAddJob (docs_job 5) "aaaaaaaaa";
   EvTick; EvSettle 0 (Rejected (ErrorObj "store unavailable"));
   EvAdvance 2000; EvTimer 0;
   EvTick; EvSettle 0 (Rejected (ErrorObj "store unavailable"));
   EvAdvance 4000; EvTimer 1;
   EvTick].

Definition failing_queue : JQ.t :=
  default (JQ.create 3 100 1700000000000)
          (run failing_events (JQ.create 3 100 1700000000000)).

Definition failing_job : Job.t :=
  Job.mk "job_1700000000000_aaaaaaaaa" "acme/docs" [md_file "README.md"] 5
         1700000000000 3 Job.processing None.

Definition failed_queue : JQ.t :=
  default failing_queue
          (exec (EvSettle 0 (Rejected (ErrorObj "store unavailable")))
                failing_queue).

(** The same job when its first attempt is under way. *)
Definition started_queue : JQ.t :=
  default (JQ.create 3 100 1700000000000)
          (run (take 2 failing_events) (JQ.create 3 100 1700000000000)).

Definition started_job : Job.t :=
  Job.mk "job_1700000000000_aaaaaaaaa" "acme/docs" [md_file "README.md"] 5
         1700000000000 1 Job.processing None.

Definition retrying_queue : JQ.t :=
  default started_queue
          (exec (EvSettle 0 (Rejected (ErrorObj "store unavailable")))
                started_queue).

(** *** With the batch processor of the code *)

(** An event of a process that runs the batch processor of the code:
    [processFileBatch] catches whatever its body throws and returns the
    batch, so the promise that [processJob] awaits is never rejected. *)
Definition resolves (e : event) : Prop :=
  match e with
  | EvSettle _ (Rejected _) => False
  | _ => True
  end.

(** The queues that such a process can be in. *)
Definition reachable_resolving (q : JQ.t) : Prop :=
  ∃ mc ms t0 es, Forall resolves es ∧ run es (JQ.create mc ms t0) = Some q.

(** No job has been tried more than once, none waits for a retry, none has
    failed. *)
Record single_attempt (q : JQ.t) : Prop := mkSingleAttempt {
  sa_jobs : ∀ r j, JQ.heap q !! r = Some j →
    Job.status j = Job.pending ∧ Job.attempts j = 0
    ∨ Job.status j = Job.processing ∧ Job.attempts j = 1
    ∨ Job.status j = Job.completed ∧ Job.attempts j = 1;
  sa_timers : retry_refs (JQ.timers q) = [];
  sa_completed : ∀ id c, JQ.completed q !! id = Some c →
    JQ.c_status c = "completed" ∧ JQ.c_error c = None
}.

(** An index service that cannot be reached. *)
Definition store_down : Api.t :=
  Api.mk (Throw (ErrorObj "Connection error."))
         (fun _ => Throw (ErrorObj "Connection error."))
         (fun _ => Throw (ErrorObj "Connection error."))
         (fun _ => Throw (ErrorObj "Connection error."))
         (fun _ _ => Throw (ErrorObj "Connection error."))
         (fun _ => Throw (ErrorObj "Connection error."))
         (fun _ => Throw (ErrorObj "Connection error."))
         (fun _ _ => Throw (ErrorObj "Connection error.")).

(** The batch that [processFileBatch] returns for the job of
    [failing_events] while the index service cannot be reached. *)
Definition lost_batch : BatchJob.t :=
  (processFileBatch (fun s => s) (fun dir name => dir +:+ "/" +:+ name)
     "/tmp/webhook-files" (Some "vs_1") (fun s => s) store_down
     (Fs.mk (fun _ _ => Ok ()) (fun _ => Ok ()))
     1700000001000 1700000001200 "k3v9x2q1a" "acme/docs"
     [md_file "README.md"]).1.

(** The job is admitted and started, and its batch fails. *)
Definition lost_events : list event :=
  [EvAddJob (docs_job 5) "aaaaaaaaa"; EvTick; EvSettle 0 (Resolved lost_batch)].

Definition lost_queue : JQ.t :=
  default (JQ.create 3 100 1700000000000)
          (run lost_events (JQ.create 3 100 1700000000000)).

(** ** The scheduler loop ends on its own *)

(** The pending jobs of the active list. *)
Definition pending_refs (q : JQ.t) : list nat :=
  filter (fun r => status_of q r = Some Job.pending) (JQ.queue q).

(** ** Removal from the index store *)

(** An index service that answers every call, and whose store is empty. *)
Definition empty_store : Api.t :=
  Api.mk (Ok ()) (fun _ => Ok "vs_1") (fun _ => Ok []) (fun _ => Ok "")
         (fun _ _ => Ok ()) (fun _ => Ok ()) (fun _ => Ok "file-new")
         (fun _ _ => Ok ()).

(** The same store, at a moment when listing its entries is refused. *)
Definition listing_down : Api.t :=
  Api.mk (Ok ()) (fun _ => Ok "vs_1")
         (fun _ => Throw (ErrorObj "429 Rate limit reached"))
         (fun _ => Ok "") (fun _ _ => Ok ()) (fun _ => Ok ())
         (fun _ => Ok "file-new") (fun _ _ => Ok ()).

Definition old_page : FileChange.t :=
  FileChange.mk "docs/old.mdx" FileChange.removed None None.

(** ** Uploads: when the requests go out *)

(** The first request of the upload callback of a temporary file. *)
Definition first_call (vs : string) (tf : TempFile) : Api.call :=
  if bool_decide (FileChange.status (file tf) = FileChange.modified)
  then Api.VsFilesList vs else Api.FilesCreate (tempPath tf).

Definition temp_of (name : string) : TempFile :=
  mkTempFile name ("/tmp/webhook-files/" +:+ name)
             (FileChange.mk name FileChange.added (Some "text") None).

Definition seven_files : list TempFile :=
  temp_of <$> ["a.md"; "b.md"; "c.md"; "d.md"; "e.md"; "f.md"; "g.md"].

(** ** Encoded file names that coincide *)

(** A store with one entry, stored under the encoded name of [a_b.md]. *)
Definition store_ab : Api.t :=
  Api.mk (Ok ()) (fun _ => Ok "vs_1") (fun _ => Ok ["file-ab"])
         (fun _ => Ok (encodeFilename "a_b.md"))
         (fun _ _ => Ok ()) (fun _ => Ok ()) (fun _ => Ok "file-new")
         (fun _ _ => Ok ()).

Definition fs_ok : Fs.t := Fs.mk (fun _ _ => Ok ()) (fun _ => Ok ()).

(** ** Extraction of the change set *)

(** The test of the last [filter] of [getChangedFiles]. *)
Definition kept (f : FileChange.t) : Prop :=
  is_removed f = true ∨ Js.truthy_opt (FileChange.content f) = true.

(** The number of content requests made before the one for the file at
    position [i]. *)
Definition request_index (files : list FileChange.t) (i : nat) : nat :=
  length (filter (fun f => is_removed f = false) (take i files)).

(** The commits of a payload that are no merge commits. *)
Definition own_commits (payload : Payload.t) : list Payload.commit :=
  filter (fun c => is_merge_commit c = false)
         (default [] (Payload.commits payload)).

(** A commit that has its three file lists. *)
Definition complete (c : Payload.commit) : Prop :=
  is_Some (Payload.added c) ∧ is_Some (Payload.modified c)
  ∧ is_Some (Payload.removed c).

(** The files that a commit names: those added, those modified, those
    removed, none of them with content. *)
Definition named (c : Payload.commit) : list FileChange.t :=
  changes_of FileChange.added (default [] (Payload.added c))
  ++ changes_of FileChange.modified (default [] (Payload.modified c))
  ++ changes_of FileChange.removed (default [] (Payload.removed c)).

(** The files that the commits of a payload name and whose names are
    eligible, commit by commit. *)
Definition supported_changes (path_extname : string → string)
  (payload : Payload.t) : list FileChange.t :=
  filter (fun f => shouldProcessFile path_extname (FileChange.filename f) = true)
         (flat_map named (own_commits payload)).

(** What becomes of the file [g] at position [i] of [supported] when it is
    kept: a removed file stays as it is; any other file is kept when the
    repository host answers its request with content that is not empty and
    that decodes to text that is not empty, and it carries this text. *)
Definition arrives (base64_decode : string → string)
  (getContent : nat → string → string → string → option string
                → Content.response)
  (owner repo : string) (ref : option string)
  (supported : list FileChange.t) (i : nat) (g f : FileChange.t) : Prop :=
  FileChange.status g = FileChange.removed ∧ f = g
  ∨ FileChange.status g ≠ FileChange.removed
    ∧ ∃ c, getContent (request_index supported i) owner repo
                      (FileChange.filename g) ref
           = Content.Data (Some c)
           ∧ c ≠ "" ∧ base64_decode c ≠ ""
           ∧ f = FileChange.set_content (Some (base64_decode c)) g.

(** ** A push to the main branch, for the examples *)

(** A stand-in for [path.extname]: from the last dot of the last path
    segment on, and nothing for a segment that has no dot or only a
    leading one. *)
Definition extname_of (path : string) : string :=
  let segment := default "" (last (split_on "/" path)) in
  match split_on "." segment with
  | [] | [_] => ""
  | ["" ; _] => ""
  | parts => "." +:+ default "" (last parts)
  end.

Definition push_commit : Payload.commit :=
  Payload.mkCommit "c0ffee" (Some ["README.md"; "docs/guide.md"])
                   (Some ["docs/old.md"]) (Some []) "Update the docs".

Definition push_payload : Payload.t :=
  Payload.mk
    (Some (Payload.mkRepository "docs" (Some (Payload.mkOwner "acme")) "acme/docs"))
    (Some [push_commit]) (Some "refs/heads/main") (Some "0000") (Some "c0ffee").

(** The same event as some other sender may post it: without
    [repository.owner]. *)
Definition push_without_owner : Payload.t :=
  Payload.mk (Some (Payload.mkRepository "docs" None "acme/docs"))
             (Some [push_commit]) (Some "refs/heads/main") (Some "0000")
             (Some "c0ffee").

(** The repository host answers the first request and fails the second. *)
Definition host (k : nat) (owner repo path : string) (ref : option string)
  : Content.response :=
  match k with
  | O => Content.Data (Some "IyBEb2Nz")
  | _ => Content.Fails (ErrorObj "Not Found")
  end.

(** ** The signature check of the webhook *)

Definition forged_request : Webhook.request :=
  Webhook.mkRequest (Some "sha256=00") "{...}".

(** ** The warning callout *)

Definition warning_fragment : string := "<Warning>Data loss risk</Warning>".

Definition warning_quote : string := "> **⚠️ Warning:** Data loss risk".

(** The fragment as a paragraph of its own in a page. *)
Definition upgrade_page : string :=
  "# Upgrade" +:+ nl +:+ nl +:+ "Stop the server first." +:+ nl +:+ nl
    +:+ warning_fragment +:+ nl +:+ nl +:+ "Then run the installer." +:+ nl.

(** The fragment inside another callout. *)
Definition nested_page : string :=
  "<Alert>Check <Warning>Data loss risk</Warning></Alert>".

(** ** Rewriting with a pattern, position by position *)

(** The character with which every match of a pattern begins, when the
    pattern fixes it. *)
Fixpoint first_char (r : Re.t) : option ascii :=
  match r with
  | Re.Chr c => Some c
  | Re.Seq r1 _ => first_char r1
  | Re.Grp _ r1 => first_char r1
  | _ => None
  end.

(** [replace] with the fuel that [Re.replace] gives it. *)
Definition rep (f : Re.flags) (r : Re.t) (tpl : list Re.piece) (st : Re.state)
  : list ascii :=
  Re.replace_from f r tpl (S (length (Re.rest st))) st.

(** No character of [l] can begin a match that begins with [c]. *)
Definition none_begins (f : Re.flags) (c : ascii) (l : list ascii) : Prop :=
  Forall (fun d => Re.chr_eq f c d = false) l.

(** A single line. *)
Definition not_newline (l : list ascii) : Prop :=
  Forall (fun d => Re.is_newline d = false) l.

(** The characters of a string. *)
Definition la (s : string) : list ascii := String.list_ascii_of_string s.

(** Text of ASCII characters only.  On such text the white space of
    JavaScript ([\s], [trim]) and its line terminators ([.], [^], [$]) are
    those of [Re.is_space] and [Re.is_newline]. *)
Definition ascii_text (l : list ascii) : Prop :=
  Forall (fun d => (nat_of_ascii d < 128)%nat) l.

(** Text without tags, braces and line breaks. *)
Definition plain (l : list ascii) : Prop :=
  Forall (fun d => d ≠ "<"%char ∧ d ≠ "{"%char ∧ Re.is_newline d = false) l.

(** The text does not begin with white space, a dash or the first letter
    of [import] and [export]. *)
Definition good_start (l : list ascii) : Prop :=
  match l with
  | [] => True
  | d :: _ => Re.is_space d = false ∧ d ≠ "-"%char ∧ d ≠ "i"%char ∧ d ≠ "e"%char
  end.

(** The text does not end with white space. *)
Definition good_end (l : list ascii) : Prop :=
  match rev l with
  | [] => True
  | d :: _ => Re.is_space d = false
  end.

(** ** The completion map and the processing set *)

(** The ids of all jobs ever admitted. *)
Definition job_ids (q : JQ.t) : list string := Job.id <$> JQ.heap q.

(** What the queue keeps about the completion map and the processing set,
    whatever the ids. *)
Record tracked (q : JQ.t) : Prop := mkTracked {
  t_found : ∀ r j, JQ.heap q !! r = Some j →
    r ∈ JQ.queue q ∨ is_Some (JQ.completed q !! Job.id j);
  t_terminal : ∀ r j, JQ.heap q !! r = Some j → terminal (Job.status j) →
    is_Some (JQ.completed q !! Job.id j);
  t_entries : ∀ k e, JQ.completed q !! k = Some e →
    JQ.c_status e = "completed" ∨ JQ.c_status e = "failed";
  t_keys : ∀ k, is_Some (JQ.completed q !! k) → k ∈ job_ids q;
  t_size : Z.of_nat (size (JQ.processing q)) ≤ Z.max 0 (JQ.maxConcurrent q)
}.

(** What holds on top when no two jobs have the same id. *)
Record exact (q : JQ.t) : Prop := mkExact {
  e_nodup : NoDup (JQ.queue q);
  e_kept : ∀ r j, JQ.heap q !! r = Some j → ¬ terminal (Job.status j) →
    r ∈ JQ.queue q;
  e_processing : ∀ x, x ∈ JQ.processing q ↔
    ∃ r j, r ∈ JQ.awaiting q ∧ JQ.heap q !! r = Some j ∧ Job.id j = x;
  e_awaiting : ∀ r j, JQ.heap q !! r = Some j →
    Job.status j = Job.processing → r ∈ JQ.awaiting q;
  e_completed : ∀ r j, JQ.heap q !! r = Some j →
    Job.status j = Job.completed →
    ∃ result, JQ.completed q !! Job.id j
              = Some (JQ.mkCompleted "completed" (Some result) None);
  e_failed : ∀ r j, JQ.heap q !! r = Some j →
    Job.status j = Job.failed →
    JQ.completed q !! Job.id j
    = Some (JQ.mkCompleted "failed" None (Job.error j))
}.

(** The failed job of [failed_queue], and the queue once the removal timer
    of its first attempt has fired. *)
Definition failed_job : Job.t :=
  Job.mk "job_1700000000000_aaaaaaaaa" "acme/docs" [md_file "README.md"] 5
         1700000000000 3 Job.failed (Some "store unavailable").

Definition evicted_queue : JQ.t :=
  default failed_queue (run [EvAdvance 300000; EvTimer 0] failed_queue).

(** Everything that is known of a reachable queue. *)
Definition sound (q : JQ.t) : Prop :=
  disciplined q ∧ queue_ok q ∧ (NoDup (job_ids q) → exact q).

(** ** What a batch does to the index store and to the disk *)

(** The entry that a delete request removes. *)
Definition deleted_entry (c : Api.call) : option string :=
  match c with
  | Api.VsFilesDel _ id | Api.FilesDel id => Some id
  | _ => None
  end.

(** The requests that upload. *)
Definition is_upload (c : Api.call) : Prop :=
  match c with
  | Api.FilesCreate _ | Api.VsFilesCreate _ _ => True
  | _ => False
  end.

(** The paths unlinked, and the paths written with success, in order. *)
Definition unlinked (tr : list Trace.ev) : list string :=
  omap (fun ev => match ev with Trace.Unlink p => Some p | _ => None end) tr.

Definition written (fs : Fs.t) (tr : list Trace.ev) : list string :=
  omap (fun ev => match ev with
                  | Trace.WriteFile p c =>
                      match Fs.writeFile fs p c with
                      | Ok _ => Some p
                      | Throw _ => None
                      end
                  | _ => None
                  end) tr.

(** The two groups of [processBatchFiles]. *)
Definition toRemove (files : list FileChange.t) : list FileChange.t :=
  filter (fun f => FileChange.status f = FileChange.removed) files.

Definition toAddOrUpdate (files : list FileChange.t) : list FileChange.t :=
  filter (fun f => FileChange.status f ≠ FileChange.removed
                   ∧ Js.truthy_opt (FileChange.content f) = true) files.

(** ** A batch with files of every status, for the examples *)

(** Stand-ins for [path.basename] and [path.join] on names without
    separators, and a batch with a removal and an update. *)
Definition join_path (dir name : string) : string := dir +:+ "/" +:+ name.

Definition mixed_batch : list FileChange.t :=
  [FileChange.mk "a/b.md" FileChange.removed None None;
   FileChange.mk "docs/new.md" FileChange.added (Some "# New") None;
   FileChange.mk "docs/empty.md" FileChange.added (Some "") None;
   FileChange.mk "a_b.md" FileChange.modified (Some "two") None].

(** ** Where an extracted file comes from *)

(** The file list of a commit that a status stands for. *)
Definition listed (st : FileChange.Status) (c : Payload.commit)
  : option (list string) :=
  match st with
  | FileChange.added => Payload.added c
  | FileChange.modified => Payload.modified c
  | FileChange.removed => Payload.removed c
  end.

(** The payload names the branch [main], or no branch. *)
Definition on_main (p : Payload.t) : bool :=
  match Payload.ref p with
  | Some ref => negb (Js.truthy ref && negb (Js.endsWith ref "/main"))
  | None => true
  end.

(** ** Signatures in hexadecimal *)

(** Two lower-case digits for a byte, as a signature header has them. *)
Definition hex_char (d : Z) : ascii :=
  if d <? 10 then ascii_of_nat (Z.to_nat (48 + d))
  else ascii_of_nat (Z.to_nat (87 + d)).

Definition hex_of_byte (b : Z) : string :=
  String (hex_char (b / 16)) (String (hex_char (b `mod` 16)) EmptyString).

Fixpoint hex_of_bytes (bs : list Z) : string :=
  match bs with
  | [] => EmptyString
  | b :: bs' => hex_of_byte b +:+ hex_of_bytes bs'
  end.

Definition is_byte (b : Z) : Prop := 0 ≤ b < 256.

(** ** Callouts *)

(** The callout tags and the text that opens their blockquote. *)
Definition callouts : list (string * string) :=
  [("Callout", "> **Note:** "); ("Note", "> **Note:** ");
   ("Info", "> **Note:** ");
   ("Warning", "> **⚠️ Warning:** "); ("Alert", "> **⚠️ Warning:** ");
   ("Tip", "> **💡 Tip:** ")].

(** How the pattern of a callout rule matches an element with its tag. *)
Definition matches_element (r : Re.t) (tag : list ascii) : Prop :=
  ∀ b body post caps, none_begins gi "<" body →
    ∃ b', Re.match_here gi r
            (Re.mkState b (la "<" ++ tag ++ la ">" ++ body ++ la "</" ++ tag
                             ++ la ">" ++ post) caps)
          = Some (Re.mkState b' post [(3%nat, body); (2%nat, []); (1%nat, tag)]).

(** A rule whose pattern is an element pattern does not match at a tag
    that begins with [t0], nor at a closing tag. *)
Definition passes_over (r : Re.t) (t0 : ascii) : Prop :=
  (∀ b tl caps,
     Re.match_here gi r (Re.mkState b ("<"%char :: t0 :: tl) caps) = None)
  ∧ (∀ b tl caps,
       Re.match_here gi r (Re.mkState b ("<"%char :: "/"%char :: tl) caps)
       = None).

(** A line with a callout between [pre] and [post], and the same line with
    the blockquote text in its place. *)
Definition callout_page (pre : list ascii) (t0 : ascii) (tag' body post : list ascii)
  : list ascii :=
  pre ++ la "<" ++ (t0 :: tag') ++ la ">" ++ body ++ la "</" ++ (t0 :: tag')
      ++ la ">" ++ post.

Definition quoted_callout (pre : list ascii) (label : string)
  (body post : list ascii) : list ascii :=
  pre ++ la label ++ body ++ post.

(** ** Frontmatter *)

(** The line that closes the frontmatter, with the line break before it. *)
Definition fence : list ascii := la (nl +:+ "---" +:+ nl).

(** [l] begins with the characters of [w]. *)
Fixpoint begins (w l : list ascii) : bool :=
  match w, l with
  | [], _ => true
  | c :: w', d :: l' => Ascii.eqb c d && begins w' l'
  | _ :: _, [] => false
  end.

(** With the closing line after it, [meta] has no closing line that begins
    inside it. *)
Fixpoint fence_free (meta : list ascii) : bool :=
  match meta with
  | [] => true
  | _ :: meta' => negb (begins fence (meta ++ fence)) && fence_free meta'
  end.

(** The frontmatter block around [meta]. *)
Definition fenced (meta : list ascii) : list ascii :=
  la ("---" +:+ nl) ++ meta ++ fence.

(** ** Import and export statements *)

(** [^] holds after the characters [b] (latest first). *)
Definition bol (f : Re.flags) (b : list ascii) : bool :=
  match b with
  | [] => true
  | e :: _ => Re.multiline f && Re.is_newline e
  end.

(** After [b], no line of [l] begins with [c]. *)
Fixpoint quiet (f : Re.flags) (c : ascii) (b l : list ascii) : Prop :=
  match l with
  | [] => True
  | d :: l' => (bol f b = true → Re.chr_eq f c d = false) ∧ quiet f c (d :: b) l'
  end.

(** The text is not empty and begins with a character that is no white
    space. *)
Definition begins_solid (l : list ascii) : Prop :=
  match l with
  | [] => False
  | d :: _ => Re.is_space d = false
  end.

(** A statement line of [word] before the text. *)
Definition statement_line (word stmt text : list ascii) : list ascii :=
  word ++ " "%char :: stmt ++ "010"%char :: text.

(** ** Expressions in braces *)

(** The text of an expression in braces: it is not empty, has no brace, no
    [<] and no line break, and does not begin with a quote or a backtick. *)
Definition expression (body : list ascii) : Prop :=
  Forall (fun d => d ≠ "<"%char ∧ d ≠ "{"%char ∧ d ≠ "}"%char
                   ∧ Re.is_newline d = false) body
  ∧ match body with
    | [] => False
    | d :: _ => d ≠ "'"%char ∧ d ≠ dquote ∧ d ≠ "`"%char
    end.

(** [[^}]] *)
Definition not_close : Re.t := Re.Cls true [Re.One "}"%char].

(** A line with the expression in braces between [pre] and [post], and the
    same line with the expression between backticks. *)
Definition braced (pre body post : list ascii) : list ascii :=
  pre ++ "{"%char :: body ++ "}"%char :: post.

Definition ticked (pre body post : list ascii) : list ascii :=
  pre ++ "`"%char :: body ++ "`"%char :: post.

(** ** Stored names *)

(** The name has no path separator. *)
Definition flat (s : string) : Prop :=
  Forall (fun c => c ≠ "/"%char ∧ c ≠ "\"%char) (la s).

(** ** The initial synchronisation *)

(** What the processor is handed for a file of the repository. *)
Definition fresh_upload (path_extname : string → string) (f : FileChange.t)
  : Prop :=
  FileChange.status f = FileChange.added
  ∧ Js.truthy_opt (FileChange.content f) = true
  ∧ Js.toLowerCase (path_extname (FileChange.filename f)) ∈ SUPPORTED_EXTENSIONS.

(** A repository with two documents, an image and a dependency, and the
    answers of its host. *)
Definition small_repo (k : nat) (owner : string) (repo : option string)
  (path ref : string) : Res Sync.data :=
  if String.eqb path "" then
    Ok (Sync.Items [Sync.mkItem Sync.file "README.md";
                    Sync.mkItem Sync.dir "docs";
                    Sync.mkItem Sync.file "logo.png";
                    Sync.mkItem Sync.dir "node_modules"])
  else if String.eqb path "docs" then
    Ok (Sync.Items [Sync.mkItem Sync.file "docs/guide.mdx"])
  else if String.eqb path "node_modules" then
    Ok (Sync.Items [Sync.mkItem Sync.file "node_modules/left-pad.md"])
  else if String.eqb path "README.md" then Ok (Sync.Object (Some "IyBEb2Nz"))
  else if String.eqb path "docs/guide.mdx" then
    Ok (Sync.Object (Some "PFRpcD5SZWFkIG1lPC9UaXA+"))
  else if String.eqb path "node_modules/left-pad.md" then
    Ok (Sync.Object (Some "bGVmdC1wYWQ="))
  else Throw (ErrorObj "Not Found").

(** The depth of what is below a directory of that repository. *)
Definition depth_of (dir : string) : nat :=
  if String.eqb dir "" then 1%nat else 0%nat.

(** ** The warning callout in a page *)

(** *** What a match consists of *)

(** One character that satisfies [P] is consumed. *)
Definition step_over (P : ascii → Prop) (st st' : Re.state) : Prop :=
  ∃ d tl, Re.rest st = d :: tl ∧ P d
          ∧ st' = Re.mkState (d :: Re.before st) tl (Re.caps st).

(** Any number of steps of [R]. *)
Inductive iter (R : Re.state → Re.state → Prop) : Re.state → Re.state → Prop :=
| iter_stop st : iter R st st
| iter_step st mid st' : R st mid → iter R mid st' → iter R st st'.

(** [$] holds before the characters [l]. *)
Definition eol (f : Re.flags) (l : list ascii) : bool :=
  match l with
  | [] => true
  | c :: _ => Re.multiline f && Re.is_newline c
  end.

(** [spans f r st st']: the pattern [r] can take the matcher from the
    position [st] to the position [st'].  Every match that [Re.run] finds
    is of this kind (lemma [run_sound]). *)
Fixpoint spans (f : Re.flags) (r : Re.t) (st st' : Re.state) : Prop :=
  match r with
  | Re.Eps => st' = st
  | Re.Chr c => step_over (fun d => Re.chr_eq f c d = true) st st'
  | Re.Cls neg items =>
      step_over (fun d => xorb neg (Re.class_has f items d) = true) st st'
  | Re.Dot => step_over (fun d => Re.is_newline d = false) st st'
  | Re.Seq r1 r2 => ∃ mid, spans f r1 st mid ∧ spans f r2 mid st'
  | Re.Alt r1 r2 => spans f r1 st st' ∨ spans f r2 st st'
  | Re.Star _ r1 => iter (spans f r1) st st'
  | Re.Opt r1 => spans f r1 st st' ∨ st' = st
  | Re.Grp n r1 =>
      ∃ st1, spans f r1 st st1
             ∧ st' = Re.mkState (Re.before st1) (Re.rest st1)
                       ((n, take (length (Re.rest st) - length (Re.rest st1))
                              (Re.rest st)) :: Re.caps st1)
  | Re.Ref n => Re.eat f (Re.lookup_cap n (Re.caps st)) st = Some st'
  | Re.Bol => st' = st ∧ bol f (Re.before st) = true
  | Re.Eol => st' = st ∧ eol f (Re.rest st) = true
  end.

(** *** The lines before the fragment *)

(** The lines of a text: the complete lines, each with the line break that
    ends it, and what follows the last line break. *)
Fixpoint split_lines (l : list ascii) : list (list ascii * ascii) * list ascii :=
  match l with
  | [] => ([], [])
  | d :: l' =>
      let '(ls, last) := split_lines l' in
      if Re.is_newline d then (([], d) :: ls, last)
      else match ls with
           | [] => ([], d :: last)
           | (l0, e) :: ls' => ((d :: l0, e) :: ls', last)
           end
  end.

(** The text of complete lines. *)
Definition unlines (ls : list (list ascii * ascii)) : list ascii :=
  flat_map (fun p => p.1 ++ [p.2]) ls.

(** The words that open a statement. *)
Definition statement_words : list string := ["import"; "export"].

(** The complete line [l] opens a statement of [word]: it begins with the
    word, and white space or the end of the line follows. *)
Definition opens (word l : list ascii) : bool :=
  begins word l
  && match drop (length word) l with
     | [] => true
     | s :: _ => Re.is_space s
     end.

(** After [word] and the white space that follows it, the line goes on. *)
Definition goes_on (word l : list ascii) : bool :=
  match drop_spaces (drop (length word) l) with
  | [] => false
  | _ :: _ => true
  end.

(** A complete line that opens a statement has text after the white
    space: the statement ends with the line. *)
Definition settled_line (l : list ascii) : bool :=
  forallb (fun w => implb (opens (la w) l) (goes_on (la w) l)) statement_words.

(** The text before the fragment on the line of the fragment does not
    begin with a statement word and white space. *)
Definition settled_last (l : list ascii) : bool :=
  forallb (fun w => negb (begins (la w) l
                          && match drop (length (la w)) l with
                             | [] => false
                             | s :: _ => Re.is_space s
                             end)) statement_words.

(** Every import or export statement of the text ends on a line of the
    text. *)
Definition statements_end (pre : list ascii) : Prop :=
  forallb (fun p => settled_line p.1) (split_lines pre).1
  && settled_last (split_lines pre).2 = true.

(** A character that is no brace, no quote and no backtick. *)
Definition inert (d : ascii) : Prop :=
  d ≠ "{"%char ∧ d ≠ "}"%char ∧ d ≠ "'"%char ∧ d ≠ dquote ∧ d ≠ "`"%char.

(** Text in which no tag opens. *)
Definition no_tag (l : list ascii) : Prop := Forall (fun d => d ≠ "<"%char) l.

(** A page with frontmatter, statements, text with an expression in braces
    and the fragment on a line of its own, followed by an element. *)
Definition guide_frontmatter : string :=
  "---" +:+ nl +:+ "title: Upgrade <2.0>" +:+ nl +:+ "---" +:+ nl.

Definition guide_intro : string :=
  "import { Steps } from '@site/components'" +:+ nl
    +:+ "export const meta = 1" +:+ nl +:+ nl
    +:+ "# Upgrade" +:+ nl +:+ nl
    +:+ "Stop the {props.server} first." +:+ nl +:+ nl.

Definition guide_rest : string :=
  nl +:+ nl +:+ "Then run <Steps>the installer</Steps>." +:+ nl.

(** * Properties *)

(** ** The bounded loops of the model have enough fuel *)

(** [replace] tries every position once: fuel beyond the length of what is
    left changes nothing. *)
Lemma replace_from_fuel f r tpl n extra st :
  (length (Re.rest st) < n)%nat →
  Re.replace_from f r tpl (n + extra) st = Re.replace_from f r tpl n st.
Proof.
  revert st. induction n as [|n IH]; intros st Hlen; [lia|].
  simpl. destruct (Re.match_here f r st) as [st'|].
  - destruct (Re.global f); [|done].
    destruct (Nat.ltb_spec (length (Re.rest st')) (length (Re.rest st))).
    + f_equal. apply IH. lia.
    + destruct (Re.rest st) as [|c tl] eqn:E; [done|].
      do 2 f_equal. apply IH. simpl in *. lia.
  - destruct (Re.rest st) as [|c tl] eqn:E; [done|].
    f_equal. apply IH. simpl in *. lia.
Qed.

Lemma search_from_fuel f r n extra st :
  (length (Re.rest st) < n)%nat →
  Re.search_from f r (n + extra) st = Re.search_from f r n st.
Proof.
  revert st. induction n as [|n IH]; intros st Hlen; [lia|].
  simpl. destruct (Re.match_here f r st) as [st'|]; [done|].
  destruct (Re.rest st) as [|c tl] eqn:E; [done|].
  apply IH. simpl in *. lia.
Qed.

(** The loop over the groups advances by the group size. *)
Lemma await_groups_fuel fuel extra size delay rest_of i n :
  (0 < size)%nat → (n - i ≤ fuel)%nat →
  await_groups (fuel + extra) size delay rest_of i n
  = await_groups fuel size delay rest_of i n.
Proof.
  intros Hsize. revert i. induction fuel as [|fuel IH]; intros i Hle.
  - simpl. destruct extra as [|extra]; simpl; [done|].
    destruct (Nat.ltb_spec i n); [lia|done].
  - simpl. destruct (Nat.ltb_spec i n); [|done].
    do 3 f_equal. apply IH. lia.
Qed.

(** ** Priority of a change set *)

Lemma has_critical_file_existsb files :
  existsb (fun f => existsb (fun ext => Js.endsWith (FileChange.filename f) ext)
                            criticalExtensions) files = true
  ↔ has_critical_file files.
Proof.
  unfold has_critical_file. rewrite existsb_exists. split.
  - intros (f & Hf & He). apply existsb_exists in He as (ext & Hext & He).
    exists f, ext. rewrite !list_elem_of_In. auto.
  - intros (f & ext & Hf & Hext & He). exists f. split.
    + by apply list_elem_of_In.
    + apply existsb_exists. exists ext. split; [by apply list_elem_of_In|done].
Qed.

(** C5. The computed priority is [min(10, max(1, 10 - floor(count/5)) + boost)]
    where the boost is 2 exactly when some file name ends with a critical
    extension and 0 otherwise; five files that all end in [.md] get
    priority 10. *)
Theorem calculatePriority_formula (files : list FileChange.t) :
  let count := Z.of_nat (length files) in
  (has_critical_file files →
     calculatePriority files = Z.min 10 (Z.max 1 (10 - count / 5) + 2)) ∧
  (¬ has_critical_file files →
     calculatePriority files = Z.min 10 (Z.max 1 (10 - count / 5) + 0)) ∧
  (length files = 5%nat →
     Forall (fun f => Js.endsWith (FileChange.filename f) ".md" = true) files →
     calculatePriority files = 10).
Proof.
  cbn zeta. unfold calculatePriority.
  split; [|split].
  - intros H. apply has_critical_file_existsb in H. by rewrite H.
  - intros H.
    destruct (existsb _ files) eqn:E.
    + exfalso. by apply H, has_critical_file_existsb.
    + by rewrite Z.add_0_r.
  - intros Hlen Hall.
    assert (Hc : has_critical_file files).
    { destruct files as [|f files]; [done|].
      exists f, ".md". split; [left|split].
      - unfold criticalExtensions. left.
      - by inversion Hall. }
    apply has_critical_file_existsb in Hc. rewrite Hc, Hlen. reflexivity.
Qed.

Lemma calculatePriority_formula_witness :
  calculatePriority five_md_files = 10
  ∧ calculatePriority five_md_files = Z.min 10 (Z.max 1 (10 - 5 / 5) + 2)
  ∧ calculatePriority [] = Z.min 10 (Z.max 1 (10 - 0 / 5) + 0).
Proof.
  split; [|split].
  - apply (proj2 (proj2 (calculatePriority_formula five_md_files))).
    + reflexivity.
    + repeat constructor.
  - apply (proj1 (calculatePriority_formula five_md_files)).
    exists (md_file "README.md"), ".md".
    split; [left|]. split; [left|reflexivity].
  - apply (proj1 (proj2 (calculatePriority_formula []))).
    intros (f & ext & Hf & _). by apply elem_of_nil in Hf.
Defined.

(** ** Admission to the queue *)

Lemma findIndex_le heap pred l i :
  findIndex heap pred l = Some i → (i < length l)%nat.
Proof.
  revert i. induction l as [|r l IH]; intros i; simpl; [done|].
  destruct (from_option pred false (heap !! r)).
  - intros [= <-]. lia.
  - destruct (findIndex heap pred l) as [k|]; simpl; [|done].
    intros [= <-]. specialize (IH k eq_refl). lia.
Qed.

Lemma length_splice_insert {A} (i : nat) (x : A) (l : list A) :
  length (splice_insert i x l) = S (length l).
Proof.
  unfold splice_insert. rewrite length_app, length_take. simpl.
  rewrite length_drop. lia.
Qed.

Lemma addJob_full job rnd q :
  JQ.maxSize q ≤ Z.of_nat (length (JQ.queue q)) →
  addJob job rnd q = (Throw capacity_error, q).
Proof.
  intros H. unfold addJob.
  destruct (Z.geb_spec (Z.of_nat (length (JQ.queue q))) (JQ.maxSize q)); [done|lia].
Qed.

Lemma addJob_free job rnd q :
  Z.of_nat (length (JQ.queue q)) < JQ.maxSize q →
  ∃ queue',
    addJob job rnd q =
      (Ok ("job_" +:+ pretty (JQ.now q) +:+ "_" +:+ rnd),
       JQ.emit (JQ.jobAdded (length (JQ.heap q)))
         (JQ.set_queue queue'
            (JQ.set_heap
               (JQ.heap q ++
                  [Job.mk ("job_" +:+ pretty (JQ.now q) +:+ "_" +:+ rnd)
                          (Job.in_repository job) (Job.in_files job)
                          (Job.in_priority job) (JQ.now q) 0 Job.pending
                          (Job.in_error job)]) q)))
    ∧ length queue' = S (length (JQ.queue q)).
Proof.
  intros H. unfold addJob.
  destruct (Z.geb_spec (Z.of_nat (length (JQ.queue q))) (JQ.maxSize q)); [lia|].
  eexists. split; [reflexivity|].
  destruct (findIndex _ _ _); [apply length_splice_insert|].
  rewrite length_app. simpl. lia.
Qed.

(** C1. A call of [addJob] on a queue whose active list is at or above
    [maxSize] throws the capacity error and leaves the queue as it was, job
    store included; any other call returns an id at once, creates one job
    and makes the active list one longer, which still does not exceed
    [maxSize]. So no admission takes the length beyond the larger of what
    it was and [maxSize]. *)
Theorem addJob_capacity (job : Job.input) (rnd : string) (q : JQ.t) :
  (JQ.maxSize q ≤ Z.of_nat (length (JQ.queue q)) →
     addJob job rnd q = (Throw capacity_error, q)) ∧
  (Z.of_nat (length (JQ.queue q)) < JQ.maxSize q →
     ∃ id q', addJob job rnd q = (Ok id, q') ∧
       length (JQ.heap q') = S (length (JQ.heap q)) ∧
       length (JQ.queue q') = S (length (JQ.queue q)) ∧
       JQ.maxSize q' = JQ.maxSize q ∧
       Z.of_nat (length (JQ.queue q')) ≤ JQ.maxSize q') ∧
  Z.of_nat (length (JQ.queue (addJob job rnd q).2))
    ≤ Z.max (Z.of_nat (length (JQ.queue q))) (JQ.maxSize q).
Proof.
  split; [apply addJob_full|]. split.
  - intros H. destruct (addJob_free job rnd q H) as (queue' & -> & Hlen).
    eexists _, _. split; [reflexivity|]. simpl.
    rewrite length_app. simpl. repeat split; lia.
  - destruct (Z.lt_ge_cases (Z.of_nat (length (JQ.queue q))) (JQ.maxSize q)) as [H|H].
    + destruct (addJob_free job rnd q H) as (queue' & -> & Hlen). simpl. lia.
    + rewrite addJob_full by done. simpl. lia.
Qed.

Lemma addJob_capacity_witness :
  addJob (docs_job 7) "zzzzzzzzz" full_queue = (Throw capacity_error, full_queue)
  ∧ ∃ id q', addJob (docs_job 7) "abcdefghi" (JQ.create 3 2 1700000000000) = (Ok id, q')
      ∧ length (JQ.heap q') = 1%nat
      ∧ length (JQ.queue q') = 1%nat
      ∧ JQ.maxSize q' = 2
      ∧ Z.of_nat (length (JQ.queue q')) ≤ JQ.maxSize q'.
Proof.
  split.
  - apply (proj1 (addJob_capacity (docs_job 7) "zzzzzzzzz" full_queue)).
    vm_compute. discriminate.
  - apply (proj1 (proj2 (addJob_capacity (docs_job 7) "abcdefghi"
                           (JQ.create 3 2 1700000000000)))).
    vm_compute. reflexivity.
Defined.

(** ** Order of the active list *)

Lemma ordered_ext h h' l :
  (∀ r, r ∈ l → prio h' r = prio h r) → ordered h l → ordered h' l.
Proof.
  induction l as [|r l IH]; simpl; [done|].
  intros Hp [Hall Hord]. split.
  - rewrite Forall_forall in Hall |- *. intros x Hx.
    unfold goes_before. rewrite !Hp by set_solver. by apply Hall.
  - apply IH; [|done]. intros x Hx. apply Hp. set_solver.
Qed.

Lemma ordered_app h l1 l2 :
  ordered h (l1 ++ l2) ↔
  ordered h l1 ∧ ordered h l2 ∧ ∀ x y, x ∈ l1 → y ∈ l2 → goes_before h x y.
Proof.
  induction l1 as [|r l1 IH]; simpl.
  - split; [|tauto]. intros H. repeat split; [done|]. intros x y Hx. by apply elem_of_nil in Hx.
  - rewrite Forall_app, IH. split.
    + intros [[Ha Hb] (Hc & Hd & He)]. repeat split; try done.
      intros x y Hx Hy. apply elem_of_cons in Hx as [->|Hx]; [|by apply He].
      rewrite Forall_forall in Hb. by apply Hb.
    + intros [[Ha Hc] [Hd He]]. repeat split; try done.
      * rewrite Forall_forall. intros y Hy. apply He; [left|done].
      * intros x y Hx Hy. apply He; [by right|done].
Qed.

Lemma ordered_sublist h l1 l2 : sublist l1 l2 → ordered h l2 → ordered h l1.
Proof.
  induction 1 as [|x l1 l2 Hs IH|x l1 l2 Hs IH]; simpl; [done| |tauto].
  intros [Hall Hord]. split; [|by apply IH].
  rewrite Forall_forall in Hall |- *. intros y Hy.
  apply Hall. by eapply elem_of_sublist.
Qed.

Lemma findIndex_spec h pred l :
  match findIndex h pred l with
  | Some i =>
      (∀ r, r ∈ take i l → from_option pred false (h !! r) = false)
      ∧ ∃ r, l !! i = Some r ∧ from_option pred false (h !! r) = true
  | None => ∀ r, r ∈ l → from_option pred false (h !! r) = false
  end.
Proof.
  induction l as [|x l IH]; simpl.
  - intros r Hr. by apply elem_of_nil in Hr.
  - destruct (from_option pred false (h !! x)) eqn:E.
    + split; [intros r Hr; by apply elem_of_nil in Hr|]. by exists x.
    + destruct (findIndex h pred l) as [i|]; simpl.
      * destruct IH as [Ha Hb]. split; [|done].
        intros r Hr. apply elem_of_cons in Hr as [->|Hr]; auto.
      * intros r Hr. apply elem_of_cons in Hr as [->|Hr]; auto.
Qed.

Lemma prio_app_l h j r : (r < length h)%nat → prio (h ++ [j]) r = prio h r.
Proof. intros H. unfold prio. by rewrite lookup_app_l. Qed.

Lemma prio_app_new h j : prio (h ++ [j]) (length h) = Job.priority j.
Proof. unfold prio. by rewrite list_lookup_middle. Qed.

Lemma prio_alter h f r x :
  (∀ j, Job.priority (f j) = Job.priority j) → prio (alter f r h) x = prio h x.
Proof.
  intros Hf. unfold prio. destruct (decide (r = x)) as [->|Hne].
  - rewrite list_lookup_alter_eq. destruct (h !! x); simpl; auto.
  - by rewrite list_lookup_alter_ne.
Qed.

Lemma not_lower_prio h p r :
  from_option (fun j => Job.priority j <? p) false (h !! r) = false →
  (r < length h)%nat → p ≤ prio h r.
Proof.
  intros H Hr. unfold prio. apply lookup_lt_is_Some in Hr as [j Hj].
  rewrite Hj in *. simpl in *. lia.
Qed.

Lemma lower_prio h p r :
  from_option (fun j => Job.priority j <? p) false (h !! r) = true →
  prio h r < p.
Proof.
  unfold prio. destruct (h !! r); simpl; [lia|done].
Qed.

Lemma insert_new_split h p l :
  ∃ k, insert_new h p l = take k l ++ length h :: drop k l
    ∧ (k ≤ length l)%nat
    ∧ (∀ r, r ∈ take k l →
         from_option (fun j => Job.priority j <? p) false (h !! r) = false)
    ∧ ((k < length l)%nat →
         ∃ r, l !! k = Some r
           ∧ from_option (fun j => Job.priority j <? p) false (h !! r) = true).
Proof.
  unfold insert_new.
  pose proof (findIndex_spec h (fun j => Job.priority j <? p) l) as Hs.
  destruct (findIndex _ _ l) as [i|] eqn:E.
  - exists i. destruct Hs as [Ha Hb]. apply findIndex_le in E.
    repeat split; [lia|done|done].
  - exists (length l). rewrite take_ge, drop_ge by lia.
    repeat split; [lia|done|lia].
Qed.

Lemma ordered_insert_new h j l :
  Forall (fun r => (r < length h)%nat) l →
  ordered h l →
  ordered (h ++ [j]) (insert_new h (Job.priority j) l).
Proof.
  intros Hrefs Hord. rewrite Forall_forall in Hrefs.
  destruct (insert_new_split h (Job.priority j) l) as (k & -> & Hk & Hbefore & Hat).
  assert (Hord' : ordered (h ++ [j]) l).
  { eapply ordered_ext; [|done]. intros r Hr. apply prio_app_l. auto. }
  rewrite <- (take_drop k l) in Hord'.
  apply ordered_app in Hord' as (Ho1 & Ho2 & Ho3).
  apply ordered_app. split; [done|]. split.
  - simpl. split; [|done].
    rewrite Forall_forall. intros y Hy. left.
    rewrite prio_app_new.
    destruct (decide (k < length l)%nat) as [Hlt|Hge];
      [|rewrite drop_ge in Hy by lia; by apply elem_of_nil in Hy].
    destruct (Hat Hlt) as (r & Hr & Hlow).
    assert (Hry : y = r ∨ goes_before (h ++ [j]) r y).
    { rewrite (drop_S _ _ _ Hr) in Hy, Ho2.
      apply elem_of_cons in Hy as [->|Hy]; [by left|right].
      destruct Ho2 as [Hall _]. rewrite Forall_forall in Hall. by apply Hall. }
    assert (Hrl : (r < length h)%nat).
    { apply Hrefs. eapply list_elem_of_lookup_2. done. }
    apply lower_prio in Hlow. rewrite <- (prio_app_l h j r Hrl) in Hlow.
    destruct Hry as [->|[Hlt'|[Heq _]]]; lia.
  - intros x y Hx Hy. apply elem_of_cons in Hy as [->|Hy]; [|by apply Ho3].
    assert (Hxl : (x < length h)%nat).
    { apply Hrefs. eapply elem_of_sublist; [done|apply sublist_take]. }
    apply Hbefore in Hx. apply not_lower_prio in Hx; [|done].
    unfold goes_before. rewrite prio_app_new, prio_app_l by done.
    destruct (decide (prio h x = Job.priority j)); [right|left]; lia.
Qed.

(** The active list after each operation: the order is kept. *)

Lemma queue_ok_alter q q' r f :
  JQ.queue q' = JQ.queue q →
  JQ.heap q' = alter f r (JQ.heap q) →
  (∀ j, Job.priority (f j) = Job.priority j) →
  queue_ok q → queue_ok q'.
Proof.
  intros Hq Hh Hf [Hrefs Hord]. unfold queue_ok. rewrite Hq, Hh, length_alter.
  split; [done|]. eapply ordered_ext; [|done].
  intros x _. by apply prio_alter.
Qed.

Lemma queue_ok_sublist q q' :
  sublist (JQ.queue q') (JQ.queue q) → JQ.heap q' = JQ.heap q →
  queue_ok q → queue_ok q'.
Proof.
  intros Hs Hh [Hrefs Hord]. unfold queue_ok. rewrite Hh. split.
  - rewrite Forall_forall in Hrefs |- *. intros x Hx.
    apply Hrefs. by eapply elem_of_sublist.
  - by eapply ordered_sublist.
Qed.

Lemma addJob_queue job rnd q :
  JQ.queue (addJob job rnd q).2 = JQ.queue q
  ∧ JQ.heap (addJob job rnd q).2 = JQ.heap q
  ∨ ∃ j, Job.priority j = Job.in_priority job
      ∧ Job.status j = Job.pending ∧ Job.attempts j = 0
      ∧ (∃ id, addJob job rnd q = (Ok id, (addJob job rnd q).2))
      ∧ JQ.heap (addJob job rnd q).2 = JQ.heap q ++ [j]
      ∧ JQ.queue (addJob job rnd q).2
        = insert_new (JQ.heap q) (Job.in_priority job) (JQ.queue q).
Proof.
  unfold addJob. destruct (_ >=? _); [by left|right].
  exists (Job.mk ("job_" +:+ pretty (JQ.now q) +:+ "_" +:+ rnd)
                 (Job.in_repository job) (Job.in_files job)
                 (Job.in_priority job) (JQ.now q) 0 Job.pending
                 (Job.in_error job)).
  simpl. split; [reflexivity|]. split; [reflexivity|].
  split; [reflexivity|]. split; [eexists; reflexivity|].
  split; [reflexivity|].
  unfold insert_new. by destruct (findIndex _ _ _).
Qed.

Lemma queue_ok_addJob job rnd q : queue_ok q → queue_ok (addJob job rnd q).2.
Proof.
  intros Hok.
  destruct (addJob_queue job rnd q) as [[Hq Hh]|(j & Hp & _ & _ & _ & Hh & Hq)].
  - eapply queue_ok_sublist; [rewrite Hq| |]; done.
  - destruct Hok as [Hrefs Hord]. unfold queue_ok. rewrite Hh, Hq, <- Hp. split.
    + destruct (insert_new_split (JQ.heap q) (Job.priority j) (JQ.queue q))
        as (k & -> & _).
      rewrite <- (take_drop k (JQ.queue q)) in Hrefs.
      apply Forall_app in Hrefs as [H1 H2]. rewrite length_app. simpl.
      apply Forall_app. split; [|constructor; [lia|]];
        (eapply Forall_impl; [eassumption|]); simpl; intros; lia.
    + by apply ordered_insert_new.
Qed.

Lemma processJob_start_frame r q :
  JQ.queue (processJob_start r q) = JQ.queue q
  ∧ JQ.timers (processJob_start r q) = JQ.timers q
  ∧ JQ.now (processJob_start r q) = JQ.now q
  ∧ (JQ.heap q !! r = None → processJob_start r q = q)
  ∧ (is_Some (JQ.heap q !! r) →
       JQ.heap (processJob_start r q)
         = alter (fun j => Job.incr_attempts (Job.set_status Job.processing j))
                 r (JQ.heap q)
       ∧ JQ.invoked (processJob_start r q) = r :: JQ.invoked q
       ∧ JQ.awaiting (processJob_start r q) = r :: JQ.awaiting q).
Proof.
  unfold processJob_start.
  destruct (JQ.heap q !! r) eqn:E; simpl; repeat split;
    try done; by intros [? ?].
Qed.

Lemma queue_ok_start r q : queue_ok q → queue_ok (processJob_start r q).
Proof.
  intros Hok. destruct (processJob_start_frame r q) as (Hq & _ & _ & Hnone & Hsome).
  destruct (JQ.heap q !! r) eqn:E.
  - destruct Hsome as (Hh & _); [done|].
    by eapply queue_ok_alter.
  - by rewrite Hnone.
Qed.

Lemma queue_ok_loop fuel q : queue_ok q → queue_ok (processQueue_loop fuel q).
Proof.
  revert q. induction fuel as [|fuel IH]; intros q Hok; simpl; [done|].
  destruct (_ && _); [|done].
  destruct (find_job _ _ _); [|done].
  by apply IH, queue_ok_start.
Qed.

Lemma processJob_settle_frame r o q :
  JQ.queue (processJob_settle r o q) = JQ.queue q
  ∧ JQ.invoked (processJob_settle r o q) = JQ.invoked q
  ∧ JQ.awaiting (processJob_settle r o q) = JQ.awaiting q
  ∧ JQ.now (processJob_settle r o q) = JQ.now q
  ∧ ∃ f, (∀ j, Job.priority (f j) = Job.priority j
               ∧ Job.attempts (f j) = Job.attempts j)
      ∧ JQ.heap (processJob_settle r o q) = alter f r (JQ.heap q).
Proof.
  unfold processJob_settle. destruct (JQ.heap q !! r) as [job|] eqn:E.
  - destruct o as [result|e]; [|destruct (Job.attempts job <? 3)]; simpl;
      (repeat split; try done); eexists; (split; [|reflexivity]); done.
  - repeat split; try done. exists (fun j => j). split; [done|].
    symmetry. by apply list_alter_id.
Qed.

Lemma queue_ok_settle r o q : queue_ok q → queue_ok (processJob_settle r o q).
Proof.
  intros Hok.
  destruct (processJob_settle_frame r o q) as (Hq & _ & _ & _ & f & Hf & Hh).
  eapply queue_ok_alter; [done..| |done]. intros j. apply Hf.
Qed.

Lemma sublist_splice_remove {A} (i : nat) (l : list A) :
  sublist (splice_remove i l) l.
Proof.
  unfold splice_remove. rewrite <- (take_drop i l) at 3.
  apply sublist_app; [done|]. destruct (l !! i) as [x|] eqn:E.
  - rewrite (drop_S l x i E). by constructor.
  - apply lookup_ge_None in E. rewrite (drop_ge l (S i)) by lia.
    apply sublist_nil_l.
Qed.

Lemma evict_frame r q :
  sublist (JQ.queue (evict r q)) (JQ.queue q)
  ∧ JQ.heap (evict r q) = JQ.heap q
  ∧ JQ.invoked (evict r q) = JQ.invoked q
  ∧ JQ.awaiting (evict r q) = JQ.awaiting q
  ∧ JQ.timers (evict r q) = JQ.timers q
  ∧ JQ.now (evict r q) = JQ.now q.
Proof.
  unfold evict. destruct (JQ.heap q !! r); [|done].
  destruct (findIndex _ _ _); [|done].
  destruct (_ || _); [|done]. simpl.
  split; [apply sublist_splice_remove|done].
Qed.

Lemma queue_ok_run_timer a q : queue_ok q → queue_ok (run_timer a q).
Proof.
  intros Hok. destruct a as [r|r]; simpl.
  - by apply (queue_ok_alter q _ r (Job.set_status Job.pending)).
  - destruct (evict_frame r q) as (Hs & Hh & _). by eapply queue_ok_sublist.
Qed.

(** A property that every step keeps is kept by every run. *)
Lemma run_preserves (P : JQ.t → Prop) :
  (∀ e q q', exec e q = Some q' → P q → P q') →
  ∀ es q q', run es q = Some q' → P q → P q'.
Proof.
  intros Hstep es. induction es as [|e es IH]; intros q q'; simpl.
  - by intros [= <-].
  - destruct (exec e q) as [q1|] eqn:E; simpl; [|done].
    intros Hrun HP. eapply IH; [done|]. by eapply Hstep.
Qed.

Lemma queue_ok_exec e q q' : exec e q = Some q' → queue_ok q → queue_ok q'.
Proof.
  destruct e as [job rnd| |r o|k|dt]; simpl.
  - intros [= <-]. apply queue_ok_addJob.
  - intros [= <-]. apply queue_ok_loop.
  - destruct (bool_decide _); [|done]. intros [= <-] Hok.
    by apply queue_ok_settle.
  - destruct (JQ.timers q !! k) as [tm|]; [|done].
    destruct (_ <=? _); [|done]. intros [= <-] Hok.
    by apply queue_ok_run_timer.
  - destruct (0 <=? dt); [|done]. by intros [= <-].
Qed.

Lemma queue_ok_run es q q' : run es q = Some q' → queue_ok q → queue_ok q'.
Proof. apply (run_preserves queue_ok), queue_ok_exec. Qed.

Lemma queue_ok_reachable q : reachable q → queue_ok q.
Proof.
  intros (mc & ms & t0 & es & Hrun). eapply queue_ok_run; [done|].
  split; simpl; constructor.
Qed.

Lemma ordered_lookup h l i j r1 r2 :
  ordered h l → (i < j)%nat → l !! i = Some r1 → l !! j = Some r2 →
  goes_before h r1 r2.
Proof.
  revert i j. induction l as [|x l IH]; intros i j Hord Hij Hi Hj; [done|].
  destruct Hord as [Hall Hord]. destruct j as [|j]; [lia|].
  simpl in Hj. destruct i as [|i].
  - simpl in Hi. injection Hi as ->. rewrite Forall_forall in Hall.
    apply Hall. by eapply list_elem_of_lookup_2.
  - simpl in Hi. apply (IH i j); [done|lia|done|done].
Qed.

(** C2. In every queue the process can reach, the active list is in
    non-increasing order of priority and two jobs of the same priority stand
    in the order of their admission (a job's reference is its admission
    rank: [addJob] gives the new job the reference [length heap]).  A
    successful [addJob] puts the new job at the first position [k] whose job
    has a strictly lower priority, and at the end when there is none. *)
Theorem queue_sorted_stable (q : JQ.t) :
  reachable q →
  (∀ i j r1 r2 j1 j2, (i < j)%nat →
     JQ.queue q !! i = Some r1 → JQ.queue q !! j = Some r2 →
     JQ.heap q !! r1 = Some j1 → JQ.heap q !! r2 = Some j2 →
     Job.priority j2 ≤ Job.priority j1
     ∧ (Job.priority j1 = Job.priority j2 → (r1 < r2)%nat))
  ∧ (∀ job rnd id q', addJob job rnd q = (Ok id, q') →
       ∃ k, (k ≤ length (JQ.queue q))%nat
         ∧ JQ.queue q'
           = take k (JQ.queue q) ++ length (JQ.heap q) :: drop k (JQ.queue q)
         ∧ Job.priority <$> JQ.heap q' !! length (JQ.heap q)
           = Some (Job.in_priority job)
         ∧ (∀ i r j, (i < k)%nat → JQ.queue q !! i = Some r →
              JQ.heap q !! r = Some j → Job.in_priority job ≤ Job.priority j)
         ∧ ((k < length (JQ.queue q))%nat →
              ∃ r j, JQ.queue q !! k = Some r ∧ JQ.heap q !! r = Some j
                ∧ Job.priority j < Job.in_priority job)).
Proof.
  intros Hreach. apply queue_ok_reachable in Hreach as [Hrefs Hord]. split.
  - intros i j r1 r2 j1 j2 Hij Hi Hj H1 H2.
    pose proof (ordered_lookup _ _ _ _ _ _ Hord Hij Hi Hj) as Hb.
    unfold goes_before, prio in Hb. rewrite H1, H2 in Hb. simpl in Hb. lia.
  - intros job rnd id q' Hadd.
    destruct (addJob_queue job rnd q) as [[Hq Hh]|(j & Hp & _ & _ & _ & Hh & Hq)].
    { exfalso. unfold addJob in Hadd, Hh.
      destruct (_ >=? _); [done|]. simpl in Hh.
      apply (f_equal length) in Hh. rewrite length_app in Hh. simpl in Hh. lia. }
    rewrite Hadd in Hh, Hq. simpl in Hh, Hq.
    destruct (insert_new_split (JQ.heap q) (Job.in_priority job) (JQ.queue q))
      as (k & Hk & Hle & Hbefore & Hat).
    exists k. split; [done|]. split; [by rewrite Hq|]. split.
    { rewrite Hh, list_lookup_middle by done. simpl. by rewrite Hp. }
    split.
    + intros i r j0 Hi Hr Hj0.
      assert (Hin : r ∈ take k (JQ.queue q)).
      { eapply list_elem_of_lookup_2. rewrite lookup_take_lt by done. done. }
      apply Hbefore in Hin. rewrite Hj0 in Hin. simpl in Hin.
      apply Z.ltb_ge in Hin. done.
    + intros Hlt. destruct (Hat Hlt) as (r & Hr & Hlow).
      destruct (JQ.heap q !! r) as [j0|] eqn:E; [|done].
      exists r, j0. simpl in Hlow. apply Z.ltb_lt in Hlow. done.
Qed.

Lemma sample_queue_reachable : reachable sample_queue.
Proof.
  exists 3, 100, 1700000000000, sample_events. vm_compute. reflexivity.
Qed.

Lemma queue_sorted_stable_witness :
  JQ.queue sample_queue = [1; 0; 2]%nat
  ∧ (∀ i j r1 r2 j1 j2, (i < j)%nat →
     JQ.queue sample_queue !! i = Some r1 → JQ.queue sample_queue !! j = Some r2 →
     JQ.heap sample_queue !! r1 = Some j1 → JQ.heap sample_queue !! r2 = Some j2 →
     Job.priority j2 ≤ Job.priority j1
     ∧ (Job.priority j1 = Job.priority j2 → (r1 < r2)%nat))
  ∧ JQ.queue (addJob (docs_job 7) "ddddddddd" sample_queue).2 = [1; 3; 0; 2]%nat
  ∧ ∃ k, (k ≤ length (JQ.queue sample_queue))%nat
      ∧ JQ.queue (addJob (docs_job 7) "ddddddddd" sample_queue).2
        = take k (JQ.queue sample_queue)
            ++ length (JQ.heap sample_queue) :: drop k (JQ.queue sample_queue)
      ∧ Job.priority <$> JQ.heap (addJob (docs_job 7) "ddddddddd" sample_queue).2
                           !! length (JQ.heap sample_queue)
        = Some (Job.in_priority (docs_job 7))
      ∧ (∀ i r j, (i < k)%nat → JQ.queue sample_queue !! i = Some r →
           JQ.heap sample_queue !! r = Some j →
           Job.in_priority (docs_job 7) ≤ Job.priority j)
      ∧ ((k < length (JQ.queue sample_queue))%nat →
           ∃ r j, JQ.queue sample_queue !! k = Some r
             ∧ JQ.heap sample_queue !! r = Some j
             ∧ Job.priority j < Job.in_priority (docs_job 7)).
Proof.
  split; [vm_compute; reflexivity|].
  split; [apply (proj1 (queue_sorted_stable sample_queue sample_queue_reachable))|].
  split; [vm_compute; reflexivity|].
  apply (proj2 (queue_sorted_stable sample_queue sample_queue_reachable)
           (docs_job 7) "ddddddddd" "job_1700000000000_ddddddddd").
  vm_compute. reflexivity.
Defined.

(** ** Attempts, retries and the terminal failure *)

Lemma lookup_alter_Some {A} (f : A → A) (l : list A) r x y :
  alter f r l !! x = Some y →
  ∃ z, l !! x = Some z ∧ ((x = r ∧ y = f z) ∨ (x ≠ r ∧ y = z)).
Proof.
  destruct (decide (r = x)) as [->|Hne].
  - rewrite list_lookup_alter_eq. destruct (l !! x) as [z|]; [|done].
    intros [= <-]. exists z. auto.
  - rewrite list_lookup_alter_ne by done. intros H. exists y. auto.
Qed.

Lemma filter_eq_fresh (n : nat) (l : list nat) :
  Forall (fun r => (r < n)%nat) l → filter (fun x => x = n) l = [].
Proof.
  induction 1 as [|x l Hx _ IH]; [done|].
  rewrite filter_cons_False by lia. done.
Qed.

Lemma counted_alter q q' r f :
  JQ.invoked q' = JQ.invoked q →
  JQ.heap q' = alter f r (JQ.heap q) →
  (∀ j, Job.attempts (f j) = Job.attempts j) →
  counted q → counted q'.
Proof.
  intros Hi Hh Hf [Hrefs Hcnt]. unfold counted, invocations.
  rewrite Hi, Hh, length_alter. split; [done|].
  intros x j Hj. apply lookup_alter_Some in Hj as (z & Hz & [[-> ->]|[_ ->]]).
  - rewrite Hf. by apply Hcnt.
  - by apply Hcnt.
Qed.

Lemma counted_same q q' :
  JQ.invoked q' = JQ.invoked q → JQ.heap q' = JQ.heap q →
  counted q → counted q'.
Proof.
  intros Hi Hh H. unfold counted, invocations in *. by rewrite Hi, Hh.
Qed.

Lemma addJob_invoked job rnd q :
  JQ.invoked (addJob job rnd q).2 = JQ.invoked q
  ∧ JQ.awaiting (addJob job rnd q).2 = JQ.awaiting q
  ∧ JQ.timers (addJob job rnd q).2 = JQ.timers q
  ∧ JQ.now (addJob job rnd q).2 = JQ.now q.
Proof. unfold addJob. by destruct (_ >=? _). Qed.

Lemma counted_addJob job rnd q : counted q → counted (addJob job rnd q).2.
Proof.
  intros Hc. destruct (addJob_invoked job rnd q) as (Hi & _).
  destruct (addJob_queue job rnd q) as [[Hq Hh]|(j & _ & _ & Ha & _ & Hh & _)].
  - by eapply counted_same.
  - destruct Hc as [Hrefs Hcnt]. unfold counted, invocations.
    rewrite Hi, Hh, length_app. split.
    + eapply Forall_impl; [done|]. simpl. intros; lia.
    + intros x j0 Hx. apply lookup_app_Some in Hx as [Hx|[Hge Hx]].
      * by apply Hcnt.
      * apply list_lookup_singleton_Some in Hx as [Hx <-].
        assert (x = length (JQ.heap q)) as -> by lia.
        rewrite filter_eq_fresh by done. by rewrite Ha.
Qed.

Lemma counted_start r q : counted q → counted (processJob_start r q).
Proof.
  intros Hc. destruct (processJob_start_frame r q) as (_ & _ & _ & Hnone & Hsome).
  destruct (JQ.heap q !! r) as [job|] eqn:E; [|by rewrite Hnone].
  destruct Hsome as (Hh & Hi & _); [done|].
  destruct Hc as [Hrefs Hcnt]. unfold counted, invocations.
  rewrite Hi, Hh, length_alter. split.
  - constructor; [|done]. by eapply lookup_lt_Some.
  - intros x j Hj. apply lookup_alter_Some in Hj as (z & Hz & [[-> ->]|[Hne ->]]).
    + rewrite filter_cons_True by done. simpl.
      specialize (Hcnt _ _ Hz). unfold invocations in Hcnt. lia.
    + rewrite filter_cons_False by done. by apply Hcnt.
Qed.

Lemma counted_loop fuel q : counted q → counted (processQueue_loop fuel q).
Proof.
  revert q. induction fuel as [|fuel IH]; intros q Hok; simpl; [done|].
  destruct (_ && _); [|done].
  destruct (find_job _ _ _); [|done].
  by apply IH, counted_start.
Qed.

Lemma counted_settle r o q : counted q → counted (processJob_settle r o q).
Proof.
  intros Hc.
  destruct (processJob_settle_frame r o q) as (_ & Hi & _ & _ & f & Hf & Hh).
  eapply counted_alter; [done..| |done]. intros j. apply Hf.
Qed.

Lemma counted_run_timer a q : counted q → counted (run_timer a q).
Proof.
  intros Hc. destruct a as [r|r]; simpl.
  - by apply (counted_alter q _ r (Job.set_status Job.pending)).
  - destruct (evict_frame r q) as (_ & Hh & Hi & _). by eapply counted_same.
Qed.

Lemma counted_exec e q q' : exec e q = Some q' → counted q → counted q'.
Proof.
  destruct e as [job rnd| |r o|k|dt]; simpl.
  - intros [= <-]. apply counted_addJob.
  - intros [= <-]. apply counted_loop.
  - destruct (bool_decide _); [|done]. intros [= <-] Hc.
    by apply counted_settle.
  - destruct (JQ.timers q !! k) as [tm|]; [|done].
    destruct (_ <=? _); [|done]. intros [= <-] Hc.
    by apply counted_run_timer.
  - destruct (0 <=? dt); [|done]. by intros [= <-].
Qed.

Lemma counted_run es q q' : run es q = Some q' → counted q → counted q'.
Proof. apply (run_preserves counted), counted_exec. Qed.

Lemma counted_reachable q : reachable q → counted q.
Proof.
  intros (mc & ms & t0 & es & Hrun). eapply counted_run; [done|].
  split; simpl; [constructor|]. intros r j Hj. by rewrite lookup_nil in Hj.
Qed.

Lemma disciplined_update q q' r f :
  disciplined q →
  JQ.heap q' = alter f r (JQ.heap q) →
  (∀ j, JQ.heap q !! r = Some j →
     0 ≤ Job.attempts (f j) ≤ 3
     ∧ (Job.status (f j) = Job.pending ∨ Job.status (f j) = Job.retrying →
        Job.attempts (f j) < 3)) →
  (∀ x, x ∈ JQ.awaiting q' →
     (x ≠ r ∧ x ∈ JQ.awaiting q)
     ∨ (x = r ∧ ∃ j, JQ.heap q !! r = Some j
                     ∧ Job.status (f j) = Job.processing)) →
  NoDup (JQ.awaiting q') →
  (∀ x, x ∈ retry_refs (JQ.timers q') →
     (x ≠ r ∧ x ∈ retry_refs (JQ.timers q))
     ∨ (x = r ∧ ∃ j, JQ.heap q !! r = Some j
                     ∧ Job.status (f j) = Job.retrying)) →
  NoDup (retry_refs (JQ.timers q')) →
  disciplined q'.
Proof.
  intros [Hb Ha Han Hr Hrn] Hh Hf Haw Hnd Hrt Hrnd.
  assert (Hst : ∀ x s, (x ≠ r ∧ status_of q x = Some s)
                       ∨ (x = r ∧ ∃ j, JQ.heap q !! r = Some j
                                       ∧ Job.status (f j) = s) →
                       status_of q' x = Some s).
  { intros x s [[Hne Hs]|[-> (j & Hj & Hs)]]; unfold status_of in *; rewrite Hh.
    - by rewrite list_lookup_alter_ne.
    - rewrite list_lookup_alter_eq, Hj. simpl. by rewrite Hs. }
  split; try done.
  - intros x j. rewrite Hh. intros Hj.
    apply lookup_alter_Some in Hj as (z & Hz & [[-> ->]|[_ ->]]); eauto.
  - intros x Hx. apply Hst. destruct (Haw x Hx) as [[Hne Hin]|Heq]; auto.
  - intros x Hx. apply Hst. destruct (Hrt x Hx) as [[Hne Hin]|Heq]; auto.
Qed.

Lemma disciplined_same q q' :
  disciplined q → JQ.heap q' = JQ.heap q →
  JQ.awaiting q' = JQ.awaiting q →
  retry_refs (JQ.timers q') = retry_refs (JQ.timers q) →
  disciplined q'.
Proof.
  intros [Hb Ha Han Hr Hrn] Hh Haw Hrt.
  split; unfold status_of in *; rewrite ?Hh, ?Haw, ?Hrt; done.
Qed.

Lemma status_of_Some_lt q r s :
  status_of q r = Some s → (r < length (JQ.heap q))%nat.
Proof.
  unfold status_of. destruct (JQ.heap q !! r) eqn:E; [|done].
  intros _. by eapply lookup_lt_Some.
Qed.

Lemma disciplined_addJob job rnd q :
  disciplined q → disciplined (addJob job rnd q).2.
Proof.
  intros Hd. destruct (addJob_invoked job rnd q) as (_ & Haw & Htm & _).
  destruct (addJob_queue job rnd q) as [[Hq Hh]|(j & _ & Hs & Ha & _ & Hh & _)].
  - eapply disciplined_same; [done..|]. by rewrite Htm.
  - destruct Hd as [Hb Hal Han Hr Hrn].
    split; unfold status_of in *; rewrite ?Hh, ?Haw, ?Htm; try done.
    + intros x j0 Hx. apply lookup_app_Some in Hx as [Hx|[Hge Hx]]; [eauto|].
      apply list_lookup_singleton_Some in Hx as [Hx <-].
      rewrite Ha. split; [lia|]. intros _. lia.
    + intros x Hx. specialize (Hal x Hx).
      rewrite lookup_app_l; [done|]. by eapply status_of_Some_lt.
    + intros x Hx. specialize (Hr x Hx).
      rewrite lookup_app_l; [done|]. by eapply status_of_Some_lt.
Qed.

Lemma disciplined_start r q :
  disciplined q → status_of q r = Some Job.pending →
  disciplined (processJob_start r q).
Proof.
  intros Hd Hs.
  destruct (processJob_start_frame r q) as (_ & Htm & _ & _ & Hsome).
  unfold status_of in Hs. destruct (JQ.heap q !! r) as [job|] eqn:E; [|done].
  simpl in Hs. injection Hs as Hs.
  destruct Hsome as (Hh & _ & Haw); [done|].
  eapply disciplined_update; [done|done|..].
  - intros j Hj. rewrite E in Hj. injection Hj as <-. simpl.
    destruct (d_bound q Hd r job E) as [Hb1 Hb2].
    split; [|intros [?|?]; done]. specialize (Hb2 (or_introl Hs)). lia.
  - rewrite Haw. intros x Hx. apply elem_of_cons in Hx as [->|Hx].
    + right. split; [done|]. by exists job.
    + left. split; [|done]. intros ->.
      apply (d_await q Hd) in Hx. unfold status_of in Hx.
      rewrite E in Hx. simpl in Hx. congruence.
  - rewrite Haw. constructor; [|by apply (d_await_nodup q)].
    intros Hx. apply (d_await q Hd) in Hx. unfold status_of in Hx.
    rewrite E in Hx. simpl in Hx. congruence.
  - rewrite Htm. intros x Hx. left. split; [|done]. intros ->.
    apply (d_retry q Hd) in Hx. unfold status_of in Hx.
    rewrite E in Hx. simpl in Hx. congruence.
  - rewrite Htm. by apply (d_retry_nodup q).
Qed.

Lemma find_job_Some h pred l r :
  find_job h pred l = Some r → from_option pred false (h !! r) = true.
Proof.
  induction l as [|x l IH]; simpl; [done|].
  destruct (from_option pred false (h !! x)) eqn:E; [|done].
  by intros [= <-].
Qed.

Lemma find_pending_status q r :
  find_job (JQ.heap q) (fun j => bool_decide (Job.status j = Job.pending))
           (JQ.queue q) = Some r →
  status_of q r = Some Job.pending.
Proof.
  intros H. apply find_job_Some in H. unfold status_of.
  destruct (JQ.heap q !! r) as [j|]; [|done]. simpl in *.
  apply bool_decide_eq_true in H. by rewrite H.
Qed.

Lemma disciplined_loop fuel q :
  disciplined q → disciplined (processQueue_loop fuel q).
Proof.
  revert q. induction fuel as [|fuel IH]; intros q Hd; simpl; [done|].
  destruct (_ && _); [|done].
  destruct (find_job _ _ _) as [r|] eqn:E; [|done].
  apply IH, disciplined_start; [done|]. by apply find_pending_status.
Qed.

Lemma processJob_settle_cases r o q job :
  JQ.heap q !! r = Some job →
  let evict_timer := JQ.mkTimer (JQ.now q + 5 * 60 * 1000) (JQ.EvictTimer r) in
  match o with
  | Resolved result =>
      JQ.heap (processJob_settle r o q)
        = alter (Job.set_status Job.completed) r (JQ.heap q)
      ∧ JQ.timers (processJob_settle r o q) = JQ.timers q ++ [evict_timer]
      ∧ JQ.completed (processJob_settle r o q)
        = <[ Job.id job := JQ.mkCompleted "completed" (Some result) None ]>
            (JQ.completed q)
  | Rejected e =>
      if Job.attempts job <? 3 then
        JQ.heap (processJob_settle r o q)
          = alter (Job.set_status Job.retrying) r (JQ.heap q)
        ∧ JQ.timers (processJob_settle r o q)
          = (JQ.timers q
               ++ [JQ.mkTimer (JQ.now q + 2 ^ Job.attempts job * 1000)
                              (JQ.RetryTimer r)]) ++ [evict_timer]
        ∧ JQ.completed (processJob_settle r o q) = JQ.completed q
      else
        JQ.heap (processJob_settle r o q)
          = alter (fun j => Job.set_error (Some (error_message e))
                              (Job.set_status Job.failed j)) r (JQ.heap q)
        ∧ JQ.timers (processJob_settle r o q) = JQ.timers q ++ [evict_timer]
        ∧ JQ.completed (processJob_settle r o q)
          = <[ Job.id job := JQ.mkCompleted "failed" None
                               (Some (error_message e)) ]> (JQ.completed q)
  end.
Proof.
  intros E. unfold processJob_settle. rewrite E.
  destruct o as [result|e]; [done|]. by destruct (Job.attempts job <? 3).
Qed.

Lemma elem_of_remove_first r l x : x ∈ remove_first r l → x ∈ l.
Proof.
  induction l as [|y l IH]; simpl; [done|].
  destruct (bool_decide (y = r)); [by right|].
  intros [->|H]%elem_of_cons; [left|right; auto].
Qed.

Lemma NoDup_remove_first r l :
  NoDup l → NoDup (remove_first r l) ∧ r ∉ remove_first r l.
Proof.
  induction 1 as [|y l Hy Hnd [IH1 IH2]]; simpl.
  - split; [constructor|]. by intros ?%elem_of_nil.
  - destruct (bool_decide (y = r)) eqn:E.
    + apply bool_decide_eq_true in E as ->. done.
    + apply bool_decide_eq_false in E. split.
      * constructor; [|done]. intros H. by apply elem_of_remove_first in H.
      * intros [->|H]%elem_of_cons; done.
Qed.

Lemma retry_refs_app l1 l2 :
  retry_refs (l1 ++ l2) = retry_refs l1 ++ retry_refs l2.
Proof. apply omap_app. Qed.

Lemma disciplined_settle r o q :
  disciplined q → r ∈ JQ.awaiting q →
  disciplined (processJob_settle r o
                 (JQ.set_awaiting (remove_first r (JQ.awaiting q)) q)).
Proof.
  intros Hd Hin.
  pose proof (d_await q Hd r Hin) as Hs. unfold status_of in Hs.
  destruct (JQ.heap q !! r) as [job|] eqn:E; [|done].
  simpl in Hs. injection Hs as Hs.
  set (q0 := JQ.set_awaiting (remove_first r (JQ.awaiting q)) q).
  destruct (processJob_settle_frame r o q0) as (_ & _ & Haw & _ & _).
  destruct (NoDup_remove_first r _ (d_await_nodup q Hd)) as [Hnd Hnotin].
  destruct (d_bound q Hd r job E) as [Hb _].
  assert (Hawait : ∀ f x, x ∈ JQ.awaiting (processJob_settle r o q0) →
            (x ≠ r ∧ x ∈ JQ.awaiting q)
            ∨ (x = r ∧ ∃ j, JQ.heap q !! r = Some j
                            ∧ Job.status (f j) = Job.processing)).
  { intros f x. rewrite Haw. simpl. intros Hx. left. split.
    - intros ->. done.
    - by eapply elem_of_remove_first. }
  assert (Hold : ∀ x, x ∈ retry_refs (JQ.timers q) →
            x ≠ r ∧ x ∈ retry_refs (JQ.timers q)).
  { intros x Hx. split; [|done]. intros ->.
    apply (d_retry q Hd) in Hx. unfold status_of in Hx.
    rewrite E in Hx. simpl in Hx. congruence. }
  pose proof (processJob_settle_cases r o q0 job E) as Hc. simpl in Hc.
  destruct o as [result|e]; [|destruct (Job.attempts job <? 3) eqn:Hlt];
    destruct Hc as (Hh & Htm & _).
  - eapply disciplined_update; [done|exact Hh|..].
    + intros j Hj. rewrite E in Hj. injection Hj as <-. simpl.
      split; [done|]. intros [?|?]; done.
    + apply Hawait.
    + by rewrite Haw.
    + rewrite Htm, retry_refs_app. simpl. rewrite app_nil_r.
      intros x Hx. left. by apply Hold.
    + rewrite Htm, retry_refs_app. simpl. rewrite app_nil_r.
      by apply (d_retry_nodup q).
  - eapply disciplined_update; [done|exact Hh|..].
    + intros j Hj. rewrite E in Hj. injection Hj as <-. simpl.
      split; [done|]. intros _. by apply Z.ltb_lt.
    + apply Hawait.
    + by rewrite Haw.
    + rewrite Htm, !retry_refs_app. simpl. rewrite app_nil_r.
      intros x [Hx|Hx]%elem_of_app.
      * left. by apply Hold.
      * apply list_elem_of_singleton in Hx as ->. right. split; [done|].
        by exists job.
    + rewrite Htm, !retry_refs_app. simpl. rewrite app_nil_r.
      apply NoDup_app. split; [by apply (d_retry_nodup q)|]. split.
      * intros x Hx Hx'. apply list_elem_of_singleton in Hx' as ->.
        by destruct (Hold r Hx).
      * apply NoDup_singleton.
  - eapply disciplined_update; [done|exact Hh|..].
    + intros j Hj. rewrite E in Hj. injection Hj as <-. simpl.
      split; [done|]. intros [?|?]; done.
    + apply Hawait.
    + by rewrite Haw.
    + rewrite Htm, retry_refs_app. simpl. rewrite app_nil_r.
      intros x Hx. left. by apply Hold.
    + rewrite Htm, retry_refs_app. simpl. rewrite app_nil_r.
      by apply (d_retry_nodup q).
Qed.

Lemma retry_refs_delete ts k tm :
  ts !! k = Some tm →
  match retry_ref tm with
  | Some r =>
      ∃ l1 l2, retry_refs ts = l1 ++ r :: l2
               ∧ retry_refs (delete k ts) = l1 ++ l2
  | None => retry_refs (delete k ts) = retry_refs ts
  end.
Proof.
  intros Hk. rewrite delete_take_drop, retry_refs_app.
  assert (Hts : retry_refs ts
                = retry_refs (take k ts)
                    ++ retry_refs [tm] ++ retry_refs (drop (S k) ts)).
  { rewrite <- !retry_refs_app. f_equal. symmetry.
    by apply take_drop_middle. }
  rewrite Hts. unfold retry_refs at 3 6. simpl.
  destruct (retry_ref tm) as [r|]; simpl; [|done].
  by exists (retry_refs (take k ts)), (retry_refs (drop (S k) ts)).
Qed.

Lemma disciplined_run_timer q k tm :
  disciplined q → JQ.timers q !! k = Some tm →
  disciplined (run_timer (JQ.action tm)
                 (JQ.set_timers (delete k (JQ.timers q)) q)).
Proof.
  intros Hd Hk. pose proof (retry_refs_delete _ _ _ Hk) as Hdel.
  unfold retry_ref in Hdel. destruct (JQ.action tm) as [r|r]; simpl.
  - destruct Hdel as (l1 & l2 & Hrr & Hrr').
    pose proof (d_retry_nodup q Hd) as Hnd. rewrite Hrr in Hnd.
    apply NoDup_app in Hnd as (Hn1 & Hn2 & Hn3).
    apply NoDup_cons in Hn3 as [Hn3 Hn4].
    assert (Hr : status_of q r = Some Job.retrying).
    { apply (d_retry q Hd). rewrite Hrr. apply elem_of_app. right. left. }
    unfold status_of in Hr. destruct (JQ.heap q !! r) as [job|] eqn:E; [|done].
    simpl in Hr. injection Hr as Hr.
    eapply (disciplined_update q _ r (Job.set_status Job.pending));
      [done|done|..]; simpl.
    + intros j Hj. rewrite E in Hj. injection Hj as <-. simpl.
      destruct (d_bound q Hd r job E) as [Hb1 Hb2]. split; [done|].
      intros _. apply Hb2. by right.
    + intros x Hx. left. split; [|done]. intros ->.
      apply (d_await q Hd) in Hx. unfold status_of in Hx.
      rewrite E in Hx. simpl in Hx. congruence.
    + by apply (d_await_nodup q).
    + rewrite Hrr', Hrr. intros x Hx. left. split.
      * intros ->. apply elem_of_app in Hx as [Hx|Hx]; [|done].
        apply (Hn2 r Hx). left.
      * apply elem_of_app in Hx as [Hx|Hx]; apply elem_of_app;
          [by left|by right; right].
    + rewrite Hrr'. apply NoDup_app. split; [done|]. split; [|done].
      intros x Hx Hx'. apply (Hn2 x Hx). by right.
  - destruct (evict_frame r (JQ.set_timers (delete k (JQ.timers q)) q))
      as (_ & Hh & _ & Haw & Htm & _).
    eapply disciplined_same; [done|done|done|]. by rewrite Htm.
Qed.

Lemma disciplined_exec e q q' :
  exec e q = Some q' → disciplined q → disciplined q'.
Proof.
  destruct e as [job rnd| |r o|k|dt]; simpl.
  - intros [= <-]. apply disciplined_addJob.
  - intros [= <-]. apply disciplined_loop.
  - destruct (bool_decide _) eqn:E; [|done]. intros [= <-] Hd.
    apply bool_decide_eq_true in E. by apply disciplined_settle.
  - destruct (JQ.timers q !! k) as [tm|] eqn:E; [|done].
    destruct (_ <=? _); [|done]. intros [= <-] Hd.
    by apply disciplined_run_timer.
  - destruct (0 <=? dt); [|done]. intros [= <-] Hd.
    by eapply disciplined_same.
Qed.

Lemma disciplined_run es q q' : run es q = Some q' → disciplined q → disciplined q'.
Proof. apply (run_preserves disciplined), disciplined_exec. Qed.

Lemma disciplined_reachable q : reachable q → disciplined q.
Proof.
  intros (mc & ms & t0 & es & Hrun). eapply disciplined_run; [done|].
  split; simpl.
  - intros r j Hj. by rewrite lookup_nil in Hj.
  - intros r Hr. by apply elem_of_nil in Hr.
  - constructor.
  - intros r Hr. by apply elem_of_nil in Hr.
  - constructor.
Qed.

(** Time only moves forward, and a step keeps every timer but the one it
    fires. *)

Lemma processQueue_loop_frame fuel q :
  JQ.timers (processQueue_loop fuel q) = JQ.timers q
  ∧ JQ.now (processQueue_loop fuel q) = JQ.now q.
Proof.
  revert q. induction fuel as [|fuel IH]; intros q; simpl; [done|].
  destruct (_ && _); [|done].
  destruct (find_job _ _ _) as [r|]; [|done].
  destruct (IH (processJob_start r q)) as [-> ->].
  by destruct (processJob_start_frame r q) as (_ & -> & -> & _).
Qed.

Lemma settle_timers_incl r o q tm :
  tm ∈ JQ.timers q → tm ∈ JQ.timers (processJob_settle r o q).
Proof.
  intros Hin. destruct (JQ.heap q !! r) as [job|] eqn:E.
  - pose proof (processJob_settle_cases r o q job E) as Hc. simpl in Hc.
    destruct o as [result|e]; [|destruct (Job.attempts job <? 3)];
      destruct Hc as (_ & -> & _); rewrite ?elem_of_app; auto.
  - unfold processJob_settle. by rewrite E.
Qed.

Lemma now_mono_exec e q q' : exec e q = Some q' → JQ.now q ≤ JQ.now q'.
Proof.
  destruct e as [job rnd| |r o|k|dt]; simpl.
  - intros [= <-]. by destruct (addJob_invoked job rnd q) as (_ & _ & _ & ->).
  - intros [= <-]. unfold processQueue_tick.
    by destruct (processQueue_loop_frame (length (JQ.queue q)) q) as [_ ->].
  - destruct (bool_decide _); [|done]. intros [= <-].
    by destruct (processJob_settle_frame r o
                   (JQ.set_awaiting (remove_first r (JQ.awaiting q)) q))
      as (_ & _ & _ & -> & _).
  - destruct (JQ.timers q !! k) as [tm|]; [|done].
    destruct (_ <=? _); [|done]. intros [= <-].
    destruct (JQ.action tm) as [r|r]; simpl; [done|].
    by destruct (evict_frame r (JQ.set_timers (delete k (JQ.timers q)) q))
      as (_ & _ & _ & _ & _ & ->).
  - destruct (Z.leb_spec 0 dt); [|done]. intros [= <-]. simpl. lia.
Qed.

Lemma now_mono_run es q q' : run es q = Some q' → JQ.now q ≤ JQ.now q'.
Proof.
  revert q. induction es as [|e es IH]; intros q; simpl.
  - intros [= <-]. lia.
  - destruct (exec e q) as [q1|] eqn:E; simpl; [|done].
    intros Hrun. apply now_mono_exec in E. apply IH in Hrun. lia.
Qed.

Lemma timer_kept_exec e q q' tm :
  exec e q = Some q' → tm ∈ JQ.timers q →
  tm ∈ JQ.timers q' ∨ JQ.due tm ≤ JQ.now q.
Proof.
  destruct e as [job rnd| |r o|k|dt]; simpl.
  - intros [= <-] Hin. left.
    by destruct (addJob_invoked job rnd q) as (_ & _ & -> & _).
  - intros [= <-] Hin. left. unfold processQueue_tick.
    by destruct (processQueue_loop_frame (length (JQ.queue q)) q) as [-> _].
  - destruct (bool_decide _); [|done]. intros [= <-] Hin. left.
    by apply settle_timers_incl.
  - destruct (JQ.timers q !! k) as [tm'|] eqn:E; [|done].
    destruct (Z.leb_spec (JQ.due tm') (JQ.now q)); [|done]. intros [= <-] Hin.
    destruct (decide (tm' = tm)) as [->|Hne]; [by right|left].
    assert (Hin' : tm ∈ delete k (JQ.timers q)).
    { rewrite delete_take_drop.
      rewrite <- (take_drop_middle _ _ _ E) in Hin.
      apply elem_of_app in Hin as [Hin|Hin]; apply elem_of_app; [by left|].
      apply elem_of_cons in Hin as [->|Hin]; [done|by right]. }
    destruct (JQ.action tm') as [r|r]; simpl; [done|].
    by destruct (evict_frame r (JQ.set_timers (delete k (JQ.timers q)) q))
      as (_ & _ & _ & _ & -> & _).
  - destruct (0 <=? dt); [|done]. intros [= <-] Hin. by left.
Qed.

Lemma timer_kept_run es q q' tm :
  run es q = Some q' → tm ∈ JQ.timers q → JQ.now q' < JQ.due tm →
  tm ∈ JQ.timers q'.
Proof.
  revert q. induction es as [|e es IH]; intros q; simpl.
  - by intros [= <-].
  - destruct (exec e q) as [q1|] eqn:E; simpl; [|done].
    intros Hrun Hin Hlt.
    destruct (timer_kept_exec _ _ _ _ E Hin) as [Hin1|Hdue]; [by eapply IH|].
    apply now_mono_exec in E. apply now_mono_run in Hrun. lia.
Qed.

(** A job that is completed or failed stays so and is not handed to the
    batch processor again. *)

Lemma status_alter_ne q q' r x f :
  JQ.heap q' = alter f r (JQ.heap q) → x ≠ r → status_of q' x = status_of q x.
Proof.
  intros Hh Hne. unfold status_of. by rewrite Hh, list_lookup_alter_ne.
Qed.

Lemma terminal_start r x s q :
  status_of q x = Some s → terminal s →
  status_of q r = Some Job.pending →
  status_of (processJob_start r q) x = Some s
  ∧ invocations (processJob_start r q) x = invocations q x.
Proof.
  intros Hx Ht Hr.
  assert (Hne : x ≠ r).
  { intros ->. rewrite Hx in Hr. destruct Ht; congruence. }
  destruct (processJob_start_frame r q) as (_ & _ & _ & _ & Hsome).
  destruct Hsome as (Hh & Hi & _).
  { unfold status_of in Hr. by destruct (JQ.heap q !! r). }
  split.
  - by rewrite (status_alter_ne q _ r x _ Hh Hne).
  - unfold invocations. rewrite Hi. by rewrite filter_cons_False by done.
Qed.

Lemma terminal_loop fuel x s q :
  status_of q x = Some s → terminal s →
  status_of (processQueue_loop fuel q) x = Some s
  ∧ invocations (processQueue_loop fuel q) x = invocations q x.
Proof.
  revert q. induction fuel as [|fuel IH]; intros q Hx Ht; simpl; [done|].
  destruct (_ && _); [|done].
  destruct (find_job _ _ _) as [r|] eqn:E; [|done].
  apply find_pending_status in E.
  destruct (terminal_start r x s q Hx Ht E) as [Hs Hi].
  destruct (IH _ Hs Ht) as [Hs' Hi']. split; [done|congruence].
Qed.

Lemma terminal_exec e q q' x s :
  disciplined q → status_of q x = Some s → terminal s →
  exec e q = Some q' →
  status_of q' x = Some s ∧ invocations q' x = invocations q x.
Proof.
  intros Hd Hx Ht. destruct e as [job rnd| |r o|k|dt]; simpl.
  - intros [= <-]. destruct (addJob_invoked job rnd q) as (Hi & _).
    unfold invocations. rewrite Hi. split; [|done].
    destruct (addJob_queue job rnd q) as [[_ Hh]|(j & _ & _ & _ & _ & Hh & _)];
      unfold status_of in *; rewrite Hh; [done|].
    rewrite lookup_app_l; [done|]. by eapply status_of_Some_lt.
  - intros [= <-]. by apply terminal_loop.
  - destruct (bool_decide _) eqn:E; [|done]. intros [= <-].
    apply bool_decide_eq_true in E. apply (d_await q Hd) in E.
    assert (Hne : x ≠ r).
    { intros ->. rewrite Hx in E. destruct Ht; congruence. }
    destruct (processJob_settle_frame r o
                (JQ.set_awaiting (remove_first r (JQ.awaiting q)) q))
      as (_ & Hi & _ & _ & f & _ & Hh).
    split.
    + by rewrite (status_alter_ne _ _ r x _ Hh Hne).
    + unfold invocations. by rewrite Hi.
  - destruct (JQ.timers q !! k) as [tm|] eqn:E; [|done].
    destruct (_ <=? _); [|done]. intros [= <-].
    destruct (JQ.action tm) as [r|r] eqn:Ea; simpl.
    + assert (Hr : status_of q r = Some Job.retrying).
      { apply (d_retry q Hd). unfold retry_refs.
        apply list_elem_of_omap. exists tm. split.
        - by eapply list_elem_of_lookup_2.
        - unfold retry_ref. by rewrite Ea. }
      assert (Hne : x ≠ r).
      { intros ->. rewrite Hx in Hr. destruct Ht; congruence. }
      split; [|done].
      by rewrite (status_alter_ne q _ r x (Job.set_status Job.pending)).
    + destruct (evict_frame r (JQ.set_timers (delete k (JQ.timers q)) q))
        as (_ & Hh & Hi & _).
      unfold status_of, invocations in *. by rewrite Hh, Hi.
  - destruct (0 <=? dt); [|done]. by intros [= <-].
Qed.

Lemma terminal_run es q q' x s :
  disciplined q → status_of q x = Some s → terminal s →
  run es q = Some q' →
  status_of q' x = Some s ∧ invocations q' x = invocations q x.
Proof.
  revert q. induction es as [|e es IH]; intros q Hd Hx Ht; simpl.
  - by intros [= <-].
  - destruct (exec e q) as [q1|] eqn:E; simpl; [|done].
    intros Hrun.
    destruct (terminal_exec _ _ _ _ _ Hd Hx Ht E) as [Hs Hi].
    apply (disciplined_exec _ _ _ E) in Hd.
    destruct (IH _ Hd Hs Ht Hrun) as [Hs' Hi']. split; [done|congruence].
Qed.

Lemma settle_rejected_inv r e q q' :
  exec (EvSettle r (Rejected e)) q = Some q' →
  r ∈ JQ.awaiting q
  ∧ q' = processJob_settle r (Rejected e)
           (JQ.set_awaiting (remove_first r (JQ.awaiting q)) q).
Proof.
  simpl. destruct (bool_decide _) eqn:E; [|done]. intros [= <-].
  by apply bool_decide_eq_true in E.
Qed.

(** What [processJob] does with a promise that is rejected (lines
    190-209), for a batch processor that rejects; the one of the code does
    not, see below.  In every queue the process can reach, the attempts
    counter of a job is the number of calls of [processFileBatch] made for
    it.  When an attempt is rejected and the counter is below 3, the job
    becomes [retrying], a timer that sets it back to [pending] is due
    [2^attempts] seconds later, the job stays [retrying] as long as that
    time has not come, and it is [pending] once the timer has fired.  When
    an attempt is rejected and the counter is 3, the job becomes [failed],
    the message is stored with the job and in the completion map, and from
    then on the job stays [failed] and the batch processor is not called
    for it again. *)
Lemma attempts_retry_failed (q : JQ.t) (r : nat) (job : Job.t) :
  reachable q → JQ.heap q !! r = Some job →
  Job.attempts job = Z.of_nat (invocations q r)
  ∧ (∀ e q', exec (EvSettle r (Rejected e)) q = Some q' →
       Job.attempts job < 3 →
       let retry_timer :=
         JQ.mkTimer (JQ.now q + 2 ^ Job.attempts job * 1000) (JQ.RetryTimer r) in
       status_of q' r = Some Job.retrying
       ∧ retry_timer ∈ JQ.timers q'
       ∧ (∀ es q'', run es q' = Some q'' →
            JQ.now q'' < JQ.now q + 2 ^ Job.attempts job * 1000 →
            status_of q'' r = Some Job.retrying)
       ∧ (∀ es q1 k, run es q' = Some q1 →
            JQ.timers q1 !! k = Some retry_timer →
            JQ.now q + 2 ^ Job.attempts job * 1000 ≤ JQ.now q1 →
            ∃ q2, exec (EvTimer k) q1 = Some q2
                  ∧ status_of q2 r = Some Job.pending))
  ∧ (∀ e q', exec (EvSettle r (Rejected e)) q = Some q' →
       Job.attempts job = 3 →
       status_of q' r = Some Job.failed
       ∧ Job.error <$> JQ.heap q' !! r = Some (Some (error_message e))
       ∧ JQ.completed q' !! Job.id job
         = Some (JQ.mkCompleted "failed" None (Some (error_message e)))
       ∧ (∀ es q'', run es q' = Some q'' →
            status_of q'' r = Some Job.failed
            ∧ invocations q'' r = invocations q' r)).
Proof.
  intros Hreach Hjob.
  pose proof (disciplined_reachable q Hreach) as Hd.
  destruct (counted_reachable q Hreach) as [_ Hcnt].
  split; [by apply Hcnt|]. split.
  - intros e q' Hexec Hlt. cbn zeta.
    pose proof (disciplined_exec _ _ _ Hexec Hd) as Hd'.
    apply settle_rejected_inv in Hexec as [Hin ->].
    set (q0 := JQ.set_awaiting (remove_first r (JQ.awaiting q)) q) in *.
    pose proof (processJob_settle_cases r (Rejected e) q0 job Hjob) as Hc.
    simpl in Hc. destruct (Z.ltb_spec (Job.attempts job) 3); [|lia].
    destruct Hc as (Hh & Htm & _).
    set (tm := JQ.mkTimer (JQ.now q + 2 ^ Job.attempts job * 1000)
                          (JQ.RetryTimer r)) in *.
    assert (Htm_in : tm ∈ JQ.timers (processJob_settle r (Rejected e) q0)).
    { rewrite Htm, !elem_of_app. left. right. left. }
    assert (Hretry : ∀ q1, disciplined q1 → tm ∈ JQ.timers q1 →
                           status_of q1 r = Some Job.retrying).
    { intros q1 Hd1 Hin1. apply (d_retry q1 Hd1). unfold retry_refs.
      apply list_elem_of_omap. by exists tm. }
    split; [by apply Hretry|]. split; [done|]. split.
    + intros es q'' Hrun Hnow. apply Hretry.
      * by eapply disciplined_run.
      * by eapply timer_kept_run.
    + intros es q1 k Hrun Hk Hdue. simpl. rewrite Hk. simpl.
      destruct (Z.leb_spec (JQ.now q + 2 ^ Job.attempts job * 1000) (JQ.now q1));
        [|lia].
      eexists. split; [reflexivity|].
      assert (Hs : status_of q1 r = Some Job.retrying).
      { apply Hretry; [by eapply disciplined_run|].
        by eapply list_elem_of_lookup_2. }
      unfold status_of in *. simpl. rewrite list_lookup_alter_eq.
      by destruct (JQ.heap q1 !! r).
  - intros e q' Hexec Hatt.
    pose proof (disciplined_exec _ _ _ Hexec Hd) as Hd'.
    apply settle_rejected_inv in Hexec as [Hin ->].
    set (q0 := JQ.set_awaiting (remove_first r (JQ.awaiting q)) q) in *.
    pose proof (processJob_settle_cases r (Rejected e) q0 job Hjob) as Hc.
    simpl in Hc. destruct (Z.ltb_spec (Job.attempts job) 3); [lia|].
    destruct Hc as (Hh & _ & Hco).
    assert (Hs : status_of (processJob_settle r (Rejected e) q0) r
                 = Some Job.failed).
    { unfold status_of. rewrite Hh, list_lookup_alter_eq. simpl.
      by rewrite Hjob. }
    split; [done|]. split.
    { rewrite Hh, list_lookup_alter_eq. simpl. by rewrite Hjob. }
    split.
    { rewrite Hco. simpl. by rewrite lookup_insert_eq. }
    intros es q'' Hrun. eapply terminal_run; [done|done|by right|done].
Qed.

Lemma failing_queue_reachable : reachable failing_queue.
Proof.
  exists 3, 100, 1700000000000, failing_events. vm_compute. reflexivity.
Qed.

Lemma started_queue_reachable : reachable started_queue.
Proof.
  exists 3, 100, 1700000000000, (take 2 failing_events). vm_compute. reflexivity.
Qed.

Lemma attempts_retry_failed_witness :
  Job.attempts failing_job = Z.of_nat (invocations failing_queue 0)
  ∧ status_of failed_queue 0 = Some Job.failed
  ∧ JQ.completed failed_queue !! Job.id failing_job
    = Some (JQ.mkCompleted "failed" None (Some "store unavailable"))
  ∧ status_of retrying_queue 0 = Some Job.retrying
  ∧ JQ.mkTimer (1700000000000 + 2000) (JQ.RetryTimer 0) ∈ JQ.timers retrying_queue.
Proof.
  assert (Hjob : JQ.heap failing_queue !! 0%nat = Some failing_job)
    by (vm_compute; reflexivity).
  pose proof (attempts_retry_failed failing_queue 0 failing_job
                failing_queue_reachable Hjob) as (Ha & _ & Hc).
  split; [exact Ha|].
  assert (Hexec : exec (EvSettle 0 (Rejected (ErrorObj "store unavailable")))
                       failing_queue = Some failed_queue)
    by (vm_compute; reflexivity).
  destruct (Hc _ _ Hexec eq_refl) as (Hs & _ & Hm & _).
  split; [exact Hs|]. split; [exact Hm|].
  assert (Hjob' : JQ.heap started_queue !! 0%nat = Some started_job)
    by (vm_compute; reflexivity).
  pose proof (attempts_retry_failed started_queue 0 started_job
                started_queue_reachable Hjob') as (_ & Hb & _).
  assert (Hexec' : exec (EvSettle 0 (Rejected (ErrorObj "store unavailable")))
                        started_queue = Some retrying_queue)
    by (vm_compute; reflexivity).
  destruct (Hb _ _ Hexec' eq_refl) as (Hs' & Ht' & _).
  split; [exact Hs'|exact Ht'].
Defined.

(** *** With the batch processor of the code *)

Lemma single_attempt_create mc ms t0 : single_attempt (JQ.create mc ms t0).
Proof. split; done. Qed.

Lemma single_attempt_addJob job rnd q :
  single_attempt q → single_attempt (addJob job rnd q).2.
Proof.
  intros [Hj Ht Hc]. unfold addJob.
  destruct (_ >=? _); [done|]. split; simpl.
  - intros r j Hr. apply lookup_app_Some in Hr as [Hr|[_ Hr]]; [by eapply Hj|].
    apply list_lookup_singleton_Some in Hr as [_ <-]. by left.
  - done.
  - done.
Qed.

Lemma single_attempt_start r q :
  single_attempt q → status_of q r = Some Job.pending →
  single_attempt (processJob_start r q).
Proof.
  intros [Hj Ht Hc] Hs. unfold processJob_start, status_of in *.
  destruct (JQ.heap q !! r) as [job|] eqn:E; [|done].
  simpl in Hs. injection Hs as Hs. split; simpl; [|done..].
  intros x j Hx. destruct (decide (x = r)) as [->|Hne].
  - rewrite list_lookup_alter, E in Hx. simpl in Hx.
    rewrite decide_True in Hx by done. injection Hx as <-.
    simpl. destruct (Hj r job E) as [[_ Ha]|[[? _]|[? _]]]; [|congruence..].
    right. left. split; [done|lia].
  - rewrite list_lookup_alter_ne in Hx by done. by eapply Hj.
Qed.

Lemma single_attempt_loop fuel q :
  single_attempt q → single_attempt (processQueue_loop fuel q).
Proof.
  revert q. induction fuel as [|fuel IH]; intros q Hs; [done|]. simpl.
  destruct (_ && _); [|done].
  destruct (find_job _ _ _) as [r|] eqn:E; [|done].
  apply IH, single_attempt_start; [done|]. by apply find_pending_status.
Qed.

Lemma single_attempt_settle r result q :
  single_attempt q → status_of q r = Some Job.processing →
  single_attempt (processJob_settle r (Resolved result) q).
Proof.
  intros [Hj Ht Hc] Hs. unfold processJob_settle, status_of in *.
  destruct (JQ.heap q !! r) as [job|] eqn:E; [|done].
  simpl in Hs. injection Hs as Hs. split; simpl.
  - intros x j Hx. destruct (decide (x = r)) as [->|Hne].
    + rewrite list_lookup_alter, E in Hx. simpl in Hx.
    rewrite decide_True in Hx by done. injection Hx as <-.
      simpl. destruct (Hj r job E) as [[? _]|[[_ Ha]|[? _]]]; [congruence| |congruence].
      right. right. done.
    + rewrite list_lookup_alter_ne in Hx by done. by eapply Hj.
  - rewrite retry_refs_app, Ht. done.
  - intros id c Hid. apply lookup_insert_Some in Hid as [[_ <-]|[_ Hid]]; [done|].
    by eapply Hc.
Qed.

Lemma no_retry_timer ts k tm :
  retry_refs ts = [] → ts !! k = Some tm → ∃ r, JQ.action tm = JQ.EvictTimer r.
Proof.
  intros Hnone Hk. apply list_elem_of_lookup_2 in Hk.
  destruct (JQ.action tm) as [r|r] eqn:E; [|by eexists].
  assert (Hin : r ∈ retry_refs ts).
  { unfold retry_refs. apply list_elem_of_omap. exists tm. split; [done|].
    unfold retry_ref. by rewrite E. }
  rewrite Hnone in Hin. by apply elem_of_nil in Hin.
Qed.

Lemma single_attempt_exec e q q' :
  resolves e → exec e q = Some q' → disciplined q → single_attempt q →
  single_attempt q'.
Proof.
  destruct e as [job rnd| |r [result|e]|k|dt]; simpl; intros Hres.
  - intros [= <-] _. apply single_attempt_addJob.
  - intros [= <-] _. apply single_attempt_loop.
  - destruct (bool_decide _) eqn:E; [|done]. intros [= <-] Hd Hs.
    apply bool_decide_eq_true in E.
    apply single_attempt_settle.
    + destruct Hs as [Hj Ht Hc]. by split.
    + by apply (d_await q Hd).
  - done.
  - destruct (JQ.timers q !! k) as [tm|] eqn:E; [|done].
    destruct (_ <=? _); [|done]. intros [= <-] Hd [Hj Ht Hc].
    destruct (no_retry_timer _ _ _ Ht E) as [r Hact].
    pose proof (retry_refs_delete _ _ _ E) as Hdel.
    unfold retry_ref in Hdel. rewrite Hact in Hdel. rewrite Hact. simpl.
    destruct (evict_frame r (JQ.set_timers (delete k (JQ.timers q)) q))
      as (_ & Hh & _ & _ & Htm & _).
    assert (Hcm : JQ.completed (evict r (JQ.set_timers (delete k (JQ.timers q)) q))
                  = JQ.completed q).
    { unfold evict. simpl. destruct (JQ.heap q !! r); [|done].
      destruct (findIndex _ _ _); [|done]. by destruct (_ || _). }
    split.
    + rewrite Hh. exact Hj.
    + rewrite Htm. simpl. by rewrite Hdel.
    + rewrite Hcm. exact Hc.
  - destruct (0 <=? dt); [|done]. intros [= <-] _ [Hj Ht Hc]. by split.
Qed.

Lemma single_attempt_run es q q' :
  Forall resolves es → run es q = Some q' → disciplined q → single_attempt q →
  disciplined q' ∧ single_attempt q'.
Proof.
  intros Hall. revert q. induction Hall as [|e es He _ IH]; intros q; simpl.
  - by intros [= <-].
  - destruct (exec e q) as [q1|] eqn:E; simpl; [|done].
    intros Hrun Hd Hs. apply (IH q1 Hrun).
    + by eapply disciplined_exec.
    + by eapply single_attempt_exec.
Qed.

Lemma reachable_resolving_reachable q : reachable_resolving q → reachable q.
Proof. intros (mc & ms & t0 & es & _ & Hrun). by exists mc, ms, t0, es. Qed.

Lemma lost_queue_run :
  run lost_events (JQ.create 3 100 1700000000000) = Some lost_queue.
Proof. vm_compute. reflexivity. Qed.

(** C3. The batch processor hands its failures over as a result, not as
    an exception, so no attempt of [processJob] ever fails.  When the index
    store cannot be obtained, [processFileBatch] returns a batch that is
    marked failed and carries the message.  In every queue that a process
    with this batch processor can reach, the attempts counter of a job is
    the number of calls of [processFileBatch] made for it, which is at most
    one; no job is retrying or failed, no retry timer is pending, and every
    entry of the completion map says completed and has no error.  The job
    whose only attempt ends with a failed batch is completed, has one
    attempt, has this batch as its result in the completion map, and the
    batch processor is not called for it again. *)
Theorem failed_attempt_not_retried :
  (∀ path_basename path_join tempDir VECTOR_STORE_ID md_render api fs
     now later rnd repository files e,
     (getOrCreateVectorStore VECTOR_STORE_ID api repository).1 = Throw e →
     (processFileBatch path_basename path_join tempDir VECTOR_STORE_ID md_render
        api fs now later rnd repository files).1
     = BatchJob.mk ("batch_" +:+ pretty now +:+ "_" +:+ rnd) repository files ""
                   BatchJob.failed (Some now) (Some later)
                   (Some (error_message e)) [])
  ∧ (∀ q, reachable_resolving q →
       (∀ r job, JQ.heap q !! r = Some job →
          Job.attempts job = Z.of_nat (invocations q r)
          ∧ (invocations q r ≤ 1)%nat
          ∧ Job.status job ≠ Job.retrying ∧ Job.status job ≠ Job.failed)
       ∧ retry_refs (JQ.timers q) = []
       ∧ (∀ id c, JQ.completed q !! id = Some c →
            JQ.c_status c = "completed" ∧ JQ.c_error c = None))
  ∧ (BatchJob.status lost_batch = BatchJob.failed
     ∧ BatchJob.error lost_batch = Some "Connection error."
     ∧ run lost_events (JQ.create 3 100 1700000000000) = Some lost_queue
     ∧ JQ.heap lost_queue !! 0%nat
       = Some (Job.mk "job_1700000000000_aaaaaaaaa" "acme/docs"
                      [md_file "README.md"] 5 1700000000000 1 Job.completed None)
     ∧ JQ.completed lost_queue !! "job_1700000000000_aaaaaaaaa"
       = Some (JQ.mkCompleted "completed" (Some lost_batch) None)
     ∧ JQ.timers lost_queue
       = [JQ.mkTimer (1700000000000 + 5 * 60 * 1000) (JQ.EvictTimer 0)]
     ∧ (∀ es q', run es lost_queue = Some q' →
          status_of q' 0 = Some Job.completed ∧ invocations q' 0 = 1%nat)).
Proof.
  split; [|split].
  - intros path_basename path_join tempDir VECTOR_STORE_ID md_render api fs
      now later rnd repository files e Hstore.
    unfold processFileBatch.
    destruct (getOrCreateVectorStore _ _ _) as [r tr]. simpl in Hstore.
    by subst r.
  - intros q Hq.
    pose proof (counted_reachable q (reachable_resolving_reachable q Hq))
      as [_ Hcnt].
    destruct Hq as (mc & ms & t0 & es & Hall & Hrun).
    destruct (single_attempt_run es _ q Hall Hrun) as [_ [Hj Ht Hc]].
    { apply (disciplined_reachable (JQ.create mc ms t0)).
      by exists mc, ms, t0, []. }
    { apply single_attempt_create. }
    split; [|done].
    intros r job Hr. pose proof (Hcnt r job Hr) as Ha.
    split; [done|].
    destruct (Hj r job Hr) as [[Hs Hn]|[[Hs Hn]|[Hs Hn]]];
      rewrite Hs; (split; [lia|done]).
  - split; [vm_compute; reflexivity|]. split; [vm_compute; reflexivity|].
    split; [exact lost_queue_run|].
    split; [vm_compute; reflexivity|]. split; [vm_compute; reflexivity|].
    split; [vm_compute; reflexivity|].
    intros es q' Hrun.
    assert (Hd : disciplined lost_queue).
    { apply disciplined_reachable. eexists _, _, _, _. exact lost_queue_run. }
    destruct (terminal_run es lost_queue q' 0%nat Job.completed Hd)
      as [Hs Hi]; [vm_compute; reflexivity|by left|done|].
    split; [done|]. rewrite Hi. vm_compute. reflexivity.
Qed.

(** ** The scheduler loop ends on its own *)

Lemma find_job_elem h pred l r : find_job h pred l = Some r → r ∈ l.
Proof.
  induction l as [|x l IH]; simpl; [done|].
  destruct (from_option pred false (h !! x)).
  - intros [= ->]. left.
  - intros H. right. auto.
Qed.

Lemma filter_length_lt {A} (P Q : A → Prop)
  `{!∀ x, Decision (P x)} `{!∀ x, Decision (Q x)} (l : list A) (r : A) :
  (∀ x, Q x → P x) → r ∈ l → P r → ¬ Q r →
  (length (filter Q l) < length (filter P l))%nat.
Proof.
  intros HQP Hr HP HQ.
  assert (Hle : ∀ k : list A, (length (filter Q k) ≤ length (filter P k))%nat).
  { induction k as [|x k IH]; [done|].
    destruct (decide (Q x)) as [Hq|Hq].
    - rewrite (filter_cons_True Q) by done.
      rewrite (filter_cons_True P) by auto. simpl. lia.
    - rewrite (filter_cons_False Q) by done.
      destruct (decide (P x)).
      + rewrite (filter_cons_True P) by done. simpl. lia.
      + by rewrite (filter_cons_False P) by done. }
  induction l as [|x l IH]; [by apply elem_of_nil in Hr|].
  apply elem_of_cons in Hr as [<-|Hr].
  - rewrite (filter_cons_False Q) by done.
    rewrite (filter_cons_True P) by done. simpl. specialize (Hle l). lia.
  - specialize (IH Hr). destruct (decide (Q x)) as [Hq|Hq].
    + rewrite (filter_cons_True Q) by done.
      rewrite (filter_cons_True P) by auto. simpl. lia.
    + rewrite (filter_cons_False Q) by done.
      destruct (decide (P x)).
      * rewrite (filter_cons_True P) by done. simpl. lia.
      * by rewrite (filter_cons_False P) by done.
Qed.

Lemma pending_refs_start r q :
  find_job (JQ.heap q) (fun j => bool_decide (Job.status j = Job.pending))
           (JQ.queue q) = Some r →
  (length (pending_refs (processJob_start r q)) < length (pending_refs q))%nat.
Proof.
  intros Hfind. pose proof (find_job_elem _ _ _ _ Hfind) as Hin.
  apply find_pending_status in Hfind.
  destruct (processJob_start_frame r q) as (Hq & _ & _ & _ & Hsome).
  destruct Hsome as (Hh & _).
  { unfold status_of in Hfind. by destruct (JQ.heap q !! r). }
  unfold pending_refs. rewrite Hq.
  apply (filter_length_lt _ _ _ r); [|done|done|].
  - intros x Hx. destruct (decide (x = r)) as [->|Hne]; [done|].
    by rewrite <- (status_alter_ne q _ r x _ Hh Hne).
  - unfold status_of in *. rewrite Hh, list_lookup_alter_eq.
    destruct (JQ.heap q !! r); [|done]. simpl. congruence.
Qed.

Lemma find_job_none_pending q :
  pending_refs q = [] →
  find_job (JQ.heap q) (fun j => bool_decide (Job.status j = Job.pending))
           (JQ.queue q) = None.
Proof.
  intros Hnil.
  destruct (find_job _ _ _) as [r|] eqn:E; [|done].
  pose proof (find_job_elem _ _ _ _ E) as Hin.
  apply find_pending_status in E.
  assert (Hr : r ∈ pending_refs q) by (by apply list_elem_of_filter).
  rewrite Hnil in Hr. by apply elem_of_nil in Hr.
Qed.

(** The [while] of the scheduler leaves by its own test after at most as
    many iterations as there are pending jobs in the active list: more
    fuel changes nothing. *)
Lemma processQueue_loop_fuel fuel extra q :
  (length (pending_refs q) ≤ fuel)%nat →
  processQueue_loop (fuel + extra) q = processQueue_loop fuel q.
Proof.
  revert q. induction fuel as [|fuel IH]; intros q Hle.
  - assert (Hnil : pending_refs q = []).
    { destruct (pending_refs q); [done|simpl in Hle; lia]. }
    simpl. destruct extra as [|extra]; simpl; [done|].
    rewrite (find_job_none_pending q Hnil). by destruct (_ && _).
  - simpl. destruct (_ && _); [|done].
    destruct (find_job _ _ _) as [r|] eqn:E; [|done].
    apply IH. apply pending_refs_start in E. lia.
Qed.

Lemma processQueue_tick_fuel extra q :
  processQueue_loop (length (JQ.queue q) + extra) q = processQueue_tick q.
Proof.
  apply processQueue_loop_fuel. unfold pending_refs. apply length_filter.
Qed.

(** ** Removal from the index store *)

Section Removal.

Variable api : Api.t.

Lemma build_file_map_lookup ids m name id :
  build_file_map api ids m !! name = Some id →
  m !! name = Some id
  ∨ (id ∈ ids ∧ Api.files_retrieve api id = Ok name).
Proof.
  revert m. induction ids as [|x ids IH]; intros m; simpl; [by left|].
  destruct (Api.files_retrieve api x) as [n|e] eqn:E.
  - intros H. apply IH in H as [H|[H1 H2]].
    + destruct (decide (n = name)) as [->|Hne].
      * rewrite lookup_insert_eq in H. injection H as <-. right.
        split; [left|done].
      * rewrite lookup_insert_ne in H by done. by left.
    + right. split; [by right|done].
  - intros H. apply IH in H as [H|[H1 H2]]; [by left|].
    right. split; [by right|done].
Qed.

Lemma remove_callback_absent vs m file :
  m !! encodeFilename (FileChange.filename file) = None →
  remove_callback api vs m file = ([], file_success (FileChange.filename file)).
Proof. intros H. unfold remove_callback. by rewrite H. Qed.

Lemma elem_of_first_requests outs i c :
  Trace.Request (Some i) c ∈ first_requests outs →
  ∃ o, outs !! i = Some o ∧ c ∈ take 1 o.1.
Proof.
  unfold first_requests. rewrite list_elem_of_In, in_flat_map.
  intros ([k o] & Hin & Hc). apply list_elem_of_In in Hin, Hc.
  apply elem_of_lookup_imap in Hin as (k' & o' & [= -> ->] & Hk).
  simpl in Hc. unfold requests_of in Hc.
  apply list_elem_of_fmap in Hc as (c' & [= -> ->] & Hc').
  by exists o'.
Qed.

Lemma elem_of_later_requests outs j i c :
  Trace.Request (Some i) c ∈ later_requests outs j →
  ∃ o, outs !! i = Some o ∧ c ∈ drop 1 o.1.
Proof.
  unfold later_requests. destruct (outs !! j) as [o|] eqn:E.
  - unfold requests_of. intros Hc.
    apply list_elem_of_fmap in Hc as (c' & [= -> ->] & Hc').
    by exists o.
  - by intros ?%elem_of_nil.
Qed.

Lemma elem_of_await_groups fuel size delay rest_of i n ev :
  ev ∈ await_groups fuel size delay rest_of i n →
  (∃ j, ev ∈ rest_of j) ∨ (∃ ms, ev = Trace.AwaitAll ms) ∨ ev = Trace.Sleep delay.
Proof.
  revert i. induction fuel as [|fuel IH]; intros i; simpl.
  - by intros ?%elem_of_nil.
  - destruct (i <? n)%nat; [|by intros ?%elem_of_nil].
    rewrite elem_of_app, elem_of_cons, elem_of_app.
    intros [H|[->|[H|H]]].
    + left. apply list_elem_of_In, in_flat_map in H as (j & _ & H).
      exists j. by apply list_elem_of_In.
    + right. left. by eexists.
    + destruct (i + size <? n)%nat; [|by apply elem_of_nil in H].
      apply list_elem_of_singleton in H as ->. by right; right.
    + by apply IH in H.
Qed.

(** C6, as amended. When the entries of the store can be listed and none
    of them is stored under the encoded name of a file to remove, the
    removal records [success] for the file and issues no request on its
    behalf, a delete in particular. *)
Theorem remove_absent_is_success (vs : string) (files : list FileChange.t)
  (results : list FileResult.t) (ids : list string) (i : nat)
  (file : FileChange.t) :
  Api.vs_files_list api vs = Ok ids →
  files !! i = Some file →
  (∀ id, id ∈ ids →
         Api.files_retrieve api id
         ≠ Ok (encodeFilename (FileChange.filename file))) →
  file_success (FileChange.filename file)
    ∈ (batchRemoveFiles api vs files results).1
  ∧ ∀ c, Trace.Request (Some i) c ∉ (batchRemoveFiles api vs files results).2.
Proof.
  intros Hlist Hfile Habsent. unfold batchRemoveFiles. rewrite Hlist. simpl.
  set (m := build_file_map api ids ∅).
  assert (Hm : m !! encodeFilename (FileChange.filename file) = None).
  { destruct (m !! _) as [id|] eqn:E; [|done].
    apply build_file_map_lookup in E as [E|[E1 E2]]; [done|].
    by apply Habsent in E1. }
  pose proof (remove_callback_absent vs m file Hm) as Hcb.
  set (outs := remove_callback api vs m <$> files).
  assert (Hout : outs !! i = Some ([], file_success (FileChange.filename file))).
  { unfold outs. by rewrite list_lookup_fmap, Hfile, <- Hcb. }
  split.
  - rewrite !elem_of_app. right. left.
    apply list_elem_of_fmap.
    exists ([], file_success (FileChange.filename file)). split; [done|].
    apply list_elem_of_filter. split; [done|].
    by eapply list_elem_of_lookup_2.
  - intros c Hc. apply elem_of_cons in Hc as [Hc|Hc]; [done|].
    rewrite !elem_of_app in Hc. destruct Hc as [Hc|[Hc|Hc]].
    + apply list_elem_of_fmap in Hc as (x & Hx & _). done.
    + apply elem_of_first_requests in Hc as (o & Ho & Hc).
      rewrite Hout in Ho. injection Ho as <-. by apply elem_of_nil in Hc.
    + apply elem_of_await_groups in Hc as [[j Hc]|[[ms Hc]|Hc]]; [|done|done].
      apply elem_of_later_requests in Hc as (o & Ho & Hc).
      rewrite Hout in Ho. injection Ho as <-. by apply elem_of_nil in Hc.
Qed.

End Removal.

Lemma remove_absent_is_success_witness :
  file_success "docs/old.mdx"
    ∈ (batchRemoveFiles empty_store "vs_1" [old_page] []).1
  ∧ ∀ c, Trace.Request (Some 0%nat) c
         ∉ (batchRemoveFiles empty_store "vs_1" [old_page] []).2.
Proof.
  apply (remove_absent_is_success empty_store "vs_1" [old_page] [] [] 0 old_page).
  - reflexivity.
  - reflexivity.
  - intros id Hid. by apply elem_of_nil in Hid.
Defined.

(** C6 as stated fails: no entry of the store is stored under the encoded
    name of the file, yet the listing throws and the file is recorded as
    [failed]. *)
Lemma remove_absent_listing_fails :
  (∀ id, Api.files_retrieve listing_down id
         ≠ Ok (encodeFilename (FileChange.filename old_page)))
  ∧ (batchRemoveFiles listing_down "vs_1" [old_page] []).1
    = [file_failed "docs/old.mdx" "Batch remove operation failed"]
  ∧ file_success "docs/old.mdx"
    ∉ (batchRemoveFiles listing_down "vs_1" [old_page] []).1.
Proof.
  split; [done|]. split; [reflexivity|].
  vm_compute. intros H. apply list_elem_of_In in H. simpl in H.
  destruct H as [H|[]]. discriminate H.
Qed.

(** ** Uploads: when the requests go out *)

Lemma upload_callback_first api vs tf :
  take 1 (upload_callback api vs tf).1 = [first_call vs tf].
Proof.
  unfold upload_callback, first_call, removeExistingFile.
  destruct (bool_decide _);
    destruct (Api.files_create api (tempPath tf)) as [u|e];
    try destruct (Api.vs_files_create api vs u); reflexivity.
Qed.

Lemma first_requests_upload_from api vs (g : nat → nat) tfs :
  flat_map (fun p => requests_of p.1 (take 1 p.2.1))
           (imap (fun i o => (g i, o)) (upload_callback api vs <$> tfs))
  = imap (fun i tf => Trace.Request (Some (g i)) (first_call vs tf)) tfs.
Proof.
  revert g. induction tfs as [|tf tfs IH]; intros g; [done|].
  simpl. rewrite upload_callback_first. simpl. f_equal.
  apply (IH (g ∘ S)).
Qed.

(** C7. Whatever the batch, the first request of every upload callback
    goes out while [map] runs, before anything is awaited; the loop then
    awaits the promises in groups of three with a pause of two seconds
    between groups.  For seven files: seven requests at once, then the
    groups 3, 3 and 1 with a pause after the first two.  The upload of a
    file of the second or third group has begun before the first group is
    complete. *)
Theorem upload_requests_before_groups :
  (∀ api vs tfs,
     upload_schedule api vs tfs
     = imap (fun i tf => Trace.Request (Some i) (first_call vs tf)) tfs
         ++ await_groups (length tfs) 3 2000
              (later_requests (upload_callback api vs <$> tfs)) 0 (length tfs))
  ∧ (let create i name :=
       Trace.Request (Some i) (Api.FilesCreate ("/tmp/webhook-files/" +:+ name)) in
     let attach i :=
       Trace.Request (Some i) (Api.VsFilesCreate "vs_1" "file-new") in
     upload_schedule empty_store "vs_1" seven_files
     = [create 0 "a.md"; create 1 "b.md"; create 2 "c.md"; create 3 "d.md";
        create 4 "e.md"; create 5 "f.md"; create 6 "g.md";
        attach 0; attach 1; attach 2; Trace.AwaitAll [0; 1; 2]; Trace.Sleep 2000;
        attach 3; attach 4; attach 5; Trace.AwaitAll [3; 4; 5]; Trace.Sleep 2000;
        attach 6; Trace.AwaitAll [6]]%nat).
Proof.
  split.
  - intros api vs tfs. unfold upload_schedule, first_requests.
    rewrite length_fmap. f_equal.
    apply (first_requests_upload_from api vs (fun i => i)).
  - reflexivity.
Qed.

(** ** Encoded file names that coincide *)

Section Collision.

Variable path_basename : string → string.
Variable path_join : string → string → string.
Variable tempDir : string.
Variable md_render : string → string.

(** C10. The two file names [a/b.md] and [a_b.md] differ and have the same
    encoded name.  So the removal of [a/b.md] deletes the entry stored for
    [a_b.md], the update of a modified [a/b.md] looks that entry up and
    deletes it, and in a batch with both files the two temporary files
    have the same path. *)
Theorem encodeFilename_collision :
  let slash st c := FileChange.mk "a/b.md" st c None in
  let under := FileChange.mk "a_b.md" FileChange.added (Some "two") None in
  let path := tempFilePath path_basename path_join tempDir "a_b.md" in
  "a/b.md" ≠ "a_b.md"
  ∧ encodeFilename "a/b.md" = encodeFilename "a_b.md"
  ∧ (batchRemoveFiles store_ab "vs_1" [slash FileChange.removed None] []).2
    = [Trace.Request None (Api.VsFilesList "vs_1");
       Trace.Request None (Api.FilesRetrieve "file-ab");
       Trace.Request (Some 0%nat) (Api.VsFilesDel "vs_1" "file-ab");
       Trace.Request (Some 0%nat) (Api.FilesDel "file-ab");
       Trace.AwaitAll [0%nat]]
  ∧ removeExistingFile store_ab "vs_1" (encodeFilename "a/b.md")
    = [Api.VsFilesList "vs_1"; Api.FilesRetrieve "file-ab";
       Api.VsFilesDel "vs_1" "file-ab"; Api.FilesDel "file-ab"]
  ∧ (upload_callback store_ab "vs_1"
       (mkTempFile "a_b.md" path (slash FileChange.modified (Some "one")))).1
    = [Api.VsFilesList "vs_1"; Api.FilesRetrieve "file-ab";
       Api.VsFilesDel "vs_1" "file-ab"; Api.FilesDel "file-ab";
       Api.FilesCreate path; Api.VsFilesCreate "vs_1" "file-new"]
  ∧ (create_temp_files path_basename path_join tempDir md_render fs_ok
       [slash FileChange.modified (Some "one"); under] []).1.2
    = [mkTempFile "a_b.md" path (slash FileChange.modified (Some "one"));
       mkTempFile "a_b.md" path under].
Proof.
  cbn zeta. split; [done|]. repeat split; reflexivity.
Qed.

End Collision.

(** ** Extraction of the change set *)

Lemma collect_changes_missing cs c :
  c ∈ cs →
  Payload.added c = None ∨ Payload.modified c = None ∨ Payload.removed c = None →
  ∃ e, collect_changes cs = Throw e.
Proof.
  induction cs as [|x cs IH]; [by intros ?%elem_of_nil|].
  intros [->|Hin]%elem_of_cons Hmiss; simpl.
  - destruct (Payload.added x); [|by eexists].
    destruct (Payload.modified x); [|by eexists].
    destruct (Payload.removed x); [|by eexists].
    destruct Hmiss as [?|[?|?]]; done.
  - destruct (Payload.added x); [|by eexists].
    destruct (Payload.modified x); [|by eexists].
    destruct (Payload.removed x); [|by eexists].
    destruct (IH Hin Hmiss) as [e ->]. by eexists.
Qed.

Lemma kept_status_or_content f :
  kept f →
  FileChange.status f = FileChange.removed
  ∨ ∃ c, FileChange.content f = Some c ∧ c ≠ "".
Proof.
  intros [H|H].
  - left. unfold is_removed in H. by apply bool_decide_eq_true in H.
  - right. destruct (FileChange.content f) as [c|]; [|done].
    exists c. split; [done|]. by destruct c.
Qed.

Section Extraction.

Variable path_extname : string → string.
Variable base64_decode : string → string.
Variable getContent :
  nat → string → string → string → option string → Content.response.

Lemma fetch_contents_lookup k owner repo ref files i f :
  files !! i = Some f →
  fetch_contents base64_decode getContent k owner repo ref files !! i
  = Some (if is_removed f then f
          else FileChange.set_content
                 (getFileContent base64_decode getContent
                    (k + request_index files i) owner repo
                    (FileChange.filename f) ref) f).
Proof.
  revert k i. induction files as [|x files IH]; intros k i; [done|].
  destruct i as [|i]; simpl.
  - intros [= ->]. unfold request_index. simpl. rewrite Nat.add_0_r.
    by destruct (is_removed f).
  - intros Hf. unfold request_index. simpl.
    destruct (is_removed x) eqn:E.
    + rewrite filter_cons_False by (rewrite E; done).
      simpl. by apply IH.
    + rewrite filter_cons_True by done. simpl.
      rewrite (IH (S k) i Hf). unfold request_index.
      by rewrite Nat.add_succ_comm.
Qed.

Lemma fetch_contents_length k owner repo ref files :
  length (fetch_contents base64_decode getContent k owner repo ref files)
  = length files.
Proof.
  revert k. induction files as [|x files IH]; intros k; [done|].
  simpl. destruct (is_removed x); simpl; by rewrite IH.
Qed.

Lemma collect_changes_complete cs :
  Forall complete cs → collect_changes cs = Ok (flat_map named cs).
Proof.
  induction 1 as [|c cs ([a Ha] & [m Hm] & [r Hr]) _ IH]; [done|].
  simpl. rewrite Ha, Hm, Hr, IH. unfold named. rewrite Ha, Hm, Hr.
  simpl. by rewrite <- !app_assoc.
Qed.

Lemma collected_own payload :
  match Payload.commits payload with
  | Some (c :: cs) =>
      collect_changes (filter (fun c => is_merge_commit c = false) (c :: cs))
  | _ => Ok []
  end
  = collect_changes (own_commits payload).
Proof.
  unfold own_commits. destruct (Payload.commits payload) as [[|c cs]|]; done.
Qed.

(** C8, as amended. For a payload whose [repository.owner] is there,
    [getChangedFiles] returns a list and throws nothing, and every file of
    the list is removed or has content that is not empty.  When every
    commit that is no merge commit has its three file lists, the list is
    determined by the payload and by the answers of the repository host:
    take the files that these commits name and whose names are eligible
    ([supported_changes]); the removed ones are returned as they are, any
    other one is returned with the decoded content exactly when its request
    is answered with content that is not empty and decodes to text that is
    not empty; a file whose request fails gets no content and is left out,
    whatever happens to the other files.  When a file list of such a
    commit is missing, the list returned is empty. *)
Theorem getChangedFiles_result (payload : Payload.t)
  (repository : Payload.repository) (owner : Payload.owner) :
  Payload.repository_of payload = Some repository →
  Payload.owner_of repository = Some owner →
  let supported := supported_changes path_extname payload in
  let fetched :=
    fetch_contents base64_decode getContent 0 (Payload.login owner)
                   (Payload.name repository) (Payload.after payload)
                   supported in
  ∃ files,
    getChangedFiles path_extname base64_decode getContent payload = Ok files
    ∧ (∀ f, f ∈ files →
            FileChange.status f = FileChange.removed
            ∨ ∃ c, FileChange.content f = Some c ∧ c ≠ "")
    ∧ (Forall complete (own_commits payload) →
       files = filter kept fetched
       ∧ (∀ f, f ∈ files ↔
               ∃ i g, supported !! i = Some g
                      ∧ arrives base64_decode getContent (Payload.login owner)
                          (Payload.name repository) (Payload.after payload)
                          supported i g f)
       ∧ (∀ i f e, supported !! i = Some f →
               FileChange.status f ≠ FileChange.removed →
               getContent (request_index supported i) (Payload.login owner)
                          (Payload.name repository) (FileChange.filename f)
                          (Payload.after payload) = Content.Fails e →
               fetched !! i = Some (FileChange.set_content None f)
               ∧ ¬ kept (FileChange.set_content None f)
               ∧ FileChange.set_content None f ∉ files))
    ∧ (∀ c, c ∈ own_commits payload →
            Payload.added c = None ∨ Payload.modified c = None
            ∨ Payload.removed c = None →
            files = []).
Proof.
  intros Hrepo Howner supported fetched.
  unfold getChangedFiles. rewrite Hrepo, Howner, collected_own.
  destruct (collect_changes (own_commits payload)) as [changedFiles|e0] eqn:Ecol.
  - eexists. split; [reflexivity|]. split; [|split].
    + intros f [Hk _]%list_elem_of_filter. by apply kept_status_or_content.
    + intros Hall. rewrite (collect_changes_complete _ Hall) in Ecol.
      injection Ecol as <-. fold (supported_changes path_extname payload).
      fold supported. fold fetched.
      assert (Hfetched : ∀ i g, supported !! i = Some g →
                fetched !! i
                = Some (if is_removed g then g
                        else FileChange.set_content
                               (getFileContent base64_decode getContent
                                  (request_index supported i)
                                  (Payload.login owner) (Payload.name repository)
                                  (FileChange.filename g) (Payload.after payload))
                               g)).
      { intros i g Hi. unfold fetched.
        by rewrite (fetch_contents_lookup 0 _ _ _ _ i g Hi). }
      split; [reflexivity|]. split.
      * intros f. rewrite list_elem_of_filter. split.
        -- intros [Hk [i Hi]%list_elem_of_lookup_1].
           assert (Hlt : (i < length supported)%nat).
           { apply lookup_lt_Some in Hi. unfold fetched in Hi.
             by rewrite fetch_contents_length in Hi. }
           destruct (lookup_lt_is_Some_2 _ _ Hlt) as [g Hg].
           exists i, g. split; [done|].
           rewrite (Hfetched i g Hg) in Hi. injection Hi as Hf.
           unfold arrives. unfold is_removed in Hf.
           destruct (bool_decide_reflect
                       (FileChange.status g = FileChange.removed)) as [Hr|Hr].
           ++ left. done.
           ++ right. split; [done|]. subst f.
              destruct Hk as [Hk|Hk].
              { unfold is_removed in Hk. apply bool_decide_eq_true in Hk.
                done. }
              simpl in Hk. unfold getFileContent in Hk |- *.
              destruct (getContent _ _ _ _ _) as [[c|]|e]; [|done..].
              exists c. destruct c as [|a c]; [done|].
              simpl in Hk |- *. split; [done|]. split; [done|].
              split; [|done]. by destruct (base64_decode _).
        -- intros (i & g & Hg & Harr).
           pose proof (Hfetched i g Hg) as Hi.
           destruct Harr as [[Hr ->]|(Hr & c & Hc & Hne & Hdec & ->)].
           ++ assert (His : is_removed g = true)
                by (unfold is_removed; by apply bool_decide_eq_true).
              rewrite His in Hi. split; [by left|].
              by apply list_elem_of_lookup_2 in Hi.
           ++ assert (His : is_removed g = false)
                by (unfold is_removed; by apply bool_decide_eq_false).
              rewrite His in Hi. unfold getFileContent in Hi.
              rewrite Hc in Hi.
              assert (Ht : Js.truthy c = true) by by destruct c.
              rewrite Ht in Hi. split.
              ** right. simpl. by destruct (base64_decode c).
              ** by apply list_elem_of_lookup_2 in Hi.
      * intros i f e Hi Hst Hfail.
        assert (Hnr : is_removed f = false).
        { unfold is_removed. by apply bool_decide_eq_false. }
        rewrite (Hfetched i f Hi), Hnr.
        unfold getFileContent. rewrite Hfail.
        assert (Hnk : ¬ kept (FileChange.set_content None f)).
        { intros [Hk|Hk]; [|done].
          unfold is_removed in Hk. apply bool_decide_eq_true in Hk. done. }
        split; [done|]. split; [done|].
        by intros [Hk _]%list_elem_of_filter.
    + intros c Hc Hmiss.
      destruct (collect_changes_missing _ c Hc Hmiss) as [e He].
      rewrite He in Ecol. done.
  - exists []. split; [reflexivity|]. split; [|split].
    + by intros f ?%elem_of_nil.
    + intros Hall. rewrite (collect_changes_complete _ Hall) in Ecol. done.
    + done.
Qed.

End Extraction.

(** *** On a push to the main branch *)

Lemma getChangedFiles_push :
  getChangedFiles extname_of (fun s => s) host push_payload
  = Ok [FileChange.mk "README.md" FileChange.added (Some "IyBEb2Nz") None;
        FileChange.mk "docs/old.md" FileChange.removed None None].
Proof. vm_compute. reflexivity. Qed.

Lemma getChangedFiles_result_witness :
  let supported :=
    [FileChange.mk "README.md" FileChange.added None None;
     FileChange.mk "docs/guide.md" FileChange.added None None;
     FileChange.mk "docs/old.md" FileChange.removed None None] in
  let fetched :=
    [FileChange.mk "README.md" FileChange.added (Some "IyBEb2Nz") None;
     FileChange.mk "docs/guide.md" FileChange.added None None;
     FileChange.mk "docs/old.md" FileChange.removed None None] in
  ∃ files,
    getChangedFiles extname_of (fun s => s) host push_payload = Ok files
    ∧ (∀ f, f ∈ files →
            FileChange.status f = FileChange.removed
            ∨ ∃ c, FileChange.content f = Some c ∧ c ≠ "")
    ∧ (Forall complete (own_commits push_payload) →
       files = filter kept fetched
       ∧ (∀ f, f ∈ files ↔
               ∃ i g, supported !! i = Some g
                      ∧ arrives (fun s => s) host "acme" "docs" (Some "c0ffee")
                                supported i g f)
       ∧ (∀ i f e, supported !! i = Some f →
               FileChange.status f ≠ FileChange.removed →
               host (request_index supported i) "acme" "docs"
                    (FileChange.filename f) (Some "c0ffee") = Content.Fails e →
               fetched !! i = Some (FileChange.set_content None f)
               ∧ ¬ kept (FileChange.set_content None f)
               ∧ FileChange.set_content None f ∉ files))
    ∧ (∀ c, c ∈ own_commits push_payload →
            Payload.added c = None ∨ Payload.modified c = None
            ∨ Payload.removed c = None →
            files = []).
Proof.
  apply (getChangedFiles_result extname_of (fun s => s) host push_payload
           (Payload.mkRepository "docs" (Some (Payload.mkOwner "acme")) "acme/docs")
           (Payload.mkOwner "acme")); reflexivity.
Defined.

(** C8 as stated fails: the read of [repository.owner.login] is not inside
    the [try], so a payload without [repository.owner] makes
    [getChangedFiles] throw instead of returning the empty list. *)
Lemma getChangedFiles_owner_missing :
  getChangedFiles extname_of (fun s => s) host push_without_owner
  = Throw (type_error "login")
  ∧ getChangedFiles extname_of (fun s => s) host push_without_owner ≠ Ok [].
Proof. split; [reflexivity|discriminate]. Qed.

(** ** The signature check of the webhook *)

Lemma handleWebhook_no_warning path_extname base64_decode parseInt16
  subtle_verify json_parse json_stringify secret getContent req rnd q :
  Webhook.WarnInvalidSignature
  ∉ (handleWebhook path_extname base64_decode parseInt16 subtle_verify
       json_parse json_stringify secret getContent req rnd q).2.
Proof.
  unfold handleWebhook. simpl.
  destruct (json_parse _) as [p|e]; simpl;
    [|by intros [?|[?|?%elem_of_nil]%elem_of_cons]%elem_of_cons].
  destruct (match Payload.ref p with Some _ => _ | None => _ end); simpl;
    [by intros [?|?%elem_of_nil]%elem_of_cons|].
  destruct (Payload.repository_of p) as [repo|]; simpl;
    [|by intros [?|[?|?%elem_of_nil]%elem_of_cons]%elem_of_cons].
  destruct (getChangedFiles _ _ _ p) as [files|e]; simpl;
    [|by intros [?|[?|?%elem_of_nil]%elem_of_cons]%elem_of_cons].
  destruct (length files =? 0)%nat; simpl;
    [by intros [?|[?|?%elem_of_nil]%elem_of_cons]%elem_of_cons|].
  destruct (addJob _ rnd q) as [[id|e] q']; simpl;
    by intros [?|[?|[?|?%elem_of_nil]%elem_of_cons]%elem_of_cons]%elem_of_cons.
Qed.

(** C4. What [handleWebhook] does depends neither on the signature header
    nor on the outcome of the verification, and it never logs an invalid
    signature: the promise that [verifySignature] returns is tested, not
    its result.  A push with a forged signature that the verification
    rejects is extracted and admitted to the queue. *)
Theorem signature_not_enforced :
  (∀ path_extname base64_decode parseInt16 subtle_verify subtle_verify'
     json_parse json_stringify secret getContent req signature' rnd q,
     handleWebhook path_extname base64_decode parseInt16 subtle_verify
       json_parse json_stringify secret getContent req rnd q
     = handleWebhook path_extname base64_decode parseInt16 subtle_verify'
         json_parse json_stringify secret getContent
         (Webhook.mkRequest signature' (Webhook.body_payload req)) rnd q
     ∧ Webhook.WarnInvalidSignature
       ∉ (handleWebhook path_extname base64_decode parseInt16 subtle_verify
            json_parse json_stringify secret getContent req rnd q).2)
  ∧ verifySignature (fun _ => Some 0) (fun _ _ _ => Ok false) "s3cret"
      (Webhook.signature_header forged_request) "{...}" = Fulfilled false
  ∧ (handleWebhook extname_of (fun s => s) (fun _ => Some 0)
       (fun _ _ _ => Ok false) (fun _ => Ok push_payload) (fun s => s)
       "s3cret" host forged_request "k3v9x2q1a" (JQ.create 3 100 1700000000000)).2
    = [Webhook.Responded 202;
       Webhook.Extracted
         [FileChange.mk "README.md" FileChange.added (Some "IyBEb2Nz") None;
          FileChange.mk "docs/old.md" FileChange.removed None None];
       Webhook.JobAdmitted "job_1700000000000_k3v9x2q1a"].
Proof.
  split; [|split; vm_compute; reflexivity].
  intros. split; [reflexivity|apply handleWebhook_no_warning].
Qed.

(** ** The warning callout *)

(** ** Rewriting with a pattern, position by position *)

Lemma run_first_char f r c st k :
  first_char r = Some c →
  (∀ d tl, Re.rest st = d :: tl → Re.chr_eq f c d = false) →
  Re.run f r st k = None.
Proof.
  revert st k. induction r; intros st k Hc Hst; simpl in Hc; try done.
  - injection Hc as ->. simpl. destruct (Re.rest st) as [|d tl] eqn:E; [done|].
    by rewrite (Hst d tl eq_refl).
  - simpl. by apply IHr1.
  - simpl. by apply IHr.
Qed.

Lemma match_here_first_char f r c st :
  first_char r = Some c →
  (∀ d tl, Re.rest st = d :: tl → Re.chr_eq f c d = false) →
  Re.match_here f r st = None.
Proof. intros Hc Hst. unfold Re.match_here. by eapply run_first_char. Qed.

Lemma rep_canon f r tpl n st :
  (length (Re.rest st) < n)%nat → Re.replace_from f r tpl n st = rep f r tpl st.
Proof.
  intros Hn. unfold rep.
  replace n with (S (length (Re.rest st)) + (n - S (length (Re.rest st))))%nat
    by lia.
  apply replace_from_fuel. lia.
Qed.

Lemma rep_step_none f r tpl b d tl caps :
  Re.match_here f r (Re.mkState b (d :: tl) caps) = None →
  rep f r tpl (Re.mkState b (d :: tl) caps)
  = d :: rep f r tpl (Re.mkState (d :: b) tl []).
Proof. intros H. unfold rep. simpl. by rewrite H. Qed.

Lemma rep_end f r tpl b caps :
  Re.match_here f r (Re.mkState b [] caps) = None →
  rep f r tpl (Re.mkState b [] caps) = [].
Proof. intros H. unfold rep. simpl. by rewrite H. Qed.

Lemma rep_step_some f r tpl st st' :
  Re.global f = true →
  Re.match_here f r st = Some st' →
  (length (Re.rest st') < length (Re.rest st))%nat →
  rep f r tpl st = Re.expand tpl (Re.caps st') ++ rep f r tpl st'.
Proof.
  intros Hg H Hlt. unfold rep at 1. simpl. rewrite H, Hg.
  destruct (Nat.ltb_spec (length (Re.rest st')) (length (Re.rest st))); [|lia].
  f_equal. apply rep_canon. lia.
Qed.

Lemma rep_skip f r tpl c chunk b l caps :
  first_char r = Some c → none_begins f c chunk →
  rep f r tpl (Re.mkState b (chunk ++ l) caps)
  = chunk ++ rep f r tpl (Re.mkState (rev chunk ++ b) l
                            (match chunk with [] => caps | _ => [] end)).
Proof.
  intros Hc Hnone. revert b caps.
  induction Hnone as [|d chunk Hd Hnone IH]; intros b caps; [done|].
  simpl. rewrite rep_step_none.
  - f_equal. rewrite IH. rewrite <- app_assoc. simpl.
    by destruct chunk.
  - eapply match_here_first_char; [done|]. simpl. by intros ? ? [= <- <-].
Qed.

Lemma rep_all_skipped f r tpl c l b caps :
  first_char r = Some c → none_begins f c l →
  rep f r tpl (Re.mkState b l caps) = l.
Proof.
  intros Hc Hnone. rewrite <- (app_nil_r l) at 1.
  rewrite (rep_skip f r tpl c l b [] caps Hc Hnone).
  rewrite rep_end; [by rewrite app_nil_r|].
  eapply match_here_first_char; [done|]. by simpl.
Qed.

Lemma match_here_bol_inside f r' d b l caps :
  Re.is_newline d = false →
  Re.match_here f (Re.Seq Re.Bol r') (Re.mkState (d :: b) l caps) = None.
Proof.
  intros Hd. unfold Re.match_here. simpl. rewrite Hd.
  by rewrite andb_false_r.
Qed.

Lemma rep_bol_inside f r' tpl d b l caps :
  not_newline (d :: l) →
  rep f (Re.Seq Re.Bol r') tpl (Re.mkState (d :: b) l caps) = l.
Proof.
  revert d b caps. induction l as [|e l IH]; intros d b caps Hnl.
  - apply rep_end. apply match_here_bol_inside. by inversion Hnl.
  - rewrite rep_step_none.
    + f_equal. apply IH. by inversion Hnl.
    + apply match_here_bol_inside. by inversion Hnl.
Qed.

Lemma rep_bol_none f r' tpl c l :
  first_char r' = Some c →
  (∀ d tl, l = d :: tl → Re.chr_eq f c d = false) →
  not_newline l →
  rep f (Re.Seq Re.Bol r') tpl (Re.mkState [] l []) = l.
Proof.
  intros Hc Hhead Hnl.
  assert (H0 : Re.match_here f (Re.Seq Re.Bol r') (Re.mkState [] l []) = None).
  { unfold Re.match_here. simpl. by eapply run_first_char. }
  destruct l as [|d l].
  - by apply rep_end.
  - rewrite rep_step_none by done. f_equal. by apply rep_bol_inside.
Qed.

Lemma search_bol_inside f r' n d b l caps :
  Re.multiline f = false →
  Re.search_from f (Re.Seq Re.Bol r') n (Re.mkState (d :: b) l caps) = None.
Proof.
  intros Hm. revert d b l caps. induction n as [|n IH]; intros d b l caps; [done|].
  simpl. unfold Re.match_here. simpl. rewrite Hm. simpl.
  destruct l as [|e l]; [done|]. apply IH.
Qed.

Lemma search_bol_none f r' c l n :
  Re.multiline f = false →
  first_char r' = Some c →
  (∀ d tl, l = d :: tl → Re.chr_eq f c d = false) →
  Re.search_from f (Re.Seq Re.Bol r') n (Re.mkState [] l []) = None.
Proof.
  intros Hm Hc Hhead. destruct n as [|n]; [done|]. simpl.
  assert (H0 : Re.match_here f (Re.Seq Re.Bol r') (Re.mkState [] l []) = None).
  { unfold Re.match_here. simpl. by eapply run_first_char. }
  rewrite H0. destruct l as [|d l]; [done|]. by apply search_bol_inside.
Qed.

(** [[\s\S]*?] walks over the characters at which what follows the star
    cannot match. *)
Lemma star_lazy_walk (m : Re.state → Re.cont → option Re.state) f c k X :
  (∀ b d l caps k', m (Re.mkState b (d :: l) caps) k'
                    = k' (Re.mkState (d :: b) l caps)) →
  (∀ st', (∀ d tl', Re.rest st' = d :: tl' → Re.chr_eq f c d = false) →
          k st' = None) →
  none_begins f c X →
  ∀ b tl caps n, (length X ≤ n)%nat →
  Re.star m false n (Re.mkState b (X ++ tl) caps) k
  = Re.star m false (n - length X) (Re.mkState (rev X ++ b) tl caps) k.
Proof.
  intros Hm Hk Hnone.
  induction Hnone as [|d X Hd Hnone IH]; intros b tl caps n Hn.
  - simpl. by rewrite Nat.sub_0_r.
  - simpl in Hn. destruct n as [|n]; [lia|]. simpl.
    rewrite Hk by (simpl; by intros ? ? [= <- <-]).
    rewrite Hm. simpl.
    destruct (Nat.ltb_spec (length (X ++ tl)) (S (length (X ++ tl)))); [|lia].
    rewrite IH by lia. by rewrite <- app_assoc.
Qed.

Lemma run_any f b d l caps k :
  Re.run f any (Re.mkState b (d :: l) caps) k = k (Re.mkState (d :: b) l caps).
Proof.
  simpl. unfold Re.class_has. simpl. by rewrite andb_false_r.
Qed.

(** The pattern of the warning callout finds the fragment where it stands. *)
Lemma warning_matches b X post caps :
  none_begins gi "<" X →
  ∃ b', Re.match_here gi (element ["Warning"; "Alert"])
          (Re.mkState b (la "<Warning>" ++ X ++ la "</Warning>" ++ post) caps)
        = Some (Re.mkState b' post
                  [(3%nat, X); (2%nat, []); (1%nat, la "Warning")]).
Proof.
  intros HX. unfold Re.match_here, element.
  remember (la "</Warning>" ++ post) as tl eqn:Htl.
  simpl. rewrite Nat.sub_diag.
  replace (S (S (S (S (S (S (S (length (X ++ tl)))))))) - length (X ++ tl))%nat
    with 7%nat by lia.
  cbn [take].
  rewrite (star_lazy_walk _ gi "<" _ X); [|done| |done|rewrite length_app; lia].
  2:{ intros st' H. destruct (Re.rest st') as [|d tl'] eqn:E; [done|].
      by rewrite (H d tl' eq_refl). }
  rewrite length_app.
  replace (length X + length tl - length X)%nat with (length tl) by lia.
  subst tl. simpl.
  match goal with
  | |- context [take ?n (X ++ ?l)] =>
      replace n with (length X) by lia; rewrite (take_app_length X l)
  end.
  by eexists.
Qed.

(** The pattern of the note callout does not match at the tags of the
    fragment. *)
Lemma note_not_at_open b tl caps :
  Re.match_here gi (element ["Callout"; "Note"; "Info"])
    (Re.mkState b ("<"%char :: "W"%char :: tl) caps) = None.
Proof. reflexivity. Qed.

Lemma note_not_at_close b tl caps :
  Re.match_here gi (element ["Callout"; "Note"; "Info"])
    (Re.mkState b ("<"%char :: "/"%char :: tl) caps) = None.
Proof. reflexivity. Qed.

(** Characters that are no letters are equal to a character exactly when
    they are equal to it up to case. *)
Lemma chr_eq_ne f c d :
  Js.lower_ascii c = c →
  (nat_of_ascii c < 97 ∨ 122 < nat_of_ascii c)%nat →
  d ≠ c → Re.chr_eq f c d = false.
Proof.
  intros Hc Hrange Hne. unfold Re.chr_eq.
  destruct (Re.ignoreCase f); [|by apply Ascii.eqb_neq].
  apply Ascii.eqb_neq. rewrite Hc. intros Heq. unfold Js.lower_ascii in Heq.
  destruct ((65 <=? nat_of_ascii d)%nat && (nat_of_ascii d <=? 90)%nat) eqn:E;
    [|done].
  apply andb_true_iff in E as [E1%Nat.leb_le E2%Nat.leb_le].
  rewrite Heq in Hrange. rewrite nat_ascii_embedding in Hrange by lia. lia.
Qed.

Lemma plain_none_lt f l : plain l → none_begins f "<" l.
Proof.
  intros H. eapply Forall_impl; [done|]. simpl. intros d (H1 & _ & _).
  apply chr_eq_ne; [done|left; by apply Nat.ltb_lt|done].
Qed.

Lemma plain_none_brace f l : plain l → none_begins f "{" l.
Proof.
  intros H. eapply Forall_impl; [done|]. simpl. intros d (_ & H1 & _).
  apply chr_eq_ne; [done|right; by apply Nat.ltb_lt|done].
Qed.

Lemma plain_none_nl f l : plain l → none_begins f "010" l.
Proof.
  intros H. eapply Forall_impl; [done|]. simpl. intros d (_ & _ & H1).
  apply chr_eq_ne; [done|left; by apply Nat.ltb_lt|]. intros ->. done.
Qed.

Lemma plain_not_newline l : plain l → not_newline l.
Proof. intros H. eapply Forall_impl; [done|]. simpl. by intros d (_ & _ & ?). Qed.

Lemma plain_app l1 l2 : plain l1 → plain l2 → plain (l1 ++ l2).
Proof. intros. by apply Forall_app. Qed.

Lemma replace_list f r tpl l :
  Re.replace f r tpl (String.string_of_list_ascii l)
  = String.string_of_list_ascii (rep f r tpl (Re.mkState [] l [])).
Proof.
  unfold Re.replace, rep. cbv zeta. simpl Re.rest.
  by rewrite String.list_ascii_of_string_of_list_ascii.
Qed.

Lemma replace_id f r tpl c l :
  first_char r = Some c → none_begins f c l →
  Re.replace f r tpl (String.string_of_list_ascii l)
  = String.string_of_list_ascii l.
Proof.
  intros Hc Hnone. rewrite replace_list. f_equal. by eapply rep_all_skipped.
Qed.

Lemma conversions_split :
  conversions
  = (gi, element ["Callout"; "Note"; "Info"], [Re.Lit "> **Note:** "; Re.Grp_ 3])
    :: (gi, element ["Warning"; "Alert"], [Re.Lit "> **⚠️ Warning:** "; Re.Grp_ 3])
    :: drop 2 conversions.
Proof. reflexivity. Qed.

Lemma later_conversions_begin :
  Forall (fun c => first_char (c.1.2) = Some "<"%char) (drop 2 conversions).
Proof. repeat constructor. Qed.

Lemma conversions_leave cs l :
  Forall (fun c : Re.flags * Re.t * list Re.piece =>
            first_char (c.1.2) = Some "<"%char) cs →
  (∀ f, none_begins f "<" l) →
  fold_left (fun acc c => Re.replace (c.1.1) (c.1.2) (c.2) acc) cs
    (String.string_of_list_ascii l)
  = String.string_of_list_ascii l.
Proof.
  intros Hcs Hl. induction Hcs as [|c cs Hc Hcs IH]; [done|].
  simpl. by rewrite (replace_id _ _ _ "<").
Qed.

Lemma drop_spaces_head l :
  match l with [] => True | d :: _ => Re.is_space d = false end →
  drop_spaces l = l.
Proof. destruct l as [|d l]; [done|]. simpl. by intros ->. Qed.

Lemma append_list (a b : string) :
  String.string_of_list_ascii (la a ++ la b) = a +:+ b.
Proof.
  induction a as [|c a IH]; simpl.
  - apply String.string_of_list_ascii_of_string.
  - by rewrite IH.
Qed.

Lemma la_append (a b : string) : la (a +:+ b) = la a ++ la b.
Proof. induction a as [|c a IH]; simpl; [done|by rewrite IH]. Qed.

Lemma conversions_cons f r tpl cs s :
  fold_left (fun acc c => Re.replace (c.1.1) (c.1.2) (c.2) acc)
    ((f, r, tpl) :: cs) s
  = fold_left (fun acc c => Re.replace (c.1.1) (c.1.2) (c.2) acc) cs
      (Re.replace f r tpl s).
Proof. reflexivity. Qed.

(** The steps of [preprocessMdx] on a text without frontmatter. *)
Lemma preprocessMdx_plain content :
  Re.match_ noflags frontmatter_re content = None →
  preprocessMdx content
  = trim (Re.replace g_ blank_lines_re [Re.Lit nl; Re.Lit nl]
      (Re.replace g_ jsx_expr_re [Re.Lit "`"; Re.Grp_ 1; Re.Lit "`"]
        (Re.replace g_ jsx_string_re [Re.Grp_ 2]
          (fold_left (fun acc c => Re.replace (c.1.1) (c.1.2) (c.2) acc)
             conversions
             (Re.replace gm (statement_re "export") []
                (Re.replace gm (statement_re "import") [] content)))))).
Proof. intros H. unfold preprocessMdx. rewrite H. reflexivity. Qed.

Lemma prefix_append (a b : string) : String.prefix a (a +:+ b) = true.
Proof.
  induction a as [|c a IH]; simpl; [by destruct b|].
  by destruct (ascii_dec c c).
Qed.

Lemma includes_prefix (s p : string) :
  String.prefix p s = true → Js.includes s p = true.
Proof. destruct s; simpl; by intros ->. Qed.

Lemma includes_append (a b c : string) :
  Js.includes (a +:+ b +:+ c) b = true.
Proof.
  induction a as [|x a IH].
  - apply includes_prefix, (prefix_append b c).
  - change (String.prefix b (String x a +:+ b +:+ c)
            || Js.includes (a +:+ b +:+ c) b = true).
    rewrite IH. apply orb_true_r.
Qed.

Section WarningCallout.

Variable md_render : string → string.

(** The fragment as a paragraph of its own in a page of several lines. *)
Lemma warning_in_upgrade_page :
  preprocessMdx upgrade_page
  = "# Upgrade" +:+ nl +:+ nl +:+ "Stop the server first." +:+ nl +:+ nl
      +:+ warning_quote +:+ nl +:+ nl +:+ "Then run the installer."
  ∧ convertMdxToMd md_render upgrade_page
    = md_render (preprocessMdx upgrade_page).
Proof. split; [vm_compute; reflexivity|reflexivity]. Qed.

End WarningCallout.


(** Other places in which the fragment is lost: inside the frontmatter,
    on a line that begins with a statement word and white space, after a
    line that consists of a statement word, and after a tag that is not
    closed before it. *)
Lemma warning_lost_elsewhere :
  Js.includes
    (preprocessMdx ("---" +:+ nl +:+ warning_fragment +:+ nl +:+ "---" +:+ nl))
    warning_quote = false
  ∧ Js.includes (preprocessMdx ("import x " +:+ warning_fragment))
      warning_quote = false
  ∧ Js.includes (preprocessMdx ("import" +:+ nl +:+ warning_fragment))
      warning_quote = false
  ∧ Js.includes (preprocessMdx ("<Note " +:+ warning_fragment +:+ "</Note>"))
      warning_quote = false
  ∧ Js.includes (preprocessMdx ("<A " +:+ warning_fragment +:+ "</A>"))
      warning_quote = false.
Proof. repeat split; vm_compute; reflexivity. Qed.

(** ** The completion map and the processing set *)

Lemma splice_insert_perm {A} (i : nat) (y : A) (l : list A) :
  splice_insert i y l ≡ₚ y :: l.
Proof.
  unfold splice_insert. rewrite <- Permutation_middle.
  by rewrite take_drop.
Qed.

Lemma splice_remove_perm {A} (i : nat) (x : A) (l : list A) :
  l !! i = Some x → l ≡ₚ x :: splice_remove i l.
Proof.
  intros H. unfold splice_remove. rewrite Permutation_middle.
  by rewrite take_drop_middle.
Qed.

(** A successful admission, field by field. *)
Lemma addJob_shape job rnd q :
  (addJob job rnd q).2 = q
  ∨ ∃ j queue',
      Job.status j = Job.pending
      ∧ Job.id j = "job_" +:+ pretty (JQ.now q) +:+ "_" +:+ rnd
      ∧ Job.attempts j = 0 ∧ Job.createdAt j = JQ.now q
      ∧ Job.error j = Job.in_error job
      ∧ addJob job rnd q = (Ok (Job.id j), (addJob job rnd q).2)
      ∧ queue' ≡ₚ length (JQ.heap q) :: JQ.queue q
      ∧ (addJob job rnd q).2
        = JQ.emit (JQ.jobAdded (length (JQ.heap q)))
            (JQ.set_queue queue' (JQ.set_heap (JQ.heap q ++ [j]) q)).
Proof.
  unfold addJob. destruct (_ >=? _); [by left|right]. simpl.
  exists (Job.mk ("job_" +:+ pretty (JQ.now q) +:+ "_" +:+ rnd)
                 (Job.in_repository job) (Job.in_files job)
                 (Job.in_priority job) (JQ.now q) 0 Job.pending
                 (Job.in_error job)).
  exists (match findIndex (JQ.heap q)
                  (fun j => Job.priority j <? Job.in_priority job)
                  (JQ.queue q) with
          | Some i => splice_insert i (length (JQ.heap q)) (JQ.queue q)
          | None => JQ.queue q ++ [length (JQ.heap q)]
          end).
  simpl. do 6 (split; [reflexivity|]). split; [|reflexivity].
  destruct (findIndex _ _ _).
  - apply splice_insert_perm.
  - by rewrite <- Permutation_cons_append.
Qed.

(** A job starts, field by field. *)
Lemma processJob_start_shape r q job :
  JQ.heap q !! r = Some job →
  processJob_start r q
  = JQ.set_awaiting (r :: JQ.awaiting q)
      (JQ.set_invoked (r :: JQ.invoked q)
         (JQ.emit (JQ.jobStarted r)
            (JQ.set_processing ({[ Job.id job ]} ∪ JQ.processing q)
               (JQ.update_job r
                  (fun j => Job.incr_attempts (Job.set_status Job.processing j))
                  q)))).
Proof. intros E. unfold processJob_start. by rewrite E. Qed.

Lemma lookup_alter_id (f : Job.t → Job.t) (h : list Job.t) r x j :
  (∀ j, Job.id (f j) = Job.id j) →
  alter f r h !! x = Some j →
  ∃ j0, h !! x = Some j0 ∧ Job.id j0 = Job.id j
        ∧ (x ≠ r → j = j0) ∧ (x = r → j = f j0).
Proof.
  intros Hf Hj. destruct (decide (x = r)) as [->|Hne].
  - rewrite list_lookup_alter_eq in Hj.
    destruct (h !! r) as [j0|] eqn:E; [|done]. simpl in Hj.
    injection Hj as <-. exists j0. by rewrite Hf.
  - rewrite list_lookup_alter_ne in Hj by done. by exists j.
Qed.

Lemma tracked_addJob job rnd q : tracked q → tracked (addJob job rnd q).2.
Proof.
  intros [Hf Ht He Hk Hs].
  destruct (addJob_shape job rnd q)
    as [->|(j & queue' & Hst & _ & _ & _ & _ & _ & Hperm & ->)]; [done|].
  split; simpl; try done; cycle 2.
  { intros k Hsome. unfold job_ids. simpl. rewrite fmap_app.
    apply elem_of_app. left. by apply Hk. }
  - intros r j0 Hj0. rewrite Hperm.
    apply lookup_app_Some in Hj0 as [Hj0|[Hge Hj0]].
    + destruct (Hf r j0 Hj0); [left; apply elem_of_cons; by right|by right].
    + apply list_lookup_singleton_Some in Hj0 as [Hr <-].
      left. apply elem_of_cons. left. lia.
  - intros r j0 Hj0 Hterm.
    apply lookup_app_Some in Hj0 as [Hj0|[Hge Hj0]]; [eauto|].
    apply list_lookup_singleton_Some in Hj0 as [Hr <-].
    rewrite Hst in Hterm. by destruct Hterm.
Qed.

(** The job behind [r] changes, the ids stay. *)
Lemma tracked_update q q' r f :
  tracked q →
  JQ.heap q' = alter f r (JQ.heap q) →
  (∀ j, Job.id (f j) = Job.id j) →
  JQ.queue q' = JQ.queue q →
  (∀ k, is_Some (JQ.completed q !! k) → is_Some (JQ.completed q' !! k)) →
  (∀ j, JQ.heap q !! r = Some j → terminal (Job.status (f j)) →
        is_Some (JQ.completed q' !! Job.id j)) →
  (∀ k e, JQ.completed q' !! k = Some e →
          JQ.c_status e = "completed" ∨ JQ.c_status e = "failed") →
  (∀ k, is_Some (JQ.completed q' !! k) →
        is_Some (JQ.completed q !! k)
        ∨ ∃ j, JQ.heap q !! r = Some j ∧ k = Job.id j) →
  Z.of_nat (size (JQ.processing q')) ≤ Z.max 0 (JQ.maxConcurrent q') →
  tracked q'.
Proof.
  intros [Hf Ht He Hk Hs] Hh Hid Hq Hmono Hnew Hent Hkeys Hsize.
  assert (Hids : job_ids q' = job_ids q).
  { unfold job_ids. rewrite Hh. apply list_eq. intros x.
    rewrite !list_lookup_fmap. destruct (decide (x = r)) as [->|Hne].
    - rewrite list_lookup_alter_eq. destruct (JQ.heap q !! r); [|done].
      simpl. by rewrite Hid.
    - by rewrite list_lookup_alter_ne. }
  split; [| |done| |done]; cycle 2.
  { intros k Hsome. rewrite Hids.
    destruct (Hkeys k Hsome) as [?|(j & Hj & ->)]; [auto|].
    unfold job_ids. apply list_elem_of_fmap. exists j. split; [done|].
    by eapply list_elem_of_lookup_2. }
  - intros x j. rewrite Hh, Hq. intros Hj.
    apply lookup_alter_id in Hj as (j0 & Hj0 & <- & _); [|done].
    destruct (Hf x j0 Hj0); auto.
  - intros x j. rewrite Hh. intros Hj Hterm.
    apply lookup_alter_id in Hj as (j0 & Hj0 & <- & Hne & Heq); [|done].
    destruct (decide (x = r)) as [->|Hx].
    + rewrite (Heq eq_refl) in Hterm. auto.
    + rewrite (Hne Hx) in Hterm. eauto.
Qed.

Lemma size_add_one (x : string) (X : gset string) :
  (size ({[ x ]} ∪ X) ≤ S (size X))%nat.
Proof.
  rewrite size_union_alt, size_singleton.
  assert (size (X ∖ {[x]}) ≤ size X)%nat.
  { apply subseteq_size. intros y Hy. apply elem_of_difference in Hy. tauto. }
  lia.
Qed.

Lemma size_remove_one (x : string) (X : gset string) :
  (size (X ∖ {[ x ]}) ≤ size X)%nat.
Proof.
  apply subseteq_size. intros y Hy. apply elem_of_difference in Hy. tauto.
Qed.

Lemma tracked_start r q job :
  JQ.heap q !! r = Some job → Job.status job = Job.pending →
  Z.of_nat (size (JQ.processing q)) < JQ.maxConcurrent q →
  tracked q → tracked (processJob_start r q).
Proof.
  intros E Hst Hlt Ht.
  rewrite (processJob_start_shape r q job E).
  eapply (tracked_update q _ r); [done|reflexivity|done|done|done| |..].
  - intros j _ Hterm. simpl in Hterm. by destruct Hterm.
  - apply (t_entries q Ht).
  - intros k Hk. by left.
  - simpl. pose proof (size_add_one (Job.id job) (JQ.processing q)). lia.
Qed.

Lemma tracked_loop fuel q : tracked q → tracked (processQueue_loop fuel q).
Proof.
  revert q. induction fuel as [|fuel IH]; intros q Ht; simpl; [done|].
  destruct (_ <? _) eqn:Hlt; simpl; [|done].
  destruct (0 <? _); [|done].
  destruct (find_job _ _ _) as [r|] eqn:E; [|done].
  apply IH. pose proof (find_pending_status q r E) as Hs.
  unfold status_of in Hs. destruct (JQ.heap q !! r) as [job|] eqn:Ej; [|done].
  injection Hs as Hs.
  eapply tracked_start; [done|done|by apply Z.ltb_lt|done].
Qed.

Lemma insert_keeps {V} (m : gmap string V) k v k' :
  is_Some (m !! k') → is_Some (<[ k := v ]> m !! k').
Proof.
  intros H. destruct (decide (k = k')) as [->|Hne].
  - rewrite lookup_insert_eq. by eexists.
  - by rewrite lookup_insert_ne.
Qed.

Lemma tracked_settle r o q :
  tracked q →
  tracked (processJob_settle r o
             (JQ.set_awaiting (remove_first r (JQ.awaiting q)) q)).
Proof.
  intros Ht. unfold processJob_settle. simpl.
  destruct (JQ.heap q !! r) as [job|] eqn:E; [|by destruct Ht].
  pose proof (size_remove_one (Job.id job) (JQ.processing q)) as Hsz.
  pose proof (t_size q Ht) as Hs.
  destruct o as [result|e]; [|destruct (Job.attempts job <? 3)].
  - eapply (tracked_update q _ r); [done|reflexivity|done|done|..]; simpl.
    + intros k. apply insert_keeps.
    + intros j Hj _. rewrite E in Hj. injection Hj as <-.
      rewrite lookup_insert_eq. by eexists.
    + intros k e Hk. destruct (decide (Job.id job = k)) as [<-|Hne].
      * rewrite lookup_insert_eq in Hk. injection Hk as <-. by left.
      * rewrite lookup_insert_ne in Hk by done. by eapply (t_entries q).
    + intros k Hk. destruct (decide (Job.id job = k)) as [<-|Hne].
      * right. by exists job.
      * left. by rewrite lookup_insert_ne in Hk.
    + lia.
  - eapply (tracked_update q _ r); [done|reflexivity|done|done|..]; simpl.
    + done.
    + intros j _ Hterm. by destruct Hterm.
    + apply (t_entries q Ht).
    + intros k Hk. by left.
    + lia.
  - eapply (tracked_update q _ r); [done|reflexivity|done|done|..]; simpl.
    + intros k. apply insert_keeps.
    + intros j Hj _. rewrite E in Hj. injection Hj as <-.
      rewrite lookup_insert_eq. by eexists.
    + intros k e0 Hk. destruct (decide (Job.id job = k)) as [<-|Hne].
      * rewrite lookup_insert_eq in Hk. injection Hk as <-. by right.
      * rewrite lookup_insert_ne in Hk by done. by eapply (t_entries q).
    + intros k Hk. destruct (decide (Job.id job = k)) as [<-|Hne].
      * right. by exists job.
      * left. by rewrite lookup_insert_ne in Hk.
    + lia.
Qed.

Lemma evict_shape r q :
  evict r q = q
  ∨ ∃ job i r', JQ.heap q !! r = Some job ∧ terminal (Job.status job)
      ∧ JQ.queue q !! i = Some r'
      ∧ Job.id <$> JQ.heap q !! r' = Some (Job.id job)
      ∧ evict r q = JQ.set_queue (splice_remove i (JQ.queue q)) q.
Proof.
  unfold evict. destruct (JQ.heap q !! r) as [job|] eqn:E; [|by left].
  pose proof (findIndex_spec (JQ.heap q)
                (fun j => String.eqb (Job.id j) (Job.id job)) (JQ.queue q)) as Hs.
  destruct (findIndex _ _ _) as [i|]; [|by left].
  destruct (_ || _) eqn:Ho; [|by left].
  right. destruct Hs as [_ (r' & Hr' & Hp)].
  exists job, i, r'. split; [done|]. split.
  { apply orb_true_iff in Ho as [H|H]; apply bool_decide_eq_true in H;
      [by left|by right]. }
  split; [done|]. split; [|done].
  destruct (JQ.heap q !! r') as [j'|]; [|done]. simpl in *.
  apply String.eqb_eq in Hp. by rewrite Hp.
Qed.

Lemma tracked_run_timer a q : tracked q → tracked (run_timer a q).
Proof.
  intros Ht. destruct a as [r|r]; simpl.
  - eapply (tracked_update q _ r); [done|reflexivity|done|done|done| |..].
    + intros j _ Hterm. by destruct Hterm.
    + apply (t_entries q Ht).
    + intros k Hk. by left.
    + apply (t_size q Ht).
  - destruct (evict_shape r q)
      as [->|(job & i & r' & Hjob & Hterm & Hi & Hid & ->)]; [done|].
    destruct Ht as [Hf Htm He Hk Hs]. split; simpl; try done.
    intros x j Hj. destruct (Hf x j Hj) as [Hin|?]; [|by right].
    rewrite (splice_remove_perm i r' (JQ.queue q) Hi) in Hin.
    apply elem_of_cons in Hin as [->|Hin]; [|by left].
    right. rewrite Hj in Hid. injection Hid as ->. eauto.
Qed.

Lemma tracked_exec e q q' : exec e q = Some q' → tracked q → tracked q'.
Proof.
  destruct e as [job rnd| |r o|k|dt]; simpl.
  - intros [= <-]. apply tracked_addJob.
  - intros [= <-]. apply tracked_loop.
  - destruct (bool_decide _); [|done]. intros [= <-]. apply tracked_settle.
  - destruct (JQ.timers q !! k) as [tm|]; [|done].
    destruct (_ <=? _); [|done]. intros [= <-] Ht.
    apply tracked_run_timer. by destruct Ht.
  - destruct (0 <=? dt); [|done]. intros [= <-] Ht. by destruct Ht.
Qed.

Lemma tracked_reachable q : reachable q → tracked q.
Proof.
  intros (mc & ms & t0 & es & Hrun).
  eapply (run_preserves tracked); [apply tracked_exec|done|].
  split; try done.
  - simpl. intros k [e He]. by rewrite lookup_empty in He.
  - unfold JQ.create, JQ.processing, JQ.maxConcurrent.
    rewrite size_empty. lia.
Qed.

Lemma find_job_exists h pred l r :
  r ∈ l → from_option pred false (h !! r) = true →
  ∃ r' j, find_job h pred l = Some r' ∧ h !! r' = Some j ∧ pred j = true.
Proof.
  intros Hin Hp. induction l as [|x l IH]; [by apply elem_of_nil in Hin|].
  simpl. destruct (from_option pred false (h !! x)) eqn:E.
  - exists x. destruct (h !! x) as [j|]; [|done]. by exists j.
  - apply elem_of_cons in Hin as [->|Hin]; [congruence|auto].
Qed.

(** ** Queues in which no two jobs have the same id *)

Lemma job_ids_alter q r f :
  (∀ j, Job.id (f j) = Job.id j) →
  Job.id <$> alter f r (JQ.heap q) = job_ids q.
Proof.
  intros Hid. unfold job_ids. apply list_eq. intros x.
  rewrite !list_lookup_fmap. destruct (decide (x = r)) as [->|Hne].
  - rewrite list_lookup_alter_eq. destruct (JQ.heap q !! r); [|done].
    simpl. by rewrite Hid.
  - by rewrite list_lookup_alter_ne.
Qed.

(** Two references to jobs of the same id are the same reference. *)
Lemma same_id_same_ref h r1 r2 j1 j2 :
  NoDup (Job.id <$> h) → h !! r1 = Some j1 → h !! r2 = Some j2 →
  Job.id j1 = Job.id j2 → r1 = r2.
Proof.
  intros Hnd H1 H2 Hid.
  eapply (NoDup_lookup _ r1 r2 (Job.id j1) Hnd);
    rewrite list_lookup_fmap; [by rewrite H1|by rewrite H2, Hid].
Qed.

Lemma elem_of_remove_first_ne r l x :
  x ∈ l → x ≠ r → x ∈ remove_first r l.
Proof.
  induction l as [|y l IH]; simpl; [done|].
  intros Hin Hne. destruct (bool_decide (y = r)) eqn:E.
  - apply bool_decide_eq_true in E as ->.
    apply elem_of_cons in Hin as [->|Hin]; done.
  - apply elem_of_cons in Hin as [->|Hin]; [by left|right; auto].
Qed.

(** The job behind [r] gets another status; nothing else of the job store
    changes. *)
Lemma exact_update q q' r f job :
  exact q → NoDup (job_ids q) →
  JQ.heap q !! r = Some job →
  JQ.heap q' = alter f r (JQ.heap q) →
  (∀ j, Job.id (f j) = Job.id j) →
  JQ.queue q' = JQ.queue q →
  r ∈ JQ.queue q →
  (∀ x, x ∈ JQ.processing q' ↔
        ∃ r' j, r' ∈ JQ.awaiting q' ∧ JQ.heap q !! r' = Some j ∧ Job.id j = x) →
  (∀ x, x ≠ r → x ∈ JQ.awaiting q → x ∈ JQ.awaiting q') →
  (Job.status (f job) = Job.processing → r ∈ JQ.awaiting q') →
  (∀ k, k ≠ Job.id job → JQ.completed q' !! k = JQ.completed q !! k) →
  (Job.status (f job) = Job.completed →
     ∃ result, JQ.completed q' !! Job.id job
               = Some (JQ.mkCompleted "completed" (Some result) None)) →
  (Job.status (f job) = Job.failed →
     JQ.completed q' !! Job.id job
     = Some (JQ.mkCompleted "failed" None (Job.error (f job)))) →
  exact q'.
Proof.
  intros [Hnd Hk Hp Ha Hc Hfl] Hids E Hh Hid Hq Hin Hproc Haw Hnew Hcomp
    Hnewc Hnewf.
  assert (Hother : ∀ x j, x ≠ r → JQ.heap q !! x = Some j →
                          Job.id j ≠ Job.id job).
  { intros x j Hne Hj Heq. apply Hne.
    by eapply (same_id_same_ref (JQ.heap q) x r j job). }
  split.
  - by rewrite Hq.
  - intros x j. rewrite Hh, Hq. intros Hj Hnt.
    apply lookup_alter_id in Hj as (j0 & Hj0 & _ & Hne & _); [|done].
    destruct (decide (x = r)) as [->|Hx]; [done|].
    rewrite (Hne Hx) in Hnt. eauto.
  - intros x. rewrite Hproc. split.
    + intros (r' & j & Hr' & Hj & Hx). exists r'.
      destruct (decide (r' = r)) as [->|Hne].
      * exists (f j). rewrite Hh, list_lookup_alter_eq, Hj. simpl.
        by rewrite Hid.
      * exists j. by rewrite Hh, list_lookup_alter_ne.
    + intros (r' & j & Hr' & Hj & Hx). exists r'. rewrite Hh in Hj.
      apply lookup_alter_id in Hj as (j0 & Hj0 & Hid0 & _); [|done].
      exists j0. by rewrite Hid0.
  - intros x j. rewrite Hh. intros Hj Hst.
    apply lookup_alter_id in Hj as (j0 & Hj0 & _ & Hne & Heq); [|done].
    destruct (decide (x = r)) as [->|Hx].
    + rewrite E in Hj0. injection Hj0 as <-.
      rewrite (Heq eq_refl) in Hst. auto.
    + rewrite (Hne Hx) in Hst. eauto.
  - intros x j. rewrite Hh. intros Hj Hst.
    apply lookup_alter_id in Hj as (j0 & Hj0 & Hid0 & Hne & Heq); [|done].
    destruct (decide (x = r)) as [->|Hx].
    + rewrite E in Hj0. injection Hj0 as <-.
      rewrite (Heq eq_refl) in Hst |- *. rewrite Hid. auto.
    + rewrite (Hne Hx) in Hst |- *.
      rewrite Hcomp by eauto. eauto.
  - intros x j. rewrite Hh. intros Hj Hst.
    apply lookup_alter_id in Hj as (j0 & Hj0 & Hid0 & Hne & Heq); [|done].
    destruct (decide (x = r)) as [->|Hx].
    + rewrite E in Hj0. injection Hj0 as <-.
      rewrite (Heq eq_refl) in Hst |- *. rewrite Hid. auto.
    + rewrite (Hne Hx) in Hst |- *.
      rewrite Hcomp by eauto. eauto.
Qed.

Lemma exact_addJob job rnd q :
  disciplined q → queue_ok q → exact q → exact (addJob job rnd q).2.
Proof.
  intros Hd [Hrefs _] [Hnd Hk Hp Ha Hc Hfl].
  destruct (addJob_shape job rnd q)
    as [->|(j & queue' & Hst & _ & _ & _ & _ & _ & Hperm & ->)]; [done|].
  assert (Hold : ∀ r, r ∈ JQ.awaiting q →
            (JQ.heap q ++ [j]) !! r = JQ.heap q !! r).
  { intros r Hr. apply lookup_app_l.
    eapply status_of_Some_lt. by apply (d_await q Hd). }
  split; simpl.
  - rewrite Hperm. constructor; [|done].
    intros Hin. rewrite Forall_forall in Hrefs. specialize (Hrefs _ Hin). lia.
  - intros r j0 Hj0 Hnt. rewrite Hperm. apply elem_of_cons.
    apply lookup_app_Some in Hj0 as [Hj0|[Hge Hj0]]; [right; eauto|].
    apply list_lookup_singleton_Some in Hj0 as [Hr _]. left. lia.
  - intros x. rewrite Hp. split; intros (r & j0 & Hr & Hj0 & Hx);
      exists r, j0; (split; [done|]); (split; [|done]).
    + by rewrite Hold.
    + by rewrite <- Hold.
  - intros r j0 Hj0 Hs.
    apply lookup_app_Some in Hj0 as [Hj0|[Hge Hj0]]; [eauto|].
    apply list_lookup_singleton_Some in Hj0 as [_ <-]. congruence.
  - intros r j0 Hj0 Hs.
    apply lookup_app_Some in Hj0 as [Hj0|[Hge Hj0]]; [eauto|].
    apply list_lookup_singleton_Some in Hj0 as [_ <-]. congruence.
  - intros r j0 Hj0 Hs.
    apply lookup_app_Some in Hj0 as [Hj0|[Hge Hj0]]; [eauto|].
    apply list_lookup_singleton_Some in Hj0 as [_ <-]. congruence.
Qed.

Lemma exact_start r q job :
  JQ.heap q !! r = Some job → Job.status job = Job.pending →
  r ∈ JQ.queue q → NoDup (job_ids q) →
  exact q → exact (processJob_start r q).
Proof.
  intros E Hst Hin Hids He.
  rewrite (processJob_start_shape r q job E).
  eapply (exact_update q _ r _ job);
    [done|done|done|reflexivity|done|done|done|..]; simpl.
  - intros x. rewrite elem_of_union, elem_of_singleton, (e_processing q He).
    split.
    + intros [->|(r' & j & Hr' & Hj & Hx)].
      * exists r, job. split; [by left|done].
      * exists r', j. split; [by right|done].
    + intros (r' & j & [->|Hr']%elem_of_cons & Hj & Hx).
      * left. rewrite E in Hj. by injection Hj as <-.
      * right. by exists r', j.
  - intros x _ Hx. by right.
  - intros _. by left.
  - done.
  - done.
  - done.
Qed.

Lemma exact_loop fuel q :
  NoDup (job_ids q) → exact q → exact (processQueue_loop fuel q).
Proof.
  revert q. induction fuel as [|fuel IH]; intros q Hids He; simpl; [done|].
  destruct (_ && _); [|done].
  destruct (find_job _ _ _) as [r|] eqn:E; [|done].
  pose proof (find_pending_status q r E) as Hs.
  unfold status_of in Hs. destruct (JQ.heap q !! r) as [job|] eqn:Ej; [|done].
  injection Hs as Hs. apply find_job_elem in E.
  apply IH; [|by eapply exact_start].
  rewrite (processJob_start_shape r q job Ej). unfold job_ids. simpl.
  by rewrite job_ids_alter.
Qed.

Lemma exact_settle r o q :
  disciplined q → r ∈ JQ.awaiting q → NoDup (job_ids q) → exact q →
  exact (processJob_settle r o
           (JQ.set_awaiting (remove_first r (JQ.awaiting q)) q)).
Proof.
  intros Hd Hr Hids He.
  pose proof (d_await q Hd r Hr) as Hs. unfold status_of in Hs.
  destruct (JQ.heap q !! r) as [job|] eqn:E; [|done]. injection Hs as Hs.
  assert (Hin : r ∈ JQ.queue q).
  { apply (e_kept q He r job E). rewrite Hs. by intros [?|?]. }
  destruct (NoDup_remove_first r _ (d_await_nodup q Hd)) as [_ Hnot].
  assert (Hproc : ∀ x, x ∈ JQ.processing q ∖ {[ Job.id job ]} ↔
            ∃ r' j, r' ∈ remove_first r (JQ.awaiting q)
                    ∧ JQ.heap q !! r' = Some j ∧ Job.id j = x).
  { intros x. rewrite elem_of_difference, elem_of_singleton, (e_processing q He).
    split.
    - intros [(r' & j & Hr' & Hj & Hx) Hne]. exists r', j.
      split; [|done]. apply elem_of_remove_first_ne; [done|].
      intros ->. rewrite E in Hj. injection Hj as <-. done.
    - intros (r' & j & Hr' & Hj & Hx). split.
      + exists r', j. split; [|done]. by eapply elem_of_remove_first.
      + intros ->. assert (r' = r); [|by subst].
        by eapply (same_id_same_ref (JQ.heap q) r' r j job). }
  assert (Hkeep : ∀ x, x ≠ r → x ∈ JQ.awaiting q →
            x ∈ remove_first r (JQ.awaiting q)).
  { intros x Hne Hx. by apply elem_of_remove_first_ne. }
  unfold processJob_settle. simpl. rewrite E.
  destruct o as [result|e]; [|destruct (Job.attempts job <? 3)].
  - eapply (exact_update q _ r _ job);
      [done|done|done|reflexivity|done|done|done|..]; simpl; try done.
    + intros k Hk. by rewrite lookup_insert_ne.
    + intros _. rewrite lookup_insert_eq. by eexists.
  - eapply (exact_update q _ r _ job);
      [done|done|done|reflexivity|done|done|done|..]; simpl; try done.
  - eapply (exact_update q _ r _ job);
      [done|done|done|reflexivity|done|done|done|..]; simpl; try done.
    + intros k Hk. by rewrite lookup_insert_ne.
    + intros _. by rewrite lookup_insert_eq.
Qed.

Lemma exact_run_timer q k tm :
  disciplined q → JQ.timers q !! k = Some tm → NoDup (job_ids q) →
  exact q →
  exact (run_timer (JQ.action tm) (JQ.set_timers (delete k (JQ.timers q)) q)).
Proof.
  intros Hd Hk Hids He. destruct tm as [due [r|r]]; simpl.
  - assert (Hr : r ∈ retry_refs (JQ.timers q)).
    { unfold retry_refs. apply list_elem_of_omap.
      exists (JQ.mkTimer due (JQ.RetryTimer r)). split; [|done].
      by eapply list_elem_of_lookup_2. }
    pose proof (d_retry q Hd r Hr) as Hs. unfold status_of in Hs.
    destruct (JQ.heap q !! r) as [job|] eqn:E; [|done]. injection Hs as Hs.
    assert (Hin : r ∈ JQ.queue q).
    { apply (e_kept q He r job E). rewrite Hs. by intros [?|?]. }
    eapply (exact_update q _ r _ job);
      [done|done|done|reflexivity|done|done|done|..]; simpl; try done.
    apply (e_processing q He).
  - destruct (evict_shape r (JQ.set_timers (delete k (JQ.timers q)) q))
      as [->|(job & i & r' & Hjob & Hterm & Hi & Hid & ->)];
      [by destruct He|].
    simpl in *. destruct (JQ.heap q !! r') as [j'|] eqn:E'; [|done].
    injection Hid as Hid.
    assert (r' = r) as -> by by eapply (same_id_same_ref (JQ.heap q)).
    destruct He as [Hnd Hkept Hp Ha Hc Hfl]. split; simpl; try done.
    + by eapply sublist_NoDup, sublist_splice_remove.
    + intros x j Hj Hnt. specialize (Hkept x j Hj Hnt).
      rewrite (splice_remove_perm i r (JQ.queue q) Hi) in Hkept.
      apply elem_of_cons in Hkept as [->|?]; [|done].
      rewrite Hjob in Hj. injection Hj as <-. done.
Qed.

Lemma job_ids_exec e q q' :
  exec e q = Some q' → ∃ more, job_ids q' = job_ids q ++ more.
Proof.
  assert (Hloop : ∀ fuel q, job_ids (processQueue_loop fuel q) = job_ids q).
  { clear. induction fuel as [|fuel IH]; intros q; simpl; [done|].
    destruct (_ && _); [|done].
    destruct (find_job _ _ _) as [r|]; [|done]. rewrite IH.
    unfold processJob_start. destruct (JQ.heap q !! r); [|done].
    unfold job_ids. simpl. by rewrite job_ids_alter. }
  destruct e as [job rnd| |r o|k|dt]; simpl.
  - intros [= <-].
    destruct (addJob_shape job rnd q)
      as [->|(j & queue' & _ & _ & _ & _ & _ & _ & _ & ->)].
    + exists []. by rewrite app_nil_r.
    + exists [Job.id j]. unfold job_ids. simpl. by rewrite fmap_app.
  - intros [= <-]. exists []. rewrite app_nil_r. apply Hloop.
  - destruct (bool_decide _); [|done]. intros [= <-]. exists [].
    rewrite app_nil_r.
    destruct (processJob_settle_frame r o
                (JQ.set_awaiting (remove_first r (JQ.awaiting q)) q))
      as (_ & _ & _ & _ & f & _ & Hh).
    unfold processJob_settle. simpl.
    destruct (JQ.heap q !! r) as [job|]; [|done].
    destruct o as [result|e]; [|destruct (_ <? _)]; unfold job_ids; simpl;
      by rewrite job_ids_alter.
  - destruct (JQ.timers q !! k) as [tm|]; [|done].
    destruct (_ <=? _); [|done]. intros [= <-]. exists [].
    rewrite app_nil_r. destruct tm as [due [r|r]]; simpl.
    + unfold job_ids. simpl. by rewrite job_ids_alter.
    + destruct (evict_frame r (JQ.set_timers (delete k (JQ.timers q)) q))
        as (_ & Hh & _). unfold job_ids. by rewrite Hh.
  - destruct (0 <=? dt); [|done]. intros [= <-]. exists [].
    by rewrite app_nil_r.
Qed.

Lemma sound_exec e q q' : exec e q = Some q' → sound q → sound q'.
Proof.
  intros Hexec (Hd & Hok & He).
  split; [by eapply disciplined_exec|]. split; [by eapply queue_ok_exec|].
  intros Hids'. destruct (job_ids_exec e q q' Hexec) as [more Hmore].
  assert (Hids : NoDup (job_ids q)).
  { rewrite Hmore in Hids'. by apply NoDup_app in Hids' as [? _]. }
  specialize (He Hids).
  destruct e as [job rnd| |r o|k|dt]; simpl in Hexec.
  - injection Hexec as <-. by apply exact_addJob.
  - injection Hexec as <-. by apply exact_loop.
  - destruct (bool_decide _) eqn:E; [|done]. injection Hexec as <-.
    apply bool_decide_eq_true in E. by apply exact_settle.
  - destruct (JQ.timers q !! k) as [tm|] eqn:E; [|done].
    destruct (_ <=? _); [|done]. injection Hexec as <-.
    by apply exact_run_timer.
  - destruct (0 <=? dt); [|done]. injection Hexec as <-. by destruct He.
Qed.

Lemma sound_reachable q : reachable q → sound q.
Proof.
  intros Hr. pose proof Hr as (mc & ms & t0 & es & Hrun).
  eapply (run_preserves sound); [apply sound_exec|done|].
  split; [|split].
  - split; simpl; try done; try (intros ? ?%elem_of_nil; done); constructor.
  - split; simpl; constructor.
  - intros _. split; simpl; try done; [constructor|].
    intros x. split; [by intros ?%elem_of_empty|].
    by intros (r & j & ?%elem_of_nil & _).
Qed.

(** ** What the status queries answer *)

Lemma find_job_none h pred l :
  (∀ r, r ∈ l → from_option pred false (h !! r) = false) →
  find_job h pred l = None.
Proof.
  induction l as [|x l IH]; intros H; simpl; [done|].
  rewrite (H x) by by left. apply IH. intros r Hr. apply H. by right.
Qed.

Lemma find_job_unique h pred l r :
  r ∈ l → from_option pred false (h !! r) = true →
  (∀ r', r' ∈ l → r' ≠ r → from_option pred false (h !! r') = false) →
  find_job h pred l = Some r.
Proof.
  induction l as [|x l IH]; intros Hin Hp Hu; [by apply elem_of_nil in Hin|].
  simpl. destruct (decide (x = r)) as [->|Hne].
  - by rewrite Hp.
  - rewrite (Hu x) by (done || by left).
    apply elem_of_cons in Hin as [->|Hin]; [done|].
    apply IH; [done|done|]. intros r' Hr'. apply Hu. by right.
Qed.

Lemma elem_of_job_ids q id :
  id ∈ job_ids q ↔ ∃ r j, JQ.heap q !! r = Some j ∧ Job.id j = id.
Proof.
  unfold job_ids. rewrite list_elem_of_fmap. split.
  - intros (j & -> & Hj). apply list_elem_of_lookup_1 in Hj as [r Hr]. eauto.
  - intros (r & j & Hj & <-). exists j. split; [done|].
    by eapply list_elem_of_lookup_2.
Qed.

(** X1. In every queue the process can reach, [getJobStatus] finds
    exactly the ids that [addJob] has given out: for the id of any job ever
    admitted the status route answers 200 with a view of a job, also after
    the job has left the active list, and for any other id it answers 404
    [Job not found]. *)
Theorem getJobStatus_knows_admitted (q : JQ.t) :
  reachable q →
  (∀ id, id ∈ job_ids q →
         getJobStatus id q ≠ JobView.Null
         ∧ getJobStatus_route id q = Reply.Json 200 (getJobStatus id q))
  ∧ (∀ id, id ∉ job_ids q →
           getJobStatus id q = JobView.Null
           ∧ getJobStatus_route id q = Reply.Error 404 "Job not found").
Proof.
  intros Hr. pose proof (tracked_reachable q Hr) as Ht.
  pose proof (queue_ok_reachable q Hr) as [Hrefs _].
  assert (Hroute : ∀ id, getJobStatus id q ≠ JobView.Null →
            getJobStatus_route id q = Reply.Json 200 (getJobStatus id q)).
  { intros id. unfold getJobStatus_route. by destruct (getJobStatus id q). }
  split.
  - intros id Hid. apply elem_of_job_ids in Hid as (r & j & Hj & <-).
    assert (Hne : getJobStatus (Job.id j) q ≠ JobView.Null); [|auto].
    unfold getJobStatus.
    destruct (t_found q Ht r j Hj) as [Hin|[c Hc]].
    + destruct (find_job_exists (JQ.heap q)
                  (fun j0 => String.eqb (Job.id j0) (Job.id j)) (JQ.queue q) r)
        as (r' & j' & -> & Hj' & _); [done|by rewrite Hj; apply String.eqb_refl|].
      simpl. by rewrite Hj'.
    + destruct (_ ≫= _); [done|]. by rewrite Hc.
  - intros id Hid.
    assert (Hnull : getJobStatus id q = JobView.Null).
    { unfold getJobStatus. rewrite find_job_none; simpl.
      - destruct (JQ.completed q !! id) as [c|] eqn:Hc; [|done].
        destruct Hid. apply (t_keys q Ht). by eexists.
      - intros r Hin. destruct (JQ.heap q !! r) as [j|] eqn:Hj; [|done].
        simpl. apply String.eqb_neq. intros <-. apply Hid.
        apply elem_of_job_ids. eauto. }
    split; [done|]. unfold getJobStatus_route. by rewrite Hnull.
Qed.

(** X2. When no two jobs have the same id, [getJobStatus] reports the job
    that was given the id: its live record as long as the job is in the
    active list, where it stays until it is completed or failed, and after
    that the entry of the completion map - [completed] with the result for
    a completed job, [failed] with the job's error for a failed one. *)
Theorem getJobStatus_reports_own_job (q : JQ.t) (r : nat) (j : Job.t) :
  reachable q → NoDup (job_ids q) → JQ.heap q !! r = Some j →
  (¬ terminal (Job.status j) → r ∈ JQ.queue q)
  ∧ (r ∈ JQ.queue q →
       getJobStatus (Job.id j) q
       = JobView.Queued (Job.id j) (Job.status j) (Job.attempts j)
                        (Job.createdAt j) (Job.error j))
  ∧ (r ∉ JQ.queue q → Job.status j = Job.completed →
       ∃ result, getJobStatus (Job.id j) q
                 = JobView.Finished (Job.id j)
                     (JQ.mkCompleted "completed" (Some result) None))
  ∧ (r ∉ JQ.queue q → Job.status j = Job.failed →
       getJobStatus (Job.id j) q
       = JobView.Finished (Job.id j)
           (JQ.mkCompleted "failed" None (Job.error j))).
Proof.
  intros Hr Hids Hj. destruct (sound_reachable q Hr) as (Hd & [Hrefs _] & He).
  specialize (He Hids).
  assert (Hpred : ∀ r', r' ≠ r →
            from_option (fun j0 => String.eqb (Job.id j0) (Job.id j)) false
                        (JQ.heap q !! r') = false).
  { intros r' Hne. destruct (JQ.heap q !! r') as [j'|] eqn:Hj'; [|done].
    simpl. apply String.eqb_neq. intros Hid. apply Hne.
    by eapply (same_id_same_ref (JQ.heap q) r' r j' j). }
  assert (Hgone : r ∉ JQ.queue q →
            find_job (JQ.heap q) (fun j0 => String.eqb (Job.id j0) (Job.id j))
                     (JQ.queue q) = None).
  { intros Hout. apply find_job_none. intros r' Hin. apply Hpred.
    by intros ->. }
  split; [apply (e_kept q He r j Hj)|]. split; [|split].
  - intros Hin. unfold getJobStatus.
    rewrite (find_job_unique _ _ _ r); [by simpl; rewrite Hj|done| |auto].
    rewrite Hj. apply String.eqb_refl.
  - intros Hout Hs. destruct (e_completed q He r j Hj Hs) as [result Hc].
    exists result. unfold getJobStatus. rewrite (Hgone Hout). simpl.
    by rewrite Hc.
  - intros Hout Hs. unfold getJobStatus. rewrite (Hgone Hout). simpl.
    by rewrite (e_failed q He r j Hj Hs).
Qed.

(** X3. A successful [addJob] returns an id under which [getJobStatus]
    shows the new job at once - pending, no attempt made, created now -
    provided no job of the active list has that id already. *)
Theorem getJobStatus_after_addJob (job : Job.input) (rnd : string)
  (q q' : JQ.t) (id : string) :
  addJob job rnd q = (Ok id, q') →
  (∀ r j, r ∈ JQ.queue q → JQ.heap q !! r = Some j → Job.id j ≠ id) →
  getJobStatus id q'
  = JobView.Queued id Job.pending 0 (JQ.now q) (Job.in_error job).
Proof.
  intros Hadd Hfresh.
  destruct (addJob_shape job rnd q)
    as [Hsame|(j & queue' & Hst & Hid & Hat & Hcr & Herr & Hres & Hperm & Hq')].
  { unfold addJob in Hadd, Hsame. destruct (_ >=? _); [done|].
    injection Hadd as _ <-. simpl in Hsame.
    apply (f_equal (fun x => length (JQ.heap x))) in Hsame. simpl in Hsame.
    rewrite length_app in Hsame. simpl in Hsame. lia. }
  rewrite Hadd in Hres, Hq'. simpl in Hres, Hq'. injection Hres as ->.
  subst q'. unfold getJobStatus. simpl.
  rewrite (find_job_unique _ _ _ (length (JQ.heap q))).
  - simpl. rewrite lookup_app_r by lia. rewrite Nat.sub_diag. simpl.
    by rewrite Hst, Hat, Hcr, Herr.
  - rewrite Hperm. by left.
  - rewrite lookup_app_r by lia. rewrite Nat.sub_diag. simpl.
    apply String.eqb_refl.
  - intros r' Hin Hne. rewrite Hperm in Hin.
    apply elem_of_cons in Hin as [->|Hin]; [done|].
    destruct ((JQ.heap q ++ [j]) !! r') as [j'|] eqn:Hj'; [|done].
    simpl. apply String.eqb_neq.
    apply lookup_app_Some in Hj' as [Hj'|[Hge Hj']]; [by eapply Hfresh|].
    apply list_lookup_singleton_Some in Hj' as [Hr' _]. lia.
Qed.

(** ** The numbers of [getQueueStats] *)

Lemma processing_size q :
  disciplined q → NoDup (job_ids q) → exact q →
  size (JQ.processing q) = length (JQ.awaiting q).
Proof.
  intros Hd Hids He.
  set (f := fun r => from_option Job.id "" (JQ.heap q !! r)).
  assert (Hval : ∀ r, r ∈ JQ.awaiting q → ∃ j, JQ.heap q !! r = Some j).
  { intros r Hr. apply (d_await q Hd) in Hr. unfold status_of in Hr.
    destruct (JQ.heap q !! r); [by eexists|done]. }
  assert (Heq : JQ.processing q = list_to_set (f <$> JQ.awaiting q)).
  { apply set_eq. intros x.
    rewrite elem_of_list_to_set, list_elem_of_fmap, (e_processing q He).
    split.
    - intros (r & j & Hr & Hj & <-). exists r. split; [|done].
      unfold f. by rewrite Hj.
    - intros (r & -> & Hr). destruct (Hval r Hr) as [j Hj].
      exists r, j. split; [done|]. split; [done|]. unfold f. by rewrite Hj. }
  rewrite Heq, size_list_to_set, length_fmap; [done|].
  apply NoDup_fmap_2_strong; [|apply (d_await_nodup q Hd)].
  intros x y Hx Hy Hf. destruct (Hval x Hx) as [jx Hjx].
  destruct (Hval y Hy) as [jy Hjy]. unfold f in Hf.
  rewrite Hjx, Hjy in Hf. by eapply (same_id_same_ref (JQ.heap q)).
Qed.

Lemma processing_count q :
  disciplined q → exact q →
  count_queue Job.processing q = Z.of_nat (length (JQ.awaiting q)).
Proof.
  intros Hd He. unfold count_queue. f_equal. apply Permutation_length.
  apply NoDup_Permutation.
  - apply NoDup_filter, (e_nodup q He).
  - apply (d_await_nodup q Hd).
  - intros r. rewrite list_elem_of_filter. split.
    + intros [Hs _]. destruct (JQ.heap q !! r) as [j|] eqn:Hj; [|done].
      injection Hs as Hs. by apply (e_awaiting q He r j).
    + intros Hr. pose proof (d_await q Hd r Hr) as Hs. split; [done|].
      unfold status_of in Hs. destruct (JQ.heap q !! r) as [j|] eqn:Hj; [|done].
      injection Hs as Hs. apply (e_kept q He r j Hj). rewrite Hs.
      by intros [?|?].
Qed.

(** X4. In every queue the process can reach, the processing set has at
    most [maxConcurrent] members (none when that limit is not positive).
    When no two jobs have the same id, its size is the number of batches
    that are under way and the number of jobs of the active list whose
    status is [processing], so at most [maxConcurrent] batches run at a
    time. *)
Theorem processing_within_limit (q : JQ.t) :
  reachable q →
  Stats.processing (getQueueStats q) ≤ Z.max 0 (JQ.maxConcurrent q)
  ∧ (NoDup (job_ids q) →
       Z.of_nat (length (JQ.awaiting q)) = Stats.processing (getQueueStats q)
       ∧ count_queue Job.processing q = Stats.processing (getQueueStats q)
       ∧ Z.of_nat (length (JQ.awaiting q)) ≤ Z.max 0 (JQ.maxConcurrent q)).
Proof.
  intros Hr. pose proof (t_size q (tracked_reachable q Hr)) as Hs.
  split; [done|]. intros Hids.
  destruct (sound_reachable q Hr) as (Hd & _ & He). specialize (He Hids).
  simpl. rewrite (processing_count q Hd He), (processing_size q Hd Hids He).
  rewrite (processing_size q Hd Hids He) in Hs. done.
Qed.

Lemma status_partition (h : list Job.t) (l : list nat) :
  Forall (fun r => (r < length h)%nat) l →
  let n s := Z.of_nat (length (filter (fun r => Job.status <$> h !! r = Some s) l)) in
  Z.of_nat (length l)
  = n Job.pending + n Job.retrying + n Job.processing + n Job.completed
    + n Job.failed.
Proof.
  intros Hl. simpl. induction Hl as [|r l Hr Hl IH]; [done|].
  apply lookup_lt_is_Some in Hr as [j Hj].
  rewrite !filter_cons, Hj. simpl length. rewrite Nat2Z.inj_succ, IH.
  destruct (Job.status j); simpl;
    repeat (case_decide; try congruence); simpl length; lia.
Qed.

Lemma entries_partition (l : list (string * JQ.completed_entry)) :
  (∀ x, x ∈ l → JQ.c_status x.2 = "completed" ∨ JQ.c_status x.2 = "failed") →
  (length (filter (fun e => JQ.c_status e.2 = "completed") l)
   + length (filter (fun e => JQ.c_status e.2 = "failed") l))%nat
  = length l.
Proof.
  induction l as [|x l IH]; intros H; [done|].
  rewrite !filter_cons. specialize (IH (fun y Hy => H y (list_elem_of_further _ _ _ Hy))).
  destruct (H x (list_elem_of_here _ _)) as [Hx|Hx];
    repeat (case_decide; try congruence); simpl; lia.
Qed.

(** X5. In every queue the process can reach, the numbers of
    [getQueueStats] add up: every job of the active list has exactly one
    of the five statuses, and [completed] and [failed] together count the
    entries of the completion map.  When no two jobs have the same id,
    [pending], [processing] and [retrying] count disjoint parts of the
    active list. *)
Theorem getQueueStats_adds_up (q : JQ.t) :
  reachable q →
  Stats.total (getQueueStats q)
  = Stats.pending (getQueueStats q) + Stats.retrying (getQueueStats q)
    + count_queue Job.processing q + count_queue Job.completed q
    + count_queue Job.failed q
  ∧ Stats.completed (getQueueStats q) + Stats.failed (getQueueStats q)
    = Z.of_nat (size (JQ.completed q))
  ∧ (NoDup (job_ids q) →
       Stats.pending (getQueueStats q) + Stats.processing (getQueueStats q)
       + Stats.retrying (getQueueStats q)
       ≤ Stats.total (getQueueStats q)).
Proof.
  intros Hr. pose proof (queue_ok_reachable q Hr) as [Hrefs _].
  pose proof (status_partition (JQ.heap q) (JQ.queue q) Hrefs) as Hpart.
  simpl in Hpart. fold (count_queue Job.pending q) in Hpart.
  fold (count_queue Job.retrying q) in Hpart.
  fold (count_queue Job.processing q) in Hpart.
  fold (count_queue Job.completed q) in Hpart.
  fold (count_queue Job.failed q) in Hpart.
  split; [exact Hpart|]. split.
  - simpl. unfold count_completed. rewrite <- Nat2Z.inj_add.
    rewrite entries_partition, length_map_to_list; [done|].
    intros [k e] Hin. apply elem_of_map_to_list in Hin.
    by apply (t_entries q (tracked_reachable q Hr) k e).
  - intros Hids. destruct (sound_reachable q Hr) as (Hd & _ & He).
    specialize (He Hids). simpl.
    rewrite (processing_size q Hd Hids He), <- (processing_count q Hd He).
    simpl in Hpart. unfold count_queue in *. lia.
Qed.

Lemma sample_queue_ids : NoDup (job_ids sample_queue).
Proof.
  assert (H : job_ids sample_queue
              = ["job_1700000000000_aaaaaaaaa"; "job_1700000000000_bbbbbbbbb";
                 "job_1700000000000_ccccccccc"]) by (vm_compute; reflexivity).
  rewrite H. apply (bool_decide_unpack _). vm_compute. exact I.
Qed.

Lemma getJobStatus_knows_admitted_witness :
  (∀ id, id ∈ job_ids sample_queue →
         getJobStatus id sample_queue ≠ JobView.Null
         ∧ getJobStatus_route id sample_queue
           = Reply.Json 200 (getJobStatus id sample_queue))
  ∧ (∀ id, id ∉ job_ids sample_queue →
           getJobStatus id sample_queue = JobView.Null
           ∧ getJobStatus_route id sample_queue
             = Reply.Error 404 "Job not found").
Proof. apply getJobStatus_knows_admitted, sample_queue_reachable. Defined.

Lemma evicted_queue_reachable : reachable evicted_queue.
Proof.
  exists 3, 100, 1700000000000,
    (failing_events ++ [EvSettle 0 (Rejected (ErrorObj "store unavailable"));
                        EvAdvance 300000; EvTimer 0]).
  vm_compute. reflexivity.
Qed.

Lemma evicted_queue_ids : NoDup (job_ids evicted_queue).
Proof.
  assert (H : job_ids evicted_queue = ["job_1700000000000_aaaaaaaaa"])
    by (vm_compute; reflexivity).
  rewrite H. apply (bool_decide_unpack _). vm_compute. exact I.
Qed.

Lemma getJobStatus_reports_own_job_witness :
  JQ.queue evicted_queue = []
  ∧ getJobStatus "job_1700000000000_aaaaaaaaa" evicted_queue
    = JobView.Finished "job_1700000000000_aaaaaaaaa"
        (JQ.mkCompleted "failed" None (Some "store unavailable"))
  ∧ getJobStatus "job_1700000000000_bbbbbbbbb" sample_queue
    = JobView.Queued "job_1700000000000_bbbbbbbbb" Job.retrying 1
        1700000000000 None.
Proof.
  split; [vm_compute; reflexivity|]. split.
  - apply (proj2 (proj2 (proj2
      (getJobStatus_reports_own_job evicted_queue 0 failed_job
         evicted_queue_reachable evicted_queue_ids eq_refl))));
      [|reflexivity].
    intros H. vm_compute in H. by apply elem_of_nil in H.
  - apply (proj1 (proj2
      (getJobStatus_reports_own_job sample_queue 1
         (Job.mk "job_1700000000000_bbbbbbbbb" "acme/docs"
                 [md_file "README.md"] 10 1700000000000 1 Job.retrying None)
         sample_queue_reachable sample_queue_ids eq_refl))).
    apply (bool_decide_unpack _). vm_compute. exact I.
Defined.

Lemma getJobStatus_after_addJob_witness :
  getJobStatus "job_1700000000000_ddddddddd"
    (addJob (docs_job 7) "ddddddddd" sample_queue).2
  = JobView.Queued "job_1700000000000_ddddddddd" Job.pending 0 1700000000000
                   None.
Proof.
  apply (getJobStatus_after_addJob (docs_job 7) "ddddddddd" sample_queue).
  - vm_compute. reflexivity.
  - intros r j Hr Hj Hid.
    assert (Hin : Job.id j ∈ job_ids sample_queue)
      by (apply elem_of_job_ids; eauto).
    rewrite Hid in Hin. revert Hin. apply (bool_decide_unpack _).
    vm_compute. exact I.
Defined.

Lemma processing_within_limit_witness :
  Stats.processing (getQueueStats sample_queue)
  ≤ Z.max 0 (JQ.maxConcurrent sample_queue)
  ∧ Z.of_nat (length (JQ.awaiting sample_queue))
    = Stats.processing (getQueueStats sample_queue)
  ∧ count_queue Job.processing sample_queue
    = Stats.processing (getQueueStats sample_queue)
  ∧ Z.of_nat (length (JQ.awaiting sample_queue))
    ≤ Z.max 0 (JQ.maxConcurrent sample_queue).
Proof.
  destruct (processing_within_limit sample_queue sample_queue_reachable)
    as [H1 H2].
  split; [exact H1|apply H2, sample_queue_ids].
Defined.

Lemma getQueueStats_adds_up_witness :
  getQueueStats sample_queue = Stats.mk 3 0 2 1 0 0
  ∧ Stats.total (getQueueStats sample_queue)
    = Stats.pending (getQueueStats sample_queue)
      + Stats.retrying (getQueueStats sample_queue)
      + count_queue Job.processing sample_queue
      + count_queue Job.completed sample_queue
      + count_queue Job.failed sample_queue
  ∧ Stats.completed (getQueueStats sample_queue)
    + Stats.failed (getQueueStats sample_queue)
    = Z.of_nat (size (JQ.completed sample_queue))
  ∧ Stats.pending (getQueueStats sample_queue)
    + Stats.processing (getQueueStats sample_queue)
    + Stats.retrying (getQueueStats sample_queue)
    ≤ Stats.total (getQueueStats sample_queue).
Proof.
  split; [vm_compute; reflexivity|].
  destruct (getQueueStats_adds_up sample_queue sample_queue_reachable)
    as (H1 & H2 & H3).
  split; [exact H1|]. split; [exact H2|apply H3, sample_queue_ids].
Defined.

(** ** What a batch does to the index store and to the disk *)

Section Batch.

Variable path_basename : string → string.
Variable path_join : string → string → string.
Variable tempDir : string.
Variable VECTOR_STORE_ID : option string.
Variable md_render : string → string.
Variable api : Api.t.
Variable fs : Fs.t.

(** Every request of a group schedule is a call of one of the callbacks. *)
Lemma request_of_schedule (outs : list (list Api.call * FileResult.t))
  fuel size delay i n who c :
  Trace.Request who c
    ∈ first_requests outs
        ++ await_groups fuel size delay (later_requests outs) i n →
  ∃ k o, who = Some k ∧ outs !! k = Some o ∧ c ∈ o.1.
Proof.
  rewrite elem_of_app. intros [H|H].
  - unfold first_requests in H.
    apply list_elem_of_In, in_flat_map in H as ([k o] & Hin & Hc).
    apply list_elem_of_In in Hin, Hc.
    apply elem_of_lookup_imap in Hin as (k' & o' & [= -> ->] & Hk).
    simpl in Hc. unfold requests_of in Hc.
    apply list_elem_of_fmap in Hc as (c' & [= -> ->] & Hc').
    exists k', o'. split; [done|]. split; [done|].
    eapply elem_of_sublist; [done|]. apply sublist_take.
  - apply elem_of_await_groups in H as [[j H]|[[ms H]|H]]; [|done|done].
    unfold later_requests in H. destruct (outs !! j) as [o|] eqn:E;
      [|by apply elem_of_nil in H].
    unfold requests_of in H.
    apply list_elem_of_fmap in H as (c' & [= -> ->] & Hc').
    exists j, o. split; [done|]. split; [done|].
    eapply elem_of_sublist; [done|]. apply sublist_drop.
Qed.

(** The temporary files are made for files of the batch, under their
    encoded names. *)
Lemma create_temp_files_from files acc thrown tfs evs :
  create_temp_files path_basename path_join tempDir md_render fs files acc
  = (thrown, tfs, evs) →
  ∀ tf, tf ∈ tfs →
    tf ∈ acc
    ∨ (file tf ∈ files
       ∧ encodedFilename tf = encodeFilename (FileChange.filename (file tf))).
Proof.
  revert acc thrown tfs evs.
  induction files as [|f files IH]; intros acc thrown tfs evs; simpl.
  - intros [= <- <- <-] tf Htf. by left.
  - assert (Hskip : create_temp_files path_basename path_join tempDir md_render
                      fs files acc = (thrown, tfs, evs) →
              ∀ tf, tf ∈ tfs → tf ∈ acc
                ∨ (file tf ∈ f :: files
                   ∧ encodedFilename tf
                     = encodeFilename (FileChange.filename (file tf)))).
    { intros H tf Htf. destruct (IH _ _ _ _ H tf Htf) as [?|[? ?]];
        [by left|right]. split; [by right|done]. }
    destruct (FileChange.content f) as [c|]; [|exact Hskip].
    destruct (Js.truthy c); [|exact Hskip].
    unfold createTemporaryFile.
    destruct (Fs.writeFile fs _ _) as [u|e].
    + destruct (create_temp_files _ _ _ _ _ files (acc ++ _)) as [[r tfs'] evs'] eqn:E.
      intros [= <- <- <-] tf Htf.
      destruct (IH _ _ _ _ E tf Htf) as [Hacc|[? ?]].
      * apply elem_of_app in Hacc as [?|Hnew]; [by left|right].
        apply list_elem_of_singleton in Hnew as ->. simpl.
        split; [by left|done].
      * right. split; [by right|done].
    + intros [= <- <- <-] tf Htf. by left.
Qed.

Lemma removeExisting_loop_deletes vs name ids c id :
  c ∈ removeExisting_loop api vs name ids → deleted_entry c = Some id →
  id ∈ ids ∧ Api.files_retrieve api id = Ok name.
Proof.
  induction ids as [|x ids IH]; simpl; [by intros ?%elem_of_nil|].
  intros [->|Hc]%elem_of_cons Hd; [done|].
  destruct (Api.files_retrieve api x) as [n|e] eqn:E;
    [|by apply elem_of_nil in Hc].
  destruct (String.eqb n name) eqn:En.
  - apply String.eqb_eq in En as ->.
    apply elem_of_cons in Hc as [->|Hc].
    + simpl in Hd. injection Hd as <-. split; [by left|done].
    + destruct (Api.vs_files_del api vs x); [|by apply elem_of_nil in Hc].
      apply list_elem_of_singleton in Hc as ->. simpl in Hd.
      injection Hd as <-. split; [by left|done].
  - destruct (IH Hc Hd) as [? ?]. split; [by right|done].
Qed.

Lemma removeExistingFile_deletes vs name c id :
  c ∈ removeExistingFile api vs name → deleted_entry c = Some id →
  Api.files_retrieve api id = Ok name.
Proof.
  unfold removeExistingFile. intros [->|Hc]%elem_of_cons Hd; [done|].
  destruct (Api.vs_files_list api vs) as [ids|e]; [|by apply elem_of_nil in Hc].
  by eapply removeExisting_loop_deletes.
Qed.

Lemma upload_callback_deletes vs tf c id :
  c ∈ (upload_callback api vs tf).1 → deleted_entry c = Some id →
  FileChange.status (file tf) = FileChange.modified
  ∧ Api.files_retrieve api id = Ok (encodedFilename tf).
Proof.
  unfold upload_callback.
  assert (Hcases : ∀ tail, (∀ c', c' ∈ tail → deleted_entry c' = None) →
            c ∈ (if bool_decide (FileChange.status (file tf) = FileChange.modified)
                 then removeExistingFile api vs (encodedFilename tf) else [])
                ++ tail →
            deleted_entry c = Some id →
            FileChange.status (file tf) = FileChange.modified
            ∧ Api.files_retrieve api id = Ok (encodedFilename tf)).
  { intros tail Htail [Hc|Hc]%elem_of_app Hd.
    - destruct (bool_decide _) eqn:E; [|by apply elem_of_nil in Hc].
      apply bool_decide_eq_true in E. split; [done|].
      by eapply removeExistingFile_deletes.
    - rewrite (Htail c Hc) in Hd. done. }
  destruct (Api.files_create api (tempPath tf)) as [u|e]; simpl.
  - destruct (Api.vs_files_create api vs u); simpl; apply Hcases;
      intros c' [->|[->|?%elem_of_nil]%elem_of_cons]%elem_of_cons; done.
  - apply Hcases. intros c' [->|?%elem_of_nil]%elem_of_cons; done.
Qed.

Lemma remove_callback_deletes vs ids file c id :
  c ∈ (remove_callback api vs (build_file_map api ids ∅) file).1 →
  deleted_entry c = Some id →
  Api.files_retrieve api id = Ok (encodeFilename (FileChange.filename file)).
Proof.
  unfold remove_callback.
  destruct (build_file_map api ids ∅ !! _) as [fileId|] eqn:E;
    [|by intros ?%elem_of_nil].
  apply build_file_map_lookup in E as [E|[_ E]];
    [by rewrite lookup_empty in E|].
  destruct (Js.truthy fileId); [|by intros ?%elem_of_nil].
  intros Hc Hd. assert (id = fileId) as ->; [|done].
  assert (Hin : c ∈ [Api.VsFilesDel vs fileId; Api.FilesDel fileId]).
  { destruct (Api.vs_files_del api vs fileId); simpl in Hc.
    - by destruct (Api.files_del api fileId).
    - apply list_elem_of_singleton in Hc as ->. by left. }
  apply elem_of_cons in Hin as [->|Hin];
    [|apply list_elem_of_singleton in Hin as ->]; simpl in Hd; congruence.
Qed.


(** The two halves of [processBatchFiles]. *)
Lemma processBatchFiles_parts vs files :
  ∃ res1 tr1 tr2,
    (processBatchFiles path_basename path_join tempDir md_render api fs
       vs files).2 = tr1 ++ tr2
    ∧ ((toRemove files = [] ∧ res1 = [] ∧ tr1 = [])
       ∨ (toRemove files ≠ []
          ∧ batchRemoveFiles api vs (toRemove files) [] = (res1, tr1)))
    ∧ ((toAddOrUpdate files = [] ∧ tr2 = []
        ∧ (processBatchFiles path_basename path_join tempDir md_render api fs
             vs files).1 = Ok res1)
       ∨ (toAddOrUpdate files ≠ []
          ∧ batchAddOrUpdateFiles path_basename path_join tempDir md_render
              api fs vs (toAddOrUpdate files) res1
            = ((processBatchFiles path_basename path_join tempDir md_render
                  api fs vs files).1, tr2))).
Proof.
  unfold processBatchFiles. fold (toRemove files). fold (toAddOrUpdate files).
  destruct (toRemove files) as [|f1 rm] eqn:Er.
  - destruct (toAddOrUpdate files) as [|f2 ad] eqn:Ea.
    + exists [], [], []. simpl. split; [done|]. split; [by left|by left].
    + destruct (batchAddOrUpdateFiles _ _ _ _ _ _ vs (f2 :: ad) []) as [r tr2] eqn:E.
      exists [], [], tr2. simpl. split; [done|]. split; [by left|by right].
  - destruct (batchRemoveFiles api vs (f1 :: rm) []) as [res1 tr1] eqn:E1.
    destruct (toAddOrUpdate files) as [|f2 ad] eqn:Ea.
    + exists res1, tr1, []. simpl. rewrite app_nil_r.
      split; [done|]. split; [by right|by left].
    + destruct (batchAddOrUpdateFiles _ _ _ _ _ _ vs (f2 :: ad) res1) as [r tr2] eqn:E.
      exists res1, tr1, tr2. simpl. split; [done|]. split; [by right|by right].
Qed.

(** The requests of a removal. *)
Lemma batchRemoveFiles_requests vs files results who c :
  Trace.Request who c ∈ (batchRemoveFiles api vs files results).2 →
  c = Api.VsFilesList vs
  ∨ (∃ id, c = Api.FilesRetrieve id)
  ∨ ∃ ids file, Api.vs_files_list api vs = Ok ids ∧ file ∈ files
      ∧ c ∈ (remove_callback api vs (build_file_map api ids ∅) file).1.
Proof.
  unfold batchRemoveFiles.
  destruct (Api.vs_files_list api vs) as [ids|e]; simpl.
  - intros [[= _ ->]|H]%elem_of_cons; [by left|].
    apply elem_of_app in H as [H|H].
    + apply list_elem_of_fmap in H as (id & [= _ ->] & _). right. left. eauto.
    + apply request_of_schedule in H as (k & o & _ & Hk & Hc).
      rewrite list_lookup_fmap in Hk.
      destruct (files !! k) as [file|] eqn:Ef; [|done]. injection Hk as <-.
      right. right. exists ids, file. split; [done|]. split; [|done].
      by eapply list_elem_of_lookup_2.
  - intros [= _ ->]%list_elem_of_singleton. by left.
Qed.

(** The events of the creation of the temporary files. *)
Lemma create_temp_files_events files acc thrown tfs evs :
  create_temp_files path_basename path_join tempDir md_render fs files acc
  = (thrown, tfs, evs) →
  (∀ ev, ev ∈ evs → ∃ p c, ev = Trace.WriteFile p c)
  ∧ ∃ new, tfs = acc ++ new ∧ written fs evs = tempPath <$> new
      ∧ (thrown = None →
           file <$> new
           = filter (fun f => Js.truthy_opt (FileChange.content f) = true) files).
Proof.
  revert acc thrown tfs evs.
  induction files as [|f files IH]; intros acc thrown tfs evs; simpl.
  - intros [= <- <- <-]. split; [by intros ev ?%elem_of_nil|].
    exists []. by rewrite app_nil_r.
  - rewrite filter_cons. destruct (FileChange.content f) as [c|] eqn:Ec; simpl.
    + destruct (Js.truthy c) eqn:Et.
      * unfold createTemporaryFile.
        destruct (Fs.writeFile fs _ _) as [u|e] eqn:Ew.
        -- destruct (create_temp_files _ _ _ _ _ files (acc ++ _))
             as [[r tfs'] evs'] eqn:E.
           intros [= <- <- <-].
           destruct (IH _ _ _ _ E) as (Hev & new & -> & Hw & Hf).
           split.
           ++ intros ev [->|Hin]%elem_of_cons; [eexists _, _; reflexivity|auto].
           ++ exists (mkTempFile (encodeFilename (FileChange.filename f))
                        (tempFilePath path_basename path_join tempDir
                           (encodeFilename (FileChange.filename f))) f :: new).
              rewrite <- app_assoc. split; [done|].
              split.
              ** unfold written in *. simpl. rewrite Ew. simpl. f_equal.
                 exact Hw.
              ** intros Hr. rewrite decide_True by done. simpl. f_equal.
                 exact (Hf Hr).
        -- intros [= <- <- <-]. split.
           ++ intros ev [->|?%elem_of_nil]%elem_of_cons;
                [eexists _, _; reflexivity|done].
           ++ exists []. rewrite app_nil_r. split; [done|].
              split; [|done]. unfold written. simpl. by rewrite Ew.
      * intros H. destruct (IH _ _ _ _ H) as (Hev & new & -> & Hw & Hf).
        split; [done|]. exists new. split; [done|]. split; [done|].
        intros Hr. rewrite decide_False by (rewrite ?Ec; simpl; by rewrite ?Et).
        auto.
    + intros H. destruct (IH _ _ _ _ H) as (Hev & new & -> & Hw & Hf).
      split; [done|]. exists new. split; [done|]. split; [done|].
      intros Hr. auto.
Qed.

Lemma omap_nothing {A B} (f : A → option B) (l : list A) :
  (∀ x, x ∈ l → f x = None) → omap f l = [].
Proof.
  induction l as [|x l IH]; intros H; [done|]. simpl.
  rewrite (H x) by by left. apply IH. intros y Hy. apply H. by right.
Qed.

(** A group schedule touches no file. *)
Lemma schedule_events (outs : list (list Api.call * FileResult.t))
  fuel size delay i n ev :
  ev ∈ first_requests outs
         ++ await_groups fuel size delay (later_requests outs) i n →
  (∃ who c, ev = Trace.Request who c) ∨ (∃ ms, ev = Trace.AwaitAll ms)
  ∨ ev = Trace.Sleep delay.
Proof.
  rewrite elem_of_app. intros [H|H].
  - unfold first_requests in H.
    apply list_elem_of_In, in_flat_map in H as ([k o] & _ & Hc).
    apply list_elem_of_In in Hc. unfold requests_of in Hc.
    apply list_elem_of_fmap in Hc as (c' & -> & _). left. eauto.
  - apply elem_of_await_groups in H as [[j H]|[[ms H]|H]]; [|eauto|eauto].
    unfold later_requests in H. destruct (outs !! j) as [o|];
      [|by apply elem_of_nil in H].
    unfold requests_of in H.
    apply list_elem_of_fmap in H as (c' & -> & _). left. eauto.
Qed.

End Batch.

Section BatchProperties.

Variable path_basename : string → string.
Variable path_join : string → string → string.
Variable tempDir : string.
Variable VECTOR_STORE_ID : option string.
Variable md_render : string → string.
Variable api : Api.t.
Variable fs : Fs.t.

Lemma batchAddOrUpdateFiles_requests vs files results who c :
  Trace.Request who c
    ∈ (batchAddOrUpdateFiles path_basename path_join tempDir md_render api fs
         vs files results).2 →
  ∃ tf, file tf ∈ files
    ∧ encodedFilename tf = encodeFilename (FileChange.filename (file tf))
    ∧ c ∈ (upload_callback api vs tf).1.
Proof.
  unfold batchAddOrUpdateFiles.
  destruct (create_temp_files _ _ _ _ _ files []) as [[thrown tfs] writes] eqn:E.
  pose proof (create_temp_files_from _ _ _ _ _ _ _ _ _ _ E) as Hfrom.
  destruct (create_temp_files_events _ _ _ _ _ _ _ _ _ _ E) as (Hw & _).
  assert (Hnot : Trace.Request who c ∈ writes
                 ∨ Trace.Request who c ∈ Trace.Unlink ∘ tempPath <$> tfs →
                 False).
  { intros [H|H].
    - by destruct (Hw _ H) as (p & c' & ?).
    - by apply list_elem_of_fmap in H as (tf & ? & _). }
  destruct thrown as [e|]; simpl; rewrite !elem_of_app.
  - intros H. destruct (Hnot H).
  - intros [H|[H|H]]; [destruct Hnot; auto| |destruct Hnot; auto].
    unfold upload_schedule in H.
    apply request_of_schedule in H as (k & o & _ & Hk & Hc).
    rewrite list_lookup_fmap in Hk.
    destruct (tfs !! k) as [tf|] eqn:Etf; [|done]. injection Hk as <-.
    exists tf. apply list_elem_of_lookup_2 in Etf.
    destruct (Hfrom tf Etf) as [?%elem_of_nil|[? ?]]; done.
Qed.

(** X6. A delete request that a batch sends to the index store concerns
    an entry that is stored under the encoded name of a file of the batch,
    and that file is removed or modified: nothing else is ever deleted. *)
Theorem deletes_only_requested (vs : string) (files : list FileChange.t)
  (who : option nat) (c : Api.call) (id : string) :
  Trace.Request who c
    ∈ (processBatchFiles path_basename path_join tempDir md_render api fs
         vs files).2 →
  deleted_entry c = Some id →
  ∃ f, f ∈ files
    ∧ (FileChange.status f = FileChange.removed
       ∨ FileChange.status f = FileChange.modified)
    ∧ Api.files_retrieve api id
      = Ok (encodeFilename (FileChange.filename f)).
Proof.
  intros Hin Hd.
  destruct (processBatchFiles_parts path_basename path_join tempDir md_render
              api fs vs files) as (res1 & tr1 & tr2 & Htr & H1 & H2).
  rewrite Htr in Hin. apply elem_of_app in Hin as [Hin|Hin].
  - destruct H1 as [(_ & _ & ->)|(_ & H1)]; [by apply elem_of_nil in Hin|].
    replace tr1 with (batchRemoveFiles api vs (toRemove files) []).2 in Hin
      by by rewrite H1.
    apply batchRemoveFiles_requests in Hin
      as [->|[[x ->]|(ids & f & _ & Hf & Hc)]]; [done|done|].
    apply list_elem_of_filter in Hf as [Hs Hf]. exists f.
    split; [done|]. split; [by left|]. by eapply remove_callback_deletes.
  - destruct H2 as [(_ & -> & _)|(_ & H2)]; [by apply elem_of_nil in Hin|].
    replace tr2 with (batchAddOrUpdateFiles path_basename path_join tempDir
                        md_render api fs vs (toAddOrUpdate files) res1).2 in Hin
      by by rewrite H2.
    apply batchAddOrUpdateFiles_requests in Hin as (tf & Hf & Henc & Hc).
    apply list_elem_of_filter in Hf as [_ Hf].
    destruct (upload_callback_deletes api vs tf c id Hc Hd) as [Hm Hr].
    exists (file tf). split; [done|]. split; [by right|]. by rewrite <- Henc.
Qed.

(** No file of a batch of added files is to be removed. *)
Lemma added_none_removed (files : list FileChange.t) :
  Forall (fun f => FileChange.status f = FileChange.added) files →
  toRemove files = [].
Proof.
  intros Hall. unfold toRemove. induction Hall as [|f files Hf Hall IH]; [done|].
  rewrite filter_cons_False; [done|]. by rewrite Hf.
Qed.

(** The callback of an added file only uploads. *)
Lemma upload_callback_added (vs : string) (tf : TempFile) (c : Api.call) :
  FileChange.status (file tf) = FileChange.added →
  c ∈ (upload_callback api vs tf).1 → is_upload c.
Proof.
  intros Hadded Hc. unfold upload_callback in Hc. rewrite Hadded in Hc.
  rewrite bool_decide_eq_false_2 in Hc by done. simpl in Hc.
  destruct (Api.files_create api (tempPath tf)) as [u|e]; simpl in Hc.
  - destruct (Api.vs_files_create api vs u); simpl in Hc;
      apply elem_of_cons in Hc as [->|Hc]; try done;
      by apply list_elem_of_singleton in Hc as ->.
  - by apply list_elem_of_singleton in Hc as ->.
Qed.

(** X7. A batch in which every file is added sends upload requests only:
    it lists nothing, looks nothing up and deletes nothing. *)
Theorem added_files_only_upload (vs : string) (files : list FileChange.t)
  (who : option nat) (c : Api.call) :
  Forall (fun f => FileChange.status f = FileChange.added) files →
  Trace.Request who c
    ∈ (processBatchFiles path_basename path_join tempDir md_render api fs
         vs files).2 →
  is_upload c.
Proof.
  intros Hall Hin.
  destruct (processBatchFiles_parts path_basename path_join tempDir md_render
              api fs vs files) as (res1 & tr1 & tr2 & Htr & H1 & H2).
  rewrite Htr in Hin. apply elem_of_app in Hin as [Hin|Hin].
  - destruct H1 as [(_ & _ & ->)|(Hne & _)]; [by apply elem_of_nil in Hin|].
    by rewrite added_none_removed in Hne.
  - destruct H2 as [(_ & -> & _)|(_ & H2)]; [by apply elem_of_nil in Hin|].
    replace tr2 with (batchAddOrUpdateFiles path_basename path_join tempDir
                        md_render api fs vs (toAddOrUpdate files) res1).2 in Hin
      by by rewrite H2.
    apply batchAddOrUpdateFiles_requests in Hin as (tf & Hf & _ & Hc).
    apply list_elem_of_filter in Hf as [_ Hf].
    rewrite Forall_forall in Hall. by eapply upload_callback_added; eauto.
Qed.


Lemma no_disk_events (tr : list Trace.ev) :
  (∀ ev, ev ∈ tr →
     (∃ who c, ev = Trace.Request who c) ∨ (∃ ms, ev = Trace.AwaitAll ms)
     ∨ (∃ d, ev = Trace.Sleep d)) →
  unlinked tr = [] ∧ written fs tr = [].
Proof.
  intros H. split; apply omap_nothing; intros ev Hev;
    destruct (H ev Hev) as [(? & ? & ->)|[[? ->]|[? ->]]]; done.
Qed.

Lemma unlinked_app tr1 tr2 : unlinked (tr1 ++ tr2) = unlinked tr1 ++ unlinked tr2.
Proof. apply omap_app. Qed.

Lemma written_app tr1 tr2 :
  written fs (tr1 ++ tr2) = written fs tr1 ++ written fs tr2.
Proof. apply omap_app. Qed.

Lemma cleanup_events (tfs : list TempFile) :
  Trace.Unlink ∘ tempPath <$> tfs = Trace.Unlink <$> (tempPath <$> tfs).
Proof. by rewrite <- list_fmap_compose. Qed.

Lemma batchRemoveFiles_no_disk vs files results :
  unlinked (batchRemoveFiles api vs files results).2 = []
  ∧ written fs (batchRemoveFiles api vs files results).2 = [].
Proof.
  apply no_disk_events. unfold batchRemoveFiles.
  destruct (Api.vs_files_list api vs) as [ids|e]; simpl.
  - intros ev [->|H]%elem_of_cons; [left; eauto|].
    apply elem_of_app in H as [H|H].
    + apply list_elem_of_fmap in H as (id & -> & _). left. eauto.
    + apply schedule_events in H as [?|[?| ->]]; eauto.
  - intros ev Hev. apply list_elem_of_singleton in Hev as ->. left. eauto.
Qed.

(** What the upload half of a batch does to the disk. *)
Lemma batchAddOrUpdateFiles_disk vs files results :
  ∃ before,
    (batchAddOrUpdateFiles path_basename path_join tempDir md_render api fs
       vs files results).2
    = before ++ (Trace.Unlink <$> written fs before)
    ∧ unlinked before = [].
Proof.
  unfold batchAddOrUpdateFiles.
  destruct (create_temp_files _ _ _ _ _ files []) as [[thrown tfs] writes] eqn:E.
  destruct (create_temp_files_events _ _ _ _ _ _ _ _ _ _ E)
    as (Hw & new & Hnew & Hwr & _).
  simpl in Hnew. subst tfs.
  assert (Hu : unlinked writes = []).
  { apply omap_nothing. intros ev Hev. by destruct (Hw ev Hev) as (p & c & ->). }
  destruct thrown as [e|]; simpl.
  - exists writes. by rewrite cleanup_events, Hwr.
  - exists (writes ++ upload_schedule api vs new). rewrite <- app_assoc.
    destruct (no_disk_events (upload_schedule api vs new)) as [Hu2 Hw2].
    { intros ev Hev. unfold upload_schedule in Hev.
      apply schedule_events in Hev as [?|[?| ->]]; eauto. }
    rewrite written_app, unlinked_app, Hw2, Hu, Hu2, app_nil_r.
    by rewrite cleanup_events, Hwr.
Qed.

(** X8. Whatever fails in a batch, every temporary file that was written
    is unlinked before [processFileBatch] returns: the run ends with one
    unlink, in the order of the writes, for every write that succeeded, and
    nothing is unlinked before. *)
Theorem temporary_files_unlinked (now later : Z) (rnd repository : string)
  (files : list FileChange.t) :
  ∃ before,
    (processFileBatch path_basename path_join tempDir VECTOR_STORE_ID md_render
       api fs now later rnd repository files).2
    = before ++ (Trace.Unlink <$> written fs before)
    ∧ unlinked before = [].
Proof.
  unfold processFileBatch.
  assert (Hstore : ∀ tr r, getOrCreateVectorStore VECTOR_STORE_ID api repository
                           = (r, tr) →
            unlinked tr = [] ∧ written fs tr = []).
  { intros tr r H. apply no_disk_events. intros ev Hev. left.
    unfold getOrCreateVectorStore in H.
    destruct (Api.vs_list api); [destruct VECTOR_STORE_ID as [v|];
      [destruct (Js.truthy v)|]|]; injection H as _ <-;
      repeat (apply elem_of_cons in Hev as [->|Hev]; [eauto|]);
      by apply elem_of_nil in Hev. }
  destruct (getOrCreateVectorStore _ _ _) as [[vs|e] tr0] eqn:E0;
    destruct (Hstore _ _ eq_refl) as [Hu0 Hw0].
  - assert (Hbody : ∃ before,
              (processBatchFiles path_basename path_join tempDir md_render api
                 fs vs files).2 = before ++ (Trace.Unlink <$> written fs before)
              ∧ unlinked before = []).
    { destruct (processBatchFiles_parts path_basename path_join tempDir
                  md_render api fs vs files)
        as (res1 & tr1 & tr2 & -> & H1 & H2).
      assert (Hr : unlinked tr1 = [] ∧ written fs tr1 = []).
      { destruct H1 as [(_ & _ & ->)|(_ & H1)]; [done|].
        replace tr1 with (batchRemoveFiles api vs (toRemove files) []).2
          by by rewrite H1.
        apply batchRemoveFiles_no_disk. }
      destruct Hr as [Hu1 Hw1].
      destruct H2 as [(_ & -> & _)|(_ & H2)].
      - exists tr1. rewrite Hw1. simpl. by rewrite !app_nil_r.
      - destruct (batchAddOrUpdateFiles_disk vs (toAddOrUpdate files) res1)
          as (before & Hb & Hub).
        rewrite H2 in Hb. simpl in Hb. subst tr2.
        exists (tr1 ++ before).
        by rewrite written_app, unlinked_app, Hw1, Hu1, Hub, app_assoc. }
    destruct Hbody as (before & Hb & Hub).
    destruct (processBatchFiles _ _ _ _ _ _ vs files) as [[res|e] tr]; simpl in *;
      subst tr; exists (tr0 ++ before);
      by rewrite written_app, unlinked_app, Hw0, Hu0, Hub, app_assoc.
  - exists tr0. simpl. rewrite Hw0. simpl. by rewrite app_nil_r.
Qed.

Lemma filter_all {A} (P : A → Prop) `{∀ x, Decision (P x)} (l : list A) :
  (∀ x, x ∈ l → P x) → filter P l = l.
Proof.
  induction l as [|x l IH]; intros Hl; [done|].
  rewrite filter_cons_True by (apply Hl; by left).
  f_equal. apply IH. intros y Hy. apply Hl. by right.
Qed.

Lemma create_temp_files_ok files acc thrown tfs evs :
  (∀ p c e, Fs.writeFile fs p c ≠ Throw e) →
  create_temp_files path_basename path_join tempDir md_render fs files acc
  = (thrown, tfs, evs) →
  thrown = None.
Proof.
  intros Hfs. revert acc thrown tfs evs.
  induction files as [|f files IH]; intros acc thrown tfs evs; simpl.
  - by intros [= <- _ _].
  - destruct (FileChange.content f) as [c|]; [|apply IH].
    destruct (Js.truthy c); [|apply IH].
    unfold createTemporaryFile.
    destruct (Fs.writeFile fs _ _) as [u|e] eqn:Ew; [|by destruct (Hfs _ _ _ Ew)].
    destruct (create_temp_files _ _ _ _ _ files (acc ++ _))
      as [[r tfs'] evs'] eqn:E.
    intros [= <- _ _]. by eapply IH.
Qed.

Lemma upload_callback_filename vs tf :
  FileResult.filename (upload_callback api vs tf).2 = encodedFilename tf.
Proof.
  unfold upload_callback.
  destruct (Api.files_create api (tempPath tf)) as [u|e]; [|done].
  by destruct (Api.vs_files_create api vs u).
Qed.

Lemma remove_callback_filename vs m f :
  FileResult.filename (remove_callback api vs m f).2 = FileChange.filename f.
Proof.
  unfold remove_callback. destruct (m !! _) as [id|]; [|done].
  destruct (Js.truthy id); [|done].
  destruct (Api.vs_files_del api vs id); [|done].
  by destruct (Api.files_del api id).
Qed.

(** X9. When the store of the batch is obtained, its entries can be listed
    and no temporary file fails to be written, [processFileBatch] returns
    a completed batch without error, whatever the index store answers for
    the single files.  Its results are those of the removed files, under
    the names of the files, followed by those of the files with content
    that are added or modified, under their encoded names; files without
    content have no result.  Within either group the results stand in the
    order in which the requests end, which the batch does not fix: the
    names are those of the batch up to their order. *)
Theorem batch_completes (now later : Z) (rnd repository : string)
  (files : list FileChange.t) (vs : string) (ids : list string) :
  (getOrCreateVectorStore VECTOR_STORE_ID api repository).1 = Ok vs →
  (∀ p c e, Fs.writeFile fs p c ≠ Throw e) →
  Api.vs_files_list api vs = Ok ids →
  ∃ removals uploads,
    (processFileBatch path_basename path_join tempDir VECTOR_STORE_ID md_render
       api fs now later rnd repository files).1
    = BatchJob.mk ("batch_" +:+ pretty now +:+ "_" +:+ rnd) repository files vs
                  BatchJob.completed (Some now) (Some later) None
                  (removals ++ uploads)
    ∧ FileResult.filename <$> removals
      ≡ₚ FileChange.filename <$> toRemove files
    ∧ FileResult.filename <$> uploads
      ≡ₚ (fun f => encodeFilename (FileChange.filename f))
           <$> toAddOrUpdate files.
Proof.
  intros Hstore Hfs Hlist. unfold processFileBatch.
  destruct (getOrCreateVectorStore _ _ _) as [r tr0]. simpl in Hstore. subst r.
  destruct (processBatchFiles_parts path_basename path_join tempDir md_render
              api fs vs files) as (res1 & tr1 & tr2 & Htr & H1 & H2).
  assert (Hrem : FileResult.filename <$> res1
                 ≡ₚ FileChange.filename <$> toRemove files).
  { destruct H1 as [(-> & -> & _)|(_ & H1)]; [done|].
    unfold batchRemoveFiles in H1. rewrite Hlist in H1.
    injection H1 as <- _. simpl.
    set (outs := remove_callback api vs (build_file_map api ids ∅)
                   <$> toRemove files).
    rewrite <- fmap_app.
    rewrite (filter_app_complement (fun o : list Api.call * FileResult.t =>
                                      o.1 = []) outs).
    unfold outs. rewrite <- !list_fmap_compose.
    erewrite list_fmap_ext; [done|].
    intros i f _. simpl. apply remove_callback_filename. }
  destruct H2 as [(Hnone & _ & Hres)|(_ & H2)].
  - exists res1, []. destruct (processBatchFiles _ _ _ _ _ _ vs files) as [r tr].
    simpl in Hres. subst r. rewrite app_nil_r, Hnone. done.
  - unfold batchAddOrUpdateFiles in H2.
    destruct (create_temp_files _ _ _ _ _ (toAddOrUpdate files) [])
      as [[thrown tfs] writes] eqn:E.
    pose proof (create_temp_files_ok _ _ _ _ _ Hfs E) as ->.
    pose proof (create_temp_files_from _ _ _ _ _ _ _ _ _ _ E) as Hfrom.
    destruct (create_temp_files_events _ _ _ _ _ _ _ _ _ _ E)
      as (_ & new & Hnew & _ & Hfiles).
    simpl in Hnew. subst tfs. specialize (Hfiles eq_refl).
    exists res1, ((upload_callback api vs <$> new).*2).
    destruct (processBatchFiles _ _ _ _ _ _ vs files) as [r tr].
    simpl in H2. injection H2 as <- _. split; [done|]. split; [done|].
    match goal with
    | |- ?l ≡ₚ ?r => enough (Heq : l = r) by (by rewrite Heq)
    end.
    rewrite <- !list_fmap_compose.
    assert (Hall : toAddOrUpdate files = file <$> new).
    { rewrite Hfiles. symmetry. apply filter_all.
      intros f Hf. by apply list_elem_of_filter in Hf as [[_ ?] _]. }
    rewrite Hall, <- list_fmap_compose. apply list_fmap_ext.
    intros i tf Htf. simpl. rewrite upload_callback_filename.
    apply list_elem_of_lookup_2 in Htf.
    destruct (Hfrom tf Htf) as [?%elem_of_nil|[_ ?]]; done.
Qed.

End BatchProperties.

Lemma deletes_only_requested_witness :
  ∃ f, f ∈ mixed_batch
    ∧ (FileChange.status f = FileChange.removed
       ∨ FileChange.status f = FileChange.modified)
    ∧ Api.files_retrieve store_ab "file-ab"
      = Ok (encodeFilename (FileChange.filename f)).
Proof.
  apply (deletes_only_requested (fun s => s) join_path "/tmp/webhook-files"
           (fun s => s) store_ab fs_ok "vs_1" mixed_batch (Some 0%nat)
           (Api.VsFilesDel "vs_1" "file-ab") "file-ab"); [|reflexivity].
  vm_compute. repeat constructor.
Defined.

Lemma added_files_only_upload_witness :
  is_upload (Api.FilesCreate "/tmp/webhook-files/README.md").
Proof.
  apply (added_files_only_upload (fun s => s) join_path "/tmp/webhook-files"
           (fun s => s) store_ab fs_ok "vs_1" [md_file "README.md"]
           (Some 0%nat)).
  - repeat constructor.
  - vm_compute. repeat constructor.
Defined.

Lemma batch_completes_witness :
  ∃ removals uploads,
    (processFileBatch (fun s => s) join_path "/tmp/webhook-files" (Some "vs_1")
       (fun s => s) store_ab fs_ok 1700000000000 1700000004000 "k3v9x2q1a"
       "acme/docs" mixed_batch).1
    = BatchJob.mk "batch_1700000000000_k3v9x2q1a" "acme/docs" mixed_batch "vs_1"
                  BatchJob.completed (Some 1700000000000)
                  (Some 1700000004000) None (removals ++ uploads)
    ∧ FileResult.filename <$> removals ≡ₚ ["a/b.md"]
    ∧ FileResult.filename <$> uploads ≡ₚ ["docs_new.md"; "a_b.md"].
Proof.
  apply (batch_completes (fun s => s) join_path "/tmp/webhook-files"
           (Some "vs_1") (fun s => s) store_ab fs_ok 1700000000000
           1700000004000 "k3v9x2q1a" "acme/docs" mixed_batch "vs_1"
           ["file-ab"]); [reflexivity|discriminate|reflexivity].
Defined.

(** ** Where an extracted file comes from *)

Lemma collect_changes_elem cs l f :
  collect_changes cs = Ok l → f ∈ l →
  ∃ c names, c ∈ cs ∧ listed (FileChange.status f) c = Some names
    ∧ FileChange.filename f ∈ names
    ∧ FileChange.content f = None ∧ FileChange.size f = None.
Proof.
  revert l. induction cs as [|c cs IH]; intros l; simpl.
  - intros [= <-] ?%elem_of_nil. done.
  - destruct (Payload.added c) as [a|] eqn:Ea; [|done].
    destruct (Payload.modified c) as [m|] eqn:Em; [|done].
    destruct (Payload.removed c) as [r|] eqn:Er; [|done].
    destruct (collect_changes cs) as [more|e]; [|done].
    intros [= <-]. rewrite !elem_of_app. unfold changes_of.
    intros [H|[H|[H|H]]].
    + apply list_elem_of_fmap in H as (n & -> & Hn). exists c, a.
      split; [by left|]. by simpl.
    + apply list_elem_of_fmap in H as (n & -> & Hn). exists c, m.
      split; [by left|]. by simpl.
    + apply list_elem_of_fmap in H as (n & -> & Hn). exists c, r.
      split; [by left|]. by simpl.
    + destruct (IH more eq_refl H) as (c' & names & Hc' & ?).
      exists c', names. split; [by right|done].
Qed.

Section Origin.

Variable path_extname : string → string.
Variable base64_decode : string → string.
Variable getContent :
  nat → string → string → string → option string → Content.response.

Lemma fetch_contents_elem k owner repo ref files f :
  f ∈ fetch_contents base64_decode getContent k owner repo ref files →
  ∃ f0, f0 ∈ files
    ∧ FileChange.filename f = FileChange.filename f0
    ∧ FileChange.status f = FileChange.status f0
    ∧ FileChange.size f = FileChange.size f0
    ∧ (FileChange.status f0 = FileChange.removed → f = f0).
Proof.
  revert k. induction files as [|x files IH]; intros k; simpl;
    [by intros ?%elem_of_nil|].
  destruct (is_removed x) eqn:E.
  - intros [->|H]%elem_of_cons.
    + exists x. split; [by left|done].
    + destruct (IH _ H) as (f0 & ? & ?). exists f0. split; [by right|done].
  - intros [->|H]%elem_of_cons.
    + exists x. split; [by left|]. simpl. repeat split; try done.
      intros Hs. unfold is_removed in E.
      by rewrite bool_decide_eq_true_2 in E.
    + destruct (IH _ H) as (f0 & ? & ?). exists f0. split; [by right|done].
Qed.

(** X10. Every file that [getChangedFiles] returns is named, under its
    status, in the file lists of a commit of the payload that is no merge
    of a pull request; its name passes [shouldProcessFile] - it contains
    none of [node_modules], [.git], [dist] and [build], does not begin
    with a dot and has a supported extension - and a removed file carries
    no content. *)
Theorem getChangedFiles_origin (payload : Payload.t)
  (files : list FileChange.t) (f : FileChange.t) :
  getChangedFiles path_extname base64_decode getContent payload = Ok files →
  f ∈ files →
  (∃ cs c names, Payload.commits payload = Some cs ∧ c ∈ cs
     ∧ is_merge_commit c = false
     ∧ listed (FileChange.status f) c = Some names
     ∧ FileChange.filename f ∈ names)
  ∧ shouldProcessFile path_extname (FileChange.filename f) = true
  ∧ Js.includes (FileChange.filename f) "node_modules" = false
  ∧ Js.includes (FileChange.filename f) ".git" = false
  ∧ Js.includes (FileChange.filename f) "dist" = false
  ∧ Js.includes (FileChange.filename f) "build" = false
  ∧ Js.startsWith (FileChange.filename f) "." = false
  ∧ Js.toLowerCase (path_extname (FileChange.filename f)) ∈ SUPPORTED_EXTENSIONS
  ∧ (FileChange.status f = FileChange.removed → FileChange.content f = None).
Proof.
  unfold getChangedFiles.
  destruct (Payload.repository_of payload) as [repository|]; [|done].
  destruct (Payload.owner_of repository) as [o|]; [|done].
  destruct (Payload.commits payload) as [[|c0 cs]|] eqn:Ec;
    try (intros [= <-] Hf; exfalso; revert Hf; simpl;
         rewrite filter_nil; by intros ?%elem_of_nil).
  destruct (collect_changes _) as [changed|e] eqn:Ecol;
    [|intros [= <-] Hf; by apply elem_of_nil in Hf].
  intros [= <-] Hf. apply list_elem_of_filter in Hf as [_ Hf].
  apply fetch_contents_elem in Hf as (f0 & Hf0 & Hname & Hstatus & _ & Hrem).
  apply list_elem_of_filter in Hf0 as [Hshould Hf0].
  destruct (collect_changes_elem _ _ _ Ecol Hf0)
    as (c & names & Hc & Hlisted & Hin & Hcontent & _).
  apply list_elem_of_filter in Hc as [Hmerge Hc].
  rewrite Hname, Hstatus. split; [by exists (c0 :: cs), c, names|].
  split; [done|].
  unfold shouldProcessFile in Hshould.
  destruct (Js.includes _ "node_modules"); [done|].
  destruct (Js.includes _ ".git"); [done|].
  destruct (Js.includes _ "dist"); [done|].
  destruct (Js.includes _ "build"); [done|].
  destruct (Js.startsWith _ "."); [done|]. simpl in Hshould.
  apply bool_decide_eq_true in Hshould. repeat split; try done.
  intros Hs. by rewrite (Hrem Hs).
Qed.

End Origin.

Lemma calculatePriority_range files : 1 ≤ calculatePriority files ≤ 10.
Proof. unfold calculatePriority. destruct (existsb _ files); lia. Qed.

Section Admission.

Variable path_extname : string → string.
Variable base64_decode : string → string.
Variable parseInt16 : string → option Z.
Variable subtle_verify : string → list Z → string → Res bool.
Variable json_parse : string → Res Payload.t.
Variable json_stringify : string → string.
Variable githubWebhookSecret : string.
Variable getContent :
  nat → string → string → string → option string → Content.response.

(** X11. [handleWebhook] answers 202 before anything else, whatever the
    request.  It changes the queue by one call of [addJob] at most, and
    only for a payload that parses, names the branch [main] or none and
    yields at least one file: the job then holds the files that
    [getChangedFiles] returned for the payload, under the full name of
    the repository, with the priority that [calculatePriority] gives
    them, which lies between 1 and 10.  A full queue, like every other
    failure, is logged and leaves the queue as it was. *)
Theorem handleWebhook_admits (req : Webhook.request) (rnd : string)
  (q : JQ.t) :
  let out := handleWebhook path_extname base64_decode parseInt16 subtle_verify
               json_parse json_stringify githubWebhookSecret getContent
               req rnd q in
  head out.2 = Some (Webhook.Responded 202)
  ∧ (∀ p, json_parse (Webhook.body_payload req) = Ok p → on_main p = false →
          out = (q, [Webhook.Responded 202]))
  ∧ (out.1 = q
     ∨ ∃ p repository files id,
         json_parse (Webhook.body_payload req) = Ok p
         ∧ on_main p = true
         ∧ Payload.repository_of p = Some repository
         ∧ getChangedFiles path_extname base64_decode getContent p = Ok files
         ∧ files ≠ []
         ∧ 1 ≤ calculatePriority files ≤ 10
         ∧ addJob (Job.mkInput (Payload.full_name repository) files
                               (calculatePriority files) None) rnd q
           = (Ok id, out.1)
         ∧ out.2 = [Webhook.Responded 202; Webhook.Extracted files;
                    Webhook.JobAdmitted id]).
Proof.
  unfold handleWebhook, on_main. simpl.
  destruct (json_parse (Webhook.body_payload req)) as [p|e]; simpl;
    [|split; [done|]; split; [done|by left]].
  destruct (Payload.ref p) as [ref|] eqn:Er; simpl.
  - destruct (Js.truthy ref && negb (Js.endsWith ref "/main")) eqn:Eref; simpl.
    + split; [done|]. split; [by intros ? [= <-] _|by left].
    + assert (Hmain : ∀ p0, Ok p = Ok p0 →
                match Payload.ref p0 with
                | Some ref => negb (Js.truthy ref && negb (Js.endsWith ref "/main"))
                | None => true
                end = false → False).
      { intros p0 [= <-]. by rewrite Er, Eref. }
      destruct (Payload.repository_of p) as [repository|] eqn:Erepo; simpl;
        [|split; [done|]; split; [by intros p0 H1 H2; destruct (Hmain p0)|by left]].
      destruct (getChangedFiles _ _ _ p) as [files|e] eqn:Eg; simpl;
        [|split; [done|]; split; [by intros p0 H1 H2; destruct (Hmain p0)|by left]].
      destruct files as [|f files]; simpl;
        [split; [done|]; split; [by intros p0 H1 H2; destruct (Hmain p0)|by left]|].
      destruct (addJob _ rnd q) as [[id|e] q'] eqn:Ea; simpl.
      * split; [done|]. split; [by intros p0 H1 H2; destruct (Hmain p0)|].
        right. exists p, repository, (f :: files), id.
        rewrite Er, Eref. repeat (split; [done|]).
        split; [apply calculatePriority_range|done].
      * split; [done|]. split; [by intros p0 H1 H2; destruct (Hmain p0)|]. left.
        unfold addJob in Ea. destruct (_ >=? _); [|done]. by injection Ea.
  - assert (Hmain : ∀ p0, Ok p = Ok p0 →
              match Payload.ref p0 with
              | Some ref => negb (Js.truthy ref && negb (Js.endsWith ref "/main"))
              | None => true
              end = false → False).
    { intros p0 [= <-]. by rewrite Er. }
    destruct (Payload.repository_of p) as [repository|] eqn:Erepo; simpl;
      [|split; [done|]; split; [by intros p0 H1 H2; destruct (Hmain p0)|by left]].
    destruct (getChangedFiles _ _ _ p) as [files|e] eqn:Eg; simpl;
      [|split; [done|]; split; [by intros p0 H1 H2; destruct (Hmain p0)|by left]].
    destruct files as [|f files]; simpl;
      [split; [done|]; split; [by intros p0 H1 H2; destruct (Hmain p0)|by left]|].
    destruct (addJob _ rnd q) as [[id|e] q'] eqn:Ea; simpl.
    + split; [done|]. split; [by intros p0 H1 H2; destruct (Hmain p0)|].
      right. exists p, repository, (f :: files), id.
      rewrite Er. repeat (split; [done|]).
      split; [apply calculatePriority_range|done].
    + split; [done|]. split; [by intros p0 H1 H2; destruct (Hmain p0)|]. left.
      unfold addJob in Ea. destruct (_ >=? _); [|done]. by injection Ea.
Qed.

End Admission.

(** ** Signatures in hexadecimal *)

Lemma parseInt_16_byte b : is_byte b → parseInt_16 (hex_of_byte b) = Some b.
Proof.
  intros [H0 H1].
  assert (Hall : forallb (fun n => bool_decide
                   (parseInt_16 (hex_of_byte (Z.of_nat n)) = Some (Z.of_nat n)))
                   (seq 0 256) = true) by (vm_compute; reflexivity).
  rewrite forallb_forall in Hall.
  specialize (Hall (Z.to_nat b)).
  rewrite Z2Nat.id in Hall by done.
  eapply bool_decide_eq_true_1, Hall, in_seq. lia.
Qed.

Lemma hex_of_byte_no_equals b :
  is_byte b →
  ∃ x y, hex_of_byte b = String x (String y EmptyString)
         ∧ x ≠ "="%char ∧ y ≠ "="%char.
Proof.
  intros [H0 H1].
  assert (Hall : forallb (fun n => bool_decide
                   (hex_char (Z.of_nat n / 16) ≠ "="%char
                    ∧ hex_char (Z.of_nat n `mod` 16) ≠ "="%char))
                   (seq 0 256) = true) by (vm_compute; reflexivity).
  rewrite forallb_forall in Hall.
  specialize (Hall (Z.to_nat b)).
  rewrite Z2Nat.id in Hall by done.
  eexists _, _. split; [reflexivity|].
  eapply bool_decide_eq_true_1, Hall, in_seq. lia.
Qed.

Section Decoding.

Variable parseInt16 : string → option Z.

Lemma hex_pairs_spec (n : nat) :
  ∀ hex, String.length hex = (2 * n)%nat →
    length (hex_pairs parseInt16 hex) = n
    ∧ Forall is_byte (hex_pairs parseInt16 hex).
Proof.
  induction n as [|n IH]; intros hex Hlen.
  - destruct hex; [|done]. by split; [|constructor].
  - destruct hex as [|a [|b hex]]; simpl in Hlen; try lia.
    destruct (IH hex) as [H1 H2]; [lia|]. simpl. split; [by rewrite H1|].
    constructor; [|done]. unfold is_byte.
    apply Z.mod_pos_bound. lia.
Qed.

End Decoding.

Lemma even_length (hex : string) :
  Nat.even (String.length hex) = true →
  ∃ n, String.length hex = (2 * n)%nat.
Proof. intros H. apply Nat.even_spec in H as [n Hn]. by exists n. Qed.

Lemma hex_of_bytes_length bs :
  String.length (hex_of_bytes bs) = (2 * length bs)%nat.
Proof.
  induction bs as [|b bs IH]; [done|].
  change (String.length (hex_of_bytes (b :: bs)))
    with (S (S (String.length (hex_of_bytes bs)))).
  rewrite IH. simpl. lia.
Qed.

Lemma hex_pairs_decode bs :
  Forall is_byte bs → hex_pairs parseInt_16 (hex_of_bytes bs) = bs.
Proof.
  induction 1 as [|b bs Hb Hbs IH]; [done|].
  change (hex_pairs parseInt_16 (hex_of_bytes (b :: bs)))
    with (default 0 (parseInt_16 (hex_of_byte b)) `mod` 256
          :: hex_pairs parseInt_16 (hex_of_bytes bs)).
  rewrite (parseInt_16_byte b Hb), IH. simpl. f_equal.
  destruct Hb. by apply Z.mod_small.
Qed.

Lemma split_on_none (sep : ascii) (s : string) :
  Forall (fun c => c ≠ sep) (String.list_ascii_of_string s) →
  split_on sep s = [s].
Proof.
  induction s as [|c s IH]; simpl; [done|].
  intros [Hc Hs]%Forall_cons. rewrite (IH Hs).
  by rewrite (proj2 (Ascii.eqb_neq c sep)).
Qed.

Lemma split_on_first (sep : ascii) (a b : string) :
  Forall (fun c => c ≠ sep) (String.list_ascii_of_string a) →
  split_on sep (a +:+ String sep b) = a :: split_on sep b.
Proof.
  induction a as [|c a IH]; simpl.
  - intros _. by rewrite Ascii.eqb_refl.
  - intros [Hc Hs]%Forall_cons. rewrite (IH Hs).
    by rewrite (proj2 (Ascii.eqb_neq c sep)).
Qed.

Lemma hex_of_bytes_no_equals bs :
  Forall is_byte bs →
  Forall (fun c => c ≠ "="%char)
         (String.list_ascii_of_string (hex_of_bytes bs)).
Proof.
  induction 1 as [|b bs Hb Hbs IH]; [constructor|].
  destruct (hex_of_byte_no_equals b Hb) as (x & y & Hxy & Hx & Hy).
  change (hex_of_bytes (b :: bs)) with (hex_of_byte b +:+ hex_of_bytes bs).
  rewrite Hxy. simpl. by repeat constructor.
Qed.

(** X12. [hexToBytes] turns a text of even length into one byte for every
    two characters and rejects nothing: what [parseInt] does not read as a
    number counts as 0.  With [parseInt(_, 16)] it inverts the lower-case
    hexadecimal writing of a byte sequence, and [verifySignature], given
    the header [sha256=] followed by that writing, settles with what the
    crypto library answers for exactly these bytes. *)
Theorem hexToBytes_decodes :
  (∀ parseInt16 hex, Nat.even (String.length hex) = true →
     ∃ bytes, hexToBytes parseInt16 hex = Ok bytes
       ∧ (2 * length bytes)%nat = String.length hex
       ∧ Forall is_byte bytes)
  ∧ (∀ bytes, Forall is_byte bytes →
       hexToBytes parseInt_16 (hex_of_bytes bytes) = Ok bytes)
  ∧ (∀ subtle_verify secret payload bytes, Forall is_byte bytes →
       verifySignature parseInt_16 subtle_verify secret
         (Some ("sha256=" +:+ hex_of_bytes bytes)) payload
       = match subtle_verify secret bytes payload with
         | Ok equal => Fulfilled equal
         | Throw e => RejectedWith e
         end).
Proof.
  assert (Hdec : ∀ bytes, Forall is_byte bytes →
            hexToBytes parseInt_16 (hex_of_bytes bytes) = Ok bytes).
  { intros bytes Hb. unfold hexToBytes. cbv zeta.
    rewrite hex_of_bytes_length, hex_pairs_decode by done.
    replace (2 * length bytes / 2)%nat with (length bytes)
      by (rewrite Nat.mul_comm, Nat.div_mul; lia).
    by rewrite firstn_all. }
  split; [|split; [exact Hdec|]].
  - intros parseInt16 hex Heven. unfold hexToBytes. cbv zeta.
    destruct (even_length hex Heven) as [n Hn].
    destruct (hex_pairs_spec parseInt16 n hex Hn) as [Hl Hb].
    rewrite Hn. replace (2 * n / 2)%nat with n
      by (rewrite Nat.mul_comm, Nat.div_mul; lia).
    rewrite <- Hl, firstn_all.
    eexists. split; [reflexivity|]. split; [lia|done].
  - intros subtle_verify secret payload bytes Hb. unfold verifySignature.
    assert (Hsplit : split_on "=" ("sha256=" +:+ hex_of_bytes bytes)
                     = ["sha256"; hex_of_bytes bytes]).
    { change ("sha256=" +:+ hex_of_bytes bytes)
        with ("sha256" +:+ String "=" (hex_of_bytes bytes)).
      rewrite split_on_first by (repeat constructor; done).
      by rewrite (split_on_none "=" _ (hex_of_bytes_no_equals bytes Hb)). }
    rewrite Hsplit.
    change (["sha256"; hex_of_bytes bytes] !! 1%nat)
      with (Some (hex_of_bytes bytes)).
    cbv beta iota. by rewrite (Hdec bytes Hb).
Qed.

Lemma getChangedFiles_origin_witness :
  let f := FileChange.mk "README.md" FileChange.added (Some "IyBEb2Nz") None in
  (∃ cs c names, Payload.commits push_payload = Some cs ∧ c ∈ cs
     ∧ is_merge_commit c = false
     ∧ listed (FileChange.status f) c = Some names
     ∧ FileChange.filename f ∈ names)
  ∧ shouldProcessFile extname_of (FileChange.filename f) = true
  ∧ Js.includes (FileChange.filename f) "node_modules" = false
  ∧ Js.includes (FileChange.filename f) ".git" = false
  ∧ Js.includes (FileChange.filename f) "dist" = false
  ∧ Js.includes (FileChange.filename f) "build" = false
  ∧ Js.startsWith (FileChange.filename f) "." = false
  ∧ Js.toLowerCase (extname_of (FileChange.filename f)) ∈ SUPPORTED_EXTENSIONS
  ∧ (FileChange.status f = FileChange.removed → FileChange.content f = None).
Proof.
  apply (getChangedFiles_origin extname_of (fun s => s) host push_payload
           [FileChange.mk "README.md" FileChange.added (Some "IyBEb2Nz") None;
            FileChange.mk "docs/old.md" FileChange.removed None None]).
  - vm_compute. reflexivity.
  - by left.
Defined.

(** ** Text that the preprocessor leaves alone *)

Lemma all_conversions_begin :
  Forall (fun c => first_char (c.1.2) = Some "<"%char) conversions.
Proof. repeat constructor. Qed.

Lemma head_not f c l :
  Re.ignoreCase f = false →
  match l with [] => True | d :: _ => d ≠ c end →
  ∀ d tl, l = d :: tl → Re.chr_eq f c d = false.
Proof.
  intros Hf Hl d tl ->. unfold Re.chr_eq. rewrite Hf.
  apply Ascii.eqb_neq. congruence.
Qed.

(** The pipeline of [preprocessMdx] is the identity on a text [l] that has
    no frontmatter, no statement to remove, no tag, no brace and no line
    break, and that is trimmed. *)
Lemma preprocessMdx_fixed l :
  plain l → good_start l → good_end l →
  preprocessMdx (String.string_of_list_ascii l) = String.string_of_list_ascii l.
Proof.
  intros Hp Hs He.
  assert (Hhead : ∀ c, (c = "-" ∨ c = "i" ∨ c = "e")%char →
            match l with [] => True | d :: _ => d ≠ c end).
  { intros c Hc. destruct l as [|d l]; [done|].
    destruct Hs as (_ & H1 & H2 & H3).
    destruct Hc as [Hc|[Hc|Hc]]; subst c; done. }
  rewrite preprocessMdx_plain.
  - assert (Hst : ∀ word c, (c = "i" ∨ c = "e")%char →
              first_char (Re.str word) = Some c →
              Re.replace gm (statement_re word) [] (String.string_of_list_ascii l)
              = String.string_of_list_ascii l).
    { intros word c Hc Hw. rewrite replace_list. f_equal.
      change (statement_re word)
        with (Re.Seq Re.Bol
                (Re.seqs [Re.str word; many1 space; many Re.Dot; Re.Eol])).
      apply (rep_bol_none _ _ _ c); [done| |by apply plain_not_newline].
      apply head_not; [done|]. apply Hhead. tauto. }
    rewrite (Hst "import" "i"%char) by (auto || done).
    rewrite (Hst "export" "e"%char) by (auto || done).
    rewrite conversions_leave;
      [|apply all_conversions_begin|intros f; by apply plain_none_lt].
    rewrite (replace_id g_ jsx_string_re _ "{" _ eq_refl)
      by by apply plain_none_brace.
    rewrite (replace_id g_ jsx_expr_re _ "{" _ eq_refl)
      by by apply plain_none_brace.
    rewrite (replace_id g_ blank_lines_re _ "010" _ eq_refl)
      by by apply plain_none_nl.
    unfold trim. rewrite String.list_ascii_of_string_of_list_ascii. f_equal.
    rewrite (drop_spaces_head l).
    + rewrite drop_spaces_head; [apply rev_involutive|].
      unfold good_end in He. by destruct (rev l).
    + destruct l as [|d l']; [done|]. apply Hs.
  - unfold Re.match_. cbv zeta.
    rewrite String.list_ascii_of_string_of_list_ascii.
    change frontmatter_re
      with (Re.Seq Re.Bol
              (Re.seqs [Re.str ("---" +:+ nl); Re.Grp 1 (lazy any);
                        Re.str (nl +:+ "---" +:+ nl)])).
    rewrite (search_bol_none _ _ "-"); [done|done|done|].
    apply head_not; [done|]. apply Hhead. tauto.
Qed.

(** X13. A single line of ASCII text without [<], without brace, that
    begins with none of white space, [-], [i] and [e] and does not end with
    white space goes through [preprocessMdx] unchanged, and the normalizer
    returns its rendering. *)
Theorem plain_text_unchanged (md_render : string → string) (text : string) :
  ascii_text (la text) →
  plain (la text) → good_start (la text) → good_end (la text) →
  preprocessMdx text = text
  ∧ convertMdxToMd md_render text = md_render text.
Proof.
  intros _ Hp Hs He.
  assert (H : preprocessMdx text = text).
  { pose proof (preprocessMdx_fixed (la text) Hp Hs He) as H.
    unfold la in H. by rewrite String.string_of_list_ascii_of_string in H. }
  split; [done|]. unfold convertMdxToMd. by rewrite H.
Qed.

Lemma plain_text_unchanged_witness :
  preprocessMdx "Stop the server first." = "Stop the server first."
  ∧ convertMdxToMd (fun s => s) "Stop the server first."
    = "Stop the server first.".
Proof.
  apply (plain_text_unchanged (fun s => s) "Stop the server first.");
    repeat constructor; done.
Defined.

(** ** Callouts *)

Ltac element_match n :=
  let b := fresh "b" in let body := fresh "body" in
  let post := fresh "post" in let caps := fresh "caps" in
  let HX := fresh "HX" in let tl := fresh "tl" in let Htl := fresh "Htl" in
  intros b body post caps HX; unfold Re.match_here, element;
  match goal with
  | |- context [body ++ ?t] => remember t as tl eqn:Htl
  end;
  simpl; rewrite Nat.sub_diag;
  match goal with
  | |- context [(?a - length (body ++ tl))%nat] =>
      replace (a - length (body ++ tl))%nat with n by lia
  end;
  cbn [take];
  rewrite (star_lazy_walk _ gi "<" _ body);
    [|done
     |let st' := fresh "st" in let H := fresh "H" in
      let d := fresh "d" in let tl' := fresh "tl" in let E := fresh "E" in
      intros st' H; destruct (Re.rest st') as [|d tl'] eqn:E; [done|];
      by rewrite (H d tl' eq_refl)
     |done|rewrite length_app; lia];
  rewrite length_app;
  replace (length body + length tl - length body)%nat with (length tl) by lia;
  subst tl; simpl;
  match goal with
  | |- context [take ?k (body ++ ?l)] =>
      replace k with (length body) by lia; rewrite (take_app_length body l)
  end;
  by eexists.

Lemma callout_matches :
  matches_element (element ["Callout"; "Note"; "Info"]) (la "Callout").
Proof. element_match 7%nat. Qed.

Lemma note_matches :
  matches_element (element ["Callout"; "Note"; "Info"]) (la "Note").
Proof. element_match 4%nat. Qed.

Lemma info_matches :
  matches_element (element ["Callout"; "Note"; "Info"]) (la "Info").
Proof. element_match 4%nat. Qed.

Lemma warning_tag_matches :
  matches_element (element ["Warning"; "Alert"]) (la "Warning").
Proof. element_match 7%nat. Qed.

Lemma alert_matches :
  matches_element (element ["Warning"; "Alert"]) (la "Alert").
Proof. element_match 5%nat. Qed.

Lemma tip_matches : matches_element (element ["Tip"]) (la "Tip").
Proof. element_match 3%nat. Qed.

Lemma rule_leaves r tpl t0 b A B caps :
  first_char r = Some "<"%char → passes_over r t0 →
  none_begins gi "<" (t0 :: A) → none_begins gi "<" B →
  rep gi r tpl
    (Re.mkState b ("<"%char :: t0 :: A ++ "<"%char :: "/"%char :: B) caps)
  = "<"%char :: t0 :: A ++ "<"%char :: "/"%char :: B.
Proof.
  intros Hc [Ho Hcl] HA HB.
  rewrite rep_step_none by apply Ho. f_equal.
  etrans; [apply (rep_skip _ _ _ "<" (t0 :: A)); done|].
  simpl. f_equal. f_equal.
  rewrite rep_step_none by apply Hcl. f_equal.
  apply (rep_all_skipped _ _ _ "<"); [done|]. by constructor.
Qed.

Section Callout.

(** The rules before the one of the callout, the rule itself and the
    rules after it. *)
Variable earlier later : list (Re.flags * Re.t * list Re.piece).
Variable r : Re.t.
Variable label : string.
Variable t0 : ascii.
Variable tag' : list ascii.
Variables pre body post : list ascii.

Hypothesis rules : conversions
                   = earlier ++ (gi, r, [Re.Lit label; Re.Grp_ 3]) :: later.
Hypothesis earlier_pass :
  Forall (fun c => c.1.1 = gi ∧ first_char (c.1.2) = Some "<"%char
                   ∧ passes_over (c.1.2) t0) earlier.
Hypothesis rule_begins : first_char r = Some "<"%char.
Hypothesis rule_matches : matches_element r (t0 :: tag').
Hypothesis plain_tag : plain (t0 :: tag').
Hypothesis plain_label : plain (la label).
Hypothesis label_start : good_start (la label) ∧ la label ≠ [].
Hypothesis plain_pre : plain pre.
Hypothesis plain_body : plain body.
Hypothesis plain_post : plain post.
Hypothesis start_pre : good_start pre.
Hypothesis body_solid : body ≠ [] ∧ good_end body.
Hypothesis end_post : good_end post.

Lemma callout_page_shape :
  (callout_page pre t0 tag' body post)
  = pre ++ "<"%char :: t0 :: (tag' ++ ">"%char :: body)
        ++ "<"%char :: "/"%char :: (t0 :: tag') ++ ">"%char :: post.
Proof.
  unfold callout_page. simpl. by rewrite <- !app_assoc.
Qed.

Lemma plain_gt : plain [">"%char].
Proof. by repeat constructor. Qed.

Lemma callout_page_plain_parts :
  none_begins gi "<" (t0 :: tag' ++ ">"%char :: body)
  ∧ none_begins gi "<" ((t0 :: tag') ++ ">"%char :: post).
Proof.
  split; apply plain_none_lt.
  - change (plain ((t0 :: tag') ++ [">"%char] ++ body)).
    apply plain_app; [done|]. apply plain_app; [apply plain_gt|done].
  - change (plain ((t0 :: tag') ++ [">"%char] ++ post)).
    apply plain_app; [done|]. apply plain_app; [apply plain_gt|done].
Qed.

Lemma callout_page_head c :
  (c = "-" ∨ c = "i" ∨ c = "e")%char →
  match (callout_page pre t0 tag' body post) with [] => True | d :: _ => d ≠ c end.
Proof.
  intros Hc. rewrite callout_page_shape. destruct pre as [|d l]; simpl.
  - destruct Hc as [Hc|[Hc|Hc]]; subst c; done.
  - destruct start_pre as (_ & H1 & H2 & H3).
    destruct Hc as [Hc|[Hc|Hc]]; subst c; done.
Qed.

Lemma callout_page_line : not_newline (callout_page pre t0 tag' body post).
Proof.
  unfold callout_page, not_newline. rewrite !Forall_app. repeat split;
    try (by apply plain_not_newline); by repeat constructor.
Qed.

Lemma fold_conversions_id (cs : list (Re.flags * Re.t * list Re.piece)) s :
  Forall (fun c => Re.replace (c.1.1) (c.1.2) (c.2) s = s) cs →
  fold_left (fun acc c => Re.replace (c.1.1) (c.1.2) (c.2) acc) cs s = s.
Proof.
  induction 1 as [|c cs Hc Hcs IH]; [done|]. simpl. by rewrite Hc.
Qed.

Lemma earlier_leave_page :
  fold_left (fun acc c => Re.replace (c.1.1) (c.1.2) (c.2) acc) earlier
    (String.string_of_list_ascii (callout_page pre t0 tag' body post))
  = String.string_of_list_ascii (callout_page pre t0 tag' body post).
Proof.
  apply fold_conversions_id. eapply Forall_impl; [apply earlier_pass|].
  intros [[f r'] tpl] (Hf & Hc & Hp). simpl in *. subst f.
  rewrite replace_list. f_equal. rewrite callout_page_shape.
  rewrite (rep_skip _ _ _ "<" pre) by (done || by apply plain_none_lt).
  f_equal. destruct callout_page_plain_parts as [HA HB].
  by apply (rule_leaves r' tpl t0).
Qed.

Lemma quoted_callout_plain : plain (quoted_callout pre label body post).
Proof.
  unfold quoted_callout. repeat (apply plain_app; [done|]). done.
Qed.

Lemma rule_rewrites_page :
  rep gi r [Re.Lit label; Re.Grp_ 3] (Re.mkState [] (callout_page pre t0 tag' body post) [])
  = (quoted_callout pre label body post).
Proof.
  unfold callout_page, quoted_callout.
  rewrite (rep_skip _ _ _ "<" pre) by (done || by apply plain_none_lt).
  f_equal.
  destruct (rule_matches (rev pre ++ []) body post
              (match pre with [] => [] | _ => [] end)) as [b' Hm];
    [by apply plain_none_lt|].
  rewrite (rep_step_some gi _ _ _ _ eq_refl Hm).
  - rewrite (rep_all_skipped _ _ _ "<") by (done || by apply plain_none_lt).
    simpl. by rewrite app_nil_r, <- app_assoc.
  - simpl. repeat (rewrite length_app; simpl). lia.
Qed.

Lemma later_begin :
  Forall (fun c : Re.flags * Re.t * list Re.piece =>
            first_char (c.1.2) = Some "<"%char) later.
Proof.
  pose proof all_conversions_begin as H. rewrite rules in H.
  apply Forall_app in H as [_ H]. by apply Forall_cons in H as [_ H].
Qed.

Lemma trim_quoted_callout :
  trim (String.string_of_list_ascii (quoted_callout pre label body post))
  = String.string_of_list_ascii (quoted_callout pre label body post).
Proof.
  unfold trim. rewrite String.list_ascii_of_string_of_list_ascii. f_equal.
  rewrite (drop_spaces_head (quoted_callout pre label body post)).
  - rewrite drop_spaces_head; [apply rev_involutive|].
    unfold quoted_callout. rewrite !rev_app_distr.
    unfold good_end in end_post. destruct (rev post) as [|d tl]; [|done].
    simpl. destruct body_solid as [Hne He]. unfold good_end in He.
    destruct (rev body) as [|d tl] eqn:E; [|done].
    destruct Hne. apply (f_equal (@rev ascii)) in E.
    by rewrite rev_involutive in E.
  - unfold quoted_callout. destruct pre as [|d tl]; simpl.
    + destruct label_start as [Hs Hne].
      destruct (la label) as [|d tl]; [done|]. apply Hs.
    + apply start_pre.
Qed.

Lemma preprocessMdx_callout :
  preprocessMdx (String.string_of_list_ascii (callout_page pre t0 tag' body post))
  = String.string_of_list_ascii (quoted_callout pre label body post).
Proof.
  rewrite preprocessMdx_plain.
  - assert (Hst : ∀ word c, (c = "i" ∨ c = "e")%char →
              first_char (Re.str word) = Some c →
              Re.replace gm (statement_re word) []
                (String.string_of_list_ascii (callout_page pre t0 tag' body post))
              = String.string_of_list_ascii (callout_page pre t0 tag' body post)).
    { intros word c Hc Hw. rewrite replace_list. f_equal.
      change (statement_re word)
        with (Re.Seq Re.Bol
                (Re.seqs [Re.str word; many1 space; many Re.Dot; Re.Eol])).
      apply (rep_bol_none _ _ _ c); [done| |apply callout_page_line].
      apply head_not; [done|]. apply callout_page_head. tauto. }
    rewrite (Hst "import" "i"%char (or_introl eq_refl) eq_refl).
    rewrite (Hst "export" "e"%char (or_intror eq_refl) eq_refl).
    rewrite rules, fold_left_app, earlier_leave_page, conversions_cons.
    rewrite replace_list, rule_rewrites_page.
    rewrite conversions_leave;
      [|apply later_begin|intros f; apply plain_none_lt, quoted_callout_plain].
    rewrite (replace_id g_ jsx_string_re _ "{" _ eq_refl)
      by apply plain_none_brace, quoted_callout_plain.
    rewrite (replace_id g_ jsx_expr_re _ "{" _ eq_refl)
      by apply plain_none_brace, quoted_callout_plain.
    rewrite (replace_id g_ blank_lines_re _ "010" _ eq_refl)
      by apply plain_none_nl, quoted_callout_plain.
    apply trim_quoted_callout.
  - unfold Re.match_. cbv zeta.
    rewrite String.list_ascii_of_string_of_list_ascii.
    change frontmatter_re
      with (Re.Seq Re.Bol
              (Re.seqs [Re.str ("---" +:+ nl); Re.Grp 1 (lazy any);
                        Re.str (nl +:+ "---" +:+ nl)])).
    rewrite (search_bol_none _ _ "-"); [done|done|done|].
    apply head_not; [done|]. apply callout_page_head. tauto.
Qed.

End Callout.

Ltac callout_rule earlier later r label t0 tag' Hmatch :=
  intros;
  apply (preprocessMdx_callout earlier later r label t0 tag');
  [reflexivity
  |repeat constructor
  |reflexivity
  |exact Hmatch
  |by repeat constructor
  |by repeat constructor
  |by repeat constructor
  |assumption..].

Section CalloutCases.

Variables pre body post : list ascii.
Hypothesis plain_pre : plain pre.
Hypothesis plain_body : plain body.
Hypothesis plain_post : plain post.
Hypothesis start_pre : good_start pre.
Hypothesis body_solid : body ≠ [] ∧ good_end body.
Hypothesis end_post : good_end post.

Lemma callout_case (tag label : string) :
  (tag, label) ∈ callouts →
  preprocessMdx
    (String.string_of_list_ascii
       (pre ++ la "<" ++ la tag ++ la ">" ++ body ++ la "</" ++ la tag
            ++ la ">" ++ post))
  = String.string_of_list_ascii (pre ++ la label ++ body ++ post).
Proof.
  unfold callouts. rewrite !elem_of_cons, elem_of_nil.
  intros [H|[H|[H|[H|[H|[H|[]]]]]]]; injection H as -> ->.
  - callout_rule (@nil (Re.flags * Re.t * list Re.piece)) (drop 1 conversions)
      (element ["Callout"; "Note"; "Info"]) "> **Note:** " "C"%char
      (la "allout") callout_matches.
  - callout_rule (@nil (Re.flags * Re.t * list Re.piece)) (drop 1 conversions)
      (element ["Callout"; "Note"; "Info"]) "> **Note:** " "N"%char
      (la "ote") note_matches.
  - callout_rule (@nil (Re.flags * Re.t * list Re.piece)) (drop 1 conversions)
      (element ["Callout"; "Note"; "Info"]) "> **Note:** " "I"%char
      (la "nfo") info_matches.
  - callout_rule (take 1 conversions) (drop 2 conversions)
      (element ["Warning"; "Alert"]) "> **⚠️ Warning:** " "W"%char
      (la "arning") warning_tag_matches.
  - callout_rule (take 1 conversions) (drop 2 conversions)
      (element ["Warning"; "Alert"]) "> **⚠️ Warning:** " "A"%char
      (la "lert") alert_matches.
  - callout_rule (take 2 conversions) (drop 3 conversions)
      (element ["Tip"]) "> **💡 Tip:** " "T"%char (la "ip") tip_matches.
Qed.

End CalloutCases.

Lemma string_of_la (s : string) : String.string_of_list_ascii (la s) = s.
Proof. apply String.string_of_list_ascii_of_string. Qed.



(** ** Frontmatter *)

Lemma begins_app w l t :
  (length w ≤ length l)%nat → begins w (l ++ t) = begins w l.
Proof.
  revert l. induction w as [|c w IH]; intros l Hl; [by destruct l|].
  destruct l as [|d l]; simpl in *; [lia|]. rewrite IH; [done|lia].
Qed.

Lemma run_lit_fails f w b l caps k :
  Re.ignoreCase f = false → w ≠ [] → begins w l = false →
  Re.run f (Re.lit w) (Re.mkState b l caps) k = None.
Proof.
  intros Hf. revert b l caps k.
  induction w as [|c w IH]; intros b l caps k Hw Hb; [done|].
  destruct l as [|d l]; simpl in Hb.
  - by destruct w.
  - destruct w as [|c' w].
    + simpl. unfold Re.chr_eq. rewrite Hf.
      destruct (Ascii.eqb c d); [done|done].
    + change (Re.lit (c :: c' :: w)) with (Re.Seq (Re.Chr c) (Re.lit (c' :: w))).
      cbn [Re.run Re.rest Re.before Re.caps]. unfold Re.chr_eq. rewrite Hf.
      destruct (Ascii.eqb c d); [|done]. simpl in Hb. by apply IH.
Qed.

Lemma star_lazy_stop m n st k x :
  k st = Some x → Re.star m false n st k = Some x.
Proof. intros H. destruct n; simpl; by rewrite H. Qed.

(** [[\s\S]*?] before the closing line walks to the first closing line. *)
Lemma frontmatter_walk (k : Re.cont) meta tl :
  (∀ st, begins fence (Re.rest st) = false → k st = None) →
  fence_free meta = true →
  ∀ b caps n, (length meta ≤ n)%nat →
  Re.star (Re.run noflags any) false n (Re.mkState b (meta ++ fence ++ tl) caps) k
  = Re.star (Re.run noflags any) false (n - length meta)
      (Re.mkState (rev meta ++ b) (fence ++ tl) caps) k.
Proof.
  intros Hk. induction meta as [|d meta IH]; intros Hfree b caps n Hn.
  - simpl. by rewrite Nat.sub_0_r.
  - simpl in Hn. destruct n as [|n]; [lia|].
    simpl in Hfree. apply andb_true_iff in Hfree as [Hd Hfree].
    apply negb_true_iff in Hd.
    cbn [Re.star]. rewrite Hk.
    2:{ cbn [Re.rest]. rewrite <- Hd.
        change (d :: meta ++ fence ++ tl) with ((d :: meta) ++ fence ++ tl).
        rewrite (app_assoc (d :: meta)).
        change (d :: meta ++ fence) with ((d :: meta) ++ fence).
        apply begins_app. rewrite length_app. simpl. lia. }
    change ((d :: meta) ++ fence ++ tl) with (d :: (meta ++ fence ++ tl)).
    rewrite run_any. cbn [Re.rest length].
    destruct (Nat.ltb_spec (length (meta ++ fence ++ tl))
                (S (length (meta ++ fence ++ tl)))); [|lia].
    rewrite IH by (done || lia). cbn [length Nat.sub rev].
    by rewrite <- app_assoc.
Qed.

Lemma run_seq f r1 r2 st k :
  Re.run f (Re.Seq r1 r2) st k = Re.run f r1 st (fun st' => Re.run f r2 st' k).
Proof. reflexivity. Qed.

Lemma run_grp f n r st k :
  Re.run f (Re.Grp n r) st k
  = Re.run f r st
      (fun st' =>
         k (Re.mkState (Re.before st') (Re.rest st')
              ((n, take (length (Re.rest st) - length (Re.rest st')) (Re.rest st))
                 :: Re.caps st'))).
Proof. reflexivity. Qed.

Lemma run_star f g r st k :
  Re.run f (Re.Star g r) st k
  = Re.star (Re.run f r) g (length (Re.rest st)) st k.
Proof. reflexivity. Qed.

Lemma run_bol_start f l caps k :
  Re.run f Re.Bol (Re.mkState [] l caps) k = k (Re.mkState [] l caps).
Proof. reflexivity. Qed.

Lemma run_lit_eats f w b l caps k :
  Re.ignoreCase f = false →
  Re.run f (Re.lit w) (Re.mkState b (w ++ l) caps) k
  = k (Re.mkState (rev w ++ b) l caps).
Proof.
  intros Hf. revert b. induction w as [|c w IH]; intros b; [done|].
  assert (Hc : Re.run f (Re.Chr c) (Re.mkState b ((c :: w) ++ l) caps)
               = fun k => k (Re.mkState (c :: b) (w ++ l) caps)).
  { simpl. unfold Re.chr_eq. rewrite Hf. by rewrite Ascii.eqb_refl. }
  destruct w as [|c' w].
  - change (Re.lit [c]) with (Re.Chr c). by rewrite Hc.
  - change (Re.lit (c :: c' :: w)) with (Re.Seq (Re.Chr c) (Re.lit (c' :: w))).
    rewrite run_seq, Hc, IH. cbn [rev]. by rewrite <- !app_assoc.
Qed.

Section Frontmatter.

Variables meta text : list ascii.
Hypothesis meta_free : fence_free meta = true.


Lemma frontmatter_matches :
  ∃ b', Re.match_here noflags frontmatter_re (Re.mkState [] ((fenced meta) ++ text) [])
        = Some (Re.mkState b' text [(1%nat, meta)]).
Proof.
  unfold Re.match_here, fenced.
  change frontmatter_re
    with (Re.Seq Re.Bol
            (Re.Seq (Re.lit (la ("---" +:+ nl)))
               (Re.Seq (Re.Grp 1 (lazy any)) (Re.lit fence)))).
  rewrite <- ?app_assoc. cbn [Re.before Re.rest].
  rewrite run_seq, run_bol_start, run_seq, run_lit_eats, run_seq, run_grp by done.
  unfold lazy. rewrite run_star. cbn [Re.rest Re.before Re.caps].
  rewrite frontmatter_walk; [| |done|rewrite length_app; lia].
  2:{ intros st Hst. destruct st as [b l caps].
      apply run_lit_fails; [done|done|]. exact Hst. }
  eexists. apply star_lazy_stop. cbn [Re.rest Re.before Re.caps].
  rewrite run_lit_eats by done. do 2 f_equal.
  rewrite !length_app.
  replace (length meta + (length fence + length text)
           - (length fence + length text))%nat with (length meta) by lia.
  by rewrite (take_app_length meta).
Qed.

Lemma fenced_length :
  (length ((fenced meta) ++ text) - length text)%nat = length (fenced meta).
Proof. rewrite length_app. lia. Qed.

Lemma frontmatter_found :
  Re.match_ noflags frontmatter_re (String.string_of_list_ascii ((fenced meta) ++ text))
  = Some (String.string_of_list_ascii (fenced meta)).
Proof.
  unfold Re.match_. cbv zeta.
  rewrite String.list_ascii_of_string_of_list_ascii.
  destruct frontmatter_matches as [b' Hm].
  cbn [Re.search_from]. rewrite Hm. cbn [Re.rest fmap option_fmap option_map].
  by rewrite fenced_length, take_app_length.
Qed.

Lemma frontmatter_removed :
  Re.replace noflags frontmatter_re [] (String.string_of_list_ascii ((fenced meta) ++ text))
  = String.string_of_list_ascii text.
Proof.
  unfold Re.replace. cbv zeta.
  rewrite String.list_ascii_of_string_of_list_ascii.
  destruct frontmatter_matches as [b' Hm].
  cbn [Re.replace_from]. rewrite Hm. reflexivity.
Qed.

End Frontmatter.

Lemma text_not_fenced text :
  begins (la ("---" +:+ nl)) (la text) = false →
  Re.match_ noflags frontmatter_re text = None.
Proof.
  intros Hb. unfold Re.match_. cbv zeta. fold (la text).
  assert (H0 : Re.match_here noflags frontmatter_re (Re.mkState [] (la text) [])
               = None).
  { unfold Re.match_here.
    change frontmatter_re
      with (Re.Seq Re.Bol
              (Re.Seq (Re.lit (la ("---" +:+ nl)))
                 (Re.Seq (Re.Grp 1 (lazy any)) (Re.lit fence)))).
    cbn [Re.before Re.rest].
    rewrite run_seq, run_bol_start, run_seq. by apply run_lit_fails. }
  cbn [Re.search_from]. rewrite H0. cbn [Re.rest].
  destruct (la text) as [|d l]; [done|].
  change frontmatter_re
    with (Re.Seq Re.Bol
            (Re.seqs [Re.str ("---" +:+ nl); Re.Grp 1 (lazy any);
                      Re.str (nl +:+ "---" +:+ nl)])).
  by rewrite search_bol_inside.
Qed.

(** The steps of [preprocessMdx] on a text with frontmatter. *)
Lemma preprocessMdx_fenced content c fm :
  Re.match_ noflags frontmatter_re content = Some (String c fm) →
  preprocessMdx content
  = String c fm +:+
    trim (Re.replace g_ blank_lines_re [Re.Lit nl; Re.Lit nl]
      (Re.replace g_ jsx_expr_re [Re.Lit "`"; Re.Grp_ 1; Re.Lit "`"]
        (Re.replace g_ jsx_string_re [Re.Grp_ 2]
          (fold_left (fun acc c => Re.replace (c.1.1) (c.1.2) (c.2) acc)
             conversions
             (Re.replace gm (statement_re "export") []
                (Re.replace gm (statement_re "import") []
                   (Re.replace noflags frontmatter_re [] content))))))).
Proof. intros H. unfold preprocessMdx. rewrite H. reflexivity. Qed.



(** ** Import and export statements *)

Lemma match_here_quiet f r' c b l caps :
  first_char r' = Some c →
  (bol f b = true → ∀ d tl, l = d :: tl → Re.chr_eq f c d = false) →
  Re.match_here f (Re.Seq Re.Bol r') (Re.mkState b l caps) = None.
Proof.
  intros Hc Hl. unfold Re.match_here. cbn [Re.run Re.before Re.rest].
  destruct b as [|e b].
  - eapply run_first_char; [done|]. cbn [Re.rest]. by apply Hl.
  - destruct (Re.multiline f && Re.is_newline e) eqn:E; [|done].
    eapply run_first_char; [done|]. cbn [Re.rest]. by apply Hl.
Qed.

Lemma rep_quiet f r' tpl c l :
  first_char r' = Some c →
  ∀ b caps, quiet f c b l →
  rep f (Re.Seq Re.Bol r') tpl (Re.mkState b l caps) = l.
Proof.
  intros Hc. induction l as [|d l IH]; intros b caps Hq.
  - apply rep_end. by eapply match_here_quiet.
  - destruct Hq as [Hd Hq]. rewrite rep_step_none.
    + f_equal. by apply IH.
    + eapply match_here_quiet; [done|]. by intros Hb ? ? [= <- <-]; apply Hd.
Qed.

Lemma quiet_line f c e b l :
  Re.is_newline e = false → not_newline l → quiet f c (e :: b) l.
Proof.
  intros He Hl. revert e b He. induction Hl as [|d l Hd Hl IH]; intros e b He.
  - done.
  - split; [|by apply IH]. simpl. rewrite He. by rewrite andb_false_r.
Qed.

Lemma quiet_start f c b l :
  match l with [] => True | d :: _ => Re.chr_eq f c d = false end →
  not_newline l → quiet f c b l.
Proof.
  intros Hh Hl. destruct l as [|d l]; [done|].
  split; [done|]. apply quiet_line; by inversion Hl.
Qed.

Lemma quiet_app f c b l1 l2 :
  quiet f c b l1 → quiet f c (rev l1 ++ b) l2 → quiet f c b (l1 ++ l2).
Proof.
  revert b. induction l1 as [|d l1 IH]; intros b H1 H2; [done|].
  destruct H1 as [Hd H1]. split; [done|]. apply IH; [done|].
  cbn [rev] in H2. by rewrite <- app_assoc in H2.
Qed.

Lemma star_greedy_stop m n st k :
  (∀ k', m st k' = None) → Re.star m true n st k = k st.
Proof. intros H. destruct n; [done|]. simpl. by rewrite H. Qed.

Lemma star_greedy_step m n st k :
  Re.star m true (S n) st k
  = match m st (fun st' =>
                  if (length (Re.rest st') <? length (Re.rest st))%nat
                  then Re.star m true n st' k else None) with
    | Some x => Some x
    | None => k st
    end.
Proof. reflexivity. Qed.

Lemma run_dot_eats f b d l caps k :
  Re.is_newline d = false →
  Re.run f Re.Dot (Re.mkState b (d :: l) caps) k
  = k (Re.mkState (d :: b) l caps).
Proof. intros Hd. cbn [Re.run Re.rest Re.before Re.caps]. by rewrite Hd. Qed.

(** [.*] runs to the end of the line when what follows it matches there. *)
Lemma star_dot_walk f k x X :
  not_newline X →
  ∀ b tl caps n, (length X ≤ n)%nat →
  Re.star (Re.run f Re.Dot) true (n - length X)
    (Re.mkState (rev X ++ b) tl caps) k = Some x →
  Re.star (Re.run f Re.Dot) true n (Re.mkState b (X ++ tl) caps) k = Some x.
Proof.
  intros HX. induction HX as [|d X Hd HX IH]; intros b tl caps n Hn Hend.
  - simpl in Hend. by rewrite Nat.sub_0_r in Hend.
  - simpl in Hn. destruct n as [|n]; [lia|].
    cbn [app]. rewrite star_greedy_step, run_dot_eats by done.
    cbn [Re.rest length].
    destruct (Nat.ltb_spec (length (X ++ tl)) (S (length (X ++ tl)))); [|lia].
    rewrite (IH (d :: b) tl caps n); [done|lia|].
    cbn [rev length Nat.sub] in Hend. by rewrite <- app_assoc in Hend.
Qed.

Lemma run_space_eats f b l caps k :
  Re.run f space (Re.mkState b (" "%char :: l) caps) k
  = k (Re.mkState (" "%char :: b) l caps).
Proof. reflexivity. Qed.

Lemma run_space_fails f b l caps k :
  Re.ignoreCase f = false →
  match l with [] => True | d :: _ => Re.is_space d = false end →
  Re.run f space (Re.mkState b l caps) k = None.
Proof.
  intros Hf Hl. destruct l as [|d l]; [done|].
  cbn [Re.run space Re.rest]. unfold Re.class_has. rewrite Hf.
  cbn [existsb Re.item_has]. by rewrite Hl.
Qed.

Lemma run_dot_newline f b l caps k :
  Re.run f Re.Dot (Re.mkState b ("010"%char :: l) caps) k = None.
Proof. reflexivity. Qed.

Lemma run_eol_newline b l caps k :
  Re.run gm Re.Eol (Re.mkState b ("010"%char :: l) caps) k
  = k (Re.mkState b ("010"%char :: l) caps).
Proof. reflexivity. Qed.

Section Statement.

Variables word stmt text : list ascii.
Hypothesis stmt_line : not_newline stmt.
Hypothesis stmt_solid : begins_solid stmt.

Lemma statement_matches :
  ∃ b' e, Re.is_newline e = false
    ∧ Re.match_here gm
        (Re.Seq Re.Bol
           (Re.Seq (Re.lit word)
              (Re.Seq (many1 space) (Re.Seq (many Re.Dot) Re.Eol))))
        (Re.mkState [] (statement_line word stmt text) [])
      = Some (Re.mkState (e :: b') ("010"%char :: text) []).
Proof.
  destruct (rev stmt) as [|e b0] eqn:Erev.
  { apply (f_equal (@rev ascii)) in Erev. rewrite rev_involutive in Erev.
    rewrite Erev in stmt_solid. done. }
  exists (b0 ++ " "%char :: rev word ++ []), e. split.
  { pose proof (Forall_rev stmt_line) as Hrev. rewrite Erev in Hrev.
    by inversion Hrev. }
  unfold Re.match_here, statement_line. cbn [Re.before Re.rest].
  rewrite run_seq, run_bol_start, run_seq, run_lit_eats by done.
  unfold many1. rewrite !run_seq, run_space_eats. cbv beta.
  rewrite run_star. cbn [Re.rest].
  rewrite star_greedy_stop.
  2:{ intros k'. apply run_space_fails; [done|].
      destruct stmt as [|d stmt']; [done|]. exact stmt_solid. }
  cbv beta. rewrite run_seq. unfold many. rewrite run_star. cbn [Re.rest].
  apply star_dot_walk; [done|rewrite length_app; lia|].
  rewrite star_greedy_stop by (intros k'; apply run_dot_newline).
  cbv beta. rewrite run_eol_newline. by rewrite Erev.
Qed.

End Statement.

Lemma statement_re_shape (word : string) :
  statement_re word
  = Re.Seq Re.Bol
      (Re.Seq (Re.lit (la word))
         (Re.Seq (many1 space) (Re.Seq (many Re.Dot) Re.Eol))).
Proof. reflexivity. Qed.

Lemma first_char_lit c w r : first_char (Re.Seq (Re.lit (c :: w)) r) = Some c.
Proof. by destruct w. Qed.

Lemma chr_eq_newline c :
  Re.is_newline c = false → Re.chr_eq gm c "010" = false.
Proof.
  intros Hc. unfold Re.chr_eq. cbn [Re.ignoreCase gm].
  apply Ascii.eqb_neq. by intros ->.
Qed.

Section StatementLine.

Variables stmt text : list ascii.
Hypothesis stmt_line : not_newline stmt.
Hypothesis stmt_solid : begins_solid stmt.
Hypothesis plain_text : plain text.
Hypothesis start_text : good_start text.
Hypothesis end_text : good_end text.

Lemma text_head c :
  (c = "i" ∨ c = "e")%char →
  match text with [] => True | d :: _ => Re.chr_eq gm c d = false end.
Proof.
  intros Hc. destruct text as [|d l]; [done|].
  destruct start_text as (_ & _ & Hi & He).
  unfold Re.chr_eq. cbn [Re.ignoreCase gm]. apply Ascii.eqb_neq.
  destruct Hc; subst c; congruence.
Qed.

Lemma quiet_rest c b :
  (c = "i" ∨ c = "e")%char → quiet gm c b ("010"%char :: text).
Proof.
  intros Hc. split.
  - intros _. apply chr_eq_newline. by destruct Hc; subst c.
  - apply quiet_start; [by apply text_head|by apply plain_not_newline].
Qed.

(** The statement at the beginning of the text is removed up to the end of
    its line. *)
Lemma statement_removed (c : ascii) (word : list ascii) :
  (c = "i" ∨ c = "e")%char →
  rep gm (Re.Seq Re.Bol
            (Re.Seq (Re.lit (c :: word))
               (Re.Seq (many1 space) (Re.Seq (many Re.Dot) Re.Eol)))) []
    (Re.mkState [] (statement_line (c :: word) stmt text) [])
  = "010"%char :: text.
Proof.
  intros Hc.
  destruct (statement_matches (c :: word) stmt text stmt_line stmt_solid)
    as (b' & e & He & Hm).
  rewrite (rep_step_some gm _ _ _ _ eq_refl Hm).
  - cbn [Re.expand flat_map Re.caps app].
    apply (rep_quiet _ _ _ c); [apply first_char_lit|by apply quiet_rest].
  - unfold statement_line. cbn [Re.rest]. rewrite !length_app. simpl.
    rewrite length_app. simpl. lia.
Qed.

(** A statement of the other kind stays. *)
Lemma statement_stays (c c' : ascii) (word' : list ascii) (w : list ascii) :
  (c' = "i" ∨ c' = "e")%char → c ≠ c' → not_newline (c :: w) →
  rep gm (Re.Seq Re.Bol
            (Re.Seq (Re.lit (c' :: word'))
               (Re.Seq (many1 space) (Re.Seq (many Re.Dot) Re.Eol)))) []
    (Re.mkState [] (statement_line (c :: w) stmt text) [])
  = statement_line (c :: w) stmt text.
Proof.
  intros Hc Hne Hw.
  apply (rep_quiet _ _ _ c'); [apply first_char_lit|].
  unfold statement_line.
  change ((c :: w) ++ " "%char :: stmt ++ "010"%char :: text)
    with (c :: (w ++ " "%char :: stmt ++ "010"%char :: text)).
  split.
  - intros _. unfold Re.chr_eq. cbn [Re.ignoreCase gm].
    apply Ascii.eqb_neq. congruence.
  - replace (w ++ " "%char :: stmt ++ "010"%char :: text)
      with ((w ++ " "%char :: stmt) ++ "010"%char :: text)
      by (by rewrite <- app_assoc).
    apply quiet_app; [|by apply quiet_rest].
    apply quiet_line; [by inversion Hw|].
    apply Forall_app. split; [by inversion Hw|]. by constructor.
Qed.

Lemma rest_no_lt f : none_begins f "<" ("010"%char :: text).
Proof.
  constructor; [|by apply plain_none_lt].
  apply chr_eq_ne; [done|left; by apply Nat.ltb_lt|done].
Qed.

Lemma rest_no_brace f : none_begins f "{" ("010"%char :: text).
Proof.
  constructor; [|by apply plain_none_brace].
  apply chr_eq_ne; [done|right; by apply Nat.ltb_lt|done].
Qed.

Lemma blank_lines_rest :
  rep g_ blank_lines_re [Re.Lit nl; Re.Lit nl]
    (Re.mkState [] ("010"%char :: text) [])
  = "010"%char :: text.
Proof.
  rewrite rep_step_none.
  - f_equal. apply (rep_all_skipped _ _ _ "010"%char); [done|].
    by apply plain_none_nl.
  - unfold Re.match_here.
    change blank_lines_re
      with (Re.Seq (Re.Chr "010")
              (Re.Seq (many space)
                 (Re.Seq (Re.Chr "010") (Re.Seq (many space) (Re.Chr "010"))))).
    cbn [Re.before Re.rest]. rewrite run_seq.
    change (Re.run g_ (Re.Chr "010") (Re.mkState [] ("010"%char :: text) []))
      with (fun k : Re.cont => k (Re.mkState ["010"%char] text [])).
    cbv beta. rewrite run_seq. unfold many. rewrite run_star.
    rewrite star_greedy_stop.
    + cbv beta. rewrite run_seq.
      destruct text as [|d l]; [done|].
      cbn [Re.run Re.rest]. unfold Re.chr_eq. cbn [Re.ignoreCase g_].
      destruct (Ascii.eqb_spec "010"%char d) as [<-|Hd]; [|done].
      by inversion plain_text as [|? ? (_ & _ & Hnl) _].
    + intros k'. apply run_space_fails; [done|].
      destruct text as [|d l]; [done|]. apply start_text.
Qed.

Lemma trim_rest :
  trim (String.string_of_list_ascii ("010"%char :: text))
  = String.string_of_list_ascii text.
Proof.
  unfold trim. rewrite String.list_ascii_of_string_of_list_ascii. f_equal.
  change (drop_spaces ("010"%char :: text)) with (drop_spaces text).
  rewrite (drop_spaces_head text).
  - rewrite drop_spaces_head; [apply rev_involutive|].
    unfold good_end in end_text. by destruct (rev text).
  - destruct text as [|d l]; [done|]. apply start_text.
Qed.

(** The steps after the statements on what a removed statement leaves. *)
Lemma after_statements :
  trim (Re.replace g_ blank_lines_re [Re.Lit nl; Re.Lit nl]
    (Re.replace g_ jsx_expr_re [Re.Lit "`"; Re.Grp_ 1; Re.Lit "`"]
      (Re.replace g_ jsx_string_re [Re.Grp_ 2]
        (fold_left (fun acc c => Re.replace (c.1.1) (c.1.2) (c.2) acc)
           conversions
           (String.string_of_list_ascii ("010"%char :: text))))))
  = String.string_of_list_ascii text.
Proof.
  rewrite conversions_leave; [|apply all_conversions_begin|apply rest_no_lt].
  rewrite (replace_id g_ jsx_string_re _ "{" _ eq_refl) by apply rest_no_brace.
  rewrite (replace_id g_ jsx_expr_re _ "{" _ eq_refl) by apply rest_no_brace.
  rewrite replace_list, blank_lines_rest. apply trim_rest.
Qed.

Lemma import_line_removed :
  preprocessMdx
    (String.string_of_list_ascii (statement_line (la "import") stmt text))
  = String.string_of_list_ascii text.
Proof.
  rewrite preprocessMdx_plain.
  - rewrite !statement_re_shape.
    rewrite replace_list.
    pose proof (statement_removed "i" (la "mport")) as Hr.
    change ("i"%char :: la "mport") with (la "import") in Hr.
    rewrite Hr by tauto.
    rewrite replace_list.
    rewrite (rep_quiet _ _ _ "e"%char);
      [|apply (first_char_lit "e" (la "xport"))|apply quiet_rest; tauto].
    apply after_statements.
  - apply text_not_fenced. unfold la.
    by rewrite String.list_ascii_of_string_of_list_ascii.
Qed.

Lemma export_line_removed :
  preprocessMdx
    (String.string_of_list_ascii (statement_line (la "export") stmt text))
  = String.string_of_list_ascii text.
Proof.
  rewrite preprocessMdx_plain.
  - rewrite !statement_re_shape.
    rewrite replace_list.
    pose proof (statement_stays "e" "i" (la "mport") (la "xport")) as Hs.
    change ("i"%char :: la "mport") with (la "import") in Hs.
    change ("e"%char :: la "xport") with (la "export") in Hs.
    rewrite Hs; [|tauto|done|by repeat constructor].
    rewrite replace_list.
    pose proof (statement_removed "e" (la "xport")) as Hr.
    change ("e"%char :: la "xport") with (la "export") in Hr.
    rewrite Hr by tauto.
    apply after_statements.
  - apply text_not_fenced. unfold la.
    by rewrite String.list_ascii_of_string_of_list_ascii.
Qed.

End StatementLine.



(** ** Expressions in braces *)

Lemma star_greedy_walk (m : Re.state → Re.cont → option Re.state) k x X :
  Forall (fun d => ∀ b l caps k',
            m (Re.mkState b (d :: l) caps) k' = k' (Re.mkState (d :: b) l caps))
         X →
  ∀ b tl caps n, (length X ≤ n)%nat →
  Re.star m true (n - length X) (Re.mkState (rev X ++ b) tl caps) k = Some x →
  Re.star m true n (Re.mkState b (X ++ tl) caps) k = Some x.
Proof.
  intros HX. induction HX as [|d X Hd HX IH]; intros b tl caps n Hn Hend.
  - simpl in Hend. by rewrite Nat.sub_0_r in Hend.
  - simpl in Hn. destruct n as [|n]; [lia|].
    cbn [app]. rewrite star_greedy_step, Hd. cbn [Re.rest length].
    destruct (Nat.ltb_spec (length (X ++ tl)) (S (length (X ++ tl)))); [|lia].
    rewrite (IH (d :: b) tl caps n); [done|lia|].
    cbn [rev length Nat.sub] in Hend. by rewrite <- app_assoc in Hend.
Qed.


Lemma run_not_close_eats d b l caps k :
  d ≠ "}"%char →
  Re.run g_ not_close (Re.mkState b (d :: l) caps) k
  = k (Re.mkState (d :: b) l caps).
Proof.
  intros Hd. cbn [Re.run not_close Re.rest Re.before Re.caps].
  unfold Re.class_has. cbn [Re.ignoreCase g_ existsb Re.item_has].
  apply Ascii.eqb_neq in Hd. by rewrite Hd.
Qed.

Lemma run_not_close_stops b l caps k :
  Re.run g_ not_close (Re.mkState b ("}"%char :: l) caps) k = None.
Proof. reflexivity. Qed.

Lemma begins_head c w l :
  match l with [] => True | d :: _ => d ≠ c end → begins (c :: w) l = false.
Proof.
  destruct l as [|d l]; [done|]. simpl. intros Hd.
  assert (H : Ascii.eqb c d = false) by (apply Ascii.eqb_neq; congruence).
  by rewrite H.
Qed.

Section Expression.

Variables pre body post : list ascii.
Hypothesis plain_pre : plain pre.
Hypothesis plain_post : plain post.
Hypothesis body_expression : expression body.
Hypothesis start_pre : good_start pre.
Hypothesis end_post : good_end post.

Lemma body_no_close : Forall (fun d => d ≠ "}"%char) body.
Proof.
  destruct body_expression as [H _]. eapply Forall_impl; [exact H|].
  simpl. tauto.
Qed.

Lemma body_none f c :
  (c = "<" ∨ c = "{" ∨ c = "010")%char → none_begins f c body.
Proof.
  intros Hc. destruct body_expression as [H _].
  eapply Forall_impl; [exact H|]. simpl. intros d (H1 & H2 & H3 & H4).
  destruct Hc as [->|[->| ->]].
  - apply chr_eq_ne; [done|left; by apply Nat.ltb_lt|done].
  - apply chr_eq_ne; [done|right; by apply Nat.ltb_lt|done].
  - apply chr_eq_ne; [done|left; by apply Nat.ltb_lt|]. by intros ->.
Qed.

Lemma plain_none f c l :
  (c = "<" ∨ c = "{" ∨ c = "010")%char → plain l → none_begins f c l.
Proof.
  intros [->|[->| ->]] H;
    [by apply plain_none_lt|by apply plain_none_brace|by apply plain_none_nl].
Qed.

Lemma char_none f c d :
  Re.chr_eq f c d = false → ∀ l, none_begins f c l → none_begins f c (d :: l).
Proof. intros. by constructor. Qed.

Lemma braced_no_lt f : none_begins f "<" (braced pre body post).
Proof.
  unfold braced. apply Forall_app. split; [by apply plain_none_lt|].
  apply char_none; [by destruct f as [? [] ?]|].
  apply Forall_app. split; [apply body_none; tauto|].
  apply char_none; [by destruct f as [? [] ?]|]. by apply plain_none_lt.
Qed.

Lemma ticked_none f c :
  (c = "<" ∨ c = "{" ∨ c = "010")%char → none_begins f c (ticked pre body post).
Proof.
  intros Hc. unfold ticked. apply Forall_app. split; [by apply plain_none|].
  apply char_none;
    [by destruct Hc as [->|[->| ->]]; destruct f as [? [] ?]|].
  apply Forall_app. split; [by apply body_none|].
  apply char_none;
    [by destruct Hc as [->|[->| ->]]; destruct f as [? [] ?]|].
  by apply plain_none.
Qed.

Lemma braced_line : not_newline (braced pre body post).
Proof.
  unfold braced. apply Forall_app. split; [by apply plain_not_newline|].
  constructor; [done|]. apply Forall_app. split.
  - destruct body_expression as [H _]. eapply Forall_impl; [exact H|].
    simpl. tauto.
  - constructor; [done|]. by apply plain_not_newline.
Qed.

Lemma braced_head c :
  (c = "-" ∨ c = "i" ∨ c = "e")%char →
  match (braced pre body post) with [] => True | d :: _ => d ≠ c end.
Proof.
  intros Hc. unfold braced. destruct pre as [|d l]; simpl.
  - by destruct Hc as [->|[->| ->]].
  - destruct start_pre as (_ & H1 & H2 & H3).
    by destruct Hc as [->|[->| ->]].
Qed.

(** The pattern of a quoted text in braces leaves the expression. *)
Lemma jsx_string_leaves :
  rep g_ jsx_string_re [Re.Grp_ 2] (Re.mkState [] (braced pre body post) []) = (braced pre body post).
Proof.
  unfold braced.
  rewrite (rep_skip _ _ _ "{" pre) by (done || by apply plain_none_brace).
  f_equal. rewrite rep_step_none.
  - f_equal. apply (rep_all_skipped _ _ _ "{"%char); [done|].
    apply Forall_app. split; [apply body_none; tauto|].
    apply char_none; [done|]. by apply plain_none_brace.
  - destruct body_expression as [_ Hhead].
    destruct body as [|d l]; [done|]. destruct Hhead as (H1 & H2 & H3).
    unfold Re.match_here, jsx_string_re.
    cbn [Re.seqs Re.before Re.rest]. rewrite run_seq.
    change (Re.run g_ (Re.Chr "{")
              (Re.mkState (rev pre ++ []) ("{"%char :: (d :: l) ++ "}"%char :: post)
                 []))
      with (fun k : Re.cont =>
              k (Re.mkState ("{"%char :: rev pre ++ [])
                   ((d :: l) ++ "}"%char :: post) [])).
    cbv beta. rewrite run_seq, run_grp.
    cbn [Re.run Re.rest app]. unfold Re.class_has.
    cbn [Re.ignoreCase g_ existsb Re.item_has].
    apply Ascii.eqb_neq in H1, H2, H3. by rewrite H1, H2, H3.
Qed.

(** The pattern of an expression in braces finds it where it stands. *)
Lemma jsx_expr_matches b caps :
  ∃ b', Re.match_here g_ jsx_expr_re
          (Re.mkState b ("{"%char :: body ++ "}"%char :: post) caps)
        = Some (Re.mkState b' post [(1%nat, body)]).
Proof.
  destruct body_expression as [_ Hhead].
  pose proof body_no_close as Hclose.
  destruct body as [|d l] eqn:Ebody; [done|].
  inversion Hclose as [|? ? Hd Hl]; subst.
  unfold Re.match_here.
  change jsx_expr_re
    with (Re.Seq (Re.Chr "{")
            (Re.Seq (Re.Grp 1 (Re.Seq not_close (Re.Star true not_close)))
               (Re.Chr "}"))).
  cbn [Re.before Re.rest]. rewrite run_seq.
  change (Re.run g_ (Re.Chr "{")
            (Re.mkState b ("{"%char :: (d :: l) ++ "}"%char :: post) []))
    with (fun k : Re.cont =>
            k (Re.mkState ("{"%char :: b) ((d :: l) ++ "}"%char :: post) [])).
  cbv beta. rewrite run_seq, run_grp, run_seq. cbn [app].
  rewrite run_not_close_eats by done. rewrite run_star. cbn [Re.rest].
  eexists. apply star_greedy_walk.
  - eapply Forall_impl; [exact Hl|]. intros c Hc b0 l0 caps0 k'.
    by apply run_not_close_eats.
  - rewrite length_app. lia.
  - rewrite star_greedy_stop by (intros k'; apply run_not_close_stops).
    cbn [Re.rest Re.before Re.caps length].
    replace (S (length (l ++ "}"%char :: post)) - S (length post))%nat
      with (S (length l)) by (rewrite length_app; simpl; lia).
    cbn [take]. rewrite (take_app_length l). reflexivity.
Qed.

Lemma jsx_expr_rewrites :
  rep g_ jsx_expr_re [Re.Lit "`"; Re.Grp_ 1; Re.Lit "`"]
    (Re.mkState [] (braced pre body post) [])
  = (ticked pre body post).
Proof.
  unfold braced, ticked.
  rewrite (rep_skip _ _ _ "{" pre) by (done || by apply plain_none_brace).
  f_equal.
  destruct (jsx_expr_matches (rev pre ++ [])
              (match pre with [] => [] | _ => [] end)) as [b' Hm].
  rewrite (rep_step_some g_ _ _ _ _ eq_refl Hm).
  - rewrite (rep_all_skipped _ _ _ "{") by (done || by apply plain_none_brace).
    cbn [Re.expand flat_map Re.caps Re.lookup_cap Nat.eqb].
    change (String.list_ascii_of_string "`") with ["`"%char].
    by rewrite <- !app_assoc.
  - cbn [Re.rest]. simpl. rewrite length_app. simpl. lia.
Qed.

Lemma trim_ticked :
  trim (String.string_of_list_ascii (ticked pre body post)) = String.string_of_list_ascii (ticked pre body post).
Proof.
  unfold trim. rewrite String.list_ascii_of_string_of_list_ascii. f_equal.
  rewrite (drop_spaces_head (ticked pre body post)).
  - rewrite drop_spaces_head; [apply rev_involutive|].
    unfold ticked. rewrite rev_app_distr. cbn [rev]. rewrite rev_app_distr.
    cbn [rev]. unfold good_end in end_post.
    destruct (rev post) as [|d tl]; [done|]. exact end_post.
  - unfold ticked. destruct pre as [|d tl]; [done|]. apply start_pre.
Qed.

Lemma preprocessMdx_braced :
  preprocessMdx (String.string_of_list_ascii (braced pre body post))
  = String.string_of_list_ascii (ticked pre body post).
Proof.
  rewrite preprocessMdx_plain.
  - assert (Hst : ∀ word c, (c = "i" ∨ c = "e")%char →
              first_char (Re.str word) = Some c →
              Re.replace gm (statement_re word) []
                (String.string_of_list_ascii (braced pre body post))
              = String.string_of_list_ascii (braced pre body post)).
    { intros word c Hc Hw. rewrite replace_list. f_equal.
      change (statement_re word)
        with (Re.Seq Re.Bol
                (Re.seqs [Re.str word; many1 space; many Re.Dot; Re.Eol])).
      apply (rep_bol_none _ _ _ c); [done| |apply braced_line].
      apply head_not; [done|]. apply braced_head. tauto. }
    rewrite (Hst "import" "i"%char (or_introl eq_refl) eq_refl).
    rewrite (Hst "export" "e"%char (or_intror eq_refl) eq_refl).
    rewrite conversions_leave;
      [|apply all_conversions_begin|apply braced_no_lt].
    rewrite replace_list, jsx_string_leaves.
    rewrite replace_list, jsx_expr_rewrites.
    rewrite (replace_id g_ blank_lines_re _ "010" _ eq_refl)
      by (apply ticked_none; tauto).
    apply trim_ticked.
  - apply text_not_fenced. unfold la.
    rewrite String.list_ascii_of_string_of_list_ascii.
    apply begins_head. apply braced_head. tauto.
Qed.

End Expression.



(** ** Stored names *)

Lemma substring_all (s : string) : String.substring 0 (String.length s) s = s.
Proof. induction s as [|c s IH]; simpl; [done|by rewrite IH]. Qed.

Lemma substring_skip (pre p : string) :
  String.substring (String.length pre) (String.length p) (pre +:+ p) = p.
Proof. induction pre as [|c pre IH]; simpl; [apply substring_all|done]. Qed.

Lemma substring_split (s : string) (m k : nat) :
  (m + k)%nat = String.length s →
  s = String.substring 0 m s +:+ String.substring m k s.
Proof.
  revert m. induction s as [|c s IH]; intros m Hlen; simpl in Hlen.
  - destruct m; [|lia]. by destruct k.
  - destruct m as [|m]; simpl.
    + destruct k as [|k]; [lia|].
      change (String c s = String c (String.substring 0 k s)). f_equal.
      symmetry. replace k with (String.length s) by lia. apply substring_all.
    + change (String c s
              = String c (String.substring 0 m s +:+ String.substring m k s)).
      f_equal. apply IH. lia.
Qed.

Lemma length_append (a b : string) :
  String.length (a +:+ b) = (String.length a + String.length b)%nat.
Proof. induction a as [|c a IH]; simpl; [done|by rewrite IH]. Qed.

(** [endsWith] holds exactly for the strings that are made of a beginning
    and the suffix. *)
Lemma endsWith_spec (s p : string) :
  Js.endsWith s p = true ↔ ∃ pre, s = pre +:+ p.
Proof.
  unfold Js.endsWith. cbv zeta. split.
  - intros [Hlen Heq]%andb_true_iff. apply Nat.leb_le in Hlen.
    apply String.eqb_eq in Heq.
    exists (String.substring 0 (String.length s - String.length p) s).
    pose proof (substring_split s (String.length s - String.length p)
                  (String.length p)) as Hs.
    rewrite Heq in Hs. apply Hs. lia.
  - intros [pre ->]. rewrite length_append. apply andb_true_iff. split.
    + apply Nat.leb_le. lia.
    + replace (String.length pre + String.length p - String.length p)%nat
        with (String.length pre) by lia.
      rewrite substring_skip. apply String.eqb_refl.
Qed.

Lemma endsWith_prefix (s p : string) :
  Js.endsWith s p = true →
  s = String.substring 0 (String.length s - String.length p) s +:+ p.
Proof.
  intros H. destruct (proj1 (endsWith_spec s p) H) as [pre ->].
  rewrite length_append.
  replace (String.length pre + String.length p - String.length p)%nat
    with (String.length pre) by lia.
  f_equal. clear H. induction pre as [|c pre IH]; simpl.
  - by destruct p.
  - by rewrite <- IH.
Qed.

Lemma md_not_mdx (pre : string) : Js.endsWith (pre +:+ ".md") ".mdx" = false.
Proof.
  destruct (Js.endsWith (pre +:+ ".md") ".mdx") eqn:E; [|done].
  apply endsWith_spec in E as [pre' E].
  apply (f_equal la) in E. rewrite !la_append in E.
  apply (f_equal (@rev ascii)) in E. rewrite !rev_app_distr in E.
  simpl in E. congruence.
Qed.

Lemma replace_separators_flat (s : string) : flat (replace_separators s).
Proof.
  unfold flat. induction s as [|c s IH]; simpl; [constructor|].
  constructor; [|exact IH].
  destruct (Ascii.eqb_spec c "/") as [->|H1]; [done|].
  destruct (Ascii.eqb_spec c "\") as [->|H2]; done.
Qed.

Lemma replace_separators_id (s : string) : flat s → replace_separators s = s.
Proof.
  unfold flat. induction s as [|c s IH]; simpl; [done|].
  intros H. inversion H as [|? ? [H1 H2] Hs]; subst.
  rewrite IH by done.
  apply Ascii.eqb_neq in H1, H2. by rewrite H1, H2.
Qed.

Lemma flat_append (a b : string) : flat a → flat b → flat (a +:+ b).
Proof. unfold flat. rewrite la_append. intros. by apply Forall_app. Qed.

Lemma flat_beginning (a b : string) : flat (a +:+ b) → flat a.
Proof. unfold flat. rewrite la_append. by intros [? ?]%Forall_app. Qed.

Lemma includes_cons (c : ascii) (s p : string) :
  Js.includes (String c s) p = String.prefix p (String c s) || Js.includes s p.
Proof. reflexivity. Qed.

Lemma prefix_char (d c : ascii) (s : string) :
  String.prefix (String d EmptyString) (String c s)
  = if ascii_dec d c then true else false.
Proof.
  change (String.prefix (String d EmptyString) (String c s))
    with (if ascii_dec d c then String.prefix EmptyString s else false).
  destruct (ascii_dec d c); [by destruct s|done].
Qed.

Lemma includes_char (d : ascii) (s : string) :
  Forall (fun c => c ≠ d) (la s) → Js.includes s (String d EmptyString) = false.
Proof.
  induction s as [|c s IH]; [done|].
  intros H. inversion H as [|? ? Hc Hs]; subst.
  rewrite includes_cons, prefix_char, IH by done.
  by destruct (ascii_dec d c) as [<-|_].
Qed.

Lemma includes_flat (s : string) :
  flat s → Js.includes s "/" = false ∧ Js.includes s "\" = false.
Proof.
  intros H. split; apply includes_char; eapply Forall_impl; try exact H;
    simpl; tauto.
Qed.

Lemma encodeFilename_flat (filename : string) : flat (encodeFilename filename).
Proof.
  unfold encodeFilename. cbv zeta.
  pose proof (replace_separators_flat filename) as Hflat.
  destruct (Js.endsWith (replace_separators filename) ".mdx") eqn:E;
    [|done].
  apply flat_append; [|by repeat constructor].
  apply endsWith_prefix in E. rewrite E in Hflat.
  by apply flat_beginning in Hflat.
Qed.

Lemma encodeFilename_not_mdx (filename : string) :
  Js.endsWith (encodeFilename filename) ".mdx" = false.
Proof.
  unfold encodeFilename. cbv zeta.
  destruct (Js.endsWith (replace_separators filename) ".mdx") eqn:E;
    [apply md_not_mdx|done].
Qed.

(** X18. The name under which a file is stored has no path separator and
    does not end with [.mdx]; encoding it again changes nothing, a name
    and the name with its separators replaced by [_] are stored under the
    same name, and so are [name.mdx] and [name.md]. *)
Theorem encodeFilename_flat_md (filename : string) :
  Js.includes (encodeFilename filename) "/" = false
  ∧ Js.includes (encodeFilename filename) "\" = false
  ∧ Js.endsWith (encodeFilename filename) ".mdx" = false
  ∧ encodeFilename (encodeFilename filename) = encodeFilename filename
  ∧ encodeFilename (replace_separators filename) = encodeFilename filename
  ∧ encodeFilename (filename +:+ ".mdx") = encodeFilename (filename +:+ ".md").
Proof.
  pose proof (encodeFilename_flat filename) as Hflat.
  destruct (includes_flat _ Hflat) as [H1 H2].
  repeat split; [done|done|apply encodeFilename_not_mdx| | |].
  - unfold encodeFilename at 1. cbv zeta.
    rewrite (replace_separators_id _ Hflat).
    by rewrite encodeFilename_not_mdx.
  - unfold encodeFilename. cbv zeta.
    by rewrite (replace_separators_id _ (replace_separators_flat filename)).
  - unfold encodeFilename. cbv zeta.
    assert (Happ : ∀ a b, replace_separators (a +:+ b)
                          = replace_separators a +:+ replace_separators b).
    { intros a b. induction a as [|c a IH]; simpl; [done|by rewrite IH]. }
    rewrite !Happ.
    change (replace_separators ".mdx") with ".mdx".
    change (replace_separators ".md") with ".md".
    rewrite md_not_mdx.
    rewrite (proj2 (endsWith_spec _ ".mdx")) by by eexists.
    f_equal. rewrite length_append.
    replace (String.length (replace_separators filename)
             + String.length ".mdx" - 4)%nat
      with (String.length (replace_separators filename)) by (simpl; lia).
    generalize (replace_separators filename). intros s.
    induction s as [|c s IH]; simpl; [done|by rewrite IH].
Qed.

(** ** The initial synchronisation *)

Section InitialSyncProperties.

Variable path_basename : string → string.
Variable path_join : string → string → string.
Variable tempDir : string.
Variable VECTOR_STORE_ID : option string.
Variable md_render : string → string.
Variable api : Api.t.
Variable fs : Fs.t.
Variable path_extname : string → string.
Variable base64_decode : string → string.
Variable getContent :
  nat → string → option string → string → string → Res Sync.data.

Lemma fetch_batch_fresh owner repo files k :
  Forall (fun file => Js.toLowerCase (path_extname file) ∈ SUPPORTED_EXTENSIONS)
         files →
  Forall (fresh_upload path_extname)
         (fetch_batch base64_decode getContent owner repo files k).
Proof.
  intros H. revert k. induction H as [|file files Hf H IH]; intros k; [done|].
  simpl. destruct (fetchFileContent _ _ _ _ _ _) as [content|]; [|apply IH].
  destruct (Js.truthy content) eqn:E; [|apply IH].
  constructor; [|apply IH]. done.
Qed.

Lemma getOrCreateVectorStore_requests repository who c :
  Trace.Request who c ∈ (getOrCreateVectorStore VECTOR_STORE_ID api repository).2 →
  c = Api.VsList ∨ ∃ name, c = Api.VsCreate name.
Proof.
  unfold getOrCreateVectorStore.
  destruct (Api.vs_list api); [|intros [= _ <-]%list_elem_of_singleton; by left].
  assert (Hcreate : ∀ name (r : Res string),
            Trace.Request who c
              ∈ (r, [Trace.Request None Api.VsList;
                     Trace.Request None (Api.VsCreate name)]).2 →
            c = Api.VsList ∨ ∃ name, c = Api.VsCreate name).
  { intros name r. simpl. rewrite !elem_of_cons.
    intros [[= _ ->]|[[= _ ->]|[]%elem_of_nil]]; [by left|right; by eexists]. }
  destruct VECTOR_STORE_ID as [vid|]; [|apply Hcreate].
  destruct (Js.truthy vid); [|apply Hcreate].
  intros [= _ <-]%list_elem_of_singleton. by left.
Qed.

Lemma processFileBatch_files now later rnd repository files :
  BatchJob.files
    (processFileBatch path_basename path_join tempDir VECTOR_STORE_ID md_render
       api fs now later rnd repository files).1 = files.
Proof.
  unfold processFileBatch.
  destruct (getOrCreateVectorStore _ _ _) as [[vs|e] tr]; [|done].
  by destruct (processBatchFiles _ _ _ _ _ _ _ _) as [[results|e] tr'].
Qed.

Lemma processFileBatch_added now later rnd repository files who c :
  Forall (fun f => FileChange.status f = FileChange.added) files →
  Trace.Request who c
    ∈ (processFileBatch path_basename path_join tempDir VECTOR_STORE_ID
         md_render api fs now later rnd repository files).2 →
  c = Api.VsList ∨ (∃ name, c = Api.VsCreate name) ∨ is_upload c.
Proof.
  intros Hall. unfold processFileBatch.
  pose proof (getOrCreateVectorStore_requests repository who c) as Hstore.
  destruct (getOrCreateVectorStore _ _ _) as [[vs|e] tr]; simpl in Hstore.
  - assert (Hup : Trace.Request who c
                    ∈ (processBatchFiles path_basename path_join tempDir
                         md_render api fs vs files).2 → is_upload c).
    { intros Hin.
      destruct (processBatchFiles_parts path_basename path_join tempDir
                  md_render api fs vs files)
        as (res1 & tr1 & tr2 & Htr & H1 & H2).
      rewrite Htr in Hin. rewrite (added_none_removed files Hall) in H1.
      destruct H1 as [(_ & _ & ->)|(Hne & _)]; [|done].
      destruct H2 as [(_ & -> & _)|(_ & H2)]; [by apply elem_of_nil in Hin|].
      replace tr2 with (batchAddOrUpdateFiles path_basename path_join tempDir
                          md_render api fs vs (toAddOrUpdate files) res1).2
        in Hin by by rewrite H2.
      apply batchAddOrUpdateFiles_requests in Hin as (tf & Hf & _ & Hc).
      apply list_elem_of_filter in Hf as [_ Hf].
      rewrite Forall_forall in Hall.
      by eapply (upload_callback_added api); eauto. }
    destruct (processBatchFiles _ _ _ _ _ _ _ _) as [[results|e] tr'];
      simpl in *; intros [Hin|Hin]%elem_of_app; try (by right; right; apply Hup);
      destruct (Hstore Hin) as [?|?]; tauto.
  - simpl. intros Hin. destruct (Hstore Hin) as [?|?]; tauto.
Qed.

(** X19. The initial synchronisation hands the batch processor added files
    only, each with content and a supported extension; the processor then
    looks for the vector store and uploads, and sends no request that
    lists, looks up or deletes a stored file.  The script ends with exit
    code 1, also after a synchronisation that went through. *)
Theorem initial_sync_uploads_only (fuel : nat) (now later : Z)
  (rnd repoFullName : string) (out : Sync.outcome) :
  main path_basename path_join tempDir VECTOR_STORE_ID md_render api fs
    path_extname base64_decode getContent fuel now later rnd repoFullName
  = Some out →
  Sync.code_of out = 1
  ∧ match out with
    | Sync.Synced job trace _ =>
        Forall (fresh_upload path_extname) (BatchJob.files job)
        ∧ ∀ who c, Trace.Request who c ∈ trace →
            c = Api.VsList ∨ (∃ name, c = Api.VsCreate name) ∨ is_upload c
    | Sync.Failed _ _ => True
    end.
Proof.
  unfold main. cbv zeta.
  destruct (listAllFiles _ _ _ _ _ _ _) as [[[allFiles|e] k]|];
    [|by intros [= <-]|done].
  set (owner := default _ _). set (repo := _ !! 1%nat).
  set (batch := fetch_batch _ _ _ _ _ _).
  assert (Hfresh : Forall (fresh_upload path_extname) batch).
  { apply fetch_batch_fresh. apply Forall_forall. intros file Hfile.
    by apply list_elem_of_filter in Hfile as [? _]. }
  pose proof (processFileBatch_files now later rnd repoFullName batch) as Hfiles.
  pose proof (processFileBatch_added now later rnd repoFullName batch) as Hreq.
  destruct (processFileBatch _ _ _ _ _ _ _ _ _ _ _ _) as [job trace].
  simpl in Hfiles, Hreq. intros [= <-]. split; [done|]. split.
  - by rewrite Hfiles.
  - intros who c Hin. apply (Hreq who c); [|done].
    eapply Forall_impl; [exact Hfresh|]. by intros f (? & _).
Qed.

(** *** The listing returns *)

Section Nesting.

(** The directories nest finitely deep: [h] bounds what is below. *)
Variable h : string → nat.
Hypothesis nested :
  ∀ k owner repo dir ref items item,
    getContent k owner repo dir ref = Ok (Sync.Items items) →
    item ∈ items → Sync.type item = Sync.dir →
    (h (Sync.path item) < h dir)%nat.

Variables (owner : string) (repo : option string) (ref : string).

Lemma list_items_returns (n : nat) (items : list Sync.item) :
  (∀ dir, (h dir < n)%nat → ∀ k, ∃ r, ∀ f, (h dir < f)%nat →
     listAllFiles getContent f owner repo ref dir k = Some r) →
  (∀ item, item ∈ items → Sync.type item = Sync.dir →
     (h (Sync.path item) < n)%nat) →
  ∀ files k, ∃ r, ∀ f, (n ≤ f)%nat →
    list_items (listAllFiles getContent f owner repo ref) items files k = Some r.
Proof.
  intros IH. induction items as [|item items IHitems]; intros Hdirs files k.
  - by eexists.
  - assert (Hrest : ∀ item', item' ∈ items → Sync.type item' = Sync.dir →
                      (h (Sync.path item') < n)%nat).
    { intros item' Hin. apply Hdirs. by right. }
    simpl. destruct (Sync.type item) eqn:Etype.
    + by apply IHitems.
    + destruct (IH (Sync.path item) (Hdirs item ltac:(by left) Etype) k)
        as [[[subFiles|e] k'] Hr].
      * destruct (IHitems Hrest (files ++ subFiles) k') as [r Hloop].
        exists r. intros f Hf. rewrite Hr by
          (pose proof (Hdirs item ltac:(by left) Etype); lia).
        by apply Hloop.
      * exists (Throw e, k'). intros f Hf. by rewrite Hr by
          (pose proof (Hdirs item ltac:(by left) Etype); lia).
    + by apply IHitems.
Qed.

Lemma listAllFiles_returns (n : nat) :
  ∀ dir, (h dir < n)%nat → ∀ k, ∃ r, ∀ f, (h dir < f)%nat →
    listAllFiles getContent f owner repo ref dir k = Some r.
Proof.
  induction n as [|n IH]; intros dir Hn k; [lia|].
  destruct (getContent k owner repo dir ref) as [[items|content]|e] eqn:E.
  - destruct (list_items_returns (h dir) items) with (files := @nil string)
                                                      (k := S k) as [r Hr].
    + intros dir' Hlt. apply IH. lia.
    + intros item Hin Hdir. by eapply nested.
    + exists r. intros [|f] Hf; [lia|]. simpl. rewrite E. apply Hr. lia.
  - exists (Ok [], S k). intros [|f] Hf; [lia|]. simpl. by rewrite E.
  - exists (Throw e, S k). intros [|f] Hf; [lia|]. simpl. by rewrite E.
Qed.

End Nesting.

(** X20. When the directories that the host lists nest finitely deep, the
    initial synchronisation comes to an end: with a bound above that
    depth the script has an outcome, and it is the same outcome for every
    such bound. *)
Theorem initial_sync_ends (h : string → nat) (fuel : nat) (now later : Z)
  (rnd repoFullName : string) :
  (∀ k owner repo dir ref items item,
     getContent k owner repo dir ref = Ok (Sync.Items items) →
     item ∈ items → Sync.type item = Sync.dir →
     (h (Sync.path item) < h dir)%nat) →
  (h "" < fuel)%nat →
  ∃ out,
    main path_basename path_join tempDir VECTOR_STORE_ID md_render api fs
      path_extname base64_decode getContent fuel now later rnd repoFullName
    = Some out
    ∧ ∀ fuel', (h "" < fuel')%nat →
        main path_basename path_join tempDir VECTOR_STORE_ID md_render api fs
          path_extname base64_decode getContent fuel' now later rnd
          repoFullName
        = Some out.
Proof.
  intros Hnested Hfuel. unfold main. cbv zeta.
  set (owner := default _ _). set (repo := _ !! 1%nat).
  destruct (listAllFiles_returns h Hnested owner repo "main" (S (h ""))
              "" ltac:(lia) 0%nat) as [[[allFiles|e] k] Hr].
  - destruct (processFileBatch path_basename path_join tempDir
                VECTOR_STORE_ID md_render api fs now later rnd repoFullName
                (fetch_batch base64_decode getContent owner repo
                   (filter (fun file =>
                              Js.toLowerCase (path_extname file)
                                ∈ SUPPORTED_EXTENSIONS) allFiles) k))
      as [job trace] eqn:E.
    exists (Sync.Synced job trace 1). split.
    + rewrite Hr by done. by rewrite E.
    + intros fuel' Hfuel'. rewrite Hr by done. by rewrite E.
  - exists (Sync.Failed e 1). split.
    + by rewrite Hr.
    + intros fuel' Hfuel'. by rewrite Hr.
Qed.

End InitialSyncProperties.

Lemma initial_sync_uploads_only_witness :
  ∃ out,
    main (fun s => s) (fun a b => a +:+ "/" +:+ b) "/tmp" (Some "vs_1")
      (fun s => s) store_ab fs_ok extname_of (fun s => s) small_repo
      3 1700000000000 1700000000500 "k3v9x2q1a" "acme/docs"
    = Some out
    ∧ Sync.code_of out = 1
    ∧ match out with
      | Sync.Synced job trace _ =>
          Forall (fresh_upload extname_of) (BatchJob.files job)
          ∧ ∀ who c, Trace.Request who c ∈ trace →
              c = Api.VsList ∨ (∃ name, c = Api.VsCreate name) ∨ is_upload c
      | Sync.Failed _ _ => True
      end.
Proof.
  eexists. split; [vm_compute; reflexivity|].
  apply (initial_sync_uploads_only (fun s => s) (fun a b => a +:+ "/" +:+ b)
           "/tmp" (Some "vs_1") (fun s => s) store_ab fs_ok extname_of
           (fun s => s) small_repo 3 1700000000000 1700000000500 "k3v9x2q1a"
           "acme/docs").
  vm_compute. reflexivity.
Defined.

Lemma small_repo_nested (k : nat) (owner : string) (repo : option string)
  (dir ref : string) (items : list Sync.item) (item : Sync.item) :
  small_repo k owner repo dir ref = Ok (Sync.Items items) →
  item ∈ items → Sync.type item = Sync.dir →
  (depth_of (Sync.path item) < depth_of dir)%nat.
Proof.
  unfold small_repo.
  repeat match goal with
         | |- context [String.eqb dir ?x] =>
             destruct (String.eqb_spec dir x) as [->|?]
         end;
    intros Heq; try discriminate Heq; injection Heq as <-;
    rewrite ?elem_of_cons;
    intros Hin Hdir;
    repeat (destruct Hin as [->|Hin]; [try done; unfold depth_of; simpl; lia|]);
    by apply elem_of_nil in Hin.
Qed.

Lemma initial_sync_ends_witness :
  ∃ out,
    main (fun s => s) (fun a b => a +:+ "/" +:+ b) "/tmp" (Some "vs_1")
      (fun s => s) store_ab fs_ok extname_of (fun s => s) small_repo
      2 1700000000000 1700000000500 "k3v9x2q1a" "acme/docs"
    = Some out
    ∧ ∀ fuel', (1 < fuel')%nat →
        main (fun s => s) (fun a b => a +:+ "/" +:+ b) "/tmp" (Some "vs_1")
          (fun s => s) store_ab fs_ok extname_of (fun s => s) small_repo
          fuel' 1700000000000 1700000000500 "k3v9x2q1a" "acme/docs"
        = Some out.
Proof.
  apply (initial_sync_ends (fun s => s) (fun a b => a +:+ "/" +:+ b) "/tmp"
           (Some "vs_1") (fun s => s) store_ab fs_ok extname_of (fun s => s)
           small_repo depth_of 2 1700000000000 1700000000500 "k3v9x2q1a"
           "acme/docs").
  - apply small_repo_nested.
  - unfold depth_of. simpl. lia.
Defined.

(** ** The warning callout in a page *)

(** *** Every match that the matcher finds is a match *)

Lemma star_sound (m : Re.state → Re.cont → option Re.state)
  (R : Re.state → Re.state → Prop) g :
  (∀ st k x, m st k = Some x → ∃ st', R st st' ∧ k st' = Some x) →
  ∀ n st k x, Re.star m g n st k = Some x →
  ∃ st', iter R st st' ∧ k st' = Some x.
Proof.
  intros Hm. induction n as [|n IH]; intros st k x; simpl.
  - intros H. exists st. split; [constructor|done].
  - set (again := m st _).
    assert (Hagain : again = Some x → ∃ st', iter R st st' ∧ k st' = Some x).
    { intros Ha. apply Hm in Ha as (st1 & HR & Hk).
      destruct (_ <? _)%nat; [|done].
      apply IH in Hk as (st' & Hit & Hk). exists st'.
      split; [by econstructor|done]. }
    destruct g.
    + destruct again as [y|] eqn:E.
      * intros [= ->]. by apply Hagain.
      * intros Hk. exists st. split; [constructor|done].
    + destruct (k st) as [y|] eqn:E.
      * intros [= ->]. exists st. split; [constructor|done].
      * done.
Qed.

Lemma run_sound f r :
  ∀ st k x, Re.run f r st k = Some x →
  ∃ st', spans f r st st' ∧ k st' = Some x.
Proof.
  induction r as [|c|neg items| |r1 IH1 r2 IH2|r1 IH1 r2 IH2|g r IH|r IH
                  |n r IH|n| |]; intros st k x; simpl.
  - intros H. by exists st.
  - destruct (Re.rest st) as [|d tl] eqn:E; [done|].
    destruct (Re.chr_eq f c d) eqn:Ec; [|done]. intros H.
    eexists. split; [|done]. by exists d, tl.
  - destruct (Re.rest st) as [|d tl] eqn:E; [done|].
    destruct (xorb neg _) eqn:Ec; [|done]. intros H.
    eexists. split; [|done]. by exists d, tl.
  - destruct (Re.rest st) as [|d tl] eqn:E; [done|].
    destruct (Re.is_newline d) eqn:Ec; [done|]. intros H.
    eexists. split; [|done]. by exists d, tl.
  - intros H. apply IH1 in H as (mid & H1 & H).
    apply IH2 in H as (st' & H2 & H). exists st'. split; [by exists mid|done].
  - destruct (Re.run f r1 st k) as [y|] eqn:E.
    + intros [= ->]. apply IH1 in E as (st' & H1 & H). exists st'.
      split; [by left|done].
    + intros H. apply IH2 in H as (st' & H2 & H). exists st'.
      split; [by right|done].
  - apply star_sound. exact IH.
  - destruct (Re.run f r st k) as [y|] eqn:E.
    + intros [= ->]. apply IH in E as (st' & H1 & H). exists st'.
      split; [by left|done].
    + intros H. exists st. split; [by right|done].
  - intros H. apply IH in H as (st1 & H1 & H).
    eexists. split; [|exact H]. by exists st1.
  - destruct (Re.eat f _ st) as [st'|] eqn:E; [|done]. intros H.
    by exists st'.
  - unfold bol. destruct (Re.before st) as [|c b] eqn:E.
    + intros H. by exists st.
    + destruct (Re.multiline f && Re.is_newline c) eqn:Ec; [|done].
      intros H. by exists st.
  - unfold eol. destruct (Re.rest st) as [|c l] eqn:E.
    + intros H. by exists st.
    + destruct (Re.multiline f && Re.is_newline c) eqn:Ec; [|done].
      intros H. by exists st.
Qed.

Lemma match_here_sound f r b l caps st' :
  Re.match_here f r (Re.mkState b l caps) = Some st' →
  spans f r (Re.mkState b l []) st'.
Proof.
  unfold Re.match_here. intros H.
  apply run_sound in H as (st'' & H & [= ->]). exact H.
Qed.

(** The characters that a run of single steps consumes. *)
Lemma iter_step_over P st st' :
  iter (step_over P) st st' →
  ∃ m, Forall P m ∧ Re.rest st = m ++ Re.rest st'
       ∧ Re.before st' = rev m ++ Re.before st ∧ Re.caps st' = Re.caps st.
Proof.
  induction 1 as [st|st mid st' (d & tl & Hr & Hd & ->) _ IH].
  - by exists [].
  - destruct IH as (m & Hm & Hrest & Hbef & Hcaps). simpl in *.
    exists (d :: m). split; [by constructor|].
    split; [by rewrite Hr, Hrest|]. split; [|done].
    rewrite Hbef. simpl. by rewrite <- app_assoc.
Qed.

Lemma spans_lit f w st st' :
  Re.ignoreCase f = false → spans f (Re.lit w) st st' →
  Re.rest st = w ++ Re.rest st' ∧ Re.before st' = rev w ++ Re.before st
  ∧ Re.caps st' = Re.caps st.
Proof.
  intros Hf. revert st. induction w as [|c w IH]; intros st.
  - simpl. by intros ->.
  - assert (Hc : ∀ st1, step_over (fun d => Re.chr_eq f c d = true) st st1 →
                   Re.rest st = c :: Re.rest st1
                   ∧ Re.before st1 = c :: Re.before st
                   ∧ Re.caps st1 = Re.caps st).
    { intros st1 (d & tl & Hr & Hd & ->). unfold Re.chr_eq in Hd.
      rewrite Hf in Hd. apply Ascii.eqb_eq in Hd as <-. by rewrite Hr. }
    destruct w as [|c' w].
    + simpl. intros H. by apply Hc in H.
    + change (Re.lit (c :: c' :: w)) with (Re.Seq (Re.Chr c) (Re.lit (c' :: w))).
      simpl. intros (mid & H1 & H2). apply Hc in H1 as (Hr & Hb & Hcp).
      apply IH in H2 as (Hr2 & Hb2 & Hcp2).
      split; [by rewrite Hr, Hr2|]. split; [|congruence].
      rewrite Hb2, Hb. cbn [rev]. by rewrite <- !app_assoc.
Qed.

Lemma class_space f d :
  Re.ignoreCase f = false → Re.class_has f [Re.SpaceItem] d = Re.is_space d.
Proof.
  intros Hf. unfold Re.class_has. rewrite Hf. simpl.
  by rewrite !orb_false_r.
Qed.

(** What a match of a statement pattern consists of. *)
Lemma statement_spans word b l st' :
  Re.match_here gm (statement_re word) (Re.mkState b l []) = Some st' →
  bol gm b = true
  ∧ ∃ s ws dots,
      Re.is_space s = true ∧ Forall (fun d => Re.is_space d = true) ws
      ∧ Forall (fun d => Re.is_newline d = false) dots
      ∧ l = la word ++ s :: ws ++ dots ++ Re.rest st'
      ∧ Re.before st' = rev (la word ++ s :: ws ++ dots) ++ b
      ∧ eol gm (Re.rest st') = true.
Proof.
  intros H. apply match_here_sound in H. rewrite statement_re_shape in H.
  cbn [spans] in H.
  destruct H as (st1 & [-> Hbol] & st2 & Hlit & st3
                 & (st4 & Hs & Hws) & st5 & Hdots & -> & Heol).
  apply spans_lit in Hlit as (Hr2 & Hb2 & _); [|done].
  destruct Hs as (s & tl & Hr4 & Hs & ->).
  rewrite xorb_false_l, class_space in Hs by done.
  apply iter_step_over in Hws as (ws & Hws & Hr3 & Hb3 & _).
  apply iter_step_over in Hdots as (dots & Hdots & Hr5 & Hb5 & _).
  cbn [Re.rest Re.before] in *.
  split; [done|]. exists s, ws, dots.
  split; [done|]. split.
  { eapply Forall_impl; [exact Hws|]. cbv beta. intros d Hd.
    by rewrite xorb_false_l, class_space in Hd. }
  split; [done|]. split; [|split; [|done]].
  - rewrite Hr2, Hr4, Hr3, Hr5. done.
  - rewrite Hb5, Hb3, Hb2. rewrite !rev_app_distr. cbn [rev].
    rewrite !rev_app_distr. by rewrite <- !app_assoc.
Qed.

(** *** Lines *)

Lemma split_lines_spec l :
  l = unlines (split_lines l).1 ++ (split_lines l).2
  ∧ Forall (fun p => not_newline p.1 ∧ Re.is_newline p.2 = true)
           (split_lines l).1
  ∧ not_newline (split_lines l).2.
Proof.
  induction l as [|d l (IH1 & IH2 & IH3)]; [by repeat constructor|].
  simpl. destruct (split_lines l) as [ls last]. simpl in *.
  destruct (Re.is_newline d) eqn:E.
  - simpl. split; [by f_equal|]. split; [|done].
    constructor; [|done]. split; [constructor|done].
  - destruct ls as [|[l0 e] ls]; simpl in *.
    + split; [by f_equal|]. split; [done|]. by constructor.
    + split; [by f_equal|]. split; [|done].
      inversion IH2 as [|? ? [H1 H2] H3]; subst.
      constructor; [|done]. split; [by constructor|done].
Qed.

(** *** Statements before the fragment *)

Lemma rep_caps f r tpl b l caps :
  rep f r tpl (Re.mkState b l caps) = rep f r tpl (Re.mkState b l []).
Proof. reflexivity. Qed.

(** Inside a line nothing matches a pattern that begins with [^]. *)
Lemma rep_bol_run f r' tpl X :
  not_newline X → ∀ d b l caps, Re.is_newline d = false →
  rep f (Re.Seq Re.Bol r') tpl (Re.mkState (d :: b) (X ++ l) caps)
  = X ++ rep f (Re.Seq Re.Bol r') tpl (Re.mkState (rev X ++ d :: b) l []).
Proof.
  induction 1 as [|x X Hx HX IH]; intros d b l caps Hd.
  - apply rep_caps.
  - simpl. rewrite rep_step_none by (by apply match_here_bol_inside).
    f_equal. rewrite IH by done. by rewrite <- app_assoc.
Qed.

Lemma statement_word_chars w :
  w ∈ statement_words →
  Forall (fun d => Re.is_newline d = false ∧ d ≠ "<"%char) (la w).
Proof.
  intros [->|[->|[]%elem_of_nil]%elem_of_cons]%elem_of_cons;
    repeat constructor; done.
Qed.

Lemma begins_split w l : begins w l = true → l = w ++ drop (length w) l.
Proof.
  revert l. induction w as [|c w IH]; intros l; [done|].
  destruct l as [|d l]; [done|]. simpl.
  intros [Hc Hw]%andb_true_iff. apply Ascii.eqb_eq in Hc as ->.
  f_equal. by apply IH.
Qed.

Lemma drop_spaces_split l :
  ∃ ws, Forall (fun d => Re.is_space d = true) ws
        ∧ l = ws ++ drop_spaces l
        ∧ match drop_spaces l with
          | [] => True
          | c :: _ => Re.is_space c = false
          end.
Proof.
  induction l as [|d l (ws & Hws & Hl & Hc)];
    [exists []; split; [constructor|done]|].
  simpl. destruct (Re.is_space d) eqn:E.
  - exists (d :: ws). split; [by constructor|].
    split; [simpl; by f_equal|done].
  - exists []. split; [constructor|done].
Qed.

(** A statement that a line opens. *)
Lemma line_opens w l0 e tail s T :
  Forall (fun d => Re.is_newline d = false) w →
  Re.is_newline e = true → Re.is_space s = true →
  l0 ++ e :: tail = w ++ s :: T →
  opens w l0 = true.
Proof.
  intros Hw He Hs. unfold opens. revert l0.
  induction Hw as [|c w Hc Hw IH]; intros l0 Heq.
  - simpl. destruct l0 as [|d l0]; [done|].
    simpl in Heq. by injection Heq as -> _.
  - destruct l0 as [|d l0]; simpl in Heq.
    + injection Heq as -> _. congruence.
    + injection Heq as -> Heq. simpl. rewrite Ascii.eqb_refl. simpl.
      by apply IH.
Qed.

Lemma last_opens w l T s T' :
  Forall (fun d => d ≠ "<"%char) w → Re.is_space s = true →
  l ++ "<"%char :: T = w ++ s :: T' →
  begins w l
  && match drop (length w) l with
     | [] => false
     | s' :: _ => Re.is_space s'
     end = true.
Proof.
  intros Hw Hs. revert l. induction Hw as [|c w Hc Hw IH]; intros l Heq.
  - simpl. destruct l as [|d l]; simpl in Heq.
    + injection Heq as <- _. done.
    + by injection Heq as -> _.
  - destruct l as [|d l]; simpl in Heq.
    + injection Heq as <- _. done.
    + injection Heq as -> Heq. simpl. rewrite Ascii.eqb_refl. simpl.
      by apply IH.
Qed.

Lemma spaces_prefix A c T S R :
  Forall (fun d => Re.is_space d = true) A → Re.is_space c = false →
  Forall (fun d => Re.is_space d = true) S →
  A ++ c :: T = S ++ R → ∃ A1, A = S ++ A1 ∧ R = A1 ++ c :: T.
Proof.
  intros HA Hc HS. revert A HA.
  induction HS as [|x S Hx HS IH]; intros A HA Heq.
  - by exists A.
  - destruct A as [|a A]; simpl in Heq.
    + injection Heq as -> _. congruence.
    + injection Heq as -> Heq. inversion HA; subst.
      destruct (IH A) as (A1 & -> & ->); [done..|]. by exists A1.
Qed.

Lemma line_split L e T D R :
  not_newline L → Re.is_newline e = true → not_newline D →
  eol gm R = true → D ++ R = L ++ e :: T → D = L ∧ R = e :: T.
Proof.
  intros HL He HD HR. revert D HD.
  induction HL as [|x L Hx HL IH]; intros D HD Heq.
  - destruct D as [|d D]; simpl in Heq; [done|].
    injection Heq as -> _. inversion HD; congruence.
  - destruct D as [|d D]; simpl in Heq.
    + subst R. simpl in HR. congruence.
    + injection Heq as -> Heq. inversion HD; subst.
      destruct (IH D) as [-> ->]; done.
Qed.

Lemma is_space_newline d : Re.is_newline d = true → Re.is_space d = true.
Proof.
  unfold Re.is_newline, Re.is_space. cbv zeta.
  intros [H|H]%orb_true_iff; apply Nat.eqb_eq in H; rewrite H; done.
Qed.

Section StatementPass.

Variable word : string.
Hypothesis word_in : word ∈ statement_words.

(** A complete line: the statement that it opens is removed, anything else
    stays. *)
Lemma statement_pass_line l0 e b tail :
  not_newline l0 → Re.is_newline e = true → settled_line l0 = true →
  bol gm b = true →
  ∃ l0' b', (l0' = l0 ∨ l0' = []) ∧ bol gm b' = true
    ∧ rep gm (statement_re word) [] (Re.mkState b (l0 ++ e :: tail) [])
      = l0' ++ e :: rep gm (statement_re word) [] (Re.mkState b' tail []).
Proof.
  intros Hl0 He Hset Hbol.
  assert (Hword : implb (opens (la word) l0) (goes_on (la word) l0) = true).
  { unfold settled_line in Hset. rewrite forallb_forall in Hset.
    apply Hset. apply list_elem_of_In. exact word_in. }
  pose proof (statement_word_chars word word_in) as Hchars.
  assert (Hat_e : ∀ z b'' caps, Re.is_newline z = false →
            rep gm (statement_re word) [] (Re.mkState (z :: b'') (e :: tail) caps)
            = e :: rep gm (statement_re word) [] (Re.mkState (e :: z :: b'') tail [])).
  { intros z b'' caps Hz. rewrite statement_re_shape.
    rewrite rep_step_none; [done|]. by apply match_here_bol_inside. }
  destruct (Re.match_here gm (statement_re word) (Re.mkState b (l0 ++ e :: tail) []))
    as [st'|] eqn:Hm.
  - (* the line opens a statement *)
    pose proof Hm as Hshape. apply statement_spans in Hshape
      as (_ & s & ws & dots & Hs & Hws & Hdots & Heq & Hbef & Heol).
    assert (Hopen : opens (la word) l0 = true).
    { eapply (line_opens _ _ e tail s); [|done|done|exact Heq].
      eapply Forall_impl; [exact Hchars|]. by intros ? [? _]. }
    rewrite Hopen in Hword. simpl in Hword.
    unfold opens in Hopen. apply andb_true_iff in Hopen as [Hbeg _].
    apply begins_split in Hbeg.
    unfold goes_on in Hword.
    destruct (drop_spaces_split (drop (length (la word)) l0))
      as (ws0 & Hws0 & Hdrop & Hsolid).
    destruct (drop_spaces (drop (length (la word)) l0)) as [|c rest0];
      [done|].
    rewrite Hdrop in Hbeg.
    assert (Hparts : not_newline ws0 ∧ Re.is_newline c = false
                     ∧ not_newline rest0).
    { rewrite Hbeg in Hl0. apply Forall_app in Hl0 as [_ Hl0].
      apply Forall_app in Hl0 as [H1 H2]. inversion H2; subst. done. }
    destruct Hparts as (Hnl_ws0 & Hnl_c & Hnl_rest0).
    rewrite Hbeg in Heq. rewrite <- !app_assoc in Heq.
    apply app_inv_head in Heq. simpl in Heq.
    change (s :: ws ++ dots ++ Re.rest st')
      with ((s :: ws) ++ dots ++ Re.rest st') in Heq.
    apply spaces_prefix in Heq as (A1 & HA1 & Hrest);
      [|done|done|by constructor].
    assert (Hline : dots = A1 ++ c :: rest0 ∧ Re.rest st' = e :: tail).
    { apply (line_split (A1 ++ c :: rest0) e tail); [|done|done|done|].
      - apply Forall_app. split; [|by constructor].
        rewrite HA1 in Hnl_ws0. by apply Forall_app in Hnl_ws0 as [_ ?].
      - rewrite Hrest. by rewrite <- app_assoc. }
    destruct Hline as [Hd Hr].
    destruct st' as [bf rs cp]. cbn [Re.rest Re.before] in *. subst rs.
    assert (Hlast : ∃ z b'', bf = z :: b'' ∧ Re.is_newline z = false).
    { rewrite Hbef. rewrite !rev_app_distr.
      change (rev (s :: ws ++ dots)) with (rev (ws ++ dots) ++ [s]).
      rewrite rev_app_distr.
      destruct (rev dots) as [|z r] eqn:Erev.
      { apply (f_equal (@rev ascii)) in Erev. rewrite rev_involutive in Erev.
        rewrite Hd in Erev. by destruct A1. }
      exists z. eexists. split; [by rewrite <- !app_assoc|].
      pose proof (Forall_rev Hdots) as Hrev. rewrite Erev in Hrev.
      by inversion Hrev. }
    destruct Hlast as (z & b'' & -> & Hz).
    exists [], (e :: z :: b''). split; [by right|].
    split; [simpl; by rewrite He|].
    rewrite (rep_step_some gm _ _ _ _ eq_refl Hm).
    + cbn [Re.expand flat_map app]. by apply Hat_e.
    + cbn [Re.rest]. rewrite length_app. simpl.
      assert (0 < length l0)%nat; [|lia].
      rewrite Hbeg, !length_app. simpl. lia.
  - (* no statement at the beginning of the line *)
    destruct l0 as [|d l1].
    + exists [], (e :: b). split; [by left|].
      split; [simpl; by rewrite He|].
      simpl. by rewrite rep_step_none.
    + inversion Hl0 as [|? ? Hd Hl1]; subst.
      exists (d :: l1), (e :: rev l1 ++ d :: b). split; [by left|].
      split; [simpl; by rewrite He|].
      simpl. rewrite rep_step_none by done. f_equal.
      rewrite statement_re_shape.
      rewrite rep_bol_run by done. f_equal.
      destruct (rev l1) as [|z r] eqn:Erev.
      * simpl. rewrite <- statement_re_shape. by apply Hat_e.
      * simpl. rewrite <- statement_re_shape. apply Hat_e.
        pose proof (Forall_rev Hl1) as Hrev. rewrite Erev in Hrev.
        by inversion Hrev.
Qed.

Lemma statement_pass_lines ls :
  Forall (fun p => not_newline p.1 ∧ Re.is_newline p.2 = true
                   ∧ settled_line p.1 = true) ls →
  ∀ b tail, bol gm b = true →
  ∃ ls' b',
    Forall2 (fun p p' => p'.2 = p.2 ∧ (p'.1 = p.1 ∨ p'.1 = [])) ls ls'
    ∧ bol gm b' = true
    ∧ rep gm (statement_re word) [] (Re.mkState b (unlines ls ++ tail) [])
      = unlines ls' ++ rep gm (statement_re word) [] (Re.mkState b' tail []).
Proof.
  induction 1 as [|[l0 e] ls (Hl0 & He & Hset) _ IH]; intros b tail Hbol.
  - exists [], b. by repeat split.
  - simpl in *.
    destruct (statement_pass_line l0 e b (unlines ls ++ tail))
      as (l0' & b1 & Hl0' & Hb1 & Hrep); [done..|].
    destruct (IH b1 tail Hb1) as (ls' & b' & Hls' & Hb' & Hrep').
    exists ((l0', e) :: ls'), b'. split; [by constructor|]. split; [done|].
    unfold unlines in *. simpl. rewrite <- !app_assoc. simpl.
    rewrite Hrep. by rewrite Hrep'.
Qed.

(** The line of the fragment: nothing is removed up to the end of the
    fragment. *)
Lemma statement_pass_last last F b post :
  not_newline last → settled_last last = true → not_newline F →
  bol gm b = true →
  ∃ b', rep gm (statement_re word) [] (Re.mkState b (last ++ "<"%char :: F ++ post) [])
        = last ++ "<"%char :: F ++ rep gm (statement_re word) [] (Re.mkState b' post []).
Proof.
  intros Hlast Hset HF Hbol.
  pose proof (statement_word_chars word word_in) as Hchars.
  assert (Hnone : Re.match_here gm (statement_re word)
                    (Re.mkState b (last ++ "<"%char :: F ++ post) []) = None).
  { destruct (Re.match_here _ _ _) as [st'|] eqn:Hm; [|done].
    apply statement_spans in Hm
      as (_ & s & ws & dots & Hs & _ & _ & Heq & _).
    apply last_opens in Heq; [|by eapply Forall_impl; [exact Hchars|];
                                  intros ? [_ ?]|done].
    unfold settled_last in Hset. rewrite forallb_forall in Hset.
    specialize (Hset word). rewrite Heq in Hset.
    specialize (Hset (proj1 (list_elem_of_In _ _) word_in)). done. }
  set (X := last ++ "<"%char :: F).
  assert (HX : not_newline X).
  { apply Forall_app. split; [done|]. by constructor. }
  assert (Heq : last ++ "<"%char :: F ++ post = X ++ post).
  { unfold X. by rewrite <- app_assoc. }
  assert (Heq' : ∀ t, last ++ "<"%char :: F ++ t = X ++ t).
  { intros t. unfold X. by rewrite <- app_assoc. }
  rewrite Heq in Hnone.
  destruct X as [|d X1] eqn:EX; [by destruct last|].
  inversion HX; subst.
  exists (rev X1 ++ d :: b).
  rewrite (Heq' post), (Heq' (rep _ _ _ _)).
  simpl in Hnone |- *. rewrite rep_step_none by done. f_equal.
  rewrite statement_re_shape. by apply rep_bol_run.
Qed.

End StatementPass.

(** What a pass over the statements leaves of the lines: a line stays or
    becomes empty. *)
Lemma statement_pass word ls last F post :
  word ∈ statement_words →
  Forall (fun p => not_newline p.1 ∧ Re.is_newline p.2 = true
                   ∧ settled_line p.1 = true) ls →
  not_newline last → settled_last last = true → not_newline F →
  ∃ ls' post',
    Forall2 (fun p p' => p'.2 = p.2 ∧ (p'.1 = p.1 ∨ p'.1 = [])) ls ls'
    ∧ Re.replace gm (statement_re word) []
        (String.string_of_list_ascii
           (unlines ls ++ last ++ "<"%char :: F ++ post))
      = String.string_of_list_ascii
          (unlines ls' ++ last ++ "<"%char :: F ++ post').
Proof.
  intros Hw Hls Hlast Hset HF. rewrite replace_list.
  destruct (statement_pass_lines word Hw ls Hls []
              (last ++ "<"%char :: F ++ post) eq_refl)
    as (ls' & b' & Hrel & Hb' & Hrep).
  destruct (statement_pass_last word Hw last F b' post Hlast Hset HF Hb')
    as (b'' & Hrep').
  exists ls'. eexists. split; [done|]. by rewrite Hrep, Hrep'.
Qed.

Lemma lines_kept ls ls' :
  Forall2 (fun p p' : list ascii * ascii =>
             p'.2 = p.2 ∧ (p'.1 = p.1 ∨ p'.1 = [])) ls ls' →
  Forall (fun p => not_newline p.1 ∧ Re.is_newline p.2 = true
                   ∧ settled_line p.1 = true) ls →
  Forall (fun p => not_newline p.1 ∧ Re.is_newline p.2 = true
                   ∧ settled_line p.1 = true) ls'.
Proof.
  induction 1 as [|p p' ls ls' [He Hl] _ IH]; [done|].
  intros Hall. inversion Hall as [|? ? (H1 & H2 & H3) Hrest]; subst.
  constructor; [|by apply IH]. rewrite He.
  destruct Hl as [->| ->]; [done|]. split; [constructor|done].
Qed.

Lemma unlines_kept (P : ascii → Prop) ls ls' :
  Forall2 (fun p p' : list ascii * ascii =>
             p'.2 = p.2 ∧ (p'.1 = p.1 ∨ p'.1 = [])) ls ls' →
  Forall P (unlines ls) → Forall P (unlines ls').
Proof.
  induction 1 as [|p p' ls ls' [He Hl] _ IH]; [done|].
  unfold unlines. simpl. fold (unlines ls). fold (unlines ls').
  rewrite !Forall_app. intros ([H1 H2] & H3).
  split; [|by apply IH]. rewrite He. split; [|done].
  destruct Hl as [->| ->]; [done|constructor].
Qed.

(** *** The rules for the elements, when no tag opens before the fragment *)

Lemma no_tag_none f l :
  Forall (fun d => d ≠ "<"%char) l → none_begins f "<" l.
Proof.
  intros H. eapply Forall_impl; [exact H|]. cbv beta. intros d Hd.
  apply chr_eq_ne; [done|left; by apply Nat.ltb_lt|done].
Qed.

Lemma fragment_split post :
  la warning_fragment ++ post
  = "<"%char :: ("W"%char :: la "arning>Data loss risk")
      ++ "<"%char :: ("/"%char :: la "Warning>") ++ post.
Proof. reflexivity. Qed.

Lemma note_rule_passes X post tpl :
  Forall (fun d => d ≠ "<"%char) X →
  ∃ post',
    Re.replace gi (element ["Callout"; "Note"; "Info"]) tpl
      (String.string_of_list_ascii (X ++ la warning_fragment ++ post))
    = String.string_of_list_ascii (X ++ la warning_fragment ++ post').
Proof.
  intros HX. rewrite replace_list.
  rewrite (rep_skip _ _ _ "<"%char X); [|done|by apply no_tag_none].
  rewrite (fragment_split post).
  rewrite rep_step_none by apply note_not_at_open.
  rewrite (rep_skip _ _ _ "<"%char ("W"%char :: la "arning>Data loss risk"));
    [|done|by repeat constructor].
  rewrite rep_step_none by apply note_not_at_close.
  rewrite (rep_skip _ _ _ "<"%char ("/"%char :: la "Warning>"));
    [|done|by repeat constructor].
  eexists. rewrite fragment_split. reflexivity.
Qed.

Lemma warning_rule_rewrites X post :
  Forall (fun d => d ≠ "<"%char) X →
  ∃ post',
    Re.replace gi (element ["Warning"; "Alert"])
      [Re.Lit "> **⚠️ Warning:** "; Re.Grp_ 3]
      (String.string_of_list_ascii (X ++ la warning_fragment ++ post))
    = String.string_of_list_ascii (X ++ la warning_quote ++ post').
Proof.
  intros HX. rewrite replace_list.
  rewrite (rep_skip _ _ _ "<"%char X); [|done|by apply no_tag_none].
  destruct (warning_matches (rev X ++ []) (la "Data loss risk") post
              (match X with [] => [] | _ => [] end)) as [b' Hm];
    [by repeat constructor|].
  change (la warning_fragment ++ post)
    with (la "<Warning>" ++ la "Data loss risk" ++ la "</Warning>" ++ post).
  rewrite (rep_step_some gi _ _ _ _ eq_refl Hm).
  - eexists. reflexivity.
  - cbn [Re.rest]. rewrite !length_app. simpl. lia.
Qed.

Lemma later_rules_pass cs X :
  Forall (fun c : Re.flags * Re.t * list Re.piece =>
            first_char (c.1.2) = Some "<"%char) cs →
  Forall (fun d => d ≠ "<"%char) X →
  ∀ post, ∃ post',
    fold_left (fun acc c => Re.replace (c.1.1) (c.1.2) (c.2) acc) cs
      (String.string_of_list_ascii (X ++ post))
    = String.string_of_list_ascii (X ++ post').
Proof.
  intros Hcs HX. induction Hcs as [|c cs Hc Hcs IH]; intros post.
  - by exists post.
  - simpl. rewrite replace_list.
    rewrite (rep_skip _ _ _ "<"%char X); [|done|by apply no_tag_none].
    apply IH.
Qed.

(** The rules for the elements put the blockquote text in the place of the
    fragment. *)
Lemma conversions_rewrite X post :
  Forall (fun d => d ≠ "<"%char) X →
  ∃ post',
    fold_left (fun acc c => Re.replace (c.1.1) (c.1.2) (c.2) acc) conversions
      (String.string_of_list_ascii (X ++ la warning_fragment ++ post))
    = String.string_of_list_ascii (X ++ la warning_quote ++ post').
Proof.
  intros HX. rewrite conversions_split, !conversions_cons.
  destruct (note_rule_passes X post [Re.Lit "> **Note:** "; Re.Grp_ 3] HX)
    as [post1 ->].
  destruct (warning_rule_rewrites X post1 HX) as [post2 ->].
  rewrite (app_assoc X).
  destruct (later_rules_pass (drop 2 conversions) (X ++ la warning_quote)
              later_conversions_begin) with (post := post2) as [post3 ->].
  { apply Forall_app. split; [done|]. by repeat constructor. }
  exists post3. by rewrite <- app_assoc.
Qed.

(** *** Passes that keep a piece of the text *)

(** A pass keeps the piece [Q] of the text when no match begins in [Q] and
    a match that begins before [Q] ends before [Q] or puts [Q] into the
    text that replaces it. *)
Lemma rep_keeps f r tpl c Q :
  Re.global f = true → first_char r = Some c → none_begins f c Q →
  (∀ b u v st', u ≠ [] →
     Re.match_here f r (Re.mkState b (u ++ Q ++ v) []) = Some st' →
     (∃ m u2, m ≠ [] ∧ u = m ++ u2 ∧ Re.rest st' = u2 ++ Q ++ v)
     ∨ (∃ x y, Re.expand tpl (Re.caps st') = x ++ Q ++ y
               ∧ (length (Re.rest st') < length (u ++ Q ++ v))%nat)) →
  ∀ u b v, ∃ u' v',
    rep f r tpl (Re.mkState b (u ++ Q ++ v) []) = u' ++ Q ++ v'
    ∧ (u = [] → u' = []).
Proof.
  intros Hg Hc HQ Hm u.
  remember (length u) as n eqn:Hn. revert u Hn.
  induction n as [n IH] using lt_wf_ind. intros u Hn b v.
  destruct u as [|d u1].
  - exists []. eexists. split; [|done]. simpl.
    by rewrite (rep_skip _ _ _ c Q).
  - destruct (Re.match_here f r (Re.mkState b ((d :: u1) ++ Q ++ v) []))
      as [st'|] eqn:E.
    + destruct (Hm b (d :: u1) v st') as [(m & u2 & Hne & Hu & Hr)|(x & y & Hx & Hl)];
        [done|done| |].
      * destruct st' as [bf rs cp]. cbn [Re.rest] in Hr. subst rs.
        assert (Hlen : (length u2 < n)%nat).
        { rewrite Hn, Hu, length_app. destruct m; [done|]. simpl. lia. }
        destruct (IH (length u2) Hlen u2 eq_refl bf v) as (u' & v' & Hrep & _).
        exists (Re.expand tpl cp ++ u'), v'. split; [|done].
        rewrite (rep_step_some f _ _ _ _ Hg E).
        -- cbn [Re.caps]. rewrite rep_caps, Hrep. by rewrite <- app_assoc.
        -- cbn [Re.rest]. rewrite Hu, !length_app.
           destruct m; [done|]. simpl. lia.
      * exists x. eexists. split; [|done].
        rewrite (rep_step_some f _ _ _ _ Hg E) by done.
        rewrite Hx, <- !app_assoc. reflexivity.
    + destruct (IH (length u1)) with (u := u1) (b := d :: b) (v := v)
        as (u' & v' & Hrep & _); [simpl in Hn; lia|done|].
      exists (d :: u'), v'. split; [|done].
      cbn [app]. rewrite rep_step_none by done. by rewrite Hrep.
Qed.

(** Where [Q] lies when it occurs in a text of three parts whose first and
    last part have no character in common with it. *)
Lemma prefix_cases (P : ascii → Prop) u q Q v m R :
  P q → Forall (fun a => ¬ P a) m →
  u ++ (q :: Q) ++ v = m ++ R →
  ∃ u2, u = m ++ u2 ∧ R = u2 ++ (q :: Q) ++ v.
Proof.
  intros Hq Hm Heq. apply app_eq_inv in Heq as [(k & -> & ->)|(k & -> & Hk)].
  - by exists k.
  - destruct k as [|a k].
    + exists []. rewrite !app_nil_r. split; [done|]. simpl in Hk.
      by rewrite <- Hk.
    + simpl in Hk. injection Hk as <- _.
      apply Forall_app in Hm as [_ Hm]. by inversion Hm.
Qed.

Lemma segment_cases (P : ascii → Prop) u q Q v A B c C R :
  Forall P (q :: Q) → Forall (fun a => ¬ P a) A →
  Forall (fun a => ¬ P a) (c :: C) →
  u ++ (q :: Q) ++ v = A ++ B ++ (c :: C) ++ R →
  (∃ u2, u = A ++ B ++ (c :: C) ++ u2 ∧ R = u2 ++ (q :: Q) ++ v)
  ∨ (∃ x y, B = x ++ (q :: Q) ++ y).
Proof.
  intros HQ HA HC Heq.
  assert (Hq : P q) by by inversion HQ.
  destruct (prefix_cases P u q Q v A (B ++ (c :: C) ++ R) Hq HA Heq)
    as (u1 & -> & Hrest).
  symmetry in Hrest.
  apply app_eq_inv in Hrest as [(k & -> & Hk)|(k & -> & Hk)].
  - (* the piece begins after [B] *)
    symmetry in Hk.
    destruct (prefix_cases P k q Q v (c :: C) R Hq HC Hk) as (u2 & -> & ->).
    left. exists u2. split; [|done]. by rewrite <- ?app_assoc.
  - (* the piece begins in [B] *)
    right. apply app_eq_inv in Hk as [(k' & Hk1 & Hk2)|(k' & -> & Hk)].
    + destruct k' as [|a k'].
      * rewrite app_nil_r in Hk1. subst k. exists u1, [].
        by rewrite app_nil_r.
      * simpl in Hk2. injection Hk2 as -> _.
        assert (Hc : P a).
        { rewrite Hk1 in HQ. apply Forall_app in HQ as [_ HQ].
          by inversion HQ. }
        by inversion HC.
    + by exists u1, k'.
Qed.

Lemma quote_inert : Forall inert (la warning_quote).
Proof. repeat constructor; done. Qed.

Lemma chr_eq_exact f c d :
  Re.ignoreCase f = false → Re.chr_eq f c d = true → d = c.
Proof.
  intros Hf. unfold Re.chr_eq. rewrite Hf. intros H.
  by apply Ascii.eqb_eq in H.
Qed.

Lemma take_consumed {A} (m r : list A) :
  take (length (m ++ r) - length r) (m ++ r) = m.
Proof.
  rewrite length_app.
  replace (length m + length r - length r)%nat with (length m) by lia.
  apply take_app_length.
Qed.

Lemma take_head {A} (q : A) (X : list A) :
  take (length (q :: X) - length X) (q :: X) = [q].
Proof. apply (take_consumed [q] X). Qed.

Lemma eat_one f q st st' :
  Re.ignoreCase f = false → Re.eat f [q] st = Some st' →
  ∃ tl, Re.rest st = q :: tl
        ∧ st' = Re.mkState (q :: Re.before st) tl (Re.caps st).
Proof.
  intros Hf. simpl. destruct (Re.rest st) as [|d tl]; [done|].
  destruct (Re.chr_eq f q d) eqn:E; [|done].
  apply chr_eq_exact in E as ->; [|done]. intros [= <-]. by exists tl.
Qed.

(** What a match of [{'...'}] consists of. *)
Lemma jsx_string_shape b l st' :
  Re.match_here g_ jsx_string_re (Re.mkState b l []) = Some st' →
  ∃ q body,
    ¬ inert q
    ∧ l = ["{"%char; q] ++ body ++ [q; "}"%char] ++ Re.rest st'
    ∧ Re.expand [Re.Grp_ 2] (Re.caps st') = body.
Proof.
  intros H. apply match_here_sound in H.
  unfold jsx_string_re, lazy in H. cbn [Re.seqs spans] in H.
  destruct H as (mid1 & H1 & mid2 & (st1 & H2 & ->) & mid3 & (st2 & H3 & ->)
                 & mid4 & H4 & H5).
  destruct H1 as (d & tl & Hr & Hd & ->).
  apply chr_eq_exact in Hd as ->; [|done].
  destruct H2 as (q & tl1 & Hr1 & Hq & ->).
  cbn [Re.rest Re.before Re.caps] in *. subst l tl.
  apply (iter_step_over (fun d => Re.is_newline d = false)) in H3
    as (body & _ & Hr2 & _ & Hc2).
  cbn [Re.rest Re.before Re.caps] in *.
  rewrite Hc2 in H4. rewrite Hr2 in H4.
  rewrite (take_consumed body (Re.rest st2)), take_head in H4.
  cbn [Re.lookup_cap Nat.eqb] in H4.
  apply eat_one in H4 as (tl4 & Hr4 & ->); [|done].
  destruct H5 as (d5 & tl5 & Hr5 & Hd5 & ->).
  apply chr_eq_exact in Hd5 as ->; [|done].
  cbn [Re.rest Re.before Re.caps] in *.
  exists q, body. split; [|split].
  - intros (_ & _ & H1 & H2 & H3).
    unfold Re.class_has in Hq. cbn in Hq.
    rewrite !orb_false_r in Hq.
    destruct (Ascii.eqb_spec q "'"%char); [done|].
    destruct (Ascii.eqb_spec q dquote); [done|].
    destruct (Ascii.eqb_spec q "`"%char); [done|]. done.
  - rewrite Hr2, Hr4, Hr5. simpl. by rewrite <- ?app_assoc.
  - simpl. by rewrite ?app_nil_r.
Qed.

(** What a match of [{...}] consists of. *)
Lemma jsx_expr_shape b l st' :
  Re.match_here g_ jsx_expr_re (Re.mkState b l []) = Some st' →
  ∃ body,
    l = ["{"%char] ++ body ++ ["}"%char] ++ Re.rest st'
    ∧ Re.expand [Re.Lit "`"; Re.Grp_ 1; Re.Lit "`"] (Re.caps st')
      = "`"%char :: body ++ ["`"%char].
Proof.
  intros H. apply match_here_sound in H.
  unfold jsx_expr_re, many1 in H. cbn [Re.seqs spans] in H.
  destruct H as (mid1 & H1 & mid2 & (st1 & (st0 & H2 & H3) & ->) & H5).
  destruct H1 as (d & tl & Hr & Hd & ->).
  apply chr_eq_exact in Hd as ->; [|done].
  destruct H2 as (c0 & tl1 & Hr1 & _ & ->).
  cbn [Re.rest Re.before Re.caps] in *. subst l tl.
  apply (iter_step_over
           (fun d => xorb true (Re.class_has g_ [Re.One "}"%char] d) = true))
    in H3 as (body & _ & Hr2 & _ & Hc2).
  cbn [Re.rest Re.before Re.caps] in *.
  destruct H5 as (d5 & tl5 & Hr5 & Hd5 & ->).
  apply chr_eq_exact in Hd5 as ->; [|done].
  cbn [Re.rest Re.before Re.caps] in *.
  exists (c0 :: body). split.
  - rewrite Hr2, Hr5. simpl. by rewrite <- ?app_assoc.
  - rewrite Hr2. change (c0 :: body ++ Re.rest st1)
      with ((c0 :: body) ++ Re.rest st1).
    rewrite take_consumed. simpl. by rewrite ?app_nil_r.
Qed.

(** What a match of three line breaks with white space between them
    consists of. *)
Lemma blank_lines_shape b l st' :
  Re.match_here g_ blank_lines_re (Re.mkState b l []) = Some st' →
  ∃ m, m ≠ [] ∧ Forall (fun d => Re.is_space d = true) m
       ∧ l = m ++ Re.rest st'.
Proof.
  intros H. apply match_here_sound in H.
  unfold blank_lines_re, many in H.
  change (Re.str nl) with (Re.Chr "010") in H. cbn [Re.seqs spans] in H.
  destruct H as (mid1 & H1 & mid2 & H2 & mid3 & H3 & mid4 & H4 & H5).
  assert (Hspace : ∀ d, xorb false (Re.class_has g_ [Re.SpaceItem] d) = true
                        → Re.is_space d = true).
  { intros d Hd. by rewrite xorb_false_l, class_space in Hd. }
  assert (Hnl : ∀ st1 st2,
            step_over (fun d => Re.chr_eq g_ "010" d = true) st1 st2 →
            Re.rest st1 = "010"%char :: Re.rest st2).
  { intros st1 st2 (d & tl & Hr & Hd & ->).
    apply chr_eq_exact in Hd as ->; done. }
  apply Hnl in H1, H3, H5.
  apply (iter_step_over
           (fun d => xorb false (Re.class_has g_ [Re.SpaceItem] d) = true))
    in H2 as (m2 & Hm2 & Hr2 & _).
  apply (iter_step_over
           (fun d => xorb false (Re.class_has g_ [Re.SpaceItem] d) = true))
    in H4 as (m4 & Hm4 & Hr4 & _).
  cbn [Re.rest] in *.
  exists ("010"%char :: m2 ++ "010"%char :: m4 ++ ["010"%char]).
  split; [done|]. split.
  - constructor; [done|]. apply Forall_app. split.
    { eapply Forall_impl; [exact Hm2|]. exact Hspace. }
    constructor; [done|]. apply Forall_app. split; [|by constructor].
    eapply Forall_impl; [exact Hm4|]. exact Hspace.
  - rewrite H1, Hr2, H3, Hr4, H5. simpl. rewrite <- ?app_assoc. simpl.
    by rewrite <- ?app_assoc.
Qed.

Lemma inert_none f c l :
  Re.ignoreCase f = false → ¬ inert c → Forall inert l → none_begins f c l.
Proof.
  intros Hf Hc Hl. eapply Forall_impl; [exact Hl|]. cbv beta.
  intros d Hd. unfold Re.chr_eq. rewrite Hf. apply Ascii.eqb_neq.
  by intros ->.
Qed.

Section Keeps.

Variables (q : ascii) (Q : list ascii).
Hypothesis inert_Q : Forall inert (q :: Q).
Hypothesis solid_Q : Re.is_space q = false.
Hypothesis line_Q : Forall (fun d => d ≠ "010"%char) (q :: Q).

Lemma jsx_string_keeps u b v :
  ∃ u' v',
    rep g_ jsx_string_re [Re.Grp_ 2] (Re.mkState b (u ++ (q :: Q) ++ v) [])
    = u' ++ (q :: Q) ++ v'
    ∧ (u = [] → u' = []).
Proof.
  apply (rep_keeps g_ jsx_string_re [Re.Grp_ 2] "{"%char (q :: Q));
    [done|done| |].
  { apply inert_none; [done| |done]. by intros (? & _). }
  clear u b v. intros b u v st' Hu Hm.
  apply jsx_string_shape in Hm as (q0 & body & Hq0 & Hl & Hexp).
  destruct (segment_cases inert u q Q v ["{"%char; q0] body q0 ["}"%char]
              (Re.rest st')) as [(u2 & -> & HR)|(x & y & ->)]; [done| | |done| |].
  - constructor; [by intros (? & _)|]. by constructor.
  - constructor; [done|]. constructor; [|constructor].
    by intros (_ & ? & _).
  - left. exists (["{"%char; q0] ++ body ++ [q0; "}"%char]), u2.
    split; [done|]. split; [|done]. by rewrite <- ?app_assoc.
  - right. exists x, y. split; [done|].
    rewrite Hl, !length_app. simpl. lia.
Qed.

Lemma jsx_expr_keeps u b v :
  ∃ u' v',
    rep g_ jsx_expr_re [Re.Lit "`"; Re.Grp_ 1; Re.Lit "`"]
      (Re.mkState b (u ++ (q :: Q) ++ v) [])
    = u' ++ (q :: Q) ++ v'
    ∧ (u = [] → u' = []).
Proof.
  apply (rep_keeps g_ jsx_expr_re [Re.Lit "`"; Re.Grp_ 1; Re.Lit "`"]
           "{"%char (q :: Q)); [done|done| |].
  { apply inert_none; [done| |done]. by intros (? & _). }
  clear u b v. intros b u v st' Hu Hm.
  apply jsx_expr_shape in Hm as (body & Hl & Hexp).
  destruct (segment_cases inert u q Q v ["{"%char] body "}"%char []
              (Re.rest st')) as [(u2 & -> & HR)|(x & y & ->)]; [done| | |done| |].
  - constructor; [by intros (? & _)|constructor].
  - constructor; [|constructor]. by intros (_ & ? & _).
  - left. exists (["{"%char] ++ body ++ ["}"%char]), u2.
    split; [done|]. split; [|done]. by rewrite <- ?app_assoc.
  - right. exists ("`"%char :: x), (y ++ ["`"%char]). split.
    + rewrite Hexp. repeat first [rewrite <- app_assoc|progress simpl]. done.
    + rewrite Hl, !length_app. simpl. lia.
Qed.

Lemma blank_lines_keeps u b v :
  ∃ u' v',
    rep g_ blank_lines_re [Re.Lit nl; Re.Lit nl]
      (Re.mkState b (u ++ (q :: Q) ++ v) [])
    = u' ++ (q :: Q) ++ v'
    ∧ (u = [] → u' = []).
Proof.
  apply (rep_keeps g_ blank_lines_re [Re.Lit nl; Re.Lit nl]
           "010"%char (q :: Q)); [done|done| |].
  { eapply Forall_impl; [exact line_Q|]. cbv beta. intros d Hd.
    unfold Re.chr_eq. cbn [Re.ignoreCase g_]. apply Ascii.eqb_neq.
    congruence. }
  clear u b v. intros b u v st' Hu Hm.
  apply blank_lines_shape in Hm as (m & Hne & Hm & Hl).
  destruct (prefix_cases (fun d => Re.is_space d = false) u q Q v m
              (Re.rest st')) as (u2 & -> & HR); [done| |done|].
  { eapply Forall_impl; [exact Hm|]. cbv beta. intros d Hd. congruence. }
  left. by exists m, u2.
Qed.

(** [trim] takes white space away before and after the piece only. *)
Lemma drop_spaces_keeps u T :
  match T with [] => False | d :: _ => Re.is_space d = false end →
  ∃ u', drop_spaces (u ++ T) = u' ++ T ∧ (u = [] → u' = []).
Proof.
  intros HT. induction u as [|d u (u' & IH & _)].
  - exists []. split; [|done]. simpl. apply drop_spaces_head.
    by destruct T.
  - simpl. destruct (Re.is_space d).
    + by exists u'.
    + by exists (d :: u).
Qed.

End Keeps.

Lemma trim_keeps q Q u v :
  Re.is_space q = false → good_end (q :: Q) →
  ∃ u' v',
    trim (String.string_of_list_ascii (u ++ (q :: Q) ++ v))
    = String.string_of_list_ascii (u' ++ (q :: Q) ++ v')
    ∧ (u = [] → u' = []).
Proof.
  intros Hq Hend. unfold trim.
  rewrite String.list_ascii_of_string_of_list_ascii.
  destruct (drop_spaces_keeps u ((q :: Q) ++ v)) as (u1 & -> & Hu1); [done|].
  rewrite !rev_app_distr, <- app_assoc.
  destruct (drop_spaces_keeps (rev v) (rev (q :: Q) ++ rev u1))
    as (v1 & -> & _).
  { unfold good_end in Hend. destruct (rev (q :: Q)) as [|z r] eqn:E; [|done].
    apply (f_equal (@rev ascii)) in E. by rewrite rev_involutive in E. }
  exists u1, (rev v1). split; [|done].
  by rewrite !rev_app_distr, !rev_involutive, <- app_assoc.
Qed.

Lemma replace_keeps f r tpl (Q : list ascii) :
  (∀ u b v, ∃ u' v',
     rep f r tpl (Re.mkState b (u ++ Q ++ v) []) = u' ++ Q ++ v'
     ∧ (u = [] → u' = [])) →
  ∀ u v, ∃ u' v',
    Re.replace f r tpl (String.string_of_list_ascii (u ++ Q ++ v))
    = String.string_of_list_ascii (u' ++ Q ++ v')
    ∧ (u = [] → u' = []).
Proof.
  intros H u v. destruct (H u [] v) as (u' & v' & Hrep & Hu).
  exists u', v'. split; [|done]. by rewrite replace_list, Hrep.
Qed.

(** The steps of [preprocessMdx] after the frontmatter, on a text in which
    the fragment is the first tag and every statement before it ends on
    its line. *)
Lemma steps_keep_warning ls last post :
  Forall (fun p => not_newline p.1 ∧ Re.is_newline p.2 = true
                   ∧ settled_line p.1 = true) ls →
  not_newline last → settled_last last = true →
  no_tag (unlines ls ++ last) →
  ∃ u' v',
    trim (Re.replace g_ blank_lines_re [Re.Lit nl; Re.Lit nl]
      (Re.replace g_ jsx_expr_re [Re.Lit "`"; Re.Grp_ 1; Re.Lit "`"]
        (Re.replace g_ jsx_string_re [Re.Grp_ 2]
          (fold_left (fun acc c => Re.replace (c.1.1) (c.1.2) (c.2) acc)
             conversions
             (Re.replace gm (statement_re "export") []
                (Re.replace gm (statement_re "import") []
                   (String.string_of_list_ascii
                      ((unlines ls ++ last) ++ la warning_fragment ++ post))))))))
    = String.string_of_list_ascii (u' ++ la warning_quote ++ v')
    ∧ (unlines ls ++ last = [] → u' = []).
Proof.
  intros Hls Hlast Hset Htag.
  assert (Hfrag : ∀ X t, (X ++ last) ++ la warning_fragment ++ t
            = X ++ last ++ "<"%char :: la "Warning>Data loss risk</Warning>"
                ++ t).
  { intros X t. by rewrite <- app_assoc. }
  assert (HF : not_newline (la "Warning>Data loss risk</Warning>"))
    by (repeat constructor).
  rewrite Hfrag.
  destruct (statement_pass "import" ls last
              (la "Warning>Data loss risk</Warning>") post)
    as (ls1 & post1 & Hrel1 & ->);
    [unfold statement_words; rewrite !elem_of_cons; tauto|done..|].
  pose proof (lines_kept _ _ Hrel1 Hls) as Hls1.
  destruct (statement_pass "export" ls1 last
              (la "Warning>Data loss risk</Warning>") post1)
    as (ls2 & post2 & Hrel2 & ->);
    [unfold statement_words; rewrite !elem_of_cons; tauto|done..|].
  rewrite <- Hfrag.
  assert (Htag2 : no_tag (unlines ls2 ++ last)).
  { unfold no_tag in *. apply Forall_app in Htag as [H1 H2].
    apply Forall_app. split; [|done].
    eapply unlines_kept; [exact Hrel2|]. by eapply unlines_kept. }
  assert (Hempty : unlines ls ++ last = [] → unlines ls2 ++ last = []).
  { intros [H1 ->]%app_eq_nil. rewrite app_nil_r.
    destruct ls as [|[l0 e] ls]; [|by destruct l0].
    apply Forall2_nil_inv_l in Hrel1 as ->.
    by apply Forall2_nil_inv_l in Hrel2 as ->. }
  destruct (conversions_rewrite (unlines ls2 ++ last) post2 Htag2)
    as [post3 ->].
  pose proof quote_inert as Hinert.
  assert (Hline : Forall (fun d => d ≠ "010"%char) (la warning_quote))
    by (repeat constructor; done).
  assert (Hend : good_end (la warning_quote)) by done.
  assert (Hsolid : match la warning_quote with
                   | [] => False
                   | d :: _ => Re.is_space d = false
                   end) by done.
  destruct (la warning_quote) as [|q Q]; [done|].
  destruct (replace_keeps g_ jsx_string_re [Re.Grp_ 2] (q :: Q)
              (jsx_string_keeps q Q Hinert) (unlines ls2 ++ last) post3)
    as (u1 & v1 & -> & Hu1).
  destruct (replace_keeps g_ jsx_expr_re [Re.Lit "`"; Re.Grp_ 1; Re.Lit "`"]
              (q :: Q) (jsx_expr_keeps q Q Hinert) u1 v1)
    as (u2 & v2 & -> & Hu2).
  destruct (replace_keeps g_ blank_lines_re [Re.Lit nl; Re.Lit nl] (q :: Q)
              (blank_lines_keeps q Q Hsolid Hline) u2 v2)
    as (u3 & v3 & -> & Hu3).
  destruct (trim_keeps q Q u3 v3 Hsolid Hend) as (u4 & v4 & -> & Hu4).
  exists u4, v4. split; [done|].
  intros H. apply Hu4, Hu3, Hu2, Hu1, Hempty, H.
Qed.

Lemma string_of_app (a b : list ascii) :
  String.string_of_list_ascii (a ++ b)
  = String.string_of_list_ascii a +:+ String.string_of_list_ascii b.
Proof. induction a as [|c a IH]; simpl; [done|by rewrite IH]. Qed.

Lemma append_assoc (a b c : string) : (a +:+ b) +:+ c = a +:+ b +:+ c.
Proof.
  induction a as [|x a IH]; [reflexivity|].
  change (String x ((a +:+ b) +:+ c) = String x (a +:+ b +:+ c)).
  by rewrite IH.
Qed.

Lemma statements_end_lines pre :
  statements_end pre →
  ∃ ls last,
    pre = unlines ls ++ last
    ∧ Forall (fun p => not_newline p.1 ∧ Re.is_newline p.2 = true
                       ∧ settled_line p.1 = true) ls
    ∧ not_newline last ∧ settled_last last = true.
Proof.
  unfold statements_end. intros [H1 H2]%andb_true_iff.
  destruct (split_lines_spec pre) as (Hpre & Hls & Hlast).
  exists (split_lines pre).1, (split_lines pre).2.
  split; [done|]. split; [|done].
  rewrite forallb_forall in H1. rewrite Forall_forall in Hls |- *.
  intros p Hp. destruct (Hls p Hp) as [Ha Hb]. split; [done|].
  split; [done|]. apply H1. by apply list_elem_of_In.
Qed.

Section WarningInPage.

Variable md_render : string → string.


End WarningInPage.


(** The page of the example, as it is handed to the renderer. *)
Lemma warning_in_guide :
  preprocessMdx
    (guide_frontmatter +:+ guide_intro +:+ warning_fragment +:+ guide_rest)
  = guide_frontmatter +:+ "# Upgrade" +:+ nl +:+ nl
      +:+ "Stop the `props.server` first." +:+ nl +:+ nl
      +:+ warning_quote +:+ nl +:+ nl +:+ "Then run the installer.".
Proof. vm_compute. reflexivity. Qed.
